(** * Query-safety and preview pipeline of the SQL assistant

    A shallow embedding of [src/app/api/chat/route.ts] and
    [src/app/api/execute-preview/route.ts]: the forbidden-statement guard,
    the heuristic table extractor, the role/table allowlist, the PII
    redactor, the pending-preview maps with their TTL sweep, and the two
    request handlers that execute SQL.

    JavaScript strings are sequences of UTF-16 code units; they are modelled
    as lists of code units ([N]).  The regular expressions of the program are
    kept as syntax trees and run by a backtracking matcher that follows the
    priority order of ECMAScript (greedy and lazy quantifiers, capture
    groups, back-references, word boundaries, the [i] and [g] flags). *)

From Stdlib Require Import NArith ZArith List Bool Lia String Ascii.
From stdpp Require Import gmap.
Import ListNotations.

Local Open Scope N_scope.

(** ** Strings as lists of UTF-16 code units *)

Abbreviation jsstring := (list N).

(** A string literal of the source (ASCII only) as a list of code units. *)
Definition js (s : string) : jsstring :=
  List.map N_of_ascii (list_ascii_of_string s).

Definition is_digit (c : N) : bool := (48 <=? c) && (c <=? 57).
Definition is_upper (c : N) : bool := (65 <=? c) && (c <=? 90).
Definition is_lower (c : N) : bool := (97 <=? c) && (c <=? 122).

(** [\w] without the [u] flag: [A-Za-z0-9_]. *)
Definition is_word (c : N) : bool :=
  is_upper c || is_lower c || is_digit c || (c =? 95).

(** [\s]: WhiteSpace and LineTerminator code points of ECMA-262. *)
Definition is_space (c : N) : bool :=
  ((9 <=? c) && (c <=? 13)) || (c =? 32) || (c =? 160) || (c =? 5760)
  || ((8192 <=? c) && (c <=? 8202)) || (c =? 8232) || (c =? 8233)
  || (c =? 8239) || (c =? 8287) || (c =? 12288) || (c =? 65279).

(** Case mapping on the ASCII letters.  Every pattern character and every
    class member of the program's regular expressions is ASCII, and
    ECMA-262's Canonicalize (no [u] flag) never maps a code unit above 127
    to one below 128, so on these patterns [/i] matching is decided by the
    ASCII case mapping alone. *)
Definition to_upper (c : N) : N := if is_lower c then c - 32 else c.
Definition to_lower (c : N) : N := if is_upper c then c + 32 else c.

(** [String.prototype.toLowerCase], exact on strings of ASCII code units
    (the only strings the program applies it to, see [names_charset]). *)
Definition toLowerCase (s : jsstring) : jsstring := List.map to_lower s.

(** ** Regular expressions *)

Module Regex.

Inductive catom : Type :=
| AChar (c : N)              (* a single character *)
| ARange (lo hi : N)         (* lo-hi *)
| ADigit                     (* \d *)
| ASpace.                    (* \s *)

Inductive regex : Type :=
| Eps
| Chr (c : N)                          (* literal character *)
| Cls (atoms : list catom)             (* [...] , \d , \s *)
| WordB                                (* \b *)
| Seq (r1 r2 : regex)
| Alt (r1 r2 : regex)
| Group (n : nat) (r : regex)          (* n-th capturing group *)
| Backref (n : nat)                    (* \n *)
| Rep (r : regex) (mn : nat) (mx : option nat) (greedy : bool).

(** The position of a match attempt: the code unit before the position
    (for [\b]), the text from the position on, and the captures so far. *)
Record mstate : Type := MState {
  prev : option N;
  rest : jsstring;
  caps : list (nat * jsstring)
}.

Definition atom_mem (a : catom) (c : N) : bool :=
  match a with
  | AChar x => c =? x
  | ARange lo hi => (lo <=? c) && (c <=? hi)
  | ADigit => is_digit c
  | ASpace => is_space c
  end.

Definition cls_mem (atoms : list catom) (c : N) : bool :=
  existsb (fun a => atom_mem a c) atoms.

(** Membership under the [i] flag: some member has the canonical form of
    [c], that is, the class holds [c] or its other ASCII case. *)
Definition cls_match (icase : bool) (atoms : list catom) (c : N) : bool :=
  if icase
  then cls_mem atoms c || cls_mem atoms (to_upper c) || cls_mem atoms (to_lower c)
  else cls_mem atoms c.

Definition chr_match (icase : bool) (x c : N) : bool :=
  if icase then to_upper c =? to_upper x else c =? x.

Definition last_of (p : option N) (t : jsstring) : option N :=
  match rev t with
  | [] => p
  | c :: _ => Some c
  end.

Definition is_word_opt (o : option N) : bool :=
  match o with Some c => is_word c | None => false end.

Fixpoint strip_prefix (icase : bool) (t s : jsstring) : option jsstring :=
  match t, s with
  | [], _ => Some s
  | x :: t', c :: s' => if chr_match icase x c then strip_prefix icase t' s' else None
  | _ :: _, [] => None
  end.

Fixpoint lookup_cap (n : nat) (cs : list (nat * jsstring)) : option jsstring :=
  match cs with
  | [] => None
  | (k, v) :: cs' => if Nat.eqb k n then Some v else lookup_cap n cs'
  end.

Fixpoint groups (r : regex) : list nat :=
  match r with
  | Seq a b | Alt a b => groups a ++ groups b
  | Group n a => n :: groups a
  | Rep a _ _ _ => groups a
  | _ => []
  end.

Definition clear_caps (gs : list nat) (st : mstate) : mstate :=
  MState (prev st) (rest st)
    (List.filter (fun kv => negb (existsb (Nat.eqb (fst kv)) gs)) (caps st)).

(** RepeatMatcher of ECMA-262, with the outcomes listed in priority order:
    an iteration that is not mandatory and consumes nothing is rejected;
    a greedy quantifier tries one more iteration before stopping, a lazy
    one stops first. *)
Fixpoint repeat_matcher (step : mstate -> list mstate) (gs : list nat)
    (fuel mn : nat) (mx : option nat) (greedy : bool) (st : mstate)
    : list mstate :=
  match fuel with
  | O => []
  | S fuel' =>
    match mx with
    | Some O => [st]
    | _ =>
      let more :=
        flat_map (fun st' =>
          if Nat.eqb mn 0 && Nat.eqb (length (rest st')) (length (rest st))
          then []
          else repeat_matcher step gs fuel' (Nat.pred mn) (option_map Nat.pred mx)
                 greedy st')
          (step (clear_caps gs st)) in
      if Nat.eqb mn 0
      then if greedy then more ++ [st] else st :: more
      else more
    end
  end.

(** All the ways [r] can match at [st], best first. *)
Fixpoint ms (icase : bool) (r : regex) (st : mstate) : list mstate :=
  match r with
  | Eps => [st]
  | Chr x =>
    match rest st with
    | c :: s' => if chr_match icase x c then [MState (Some c) s' (caps st)] else []
    | [] => []
    end
  | Cls atoms =>
    match rest st with
    | c :: s' => if cls_match icase atoms c then [MState (Some c) s' (caps st)] else []
    | [] => []
    end
  | WordB =>
    if xorb (is_word_opt (prev st)) (is_word_opt (head (rest st)))
    then [st] else []
  | Seq r1 r2 => flat_map (ms icase r2) (ms icase r1 st)
  | Alt r1 r2 => ms icase r1 st ++ ms icase r2 st
  | Group n r1 =>
    List.map (fun st' =>
      MState (prev st') (rest st')
        ((n, firstn (length (rest st) - length (rest st')) (rest st)) :: caps st'))
      (ms icase r1 st)
  | Backref n =>
    match lookup_cap n (caps st) with
    | None => [st]
    | Some t =>
      match strip_prefix icase t (rest st) with
      | Some s' =>
        [MState (last_of (prev st) (firstn (length t) (rest st))) s' (caps st)]
      | None => []
      end
    end
  | Rep r1 mn mx greedy =>
    repeat_matcher (ms icase r1) (groups r1)
      (mn + length (rest st) + 1) mn mx greedy st
  end.

(** A successful match: the matched text, what follows, the captures. *)
Record rmatch : Type := RMatch {
  matched : jsstring;
  after : jsstring;
  groups_of : list (nat * jsstring)
}.

Definition match_at (icase : bool) (r : regex) (p : option N) (s : jsstring)
    : option rmatch :=
  match ms icase r (MState p s []) with
  | st :: _ =>
    Some (RMatch (firstn (length s - length (rest st)) s) (rest st) (caps st))
  | [] => None
  end.

(** [RegExp.prototype.exec] from a position: the leftmost position at which
    the pattern matches. *)
Fixpoint search (icase : bool) (r : regex) (p : option N) (s : jsstring)
    : option rmatch :=
  match match_at icase r p s with
  | Some m => Some m
  | None =>
    match s with
    | [] => None
    | c :: s' => search icase r (Some c) s'
    end
  end.

(** [RegExp.prototype.test] of a pattern without the [g] flag. *)
Definition test (icase : bool) (r : regex) (s : jsstring) : bool :=
  match search icase r None s with Some _ => true | None => false end.

(** The pieces of a string under a [g] pattern: text copied as it is and
    successive matches, each search resuming where the last match ended
    (one position further after an empty match). *)
Inductive piece : Type :=
| Copy (c : N)
| Hit (m : rmatch).

Fixpoint pieces (icase : bool) (r : regex) (fuel : nat) (p : option N)
    (s : jsstring) : list piece :=
  match fuel with
  | O => []
  | S fuel' =>
    match match_at icase r p s with
    | Some m =>
      match matched m with
      | [] =>
        Hit m :: match s with
                 | [] => []
                 | c :: s' => Copy c :: pieces icase r fuel' (Some c) s'
                 end
      | _ :: _ => Hit m :: pieces icase r fuel' (last_of p (matched m)) (after m)
      end
    | None =>
      match s with
      | [] => []
      | c :: s' => Copy c :: pieces icase r fuel' (Some c) s'
      end
    end
  end.

(** [s.replace(r, f)] for a pattern with the [g] flag. *)
Definition replace_all (icase : bool) (r : regex) (f : rmatch -> jsstring)
    (s : jsstring) : jsstring :=
  flat_map (fun pc => match pc with Copy c => [c] | Hit m => f m end)
    (pieces icase r (S (length s)) None s).

(** [[...s.matchAll(r)]] for a pattern with the [g] flag. *)
Definition match_all (icase : bool) (r : regex) (s : jsstring) : list rmatch :=
  flat_map (fun pc => match pc with Copy _ => [] | Hit m => [m] end)
    (pieces icase r (S (length s)) None s).

(** Pattern syntax helpers. *)
Fixpoint lit (s : jsstring) : regex :=
  match s with
  | [] => Eps
  | [c] => Chr c
  | c :: s' => Seq (Chr c) (lit s')
  end.

Fixpoint alts (rs : list regex) : regex :=
  match rs with
  | [] => Eps
  | [r] => r
  | r :: rs' => Alt r (alts rs')
  end.

Definition plus (r : regex) : regex := Rep r 1 None true.
Definition opt (r : regex) : regex := Rep r 0 (Some 1%nat) true.

End Regex.

Import Regex.

Definition ch (a : ascii) : N := N_of_ascii a.
Arguments ch : simpl never.
Definition dquote : N := 34.
Definition backtick : N := 96.

Fixpoint seqs (rs : list regex) : regex :=
  match rs with
  | [] => Eps
  | [r] => r
  | r :: rs' => Seq r (seqs rs')
  end.

(** ** Guardrail pattern (identical in both route files)

    [/\b(INSERT|UPDATE|DELETE|DROP|TRUNCATE|ALTER|REPLACE|MERGE)\b/i] *)

Definition FORBIDDEN_KEYWORDS : list jsstring :=
  [js "INSERT"; js "UPDATE"; js "DELETE"; js "DROP"; js "TRUNCATE";
   js "ALTER"; js "REPLACE"; js "MERGE"].

Definition FORBIDDEN_RE : regex :=
  seqs [WordB; Group 1 (alts (List.map lit FORBIDDEN_KEYWORDS)); WordB].

(** [FORBIDDEN_RE.test(sql)] *)
Definition isForbidden (sql : jsstring) : bool := test true FORBIDDEN_RE sql.

(** ** PII masking (identical in both route files) *)

(** [/([a-zA-Z0-9._%+-]+)@([a-zA-Z0-9.-]+\.[a-zA-Z]{2,})/g] *)
Definition EMAIL_LOCAL : list catom :=
  [ARange (ch "a") (ch "z"); ARange (ch "A") (ch "Z"); ARange (ch "0") (ch "9");
   AChar (ch "."); AChar (ch "_"); AChar (ch "%"); AChar (ch "+"); AChar (ch "-")].
Definition EMAIL_DOMAIN : list catom :=
  [ARange (ch "a") (ch "z"); ARange (ch "A") (ch "Z"); ARange (ch "0") (ch "9");
   AChar (ch "."); AChar (ch "-")].
Definition LETTER : list catom :=
  [ARange (ch "a") (ch "z"); ARange (ch "A") (ch "Z")].

Definition EMAIL_RE : regex :=
  seqs [Group 1 (plus (Cls EMAIL_LOCAL));
        Chr (ch "@");
        Group 2 (seqs [plus (Cls EMAIL_DOMAIN); Chr (ch "."); Rep (Cls LETTER) 2 None true])].

(** [/(\+?\d{1,3}[-.\s]?(\d{2,4})[-.\s]?\d{3,4}[-.\s]?\d{3,4})/g] *)
Definition PHONE_SEP : list catom := [AChar (ch "-"); AChar (ch "."); ASpace].

Definition PHONE_RE : regex :=
  Group 1 (seqs [opt (Chr (ch "+"));
                 Rep (Cls [ADigit]) 1 (Some 3%nat) true;
                 opt (Cls PHONE_SEP);
                 Group 2 (Rep (Cls [ADigit]) 2 (Some 4%nat) true);
                 opt (Cls PHONE_SEP);
                 Rep (Cls [ADigit]) 3 (Some 4%nat) true;
                 opt (Cls PHONE_SEP);
                 Rep (Cls [ADigit]) 3 (Some 4%nat) true]).

(** [/\b(?:\d[ -]*?){13,16}\b/g] *)
Definition CARD_SEP : list catom := [AChar (ch " "); AChar (ch "-")].

Definition CREDIT_CARD_RE : regex :=
  seqs [WordB;
        Rep (Seq (Cls [ADigit]) (Rep (Cls CARD_SEP) 0 None false))
            13 (Some 16%nat) true;
        WordB].

(** The values a result row can hold: only strings are inspected. *)
Inductive jsvalue : Type :=
| VString (s : jsstring)
| VNumber (z : Z)
| VBool (b : bool)
| VNull
| VOther (tag : nat).        (* nested objects, arrays, blobs: opaque *)

(** [(m, a) => `${a[0]}***@***`]: the first code unit of the local part,
    then the fixed mask. *)
Definition email_mask (m : rmatch) : jsstring :=
  match lookup_cap 1 (groups_of m) with
  | Some (c :: _) => c :: js "***@***"
  | _ => js "undefined***@***"
  end.

Definition PHONE_MASK : jsstring := js "***-PHONE-***".
Definition CARD_MASK : jsstring := js "****-CARD-****".

Definition mask_email (s : jsstring) : jsstring := replace_all false EMAIL_RE email_mask s.
Definition mask_phone (s : jsstring) : jsstring := replace_all false PHONE_RE (fun _ => PHONE_MASK) s.
Definition mask_card (s : jsstring) : jsstring := replace_all false CREDIT_CARD_RE (fun _ => CARD_MASK) s.

Definition maskString (s : jsstring) : jsstring :=
  mask_card (mask_phone (mask_email s)).

Definition maskValue (v : jsvalue) : jsvalue :=
  match v with
  | VString s => VString (maskString s)
  | _ => v
  end.

(** [Object.entries(row)]: the own properties of a row in order. *)
Abbreviation jsrow := (list (jsstring * jsvalue)).

(** [out[k] = v] on an ordinary object: an existing own property keeps its
    place, a new one is appended; the key [__proto__] reaches the accessor
    of [Object.prototype] and creates no own property. *)
Fixpoint obj_update (k : jsstring) (v : jsvalue) (o : jsrow) : jsrow :=
  match o with
  | [] => [(k, v)]
  | (k', v') :: o' =>
    if decide (k' = k) then (k', v) :: o' else (k', v') :: obj_update k v o'
  end.

Definition obj_set (k : jsstring) (v : jsvalue) (o : jsrow) : jsrow :=
  if decide (k = js "__proto__") then o else obj_update k v o.

Definition maskRow (row : jsrow) : jsrow :=
  fold_left (fun out kv => obj_set (fst kv) (maskValue (snd kv)) out) row [].

(** ** Table extraction *)

Definition IDENT : list catom :=
  [ARange (ch "a") (ch "z"); ARange (ch "A") (ch "Z"); ARange (ch "0") (ch "9");
   AChar (ch "_"); AChar (ch "$"); AChar (ch ".")].
Definition QUOTE : list catom := [AChar backtick; AChar dquote].
Definition ALIAS : list catom :=
  [ARange (ch "a") (ch "z"); ARange (ch "A") (ch "Z"); ARange (ch "0") (ch "9");
   AChar (ch "_")].

(** [/\bfrom\s+(Q?)([a-zA-Z0-9_$.]+)\1/gi] and the same with [join], where
    [Q] is the class of the back-tick and the double quote. *)
Definition keyword_name_re (kw : jsstring) : regex :=
  seqs [WordB; lit kw; plus (Cls [ASpace]);
        Group 1 (opt (Cls QUOTE)); Group 2 (plus (Cls IDENT)); Backref 1].

Definition FROM_RE : regex := keyword_name_re (js "from").
Definition JOIN_RE : regex := keyword_name_re (js "join").

(** [/\b([a-zA-Z0-9_$.]+)\s+as\s+[a-zA-Z0-9_]+\b/gi] *)
Definition AS_RE : regex :=
  seqs [WordB; Group 1 (plus (Cls IDENT)); plus (Cls [ASpace]); lit (js "as");
        plus (Cls [ASpace]); plus (Cls ALIAS); WordB].

(** [sql.replace(/\n/g, ' ')] *)
Definition normalize (sql : jsstring) : jsstring :=
  replace_all false (Chr 10) (fun _ => js " ") sql.

(** [x.split('.').slice(-1)[0]]: the text after the last dot. *)
Fixpoint last_segment (acc s : jsstring) : jsstring :=
  match s with
  | [] => acc
  | c :: s' => if c =? ch "." then last_segment [] s' else last_segment (acc ++ [c]) s'
  end.

(** [x.replace(/Q/g, '')], [Q] the class of the two quote characters. *)
Definition strip_quotes (s : jsstring) : jsstring :=
  replace_all false (Cls QUOTE) (fun _ => []) s.

(** [m[k]] of a match array; an unset group reads as the empty text here
    (groups 1 and 2 of the patterns above always take part in a match). *)
Definition group (k : nat) (m : rmatch) : jsstring :=
  match lookup_cap k (groups_of m) with Some t => t | None => [] end.

Definition table_of (t : jsstring) : jsstring := strip_quotes (last_segment [] t).

(** [Set.prototype.add]: insertion order, no repeated element. *)
Definition set_add (x : jsstring) (names : list jsstring) : list jsstring :=
  if existsb (fun y => bool_decide (y = x)) names then names else names ++ [x].

Definition add_all (xs : list jsstring) (names : list jsstring) : list jsstring :=
  fold_left (fun acc x => set_add x acc) xs names.

Fixpoint startsWith (pre s : jsstring) : bool :=
  match pre, s with
  | [], _ => true
  | x :: pre', c :: s' => (c =? x) && startsWith pre' s'
  | _ :: _, [] => false
  end.

(** ** Role allowlist (identical in both route files) *)

Definition ROLE_TABLE_ALLOWLIST : list (jsstring * list jsstring) :=
  [(js "admin", [js "*"]);
   (js "finance", [js "sales"; js "products"]);
   (js "analyst", [js "sales"; js "products"]);
   (js "hr", []);
   (js "guest", [js "products"])].

(** The allowlist is an object literal, so [ROLE_TABLE_ALLOWLIST[role]]
    also finds what [Object.prototype] provides under these names. *)
Definition OBJECT_PROTOTYPE_KEYS : list jsstring :=
  [js "constructor"; js "hasOwnProperty"; js "isPrototypeOf";
   js "propertyIsEnumerable"; js "toLocaleString"; js "toString"; js "valueOf";
   js "__defineGetter__"; js "__defineSetter__"; js "__lookupGetter__";
   js "__lookupSetter__"; js "__proto__"].

Inductive property : Type :=
| Own (tables : list jsstring)   (* an entry of the literal *)
| Inherited                      (* a function or object of the prototype *)
| Undefined.

Fixpoint assoc (k : jsstring) (l : list (jsstring * list jsstring))
    : option (list jsstring) :=
  match l with
  | [] => None
  | (k', v) :: l' => if decide (k' = k) then Some v else assoc k l'
  end.

Definition includes (x : jsstring) (l : list jsstring) : bool :=
  existsb (fun y => bool_decide (y = x)) l.

Definition allowlist_get (role : jsstring) : property :=
  match assoc role ROLE_TABLE_ALLOWLIST with
  | Some tables => Own tables
  | None => if includes role OBJECT_PROTOTYPE_KEYS then Inherited else Undefined
  end.

(** [{ ok, reason }], or the TypeError of calling [includes] on a value
    that has none. *)
Inductive rbac : Type :=
| RbacOk
| RbacDenied (reason : jsstring)
| RbacTypeError.

Definition unknown_role_reason (role : jsstring) : jsstring :=
  js "Unknown role: " ++ role.

Definition table_denied_reason (role t : jsstring) : jsstring :=
  js "Role " ++ [dquote] ++ role ++ [dquote]
  ++ js " is not allowed to access table " ++ [dquote] ++ t ++ [dquote].

(** [checkRBACOnSql], over the extractor of the file it stands in. *)
Definition check_rbac (extract : jsstring -> list jsstring)
    (sql : jsstring) (userRole : option jsstring) : rbac :=
  match userRole with
  | None | Some [] => RbacOk                       (* !userRole *)
  | Some role =>
    match allowlist_get role with
    | Undefined => RbacDenied (unknown_role_reason role)
    | Inherited => RbacTypeError
    | Own allowed =>
      if includes (js "*") allowed then RbacOk
      else
        match List.find (fun t => negb (includes t allowed)) (extract sql) with
        | Some t => RbacDenied (table_denied_reason role t)
        | None => RbacOk
        end
    end
  end.

(** ** Pending previews *)

Record PreviewEntry : Type := mkPreviewEntry {
  query : jsstring;
  userId : option jsstring;
  userRole : option jsstring;
  createdAt : Z
}.

Definition PREVIEW_TTL_MS : Z := (1000 * 60 * 60)%Z.

(** [n.toString(36)] of an integer. *)
Fixpoint digits36 (fuel : nat) (n : N) (acc : jsstring) : jsstring :=
  match fuel with
  | O => acc
  | S fuel' =>
    let d := n mod 36 in
    let c := if d <? 10 then 48 + d else 87 + d in
    if n / 36 =? 0 then c :: acc else digits36 fuel' (n / 36) (c :: acc)
  end.

Definition toString36 (z : Z) : jsstring :=
  let n := Z.to_N (Z.abs z) in
  (if (z <? 0)%Z then js "-" else []) ++ digits36 (S (N.to_nat (N.log2 n))) n [].

(** [makePreviewId]: [time] is [Date.now()], [random] the text of
    [Math.random().toString(36).slice(2, 9)]. *)
Definition makePreviewId (time : Z) (random : jsstring) : jsstring :=
  toString36 time ++ js "-" ++ random.

(** The body of the cleanup timer of chat/route.ts on its map. *)
Definition sweep_step (now : Z) (m : gmap jsstring PreviewEntry)
    (kv : jsstring * PreviewEntry) : gmap jsstring PreviewEntry :=
  if (now - createdAt (snd kv) >? PREVIEW_TTL_MS)%Z then delete (fst kv) m else m.

Definition sweep_map (now : Z) (m : gmap jsstring PreviewEntry)
    : gmap jsstring PreviewEntry :=
  fold_left (sweep_step now) (map_to_list m) m.

(** ** The outside world

    The data store, the SQL formatter and the explanation service are
    collaborators of the pipeline; [db_run] and [sqlFormat] may throw.
    What a result of the data store holds besides strings is opaque, and
    so is what [JSON.stringify] makes of it: [stringify_error] is the
    message of the TypeError that [JSON.stringify] throws on an answer
    with this result (a BigInt or a cyclic value in it), [None] when it
    returns. *)

Inductive run_outcome : Type :=
| RunRows (rows : list jsrow)      (* an array of row objects *)
| RunOther (tag : nat)             (* any other result, passed through *)
| RunThrows (message : jsstring).

Record Collaborators (DB : Type) : Type := mkCollaborators {
  db_run : jsstring -> DB -> run_outcome * DB;
  sqlFormat : jsstring -> option jsstring;       (* [None]: it threw *)
  cohereExplainSQL : jsstring -> jsstring;
  stringify_error : run_outcome -> option jsstring
}.
Arguments db_run {DB}.
Arguments sqlFormat {DB}.
Arguments cohereExplainSQL {DB}.
Arguments stringify_error {DB}.

(** What a request does that the claims speak of, in order. *)
Inductive run_kind : Type := UserQuery | AuditInsert.

Inductive event : Type :=
| Classified (sql : jsstring) (forbidden : bool)          (* FORBIDDEN_RE.test *)
| AccessChecked (sql : jsstring) (role : option jsstring) (verdict : rbac)
| Ran (kind : run_kind) (sql : jsstring).                 (* db.run *)

(** The two preview maps are different objects: [pendingPreviews] of
    chat/route.ts is a map of that module, [pendingPreviews] of
    execute-preview/route.ts is [globalThis.__PENDING_PREVIEWS__]. *)
Record World (DB : Type) : Type := mkWorld {
  chatPreviews : gmap jsstring PreviewEntry;
  globalPreviews : gmap jsstring PreviewEntry;
  database : DB;
  trace : list event
}.
Arguments chatPreviews {DB}.
Arguments globalPreviews {DB}.
Arguments database {DB}.
Arguments trace {DB}.
Arguments mkWorld {DB}.

Definition initial_world {DB : Type} (d : DB) : World DB := mkWorld ∅ ∅ d [].

Definition log {DB : Type} (e : event) (w : World DB) : World DB :=
  mkWorld (chatPreviews w) (globalPreviews w) (database w) (trace w ++ [e]).

(** [await db.run(sql)] *)
Definition run {DB : Type} (X : Collaborators DB) (kind : run_kind)
    (sql : jsstring) (w : World DB) : run_outcome * World DB :=
  let (r, d) := db_run X sql (database w) in
  (r, mkWorld (chatPreviews w) (globalPreviews w) d (trace w ++ [Ran kind sql])).

(** [FORBIDDEN_RE.test(sql)] at a call site. *)
Definition classify {DB : Type} (sql : jsstring) (w : World DB) : bool * World DB :=
  (isForbidden sql, log (Classified sql (isForbidden sql)) w).

(** [x.replace(/'/g, "''")] *)
Definition escape_quotes (s : jsstring) : jsstring :=
  replace_all false (Chr (ch "'")) (fun _ => js "''") s.

(** The text of the audit INSERT; [!x] holds of a missing and of an empty
    string alike. *)
Definition sql_text_or_null (x : option jsstring) : jsstring :=
  match x with
  | None | Some [] => js "NULL"
  | Some t =>
    match escape_quotes t with
    | [] => js "NULL"
    | t' => js "'" ++ t' ++ js "'"
    end
  end.

Definition audit_sql (previewId userId : option jsstring) (sql : jsstring) : jsstring :=
  js "INSERT INTO query_logs (preview_id, executed_at, query, user_id) VALUES ("
  ++ sql_text_or_null previewId ++ js ", datetime('now'), '" ++ escape_quotes sql
  ++ js "', " ++ sql_text_or_null userId ++ js ")".

(** The best-effort audit log: an exception of the insert is swallowed. *)
Definition audit {DB : Type} (X : Collaborators DB)
    (previewId userId : option jsstring) (sql : jsstring) (w : World DB) : World DB :=
  snd (run X AuditInsert (audit_sql previewId userId sql) w).

(** [Array.isArray(rows) ? rows.map(maskRow) : rows] *)
Definition mask_outcome (r : run_outcome) : run_outcome :=
  match r with
  | RunRows rows => RunRows (List.map maskRow rows)
  | _ => r
  end.

(** [a ?? b] *)
Definition nullish (a b : option jsstring) : option jsstring :=
  match a with Some _ => a | None => b end.

(** ** src/app/api/execute-preview/route.ts *)

Module ExecutePreview.

(** [extractTableNames]: the names after [from] and after [join]. *)
Definition extractTableNames (sql : jsstring) : list jsstring :=
  let norm := normalize sql in
  let names := add_all (List.map (fun m => table_of (group 2 m)) (match_all true FROM_RE norm)) [] in
  let names := add_all (List.map (fun m => table_of (group 2 m)) (match_all true JOIN_RE norm)) names in
  List.map toLowerCase names.

Definition checkRBACOnSql : jsstring -> option jsstring -> rbac :=
  check_rbac extractTableNames.

(** The JSON body [{ previewId, userId, userRole }]. *)
Record Body : Type := mkBody {
  previewId : option jsstring;
  requesterId : option jsstring;
  requesterRole : option jsstring
}.

Inductive payload : Type :=
| ErrorBody (error : jsstring)
| OkBody (rows : run_outcome) (executedQuery : jsstring).

Record Response : Type := mkResponse { status : nat; body : payload }.

(** [(err as Error).message || 'unknown error'] *)
Definition error_text (message : jsstring) : jsstring :=
  match message with [] => js "unknown error" | _ => message end.

(** Where a call of [POST] stands while it waits: for the result of the
    user's query, or for the audit insert. *)
Inductive Waiting : Type :=
| AtRun (b : Body) (pid sql : jsstring) (r : run_outcome)
| AtAudit (pid sql : jsstring) (r : run_outcome).

Section Handler.
Context {DB : Type} (X : Collaborators DB).

Definition POST (b : Body) (w : World DB) : Response * World DB :=
  match previewId b with
  | None | Some [] => (mkResponse 400 (ErrorBody (js "previewId required")), w)
  | Some pid =>
    match globalPreviews w !! pid with
    | None => (mkResponse 404 (ErrorBody (js "Preview not found or expired")), w)
    | Some entry =>
      let sql := query entry in
      let (forbidden, w1) := classify sql w in
      if forbidden
      then (mkResponse 400 (ErrorBody (js "Preview contains forbidden statements")), w1)
      else
        let role := nullish (requesterRole b) (userRole entry) in
        let verdict := checkRBACOnSql sql role in
        let w2 := log (AccessChecked sql role verdict) w1 in
        match verdict with
        | RbacTypeError =>
          (mkResponse 500 (ErrorBody (js "allowed.includes is not a function")), w2)
        | RbacDenied reason =>
          (mkResponse 403 (ErrorBody (js "RBAC blocked execution: " ++ reason)), w2)
        | RbacOk =>
          let (r, w3) := run X UserQuery sql w2 in
          match r with
          | RunThrows message => (mkResponse 500 (ErrorBody (error_text message)), w3)
          | _ =>
            let w4 := audit X (Some pid) (requesterId b) sql w3 in
            let w5 := mkWorld (chatPreviews w4) (delete pid (globalPreviews w4))
                        (database w4) (trace w4) in
            match stringify_error X (mask_outcome r) with
            | Some message => (mkResponse 500 (ErrorBody (error_text message)), w5)
            | None => (mkResponse 200 (OkBody (mask_outcome r) sql), w5)
            end
          end
        end
    end
  end.

(** The same handler turn by turn: it runs from one [await] to the next
    without interruption, and other calls run while it waits.  [db.run]
    acts on the data store when it is called; the handler goes on with
    the outcome in a later turn. *)
Definition POST_begin (b : Body) (w : World DB) : (Response + Waiting) * World DB :=
  match previewId b with
  | None | Some [] => (inl (mkResponse 400 (ErrorBody (js "previewId required"))), w)
  | Some pid =>
    match globalPreviews w !! pid with
    | None => (inl (mkResponse 404 (ErrorBody (js "Preview not found or expired"))), w)
    | Some entry =>
      let sql := query entry in
      let (forbidden, w1) := classify sql w in
      if forbidden
      then (inl (mkResponse 400 (ErrorBody (js "Preview contains forbidden statements"))),
            w1)
      else
        let role := nullish (requesterRole b) (userRole entry) in
        let verdict := checkRBACOnSql sql role in
        let w2 := log (AccessChecked sql role verdict) w1 in
        match verdict with
        | RbacTypeError =>
          (inl (mkResponse 500 (ErrorBody (js "allowed.includes is not a function"))), w2)
        | RbacDenied reason =>
          (inl (mkResponse 403 (ErrorBody (js "RBAC blocked execution: " ++ reason))), w2)
        | RbacOk =>
          let (r, w3) := run X UserQuery sql w2 in
          (inr (AtRun b pid sql r), w3)               (* [await db.run(sql)] *)
        end
    end
  end.

Definition POST_resume (s : Waiting) (w : World DB) : (Response + Waiting) * World DB :=
  match s with
  | AtRun b pid sql r =>
    match r with
    | RunThrows message => (inl (mkResponse 500 (ErrorBody (error_text message))), w)
    | _ =>                                            (* [await db.run(insertSql)] *)
      (inr (AtAudit pid sql r), audit X (Some pid) (requesterId b) sql w)
    end
  | AtAudit pid sql r =>
    let w5 := mkWorld (chatPreviews w) (delete pid (globalPreviews w))
                (database w) (trace w) in
    match stringify_error X (mask_outcome r) with
    | Some message => (inl (mkResponse 500 (ErrorBody (error_text message))), w5)
    | None => (inl (mkResponse 200 (OkBody (mask_outcome r) sql)), w5)
    end
  end.

End Handler.

End ExecutePreview.

(** ** src/app/api/chat/route.ts *)

Module Chat.

(** [extractTableNames]: as in the other file, and the word before each
    [AS alias] unless it starts with [select]. *)
Definition extractTableNames (sql : jsstring) : list jsstring :=
  let norm := normalize sql in
  let names := add_all (List.map (fun m => table_of (group 2 m)) (match_all true FROM_RE norm)) [] in
  let names := add_all (List.map (fun m => table_of (group 2 m)) (match_all true JOIN_RE norm)) names in
  let names :=
    add_all
      (List.map (fun m => table_of (group 1 m))
         (List.filter (fun m => negb (startsWith (js "select") (toLowerCase (group 1 m))))
            (match_all true AS_RE norm)))
      names in
  List.map toLowerCase names.

Definition checkRBACOnSql : jsstring -> option jsstring -> rbac :=
  check_rbac extractTableNames.

(** Arguments of the [db] tool (the [preview] tool has no [dryRun] and
    no [previewId]). *)
Record Args : Type := mkArgs {
  arg_query : jsstring;
  dryRun : bool;
  arg_userId : option jsstring;
  arg_userRole : option jsstring;
  previewId : option jsstring
}.

(** What the clock and the random generator give to one call. *)
Record Env : Type := mkEnv {
  clock_id : Z;            (* Date.now() in makePreviewId *)
  random36 : jsstring;     (* Math.random().toString(36).slice(2, 9) *)
  clock_created : Z        (* Date.now() for createdAt *)
}.

Inductive ToolResult : Type :=
| ToolError (error : jsstring)
| ToolPreview (id formattedQuery explanation instruction : jsstring)
| ToolRows (rows : run_outcome) (executedQuery : jsstring)
| ToolThrows.                    (* an exception leaves [execute] *)

Definition DRY_RUN_NOTE : jsstring :=
  js "This is a preview. To execute use the /api/execute-preview REST endpoint (POST { previewId, userId, userRole }).".

Definition text_or_empty (x : option jsstring) : jsstring :=
  match x with Some t => t | None => [] end.

Definition run_instruction (id : jsstring) (uid role : option jsstring) : jsstring :=
  js "To execute this preview, POST to /api/execute-preview with JSON { "
  ++ [dquote] ++ js "previewId" ++ [dquote] ++ js ": " ++ [dquote] ++ id ++ [dquote]
  ++ js ", " ++ [dquote] ++ js "userId" ++ [dquote] ++ js ": "
  ++ [dquote] ++ text_or_empty uid ++ [dquote]
  ++ js ", " ++ [dquote] ++ js "userRole" ++ [dquote] ++ js ": "
  ++ [dquote] ++ text_or_empty role ++ [dquote] ++ js " }".

(** Where a call of a tool stands while it waits: for the explanation
    of a preview, for the result of the query, or for the audit insert. *)
Inductive Waiting : Type :=
| AtExplanation (result : ToolResult)
| AtRun (a : Args) (toRun : jsstring) (r : run_outcome)
| AtAudit (a : Args) (toRun : jsstring) (r : run_outcome).

Section Tools.
Context {DB : Type} (X : Collaborators DB).

(** The cleanup timer: it runs over the map of this module only. *)
Definition sweep (now : Z) (w : World DB) : World DB :=
  mkWorld (sweep_map now (chatPreviews w)) (globalPreviews w) (database w) (trace w).

(** [pendingPreviews.set(id, { query, userId, userRole, createdAt })] *)
Definition put (id : jsstring) (e : PreviewEntry) (w : World DB) : World DB :=
  mkWorld (<[id := e]> (chatPreviews w)) (globalPreviews w) (database w) (trace w).

(** The tail of the [db] tool from the final guard on. *)
Definition execute_resolved (a : Args) (toRun : jsstring) (w : World DB)
    : ToolResult * World DB :=
  let (forbidden, w1) := classify toRun w in
  if forbidden
  then (ToolError (js "Query contains forbidden statements and will not be executed."), w1)
  else
    let (r, w2) := run X UserQuery toRun w1 in
    match r with
    | RunThrows _ => (ToolThrows, w2)
    | _ =>
      let w3 := audit X (previewId a) (arg_userId a) toRun w2 in
      let w4 :=
        match previewId a with
        | None | Some [] => w3                 (* if (previewId) ... *)
        | Some pid =>
          mkWorld (delete pid (chatPreviews w3)) (globalPreviews w3)
            (database w3) (trace w3)
        end in
      (ToolRows (mask_outcome r) toRun, w4)
    end.

(** The [db] tool once the literal query has passed the first guards
    and the call is not a dry run: resolve the preview, if one is
    named, and execute. *)
Definition db_commit (a : Args) (formatted : jsstring) (w : World DB)
    : ToolResult * World DB :=
  match previewId a with
  | None | Some [] => execute_resolved a formatted w
  | Some pid =>
    match chatPreviews w !! pid with
    | None => (ToolError (js "Preview id not found or expired."), w)
    | Some entry =>
      let toRun := query entry in
      let role := nullish (arg_userRole a) (userRole entry) in
      let recheck := checkRBACOnSql toRun role in
      let w1 := log (AccessChecked toRun role recheck) w in
      match recheck with
      | RbacTypeError => (ToolThrows, w1)
      | RbacDenied reason =>
        (ToolError (js "RBAC blocked query execution: " ++ reason), w1)
      | RbacOk => execute_resolved a toRun w1
      end
    end
  end.

(** [execute] of the [db] tool. *)
Definition db_execute (a : Args) (env : Env) (w : World DB)
    : ToolResult * World DB :=
  let (forbidden, w1) := classify (arg_query a) w in
  if forbidden
  then (ToolError (js "Query contains forbidden statements (INSERT/UPDATE/DELETE/DROP/ALTER/TRUNCATE). Execution aborted."), w1)
  else
    match sqlFormat X (arg_query a) with
    | None => (ToolThrows, w1)
    | Some formatted =>
      let verdict := checkRBACOnSql formatted (arg_userRole a) in
      let w2 := log (AccessChecked formatted (arg_userRole a) verdict) w1 in
      match verdict with
      | RbacTypeError => (ToolThrows, w2)
      | RbacDenied reason =>
        (ToolError (js "RBAC blocked query execution: " ++ reason), w2)
      | RbacOk =>
        if dryRun a then
          let id := makePreviewId (clock_id env) (random36 env) in
          let w3 := put id (mkPreviewEntry formatted (arg_userId a) (arg_userRole a)
                              (clock_created env)) w2 in
          (ToolPreview id formatted (cohereExplainSQL X formatted) DRY_RUN_NOTE, w3)
        else db_commit a formatted w2
      end
    end.

(** [execute] of the [preview] tool. *)
Definition preview_execute (q : jsstring) (uid role : option jsstring)
    (env : Env) (w : World DB) : ToolResult * World DB :=
  let (forbidden, w1) := classify q w in
  if forbidden
  then (ToolError (js "Query contains forbidden statements (INSERT/UPDATE/DELETE/DROP/ALTER/TRUNCATE)."), w1)
  else
    match sqlFormat X q with
    | None => (ToolThrows, w1)
    | Some formatted =>
      let verdict := checkRBACOnSql formatted role in
      let w2 := log (AccessChecked formatted role verdict) w1 in
      match verdict with
      | RbacTypeError => (ToolThrows, w2)
      | RbacDenied reason =>
        (ToolError (js "RBAC blocked preview creation: " ++ reason), w2)
      | RbacOk =>
        let id := makePreviewId (clock_id env) (random36 env) in
        let w3 := put id (mkPreviewEntry formatted uid role (clock_created env)) w2 in
        (ToolPreview id formatted (cohereExplainSQL X formatted)
           (run_instruction id uid role), w3)
      end
    end.

(** The same tools turn by turn: [execute] runs from one [await] to the
    next without interruption, and other calls run while it waits.
    [db.run] acts on the data store when it is called; the tool goes on
    with the outcome in a later turn. *)
Definition execute_resolved_begin (a : Args) (toRun : jsstring) (w : World DB)
    : (ToolResult + Waiting) * World DB :=
  let (forbidden, w1) := classify toRun w in
  if forbidden
  then (inl (ToolError (js "Query contains forbidden statements and will not be executed.")),
        w1)
  else
    let (r, w2) := run X UserQuery toRun w1 in
    (inr (AtRun a toRun r), w2).                      (* [await db.run(toRun)] *)

Definition db_commit_begin (a : Args) (formatted : jsstring) (w : World DB)
    : (ToolResult + Waiting) * World DB :=
  match previewId a with
  | None | Some [] => execute_resolved_begin a formatted w
  | Some pid =>
    match chatPreviews w !! pid with
    | None => (inl (ToolError (js "Preview id not found or expired.")), w)
    | Some entry =>
      let toRun := query entry in
      let role := nullish (arg_userRole a) (userRole entry) in
      let recheck := checkRBACOnSql toRun role in
      let w1 := log (AccessChecked toRun role recheck) w in
      match recheck with
      | RbacTypeError => (inl ToolThrows, w1)
      | RbacDenied reason =>
        (inl (ToolError (js "RBAC blocked query execution: " ++ reason)), w1)
      | RbacOk => execute_resolved_begin a toRun w1
      end
    end
  end.

Definition db_begin (a : Args) (env : Env) (w : World DB)
    : (ToolResult + Waiting) * World DB :=
  let (forbidden, w1) := classify (arg_query a) w in
  if forbidden
  then (inl (ToolError (js "Query contains forbidden statements (INSERT/UPDATE/DELETE/DROP/ALTER/TRUNCATE). Execution aborted.")), w1)
  else
    match sqlFormat X (arg_query a) with
    | None => (inl ToolThrows, w1)
    | Some formatted =>
      let verdict := checkRBACOnSql formatted (arg_userRole a) in
      let w2 := log (AccessChecked formatted (arg_userRole a) verdict) w1 in
      match verdict with
      | RbacTypeError => (inl ToolThrows, w2)
      | RbacDenied reason =>
        (inl (ToolError (js "RBAC blocked query execution: " ++ reason)), w2)
      | RbacOk =>
        if dryRun a then
          let id := makePreviewId (clock_id env) (random36 env) in
          let w3 := put id (mkPreviewEntry formatted (arg_userId a) (arg_userRole a)
                              (clock_created env)) w2 in
          (inr (AtExplanation                         (* [await cohereExplainSQL(..)] *)
                  (ToolPreview id formatted (cohereExplainSQL X formatted) DRY_RUN_NOTE)),
           w3)
        else db_commit_begin a formatted w2
      end
    end.

Definition preview_begin (q : jsstring) (uid role : option jsstring)
    (env : Env) (w : World DB) : (ToolResult + Waiting) * World DB :=
  let (forbidden, w1) := classify q w in
  if forbidden
  then (inl (ToolError (js "Query contains forbidden statements (INSERT/UPDATE/DELETE/DROP/ALTER/TRUNCATE).")), w1)
  else
    match sqlFormat X q with
    | None => (inl ToolThrows, w1)
    | Some formatted =>
      let verdict := checkRBACOnSql formatted role in
      let w2 := log (AccessChecked formatted role verdict) w1 in
      match verdict with
      | RbacTypeError => (inl ToolThrows, w2)
      | RbacDenied reason =>
        (inl (ToolError (js "RBAC blocked preview creation: " ++ reason)), w2)
      | RbacOk =>
        let id := makePreviewId (clock_id env) (random36 env) in
        let w3 := put id (mkPreviewEntry formatted uid role (clock_created env)) w2 in
        (inr (AtExplanation                           (* [await cohereExplainSQL(..)] *)
                (ToolPreview id formatted (cohereExplainSQL X formatted)
                   (run_instruction id uid role))),
         w3)
      end
    end.

Definition resume (s : Waiting) (w : World DB) : (ToolResult + Waiting) * World DB :=
  match s with
  | AtExplanation result => (inl result, w)
  | AtRun a toRun r =>
    match r with
    | RunThrows _ => (inl ToolThrows, w)
    | _ =>                                            (* [await db.run(insertSql)] *)
      (inr (AtAudit a toRun r), audit X (previewId a) (arg_userId a) toRun w)
    end
  | AtAudit a toRun r =>
    let w4 :=
      match previewId a with
      | None | Some [] => w                           (* if (previewId) ... *)
      | Some pid =>
        mkWorld (delete pid (chatPreviews w)) (globalPreviews w) (database w) (trace w)
      end in
    (inl (ToolRows (mask_outcome r) toRun), w4)
  end.

End Tools.

End Chat.

(** ** Runs of the server *)

(** One request or timer tick; [serve] handles each to its end before the
    next. *)
Inductive request : Type :=
| CallDb (a : Chat.Args) (env : Chat.Env)
| CallPreview (q : jsstring) (uid role : option jsstring) (env : Chat.Env)
| Tick (now : Z)
| PostExecutePreview (b : ExecutePreview.Body).

Definition handle {DB : Type} (X : Collaborators DB) (w : World DB) (r : request)
    : World DB :=
  match r with
  | CallDb a env => snd (Chat.db_execute X a env w)
  | CallPreview q uid role env => snd (Chat.preview_execute X q uid role env w)
  | Tick now => Chat.sweep now w
  | PostExecutePreview b => snd (ExecutePreview.POST X b w)
  end.

Definition serve {DB : Type} (X : Collaborators DB) (rs : list request)
    (w : World DB) : World DB :=
  fold_left (handle X) rs w.

(** ** Calls that overlap

    The server holds the calls that have arrived, in the order of their
    arrival, each waiting at an [await] or answered.  In one move a new
    call arrives and runs to its first [await], or a waiting call goes on
    to its next one; the timer callback has no [await]. *)
Inductive waiting : Type :=
| PostWaits (s : ExecutePreview.Waiting)
| ToolWaits (s : Chat.Waiting).

Inductive answer : Type :=
| PostAnswer (resp : ExecutePreview.Response)
| ToolAnswer (res : Chat.ToolResult)
| TimerRan.

Inductive progress : Type :=
| Waits (s : waiting)
| Answered (a : answer).

Record Server (DB : Type) : Type := mkServer {
  world : World DB;
  calls : list (request * progress)
}.
Arguments world {DB}.
Arguments calls {DB}.
Arguments mkServer {DB}.

Inductive move : Type :=
| Arrive (r : request)
| Proceed (k : nat).            (* the call that arrived as number [k] *)

Definition post_progress (x : ExecutePreview.Response + ExecutePreview.Waiting)
    : progress :=
  match x with
  | inl resp => Answered (PostAnswer resp)
  | inr s => Waits (PostWaits s)
  end.

Definition tool_progress (x : Chat.ToolResult + Chat.Waiting) : progress :=
  match x with
  | inl res => Answered (ToolAnswer res)
  | inr s => Waits (ToolWaits s)
  end.

Definition begin {DB : Type} (X : Collaborators DB) (r : request) (w : World DB)
    : progress * World DB :=
  match r with
  | CallDb a env =>
    let (x, w') := Chat.db_begin X a env w in (tool_progress x, w')
  | CallPreview q uid role env =>
    let (x, w') := Chat.preview_begin X q uid role env w in (tool_progress x, w')
  | Tick now => (Answered TimerRan, Chat.sweep now w)
  | PostExecutePreview b =>
    let (x, w') := ExecutePreview.POST_begin X b w in (post_progress x, w')
  end.

Definition proceed {DB : Type} (X : Collaborators DB) (s : waiting) (w : World DB)
    : progress * World DB :=
  match s with
  | PostWaits s' =>
    let (x, w') := ExecutePreview.POST_resume X s' w in (post_progress x, w')
  | ToolWaits s' =>
    let (x, w') := Chat.resume X s' w in (tool_progress x, w')
  end.

Definition step {DB : Type} (X : Collaborators DB) (sv : Server DB) (m : move)
    : Server DB :=
  match m with
  | Arrive r =>
    let (st, w') := begin X r (world sv) in
    mkServer w' (calls sv ++ [(r, st)])
  | Proceed k =>
    match calls sv !! k with
    | Some (r, Waits s) =>
      let (st, w') := proceed X s (world sv) in
      mkServer w' (<[k := (r, st)]> (calls sv))
    | _ => sv
    end
  end.




(** ** Notions used to state the properties *)

(** In a trace, every run of a user's query comes directly after the
    forbidden-statement test and the access check of that very text,
    the test negative and the check passed. *)
Definition guarded (check : jsstring -> option jsstring -> rbac)
    (t : list event) : Prop :=
  ∀ pre q post, t = pre ++ Ran UserQuery q :: post →
    isForbidden q = false
    ∧ ∃ pre' role,
        check q role = RbacOk
        ∧ (pre = pre' ++ [Classified q false; AccessChecked q role RbacOk]
           ∨ pre = pre' ++ [AccessChecked q role RbacOk; Classified q false]).

Definition runs_nothing (t : list event) : Prop :=
  ∀ k q, ¬ In (Ran k q) t.




(** [st'] is [st] moved over the text [t]. *)
Definition advances (st st' : mstate) (t : jsstring) : Prop :=
  rest st = t ++ rest st' ∧ prev st' = last_of (prev st) t.

(** Every piece of text that a character leaf of [r] accepts has [Q]
    (a back-reference can stand for any text). *)
Fixpoint leaves (icase : bool) (Q : jsstring → Prop) (r : regex) : Prop :=
  match r with
  | Eps | WordB => True
  | Chr x => ∀ c, chr_match icase x c = true → Q [c]
  | Cls atoms => ∀ c, cls_match icase atoms c = true → Q [c]
  | Seq a b | Alt a b => leaves icase Q a ∧ leaves icase Q b
  | Group _ a => leaves icase Q a
  | Rep a _ _ _ => leaves icase Q a
  | Backref _ => ∀ t, Q t
  end.

(** The statement keywords occur in [s] as a whole word in some letter
    case: a stretch [w] of [s] spells a keyword up to the case of its
    letters, and neither the character before nor the one after it is a
    word character (a letter, a digit or the underscore). *)
Definition word_char_opt (o : option N) : bool :=
  match o with Some c => is_word c | None => false end.

Definition contains_keyword (s : jsstring) : Prop :=
  ∃ a w b kw,
    s = a ++ w ++ b
    ∧ In kw FORBIDDEN_KEYWORDS
    ∧ List.map to_upper w = kw
    ∧ word_char_opt (last a) = false
    ∧ word_char_opt (head b) = false.

(** A lower bound on the length of the text a pattern matches. *)
Fixpoint min_len (r : regex) : nat :=
  match r with
  | Chr _ | Cls _ => 1
  | Seq a b => min_len a + min_len b
  | Alt a b => Nat.min (min_len a) (min_len b)
  | Group _ a => min_len a
  | Rep a mn mx _ =>
    (match mx with Some k => Nat.min mn k | None => mn end) * min_len a
  | Eps | WordB | Backref _ => 0
  end.

(** The table names that the matches of a keyword pattern give: group [k]
    of a match found in the normalized text, reduced to its last
    dot-separated segment, without quote characters, in lower case. *)
Definition introduced_by (re : regex) (k : nat) (sql n : jsstring) : Prop :=
  ∃ m, In m (match_all true re (normalize sql))
       ∧ n = toLowerCase (table_of (group k m)).

(** The same for the words before [AS alias], those starting with
    [select] left out. *)
Definition introduced_by_alias (sql n : jsstring) : Prop :=
  ∃ m, In m (match_all true AS_RE (normalize sql))
       ∧ startsWith (js "select") (toLowerCase (group 1 m)) = false
       ∧ n = toLowerCase (table_of (group 1 m)).

(** The characters of an identifier in the patterns: [a-zA-Z0-9_$.]. *)
Definition ident_char (c : N) : bool :=
  is_lower c || is_upper c || is_digit c || (c =? ch "_") || (c =? ch "$")
  || (c =? ch ".").

(** The characters a returned name can hold: [a-z0-9_$]. *)
Definition name_char (c : N) : bool :=
  is_lower c || is_digit c || (c =? ch "_") || (c =? ch "$").

(** The example of the specification. *)
Definition example_query : jsstring :=
  js "SELECT * FROM Sales s JOIN Products p ON s.product_id = p.id".

(** A query with a column alias. *)
Definition alias_query : jsstring :=
  js "SELECT price AS p FROM products".

(** One table spelled in two letter cases. *)
Definition case_query : jsstring :=
  js "SELECT * FROM Sales JOIN sales ON Sales.id = sales.id".

(** Patterns without [\b], and without back-references. *)
Fixpoint wordb_free (r : regex) : bool :=
  match r with
  | WordB => false
  | Seq a b | Alt a b => wordb_free a && wordb_free b
  | Group _ a | Rep a _ _ _ => wordb_free a
  | _ => true
  end.

Fixpoint backref_free (r : regex) : bool :=
  match r with
  | Backref _ => false
  | Seq a b | Alt a b => backref_free a && backref_free b
  | Group _ a | Rep a _ _ _ => backref_free a
  | _ => true
  end.

(** No character leaf of [r] accepts [c0] (case-sensitive patterns). *)
Fixpoint rejects (c0 : N) (r : regex) : bool :=
  match r with
  | Chr x => negb (c0 =? x)
  | Cls atoms => negb (cls_mem atoms c0)
  | Seq a b | Alt a b => rejects c0 a && rejects c0 b
  | Group _ a | Rep a _ _ _ => rejects c0 a
  | Backref _ => false
  | Eps | WordB => true
  end.

(** What has to agree around a match when the pattern has a [\b]: the
    characters before and after are word characters in both texts or in
    neither. *)
Definition same_context (r : regex) (p q : option N) (x y : jsstring) : Prop :=
  wordb_free r = true
  ∨ (is_word_opt q = is_word_opt p
     ∧ is_word_opt (head y) = is_word_opt (head x)).

(** The mask character of the placeholders. *)
Definition star : N := ch "*".

(** The text [s], preceded by [p], has no position at which [r] matches. *)
Definition quiet (r : regex) (p : option N) (s : jsstring) : Prop :=
  ∀ a b, s = a ++ b → match_at false r (last_of p a) b = None.

(** The same whatever precedes each position. *)
Definition silent (r : regex) (s : jsstring) : Prop :=
  ∀ a b q, s = a ++ b → match_at false r q b = None.

(** The text that a scan writes for a list of pieces. *)
Definition render (f : rmatch → jsstring) (pcs : list piece) : jsstring :=
  flat_map (fun pc => match pc with Copy c => [c] | Hit m => f m end) pcs.

(** What [s.replace(r, f)] writes from a position on. *)
Definition scan_out (r : regex) (f : rmatch → jsstring) (fuel : nat)
    (p : option N) (s : jsstring) : jsstring :=
  render f (pieces false r fuel p s).

(** An entry is stale once its age exceeds the TTL. *)
Definition expired (now : Z) (e : PreviewEntry) : bool :=
  (now - createdAt e >? PREVIEW_TTL_MS)%Z.

(** ** Sample data for the worked instances *)

Definition demo_entry : PreviewEntry :=
  mkPreviewEntry (js "SELECT 1") None None 0.

(** A data store that returns no rows, a formatter that changes nothing. *)
Definition demo_collaborators : Collaborators unit :=
  mkCollaborators unit (fun _ d => (RunRows [], d)) Some (fun _ => js "explanation")
    (fun _ => None).

Definition demo_env : Chat.Env := Chat.mkEnv 1700000000000 (js "k3x9q2a") 1700000000000.

(** A world in which the map read by [POST /execute-preview] holds one
    preview, stored without a role. *)
Definition demo_pending : PreviewEntry :=
  mkPreviewEntry (js "SELECT * FROM sales") None None 0.

Definition demo_world : World unit :=
  mkWorld ∅ {[ js "p1" := demo_pending ]} tt [].

(** A dry run of the db tool, then the confirmation of its preview. *)
Definition demo_dry_run : Chat.Args :=
  Chat.mkArgs (js "SELECT 1") true None None None.

Definition demo_confirm : Chat.Args :=
  Chat.mkArgs (js "SELECT 1") false None None
    (Some (makePreviewId (Chat.clock_id demo_env) (Chat.random36 demo_env))).

Definition demo_chat_world : World unit :=
  snd (Chat.db_execute demo_collaborators demo_dry_run demo_env (initial_world tt)).


(** A preview stored by the preview tool without a role, and its
    confirmation through the db tool by a guest. *)
Definition demo_stored : list request :=
  [CallPreview (js "SELECT * FROM sales") None None demo_env].

Definition demo_guest_confirm : Chat.Args :=
  Chat.mkArgs (js "SELECT 1") false None (Some (js "guest"))
    (Some (makePreviewId (Chat.clock_id demo_env) (Chat.random36 demo_env))).

(** ** Notions used to state further properties *)

(** The body of a single-quoted SQL string literal as the data store reads
    it: two quotes stand for one, a single quote ends the literal.  The
    result is the text denoted and what follows the closing quote. *)
Fixpoint read_literal (s : jsstring) : option (jsstring * jsstring) :=
  match s with
  | [] => None
  | c :: s' =>
    if c =? ch "'" then
      match s' with
      | c' :: s'' =>
        if c' =? ch "'"
        then option_map (fun r => (c :: fst r, snd r)) (read_literal s'')
        else Some ([], s')
      | [] => Some ([], [])
      end
    else option_map (fun r => (c :: fst r, snd r)) (read_literal s')
  end.

(** The number that a text of digits [0-9a-z] denotes in base 36. *)
Definition digit36 (c : N) : N := if c <? 58 then c - 48 else c - 87.

Definition value36 (s : jsstring) : N :=
  fold_left (fun v c => 36 * v + digit36 c) s 0.

(** The characters of [n.toString(36)]. *)
Definition is_base36 (c : N) : bool := is_digit c || is_lower c.

(** What [maskRow] does to one entry. *)
Definition mask_entry (kv : jsstring * jsvalue) : jsstring * jsvalue :=
  (fst kv, maskValue (snd kv)).

Definition settable (kv : jsstring * jsvalue) : bool :=
  negb (bool_decide (fst kv = js "__proto__")).

(** Text in which neither an at-sign nor a digit occurs. *)
Definition plain_char (c : N) : bool := negb (c =? ch "@") && negb (is_digit c).

(** A row as the handlers hand it out: a second masking pass changes
    nothing, and none of the three patterns is found in a string of it. *)
Definition clean_row (row : jsrow) : Prop :=
  maskRow row = row
  ∧ ∀ k s, In (k, VString s) row →
      test false EMAIL_RE s = false
      ∧ test false PHONE_RE s = false
      ∧ test false CREDIT_CARD_RE s = false.

(** A preview that went through the guards of the chat tools: its text is
    the formatted form of a query on which the forbidden-statement test was
    negative, and the access check passed on it for the stored role. *)
Definition vetted {DB : Type} (X : Collaborators DB) (e : PreviewEntry) : Prop :=
  ∃ q, isForbidden q = false
       ∧ sqlFormat X q = Some (query e)
       ∧ Chat.checkRBACOnSql (query e) (userRole e) = RbacOk.

(** The events that a request added to the trace. *)
Definition added {DB : Type} (w w' : World DB) : list event :=
  skipn (length (trace w)) (trace w').

(** A data store whose audit table is missing: every INSERT throws. *)
Definition demo_no_audit : Collaborators unit :=
  mkCollaborators unit
    (fun sql d => if startsWith (js "INSERT") sql
                  then (RunThrows (js "no such table: query_logs"), d)
                  else (RunRows [[(js "mail", VString (js "ann@example.com"))]], d))
    Some (fun _ => js "explanation") (fun _ => None).

(** A data store that is down. *)
Definition demo_down : Collaborators unit :=
  mkCollaborators unit (fun _ d => (RunThrows (js "connection refused"), d))
    Some (fun _ => js "explanation") (fun _ => None).

Definition demo_body : ExecutePreview.Body :=
  ExecutePreview.mkBody (Some (js "p1")) None None.

(** A preview stored for a guest on a table guests may not read, and a
    confirmation that sends the empty string as its role. *)
Definition demo_guest_pending : PreviewEntry :=
  mkPreviewEntry (js "SELECT * FROM sales") None (Some (js "guest")) 0.

Definition demo_guest_world : World unit :=
  mkWorld ∅ (<[ js "p1" := demo_guest_pending ]> ∅) tt [].

Definition demo_empty_role_body : ExecutePreview.Body :=
  ExecutePreview.mkBody (Some (js "p1")) None (Some []).

(** A call of the db tool that is no dry run and names no preview. *)
Definition demo_direct : Chat.Args :=
  Chat.mkArgs (js "SELECT name FROM products") false None (Some (js "guest")) None.

(** ** The heuristic explanation (chat/route.ts)

    The patterns of [heuristicExplainSQL] use three constructs that the
    patterns above do not: the dot, a negated class and the end-of-input
    assertion.  They are run by the same matcher, extended by these. *)

Module Pattern.

Inductive pattern : Type :=
| Re (r : regex)                      (* a pattern as above *)
| Dot                                 (* . *)
| NotCls (atoms : list catom)         (* [^...] *)
| AtEnd                               (* $ *)
| PSeq (a b : pattern)
| PAlt (a b : pattern)
| PGroup (n : nat) (a : pattern)
| PRep (a : pattern) (mn : nat) (mx : option nat) (greedy : bool).

(** LineTerminator of ECMA-262: the code units that the dot refuses. *)
Definition is_line_terminator (c : N) : bool :=
  (c =? 10) || (c =? 13) || (c =? 8232) || (c =? 8233).

Fixpoint pgroups (p : pattern) : list nat :=
  match p with
  | Re r => groups r
  | PSeq a b | PAlt a b => pgroups a ++ pgroups b
  | PGroup n a => n :: pgroups a
  | PRep a _ _ _ => pgroups a
  | _ => []
  end.

Fixpoint pms (icase : bool) (p : pattern) (st : mstate) : list mstate :=
  match p with
  | Re r => ms icase r st
  | Dot =>
    match rest st with
    | c :: s' => if is_line_terminator c then [] else [MState (Some c) s' (caps st)]
    | [] => []
    end
  | NotCls atoms =>
    match rest st with
    | c :: s' => if cls_match icase atoms c then [] else [MState (Some c) s' (caps st)]
    | [] => []
    end
  | AtEnd =>
    match rest st with
    | [] => [st]
    | _ :: _ => []
    end
  | PSeq a b => flat_map (pms icase b) (pms icase a st)
  | PAlt a b => pms icase a st ++ pms icase b st
  | PGroup n a =>
    List.map (fun st' =>
      MState (prev st') (rest st')
        ((n, firstn (length (rest st) - length (rest st')) (rest st)) :: caps st'))
      (pms icase a st)
  | PRep a mn mx greedy =>
    repeat_matcher (pms icase a) (pgroups a)
      (mn + length (rest st) + 1) mn mx greedy st
  end.

Definition pmatch_at (icase : bool) (p : pattern) (q : option N) (s : jsstring)
    : option rmatch :=
  match pms icase p (MState q s []) with
  | st :: _ =>
    Some (RMatch (firstn (length s - length (rest st)) s) (rest st) (caps st))
  | [] => None
  end.

Fixpoint psearch (icase : bool) (p : pattern) (q : option N) (s : jsstring)
    : option rmatch :=
  match pmatch_at icase p q s with
  | Some m => Some m
  | None =>
    match s with
    | [] => None
    | c :: s' => psearch icase p (Some c) s'
    end
  end.

(** [s.match(p)] for a pattern without the [g] flag. *)
Definition pmatch (icase : bool) (p : pattern) (s : jsstring) : option rmatch :=
  psearch icase p None s.

Fixpoint pseqs (ps : list pattern) : pattern :=
  match ps with
  | [] => Re Eps
  | [p] => p
  | p :: ps' => PSeq p (pseqs ps')
  end.

Fixpoint palts (ps : list pattern) : pattern :=
  match ps with
  | [] => Re Eps
  | [p] => p
  | p :: ps' => PAlt p (palts ps')
  end.

End Pattern.

Import Pattern.

(** [String.prototype.trim]: white space and line terminators are taken
    from both ends. *)
Fixpoint trimStart (s : jsstring) : jsstring :=
  match s with
  | c :: s' => if is_space c then trimStart s' else s
  | [] => []
  end.

Definition trimEnd (s : jsstring) : jsstring := rev (trimStart (rev s)).

Definition trim (s : jsstring) : jsstring := trimEnd (trimStart s).

(** [parts.join(sep)] *)
Fixpoint join (sep : jsstring) (parts : list jsstring) : jsstring :=
  match parts with
  | [] => []
  | [p] => p
  | p :: rest => p ++ sep ++ join sep rest
  end.

Definition SPACES : regex := plus (Cls [ASpace]).

(** [(.+?)] as group 1. *)
Definition SOME_TEXT : pattern := PGroup 1 (PRep Dot 1 None false).

(** [/select\s+(.+?)\s+from\s+([^\s;]+)/i] *)
Definition SELECT_RE : pattern :=
  pseqs [Re (lit (js "select")); Re SPACES; SOME_TEXT;
         Re SPACES; Re (lit (js "from")); Re SPACES;
         PGroup 2 (PRep (NotCls [ASpace; AChar (ch ";")]) 1 None true)].

(** The ends of a clause: [\s+kw] for each of the keywords, [;] or [$]. *)
Definition clause_end (kws : list jsstring) : pattern :=
  palts (List.map (fun kw => Re (Seq SPACES (lit kw))) kws
         ++ [Re (Chr (ch ";")); AtEnd]).

(** [/\bwhere\s+(.+?)(?:\s+group|\s+order|\s+limit|;|$)/i] *)
Definition WHERE_RE : pattern :=
  pseqs [Re (seqs [WordB; lit (js "where"); SPACES]); SOME_TEXT;
         clause_end [js "group"; js "order"; js "limit"]].

(** [/\bgroup\s+by\s+(.+?)(?:\s+order|\s+limit|;|$)/i] *)
Definition GROUP_BY_RE : pattern :=
  pseqs [Re (seqs [WordB; lit (js "group"); SPACES; lit (js "by"); SPACES]); SOME_TEXT;
         clause_end [js "order"; js "limit"]].

(** [/\border\s+by\s+(.+?)(?:\s+limit|;|$)/i] *)
Definition ORDER_BY_RE : pattern :=
  pseqs [Re (seqs [WordB; lit (js "order"); SPACES; lit (js "by"); SPACES]); SOME_TEXT;
         clause_end [js "limit"]].

(** [/\blimit\s+(\d+)/i] *)
Definition LIMIT_RE : pattern :=
  Re (seqs [WordB; lit (js "limit"); SPACES; Group 1 (plus (Cls [ADigit]))]).

(** [sql.replace(/\s+/g, ' ').trim()] *)
Definition squeeze (sql : jsstring) : jsstring :=
  trim (replace_all false SPACES (fun _ => js " ") sql).

Definition FALLBACK : jsstring :=
  js "Selecting from tables (couldn't parse columns/tables exactly).".

(** One optional sentence: the label and the trimmed first group. *)
Definition clause (label : jsstring) (p : pattern) (s : jsstring) : list jsstring :=
  match pmatch true p s with
  | Some m => [label ++ trim (group 1 m)]
  | None => []
  end.

(** The array [parts] for the squeezed text [s]. *)
Definition explain_parts (s : jsstring) : list jsstring :=
  (match pmatch true SELECT_RE s with
   | Some m => [js "Selecting: " ++ trim (group 1 m); js "From: " ++ trim (group 2 m)]
   | None => [FALLBACK]
   end)
  ++ clause (js "Filtered by: ") WHERE_RE s
  ++ clause (js "Grouped by: ") GROUP_BY_RE s
  ++ clause (js "Ordered by: ") ORDER_BY_RE s
  ++ match pmatch true LIMIT_RE s with
     | Some m => [js "Limit: " ++ group 1 m]
     | None => []
     end.

Definition heuristicExplainSQL (sql : jsstring) : jsstring :=
  join (js ". ") (explain_parts (squeeze sql)) ++ js ".".

(** ** Notions used to state the properties of the explanation *)

(** One step of a matcher over a single code unit that [ok] accepts. *)
Definition char_step (ok : N → bool) (st : mstate) : list mstate :=
  match rest st with
  | c :: s' => if ok c then [MState (Some c) s' (caps st)] else []
  | [] => []
  end.

(** A code unit that is no white space, or the plain blank. *)
Definition ink_or_blank (c : N) : bool := negb (is_space c) || (c =? 32).

(** A non-empty run of white space. *)
Definition blanks (w : jsstring) : Prop :=
  w ≠ [] ∧ Forall (fun c => is_space c = true) w.

(** Spelled like the keyword [kw] (given in lower case), in any letter
    case. *)
Definition spells (kw w : jsstring) : Prop := List.map to_lower w = kw.

(** The text [s] holds [select], white space, the text [cols], white
    space, [from], white space and the word [tbl], in this order and next
    to one another. *)
Definition select_shape (s cols tbl : jsstring) : Prop :=
  ∃ pre kw1 w1 w2 kw2 w3 post,
    s = pre ++ kw1 ++ w1 ++ cols ++ w2 ++ kw2 ++ w3 ++ tbl ++ post
    ∧ spells (js "select") kw1 ∧ spells (js "from") kw2
    ∧ blanks w1 ∧ blanks w2 ∧ blanks w3
    ∧ cols ≠ [] ∧ Forall (fun c => is_line_terminator c = false) cols
    ∧ tbl ≠ [] ∧ Forall (fun c => is_space c = false ∧ c ≠ ch ";") tbl.

(** The matcher went from [st] to [s] over the text [t] and recorded the
    captures [cs]. *)
Definition reads (st s : mstate) (t : jsstring) (cs : list (nat * jsstring)) : Prop :=
  rest st = t ++ rest s
  ∧ prev s = last_of (prev st) t
  ∧ caps s = cs ++ caps st.

(** An invariant of matching: the text still to read and every capture
    consist of code units with the property [P]. *)
Definition made_of (P : N → Prop) (st : mstate) : Prop :=
  Forall P (rest st) ∧ Forall (fun kv => Forall P (snd kv)) (caps st).

(** A query laid out on several lines. *)
Definition demo_layout : jsstring :=
  [83; 69; 76; 69; 67; 84; 32; 110; 97; 109; 101; 44; 10; 32; 32; 112; 114; 105;
   99; 101; 10; 70; 82; 79; 77; 9; 112; 114; 111; 100; 117; 99; 116; 115].

(** A code unit that is no white space. *)
Definition ink (c : N) : bool := negb (is_space c).

(** No two neighbouring code units are both white space. *)
Fixpoint single_spaced (l : jsstring) : bool :=
  match l with
  | x :: l' =>
    match l' with
    | y :: _ => negb (is_space x && is_space y) && single_spaced l'
    | [] => true
    end
  | [] => true
  end.

(** The first code unit of a text, if there is one, is no white space. *)
Definition starts_inked (l : jsstring) : Prop :=
  match l with c :: _ => is_space c = false | [] => True end.

(** What the squeezing pass writes for the pieces of a text. *)
Definition squeezed_from (fuel : nat) (q : option N) (s : jsstring) : jsstring :=
  flat_map (fun pc => match pc with Copy c => [c] | Hit _ => js " " end)
    (pieces false SPACES fuel q s).

(** ** Notions used to state what the table extractor does not see *)

(** A table name in its simplest form: lower-case letters, digits and the
    underscore. *)
Definition plain_name_char (c : N) : bool :=
  is_lower c || is_digit c || (c =? ch "_").

Definition plain_name (t : jsstring) : Prop :=
  t ≠ [] ∧ Forall (fun c => plain_name_char c = true) t.

(** A query over two tables listed with a comma. *)
Definition comma_query (t1 t2 : jsstring) : jsstring :=
  js "SELECT * FROM " ++ t1 ++ js ", " ++ t2.

(** The text starts with the keyword, in any letter case, and white space
    follows it. *)
Definition kw_at (kw b : jsstring) : bool :=
  match strip_prefix true kw b with
  | Some (c :: _) => is_space c
  | _ => false
  end.

(** The text starts with white space, [as] in any letter case and white
    space. *)
Definition as_at (b : jsstring) : bool :=
  match b with
  | c :: b' => is_space c && kw_at (js "as") b'
  | [] => false
  end.

(** The non-empty suffixes of a text, longest first. *)
Fixpoint tails (s : jsstring) : list jsstring :=
  match s with
  | [] => []
  | _ :: s' => s :: tails s'
  end.

(** ** The table extractor in the words of the specification *)

(** At the head of [s], which the character [p] precedes, stands the
    keyword [kw] in some letter case and not behind a word character;
    white space follows, and then a name: the whole run of characters
    [a-zA-Z0-9_$.] that stands there, bare, or between two back-ticks or
    two double quotes.  [occ] is the text that the occurrence takes up,
    [post] what follows it. *)
Definition names_at (kw : jsstring) (p : option N) (s occ name post : jsstring)
    : Prop :=
  ∃ k ws q,
    s = occ ++ post
    ∧ occ = k ++ ws ++ q ++ name ++ q
    ∧ spells kw k
    ∧ word_char_opt p = false
    ∧ blanks ws
    ∧ (q = [] ∨ q = [backtick] ∨ q = [dquote])
    ∧ name ≠ [] ∧ Forall (fun c => ident_char c = true) name
    ∧ (q = [] → match post with c :: _ => ident_char c = false | [] => True end).

(** At the head of [s] stands a word before [AS alias]: a run of
    characters [a-zA-Z0-9_$.] that begins at a word boundary, white
    space, [as] in some letter case, white space, and the alias, a whole
    run of word characters. *)
Definition alias_at (p : option N) (s occ word post : jsstring) : Prop :=
  ∃ ws1 k ws2 alias,
    s = occ ++ post
    ∧ occ = word ++ ws1 ++ k ++ ws2 ++ alias
    ∧ word ≠ [] ∧ Forall (fun c => ident_char c = true) word
    ∧ xorb (word_char_opt p) (word_char_opt (head word)) = true
    ∧ blanks ws1
    ∧ spells (js "as") k
    ∧ blanks ws2
    ∧ alias ≠ [] ∧ Forall (fun c => is_word c = true) alias
    ∧ word_char_opt (head post) = false.

(** What a search from left to right finds in [s], which [p] precedes:
    the first place at which an occurrence stands, and then what the
    search finds behind that occurrence. *)
Inductive found (here : option N → jsstring → jsstring → jsstring → jsstring → Prop)
    : option N → jsstring → list jsstring → Prop :=
| found_none p s :
    (∀ a b occ name post, s = a ++ b → ¬ here (last_of p a) b occ name post) →
    found here p s []
| found_next p s a occ name post names :
    s = a ++ occ ++ post →
    here (last_of p a) (occ ++ post) occ name post →
    (∀ a1 a2 occ' name' post', a = a1 ++ a2 → a2 ≠ [] →
       ¬ here (last_of p a1) (a2 ++ occ ++ post) occ' name' post') →
    found here (last_of (last_of p a) occ) post names →
    found here p s (name :: names).

(** The table name [n] of an identifier: what stands behind its last
    dot, in lower case. *)
Definition table_name (ident n : jsstring) : Prop :=
  ∃ front seg,
    ident = front ++ seg
    ∧ (front = [] ∨ ∃ front', front = front' ++ [ch "."])
    ∧ Forall (fun c => c ≠ ch ".") seg
    ∧ n = List.map to_lower seg.

(** [n] is the table name of an identifier that a search from left to
    right finds behind [from] or behind [join]. *)
Definition named_by_keyword (sql n : jsstring) : Prop :=
  ∃ kw names name,
    (kw = js "from" ∨ kw = js "join")
    ∧ found (names_at kw) None sql names
    ∧ In name names
    ∧ table_name name n.

(** [n] is the table name of a word that a search from left to right
    finds before [AS alias], and the word does not begin with [select]. *)
Definition named_by_alias (sql n : jsstring) : Prop :=
  ∃ words word,
    found alias_at None sql words
    ∧ In word words
    ∧ startsWith (js "select") (List.map to_lower word) = false
    ∧ table_name word n.

(** [name] stands behind [from] or [join] somewhere in [sql]. *)
Definition stands_behind_keyword (sql name : jsstring) : Prop :=
  ∃ kw a b occ post,
    (kw = js "from" ∨ kw = js "join")
    ∧ sql = a ++ b
    ∧ names_at kw (last a) b occ name post.

(** A table named like the keyword. *)
Definition keyword_table_query : jsstring := js "SELECT * FROM s.from x".

(** Group [grp] of the matches among the pieces of a scan. *)
Definition captured (grp : nat) (pcs : list piece) : list jsstring :=
  flat_map (fun pc => match pc with Copy _ => [] | Hit m => [group grp m] end) pcs.

(** What [sql.replace(/\n/g, ' ')] does to one character. *)
Definition unbreak (c : N) : N := if c =? 10 then 32 else c.

(** * Properties *)

(** ** The preview map and its sweep *)

Section SweepFacts.
Implicit Types (m : gmap jsstring PreviewEntry) (id : jsstring) (e : PreviewEntry).

Lemma sweep_fold_lookup now (l : list (jsstring * PreviewEntry)) m id :
  fold_left (sweep_step now) l m !! id =
  if existsb (fun kv => bool_decide (fst kv = id) && expired now (snd kv)) l
  then None else m !! id.
Proof.
  revert m. induction l as [|[k e] l IH]; intros m; simpl; [done|].
  rewrite IH. unfold sweep_step, expired. simpl.
  destruct (bool_decide_reflect (k = id)) as [->|Hne]; simpl.
  - destruct (now - createdAt e >? PREVIEW_TTL_MS)%Z; simpl.
    + rewrite lookup_delete_eq. by destruct (existsb _ l).
    + done.
  - destruct (now - createdAt e >? PREVIEW_TTL_MS)%Z; simpl; [|done].
    by rewrite lookup_delete_ne.
Qed.

(** The sweep keeps exactly the entries that are not older than the TTL. *)
Lemma sweep_map_lookup now m id :
  sweep_map now m !! id =
  match m !! id with
  | Some e => if expired now e then None else Some e
  | None => None
  end.
Proof.
  unfold sweep_map. rewrite sweep_fold_lookup.
  destruct (m !! id) as [e|] eqn:Hm.
  - destruct (expired now e) eqn:He.
    + assert (existsb (fun kv : jsstring * PreviewEntry =>
                bool_decide (fst kv = id) && expired now (snd kv))
                (map_to_list m) = true) as ->; [|done].
      apply existsb_exists. exists (id, e). split.
      * apply list_elem_of_In, elem_of_map_to_list. done.
      * simpl. rewrite bool_decide_eq_true_2; done.
    + assert (existsb (fun kv : jsstring * PreviewEntry =>
                bool_decide (fst kv = id) && expired now (snd kv))
                (map_to_list m) = false) as ->; [|done].
      apply not_true_is_false. intros H.
      apply existsb_exists in H as ([k e'] & Hin & Hk). simpl in Hk.
      apply andb_true_iff in Hk as [Hk He'].
      apply bool_decide_eq_true_1 in Hk. subst k.
      apply list_elem_of_In, elem_of_map_to_list in Hin.
      congruence.
  - by destruct (existsb _ _).
Qed.

End SweepFacts.

Section PreviewLifecycle.
Context {DB : Type}.
Implicit Types (w : World DB) (id : jsstring) (e : PreviewEntry).

(** The timer run at each of the given times, in order. *)
Lemma sweeps_fresh (times : list Z) w id e :
  chatPreviews w !! id = Some e →
  Forall (fun now => (now - createdAt e <= PREVIEW_TTL_MS)%Z) times →
  chatPreviews (fold_left (fun w' now => Chat.sweep now w') times w) !! id = Some e.
Proof.
  revert w. induction times as [|now times IH]; intros w Hw Hall; simpl; [done|].
  inversion Hall as [|? ? Hnow Hrest]; subst.
  apply IH; [|done].
  unfold Chat.sweep; simpl. rewrite sweep_map_lookup, Hw.
  unfold expired. destruct (Z.gtb_spec (now - createdAt e) PREVIEW_TTL_MS); [lia|done].
Qed.

Lemma sweep_stale now w id e :
  chatPreviews w !! id = Some e →
  (now - createdAt e > PREVIEW_TTL_MS)%Z →
  chatPreviews (Chat.sweep now w) !! id = None.
Proof.
  intros Hw Hold. unfold Chat.sweep; simpl. rewrite sweep_map_lookup, Hw.
  unfold expired. destruct (Z.gtb_spec (now - createdAt e) PREVIEW_TTL_MS); [done|lia].
Qed.

(** Both tools store the preview they announce, with the formatted text. *)
Lemma preview_tool_stores (X : Collaborators DB) q uid role env w w' id f ex ins :
  Chat.preview_execute X q uid role env w = (Chat.ToolPreview id f ex ins, w') →
  id = makePreviewId (Chat.clock_id env) (Chat.random36 env) ∧
  w' = Chat.put id (mkPreviewEntry f uid role (Chat.clock_created env))
         (log (AccessChecked f role RbacOk) (log (Classified q false) w)).
Proof.
  unfold Chat.preview_execute, classify.
  destruct (isForbidden q); [discriminate|].
  destruct (sqlFormat X q) as [formatted|]; [|discriminate].
  destruct (Chat.checkRBACOnSql formatted role) eqn:Hr; try discriminate.
  intros [= <- <- _ _ <-]. done.
Qed.

Lemma dry_run_stores (X : Collaborators DB) a env w w' id f ex ins :
  Chat.db_execute X a env w = (Chat.ToolPreview id f ex ins, w') →
  id = makePreviewId (Chat.clock_id env) (Chat.random36 env) ∧
  w' = Chat.put id (mkPreviewEntry f (Chat.arg_userId a) (Chat.arg_userRole a)
                      (Chat.clock_created env))
         (log (AccessChecked f (Chat.arg_userRole a) RbacOk)
            (log (Classified (Chat.arg_query a) false) w)).
Proof.
  unfold Chat.db_execute, classify.
  destruct (isForbidden (Chat.arg_query a)); [discriminate|].
  destruct (sqlFormat X (Chat.arg_query a)) as [formatted|]; [|discriminate].
  destruct (Chat.checkRBACOnSql formatted (Chat.arg_userRole a)) eqn:Hr; try discriminate.
  destruct (Chat.dryRun a).
  - intros [= <- <- _ _ <-]. done.
  - unfold Chat.db_commit, Chat.execute_resolved, classify, run.
    repeat (match goal with
            | |- context [match ?x with _ => _ end] => destruct x eqn:?
            end; try discriminate).
Qed.

(** C9: a preview put into the map of the chat module is read back with
    the query text that was put for as long as every sweep that ran found
    its age within the TTL of one hour; a sweep that runs when the age
    exceeds the TTL removes it (and every other stale entry), after which
    the lookup finds nothing. *)
Theorem preview_ttl_lifecycle w0 id e (fresh : list Z) (late : Z) :
  Forall (fun now => (now - createdAt e <= PREVIEW_TTL_MS)%Z) fresh →
  (late - createdAt e > PREVIEW_TTL_MS)%Z →
  let w := Chat.put id e w0 in
  let w1 := fold_left (fun w' now => Chat.sweep now w') fresh w in
  PREVIEW_TTL_MS = 3600000%Z
  ∧ chatPreviews w !! id = Some e
  ∧ chatPreviews w1 !! id = Some e
  ∧ chatPreviews (Chat.sweep late w1) !! id = None
  ∧ (∀ id' e', chatPreviews w1 !! id' = Some e' →
       (late - createdAt e' > PREVIEW_TTL_MS)%Z →
       chatPreviews (Chat.sweep late w1) !! id' = None)
  ∧ (∀ id' e', chatPreviews w1 !! id' = Some e' →
       (late - createdAt e' <= PREVIEW_TTL_MS)%Z →
       chatPreviews (Chat.sweep late w1) !! id' = Some e').
Proof.
  intros Hfresh Hlate w w1.
  assert (Hput : chatPreviews w !! id = Some e).
  { unfold w, Chat.put; simpl. apply lookup_insert_eq. }
  assert (Hw1 : chatPreviews w1 !! id = Some e) by (apply sweeps_fresh; done).
  repeat split; try done.
  - eapply sweep_stale; done.
  - intros id' e' H1 H2. eapply sweep_stale; done.
  - intros id' e' H1 H2. apply (sweeps_fresh [late]); [done|]. by constructor.
Qed.

End PreviewLifecycle.

Lemma preview_ttl_lifecycle_witness :
  Forall (fun now => (now - createdAt demo_entry <= PREVIEW_TTL_MS)%Z)
    [600000%Z; 3600000%Z]
  ∧ (3600001 - createdAt demo_entry > PREVIEW_TTL_MS)%Z
  ∧ chatPreviews
      (Chat.sweep 3600001
         (fold_left (fun w' now => Chat.sweep now w') [600000%Z; 3600000%Z]
            (Chat.put (js "p1") demo_entry (initial_world tt)))) !! js "p1" = None.
Proof.
  assert (H1 : Forall (fun now => (now - createdAt demo_entry <= PREVIEW_TTL_MS)%Z)
                 [600000%Z; 3600000%Z]).
  { repeat constructor; unfold demo_entry, PREVIEW_TTL_MS; simpl; lia. }
  assert (H2 : (3600001 - createdAt demo_entry > PREVIEW_TTL_MS)%Z).
  { unfold demo_entry, PREVIEW_TTL_MS; simpl; lia. }
  split; [exact H1|]. split; [exact H2|].
  exact (proj1 (proj2 (proj2 (proj2
    (preview_ttl_lifecycle (initial_world tt) (js "p1") demo_entry
       [600000%Z; 3600000%Z] 3600001%Z H1 H2))))).
Defined.

(** ** The access-policy check *)

Section AccessPolicy.
Variable extract : jsstring -> list jsstring.

Lemma allowlist_roles role allowed :
  assoc role ROLE_TABLE_ALLOWLIST = Some allowed →
  role ≠ [] ∧ allowlist_get role = Own allowed.
Proof.
  intros H. split.
  - intros ->. vm_compute in H. discriminate.
  - unfold allowlist_get. by rewrite H.
Qed.

Lemma check_rbac_known role allowed sql :
  assoc role ROLE_TABLE_ALLOWLIST = Some allowed →
  check_rbac extract sql (Some role) =
  if includes (js "*") allowed then RbacOk
  else match List.find (fun t => negb (includes t allowed)) (extract sql) with
       | Some t => RbacDenied (table_denied_reason role t)
       | None => RbacOk
       end.
Proof.
  intros H. destruct (allowlist_roles _ _ H) as [Hne Hget].
  unfold check_rbac. destruct role as [|c role]; [done|]. by rewrite Hget.
Qed.

Lemma check_rbac_no_tables role allowed sql :
  assoc role ROLE_TABLE_ALLOWLIST = Some allowed →
  extract sql = [] →
  check_rbac extract sql (Some role) = RbacOk.
Proof.
  intros H Hnil. rewrite (check_rbac_known _ _ _ H), Hnil. simpl.
  by destruct (includes _ allowed).
Qed.

Lemma check_rbac_denied_table role allowed sql reason :
  assoc role ROLE_TABLE_ALLOWLIST = Some allowed →
  check_rbac extract sql (Some role) = RbacDenied reason →
  ∃ t, In t (extract sql) ∧ includes t allowed = false
       ∧ reason = table_denied_reason role t.
Proof.
  intros H. rewrite (check_rbac_known _ _ _ H).
  destruct (includes (js "*") allowed); [discriminate|].
  destruct (List.find _ _) as [t|] eqn:Hf; [|discriminate].
  intros [= <-]. apply find_some in Hf as [Hin Hno].
  exists t. split; [done|]. split; [|done].
  by apply negb_true_iff in Hno.
Qed.

Lemma check_rbac_unknown role sql :
  role ≠ [] →
  assoc role ROLE_TABLE_ALLOWLIST = None →
  includes role OBJECT_PROTOTYPE_KEYS = false →
  check_rbac extract sql (Some role) = RbacDenied (unknown_role_reason role).
Proof.
  intros Hne Ha Hp. unfold check_rbac, allowlist_get.
  destruct role as [|c role]; [done|]. by rewrite Ha, Hp.
Qed.

End AccessPolicy.

(** C10: for a role of the policy map (the empty list of hr included),
    a query in which the extractor finds no table is allowed, in both
    route files; and a denial of such a role always names a table that
    the extractor found and the role's list lacks. *)
Theorem known_role_without_tables_allowed role allowed sql :
  assoc role ROLE_TABLE_ALLOWLIST = Some allowed →
  (Chat.extractTableNames sql = [] →
     Chat.checkRBACOnSql sql (Some role) = RbacOk)
  ∧ (ExecutePreview.extractTableNames sql = [] →
     ExecutePreview.checkRBACOnSql sql (Some role) = RbacOk)
  ∧ (∀ reason, Chat.checkRBACOnSql sql (Some role) = RbacDenied reason →
       ∃ t, In t (Chat.extractTableNames sql) ∧ includes t allowed = false
            ∧ reason = table_denied_reason role t)
  ∧ (∀ reason, ExecutePreview.checkRBACOnSql sql (Some role) = RbacDenied reason →
       ∃ t, In t (ExecutePreview.extractTableNames sql) ∧ includes t allowed = false
            ∧ reason = table_denied_reason role t)
  ∧ Chat.checkRBACOnSql sql (Some role) ≠ RbacTypeError
  ∧ ExecutePreview.checkRBACOnSql sql (Some role) ≠ RbacTypeError.
Proof.
  intros H. unfold Chat.checkRBACOnSql, ExecutePreview.checkRBACOnSql.
  repeat split.
  - by apply (check_rbac_no_tables _ _ allowed).
  - by apply (check_rbac_no_tables _ _ allowed).
  - intros reason. by apply check_rbac_denied_table.
  - intros reason. by apply check_rbac_denied_table.
  - rewrite (check_rbac_known _ _ _ _ H).
    destruct (includes _ allowed); [done|]. by destruct (List.find _ _).
  - rewrite (check_rbac_known _ _ _ _ H).
    destruct (includes _ allowed); [done|]. by destruct (List.find _ _).
Qed.

Lemma known_role_without_tables_allowed_witness :
  assoc (js "hr") ROLE_TABLE_ALLOWLIST = Some []
  ∧ Chat.extractTableNames (js "SELECT 1 + 1") = []
  ∧ ExecutePreview.extractTableNames (js "SELECT 1 + 1") = []
  ∧ Chat.checkRBACOnSql (js "SELECT 1 + 1") (Some (js "hr")) = RbacOk
  ∧ ExecutePreview.checkRBACOnSql (js "SELECT 1 + 1") (Some (js "hr")) = RbacOk.
Proof.
  assert (H : assoc (js "hr") ROLE_TABLE_ALLOWLIST = Some []) by reflexivity.
  assert (H1 : Chat.extractTableNames (js "SELECT 1 + 1") = []) by (vm_compute; reflexivity).
  assert (H2 : ExecutePreview.extractTableNames (js "SELECT 1 + 1") = [])
    by (vm_compute; reflexivity).
  pose proof (known_role_without_tables_allowed (js "hr") [] (js "SELECT 1 + 1") H)
    as (K1 & K2 & _).
  split; [exact H|]. split; [exact H1|]. split; [exact H2|].
  split; [exact (K1 H1) | exact (K2 H2)].
Defined.

(** The claim as the specification words it fails at the empty role
    string: it is no entry of the map, yet [!userRole] lets it pass. *)
Lemma unknown_role_claim_fails :
  ¬ (∀ role sql, assoc role ROLE_TABLE_ALLOWLIST = None →
       Chat.checkRBACOnSql sql (Some role) = RbacDenied (unknown_role_reason role)).
Proof.
  intros H. specialize (H [] (js "SELECT * FROM sales") eq_refl).
  vm_compute in H. discriminate.
Qed.

(** C6 (amended): a non-empty role string that is neither an entry of
    the policy map nor the name of a member of [Object.prototype] is
    denied, in both route files, with the unknown-role reason; the check
    returns and does not allow. *)
Theorem unknown_role_denied role sql :
  role ≠ [] →
  assoc role ROLE_TABLE_ALLOWLIST = None →
  includes role OBJECT_PROTOTYPE_KEYS = false →
  Chat.checkRBACOnSql sql (Some role) = RbacDenied (js "Unknown role: " ++ role)
  ∧ ExecutePreview.checkRBACOnSql sql (Some role) = RbacDenied (js "Unknown role: " ++ role).
Proof.
  intros Hne Ha Hp.
  split; apply check_rbac_unknown; done.
Qed.

Lemma unknown_role_denied_witness :
  js "unknown_role" ≠ []
  ∧ assoc (js "unknown_role") ROLE_TABLE_ALLOWLIST = None
  ∧ includes (js "unknown_role") OBJECT_PROTOTYPE_KEYS = false
  ∧ Chat.checkRBACOnSql (js "SELECT * FROM sales") (Some (js "unknown_role"))
    = RbacDenied (js "Unknown role: unknown_role").
Proof.
  assert (H1 : js "unknown_role" ≠ []) by discriminate.
  assert (H2 : assoc (js "unknown_role") ROLE_TABLE_ALLOWLIST = None) by reflexivity.
  assert (H3 : includes (js "unknown_role") OBJECT_PROTOTYPE_KEYS = false) by reflexivity.
  split; [exact H1|]. split; [exact H2|]. split; [exact H3|].
  exact (proj1 (unknown_role_denied (js "unknown_role") (js "SELECT * FROM sales") H1 H2 H3)).
Defined.

(** The names that [Object.prototype] provides are found by the lookup,
    and the call of [includes] on what is found is a TypeError. *)
Lemma inherited_role_raises sql :
  Chat.checkRBACOnSql sql (Some (js "constructor")) = RbacTypeError
  ∧ ExecutePreview.checkRBACOnSql sql (Some (js "toString")) = RbacTypeError.
Proof. split; reflexivity. Qed.

(** ** The two preview maps *)

Section Unfolding.
Context {DB : Type} (X : Collaborators DB).
Implicit Types (w : World DB).

Lemma run_eq k sql w :
  run X k sql w =
  (fst (db_run X sql (database w)),
   mkWorld (chatPreviews w) (globalPreviews w) (snd (db_run X sql (database w)))
     (trace w ++ [Ran k sql])).
Proof. unfold run. by destruct (db_run X sql (database w)). Qed.

Lemma audit_eq p u sql w :
  audit X p u sql w =
  mkWorld (chatPreviews w) (globalPreviews w)
    (snd (db_run X (audit_sql p u sql) (database w)))
    (trace w ++ [Ran AuditInsert (audit_sql p u sql)]).
Proof. unfold audit. by rewrite run_eq. Qed.

End Unfolding.

Ltac handler_steps :=
  unfold Chat.db_execute, Chat.preview_execute, Chat.db_commit,
    Chat.execute_resolved, ExecutePreview.POST, Chat.put, classify, log;
  repeat (cbv beta iota zeta; rewrite ?run_eq, ?audit_eq; cbv beta iota zeta;
          match goal with
          | |- context [match ?x with _ => _ end] => destruct x eqn:?
          end);
  cbv beta iota zeta; rewrite ?run_eq, ?audit_eq;
  cbn [fst snd chatPreviews globalPreviews database trace].

Ltac split_trace E :=
  repeat match type of E with
         | ?p ++ _ :: _ = [] => destruct p; discriminate E
         | ?p ++ _ :: _ = _ :: _ =>
           destruct p as [|? p]; simpl in E;
           [ first [discriminate E | injection E as ? ?; subst]
           | injection E as ? E; subst ]
         end.

Ltac close_guarded :=
  split; [assumption|];
  first
    [ exists []; eexists;
      (split; [eassumption | first [left; reflexivity | right; reflexivity]])
    | eexists [_]; eexists;
      (split; [eassumption | first [left; reflexivity | right; reflexivity]])
    | eexists [_; _]; eexists;
      (split; [eassumption | first [left; reflexivity | right; reflexivity]]) ].

Ltac explicit_trace :=
  eexists; split;
  [first [ symmetry; apply app_nil_r | rewrite <- ?app_assoc; simpl; reflexivity ]|].

Ltac no_runs :=
  let H := fresh in
  intros ? ? H; simpl in H;
  repeat (destruct H as [H|H]; [discriminate H|]); exact H.

Section TwoMaps.
Context {DB : Type} (X : Collaborators DB).
Implicit Types (w : World DB).

Lemma db_execute_global a env w :
  globalPreviews (snd (Chat.db_execute X a env w)) = globalPreviews w.
Proof. handler_steps; reflexivity. Qed.

Lemma preview_execute_global q uid role env w :
  globalPreviews (snd (Chat.preview_execute X q uid role env w)) = globalPreviews w.
Proof. handler_steps; reflexivity. Qed.

Lemma POST_global_empty b w :
  globalPreviews w = ∅ →
  snd (ExecutePreview.POST X b w) = w
  ∧ (fst (ExecutePreview.POST X b w)
       = ExecutePreview.mkResponse 400 (ExecutePreview.ErrorBody (js "previewId required"))
     ∨ fst (ExecutePreview.POST X b w)
       = ExecutePreview.mkResponse 404
           (ExecutePreview.ErrorBody (js "Preview not found or expired"))).
Proof.
  intros He. unfold ExecutePreview.POST.
  destruct (ExecutePreview.previewId b) as [[|c pid]|]; simpl; auto.
  rewrite He, lookup_empty. simpl. auto.
Qed.

(** Nothing ever writes to the map that [POST /execute-preview] reads. *)
Lemma serve_global_empty rs w :
  globalPreviews w = ∅ → globalPreviews (serve X rs w) = ∅.
Proof.
  revert w. induction rs as [|r rs IH]; intros w He; simpl; [done|].
  apply IH. destruct r; simpl.
  - by rewrite db_execute_global.
  - by rewrite preview_execute_global.
  - done.
  - by rewrite (proj1 (POST_global_empty _ _ He)).
Qed.

End TwoMaps.

Lemma makePreviewId_nonempty time random : makePreviewId time random ≠ [].
Proof.
  unfold makePreviewId. intros H.
  apply app_eq_nil in H as [_ H]. discriminate.
Qed.

(** C2 (fails on the code): a preview stored by the preview tool is in the
    map of the chat module only; whatever requests the server has handled
    since it started, and whatever it handles before the confirmation,
    [POST /execute-preview] with the returned id answers 404. *)
Theorem execute_preview_never_finds_chat_preview {DB : Type}
    (X : Collaborators DB) (d : DB) (before : list request)
    q uid role env id f ex ins (w' : World DB) b :
  Chat.preview_execute X q uid role env (serve X before (initial_world d))
    = (Chat.ToolPreview id f ex ins, w') →
  ExecutePreview.previewId b = Some id →
  chatPreviews w' !! id = Some (mkPreviewEntry f uid role (Chat.clock_created env))
  ∧ ExecutePreview.POST X b w'
    = (ExecutePreview.mkResponse 404
         (ExecutePreview.ErrorBody (js "Preview not found or expired")), w').
Proof.
  intros Hput Hb.
  destruct (preview_tool_stores _ _ _ _ _ _ _ _ _ _ _ Hput) as [Hid Hw'].
  split.
  - rewrite Hw'. unfold Chat.put; simpl. apply lookup_insert_eq.
  - assert (He : globalPreviews w' = ∅).
    { pose proof (preview_execute_global X q uid role env
                    (serve X before (initial_world d))) as Hg.
      rewrite Hput in Hg. simpl in Hg. rewrite Hg.
      apply serve_global_empty. reflexivity. }
    unfold ExecutePreview.POST. rewrite Hb.
    pose proof (makePreviewId_nonempty (Chat.clock_id env) (Chat.random36 env)) as Hne.
    rewrite <- Hid in Hne.
    destruct id as [|c id]; [done|].
    rewrite He, lookup_empty. reflexivity.
Qed.

Lemma execute_preview_never_finds_chat_preview_witness :
  let w := snd (Chat.preview_execute demo_collaborators (js "SELECT 1") None None
                  demo_env (initial_world tt)) in
  let id := makePreviewId (Chat.clock_id demo_env) (Chat.random36 demo_env) in
  ExecutePreview.POST demo_collaborators (ExecutePreview.mkBody (Some id) None None) w
  = (ExecutePreview.mkResponse 404
       (ExecutePreview.ErrorBody (js "Preview not found or expired")), w).
Proof.
  intros w id.
  refine (proj2 (execute_preview_never_finds_chat_preview demo_collaborators tt []
            (js "SELECT 1") None None demo_env id (js "SELECT 1") (js "explanation")
            (Chat.run_instruction id None None) w
            (ExecutePreview.mkBody (Some id) None None) _ _)).
  - vm_compute. reflexivity.
  - reflexivity.
Defined.

(** ** One-time use and removal of previews *)

Section Removal.
Context {DB : Type} (X : Collaborators DB).
Implicit Types (w : World DB).

Lemma POST_resolved b w c pid e :
  ExecutePreview.previewId b = Some (c :: pid) →
  globalPreviews w !! (c :: pid) = Some e →
  let sql := query e in
  let role := nullish (ExecutePreview.requesterRole b) (userRole e) in
  let verdict := ExecutePreview.checkRBACOnSql sql role in
  let w1 := log (Classified sql (isForbidden sql)) w in
  let w2 := log (AccessChecked sql role verdict) w1 in
  let r := fst (db_run X sql (database w)) in
  let w3 := snd (run X UserQuery sql w2) in
  let w4 := audit X (Some (c :: pid)) (ExecutePreview.requesterId b) sql w3 in
  ExecutePreview.POST X b w =
  if isForbidden sql
  then (ExecutePreview.mkResponse 400
          (ExecutePreview.ErrorBody (js "Preview contains forbidden statements")), w1)
  else match verdict with
       | RbacTypeError =>
         (ExecutePreview.mkResponse 500
            (ExecutePreview.ErrorBody (js "allowed.includes is not a function")), w2)
       | RbacDenied reason =>
         (ExecutePreview.mkResponse 403
            (ExecutePreview.ErrorBody (js "RBAC blocked execution: " ++ reason)), w2)
       | RbacOk =>
         match r with
         | RunThrows message =>
           (ExecutePreview.mkResponse 500
              (ExecutePreview.ErrorBody (ExecutePreview.error_text message)), w3)
         | _ =>
           (match stringify_error X (mask_outcome r) with
            | Some message =>
              ExecutePreview.mkResponse 500
                (ExecutePreview.ErrorBody (ExecutePreview.error_text message))
            | None =>
              ExecutePreview.mkResponse 200 (ExecutePreview.OkBody (mask_outcome r) sql)
            end,
            mkWorld (chatPreviews w4) (delete (c :: pid) (globalPreviews w4))
              (database w4) (trace w4))
         end
       end.
Proof.
  intros Hb He. cbv zeta. unfold ExecutePreview.POST. rewrite Hb, He.
  unfold classify, log. cbv beta iota zeta.
  destruct (isForbidden (query e)) eqn:Hf; [reflexivity|].
  destruct (ExecutePreview.checkRBACOnSql _ _) eqn:Hv; try reflexivity.
  rewrite !run_eq. cbv beta iota zeta. cbn [fst snd database].
  destruct (fst (db_run X (query e) (database w))); try reflexivity;
    destruct (stringify_error X _); reflexivity.
Qed.

(** The db tool from its preview lookup on, for an id that is found. *)
Lemma db_commit_removal a f w res w' c pid e :
  Chat.previewId a = Some (c :: pid) →
  chatPreviews w !! (c :: pid) = Some e →
  Chat.db_commit X a f w = (res, w') →
  let verdict :=
    Chat.checkRBACOnSql (query e) (nullish (Chat.arg_userRole a) (userRole e)) in
  ((∃ rows q, res = Chat.ToolRows rows q) → chatPreviews w' !! (c :: pid) = None)
  ∧ ((∀ rows q, res ≠ Chat.ToolRows rows q) → chatPreviews w' = chatPreviews w)
  ∧ (∀ reason, verdict = RbacDenied reason →
       res = Chat.ToolError (js "RBAC blocked query execution: " ++ reason))
  ∧ (verdict = RbacOk → isForbidden (query e) = true →
       res = Chat.ToolError
               (js "Query contains forbidden statements and will not be executed.")).
Proof.
  intros Ha He. unfold Chat.db_commit. rewrite Ha, He. cbv zeta.
  destruct (Chat.checkRBACOnSql _ _) eqn:Hv.
  - unfold Chat.execute_resolved, classify. rewrite Ha. cbv zeta.
    destruct (isForbidden (query e)) eqn:Hf.
    + intros [= <- <-]. simpl.
      split; [intros (? & ? & ?); discriminate|]. split; [done|].
      split; [intros; discriminate|]. done.
    + rewrite run_eq, audit_eq. cbv beta iota zeta.
      destruct (fst (db_run X (query e) _)) eqn:Hr; intros [= <- <-]; simpl;
        (split; [intros Hx; first [apply lookup_delete_eq
                                  | destruct Hx as (? & ? & ?); discriminate]|]);
        (split; [intros Hn; try reflexivity; exfalso; eapply Hn; reflexivity|]);
        (split; [intros; discriminate|]); intros; discriminate.
  - intros [= <- <-]. simpl.
    split; [intros (? & ? & ?); discriminate|]. split; [done|].
    split; [by intros ? [= ->]|]. intros; discriminate.
  - intros [= <- <-]. simpl.
    split; [intros (? & ? & ?); discriminate|]. split; [done|].
    split; intros; discriminate.
Qed.

End Removal.

(** The claim as the specification words it fails, on both paths: a
    confirmation that the access check rejects leaves the preview in the
    map.  For the db tool the preview is one that the preview tool stored
    on a freshly started server. *)
Lemma removal_regardless_of_outcome_fails :
  ¬ (∀ (b : ExecutePreview.Body) (w : World unit) pid e,
       ExecutePreview.previewId b = Some pid →
       globalPreviews w !! pid = Some e →
       globalPreviews (snd (ExecutePreview.POST demo_collaborators b w)) !! pid = None)
  ∧ ¬ (∀ (a : Chat.Args) (env : Chat.Env) (before : list request) pid e,
         Chat.previewId a = Some pid →
         chatPreviews (serve demo_collaborators before (initial_world tt)) !! pid
           = Some e →
         chatPreviews
           (snd (Chat.db_execute demo_collaborators a env
                   (serve demo_collaborators before (initial_world tt)))) !! pid
           = None).
Proof.
  split.
  - intros H.
    specialize (H (ExecutePreview.mkBody (Some (js "p1")) None (Some (js "guest")))
                  demo_world (js "p1") demo_pending eq_refl).
    assert (Hl : globalPreviews demo_world !! js "p1" = Some demo_pending).
    { unfold demo_world; simpl. apply lookup_singleton_eq. }
    specialize (H Hl).
    assert (Hs : snd (ExecutePreview.POST demo_collaborators
                   (ExecutePreview.mkBody (Some (js "p1")) None (Some (js "guest")))
                   demo_world)
                 = log (AccessChecked (js "SELECT * FROM sales") (Some (js "guest"))
                          (RbacDenied (table_denied_reason (js "guest") (js "sales"))))
                     (log (Classified (js "SELECT * FROM sales") false) demo_world)).
    { erewrite (POST_resolved demo_collaborators _ demo_world); [|reflexivity|exact Hl].
      vm_compute. reflexivity. }
    rewrite Hs in H. unfold log in H. cbn [globalPreviews] in H.
    rewrite Hl in H. discriminate.
  - intros H.
    specialize (H demo_guest_confirm demo_env demo_stored
                  (makePreviewId (Chat.clock_id demo_env) (Chat.random36 demo_env))
                  (mkPreviewEntry (js "SELECT * FROM sales") None None
                     (Chat.clock_created demo_env))
                  eq_refl).
    assert (Hl : chatPreviews (serve demo_collaborators demo_stored (initial_world tt))
                   !! makePreviewId (Chat.clock_id demo_env) (Chat.random36 demo_env)
                 = Some (mkPreviewEntry (js "SELECT * FROM sales") None None
                           (Chat.clock_created demo_env))).
    { vm_compute. reflexivity. }
    specialize (H Hl). vm_compute in H. discriminate.
Qed.

Ltac turn_steps :=
  unfold Chat.db_begin, Chat.preview_begin, Chat.db_commit_begin,
    Chat.execute_resolved_begin, Chat.resume, ExecutePreview.POST_begin,
    ExecutePreview.POST_resume, Chat.put, Chat.sweep, classify, log;
  repeat (cbv beta iota zeta; rewrite ?run_eq, ?audit_eq; cbv beta iota zeta;
          match goal with
          | |- context [match ?x with _ => _ end] => destruct x eqn:?
          end);
  cbv beta iota zeta; rewrite ?run_eq, ?audit_eq;
  cbn [fst snd chatPreviews globalPreviews database trace].

Section Turns.
Context {DB : Type} (X : Collaborators DB).
Implicit Types (w : World DB).




(** What a turn does to the two maps. *)
Lemma POST_begin_maps b w :
  chatPreviews (snd (ExecutePreview.POST_begin X b w)) = chatPreviews w
  ∧ globalPreviews (snd (ExecutePreview.POST_begin X b w)) = globalPreviews w.
Proof. turn_steps; done. Qed.











End Turns.

(** C3 (amended): a confirmation that resolves its id removes the
    preview when the query was executed, and leaves it in the map when
    the forbidden-statement guard or the access check rejects the call.
    On [POST /execute-preview] run without interruption, the answer 200
    comes with the entry removed, the answers 400 and 403 with the map as
    it was; likewise the db tool from its preview lookup on, for rows and
    for an error result.  Turn by turn: a rejection is answered in the
    first turn, which holds the lookup and both checks and changes
    neither map; the last turn of an execution removes the entry from
    the map as it is then, whatever other calls did in between. *)
Theorem execute_preview_removes_on_success {DB : Type} (X : Collaborators DB) :
  (∀ (b : ExecutePreview.Body) (w w' : World DB) pid e resp,
     ExecutePreview.previewId b = Some pid →
     globalPreviews w !! pid = Some e →
     ExecutePreview.POST X b w = (resp, w') →
     (ExecutePreview.status resp = 200%nat → globalPreviews w' !! pid = None)
     ∧ (ExecutePreview.status resp = 400%nat ∨ ExecutePreview.status resp = 403%nat →
          globalPreviews w' = globalPreviews w ∧ globalPreviews w' !! pid = Some e
          ∧ ExecutePreview.POST_begin X b w = (inl resp, w'))
     ∧ (isForbidden (query e) = true → pid ≠ [] →
          ExecutePreview.status resp = 400%nat)
     ∧ (∀ reason, isForbidden (query e) = false → pid ≠ [] →
          ExecutePreview.checkRBACOnSql (query e)
            (nullish (ExecutePreview.requesterRole b) (userRole e)) = RbacDenied reason →
          ExecutePreview.status resp = 403%nat))
  ∧ (∀ (a : Chat.Args) f (w w' : World DB) pid e res,
       Chat.previewId a = Some pid → pid ≠ [] →
       chatPreviews w !! pid = Some e →
       Chat.db_commit X a f w = (res, w') →
       ((∃ rows q, res = Chat.ToolRows rows q) → chatPreviews w' !! pid = None)
       ∧ ((∃ msg, res = Chat.ToolError msg) →
            chatPreviews w' = chatPreviews w ∧ chatPreviews w' !! pid = Some e
            ∧ Chat.db_commit_begin X a f w = (inl res, w'))
       ∧ (∀ reason,
            Chat.checkRBACOnSql (query e) (nullish (Chat.arg_userRole a) (userRole e))
              = RbacDenied reason →
            res = Chat.ToolError (js "RBAC blocked query execution: " ++ reason))
       ∧ (Chat.checkRBACOnSql (query e) (nullish (Chat.arg_userRole a) (userRole e))
            = RbacOk →
          isForbidden (query e) = true →
          res = Chat.ToolError
                  (js "Query contains forbidden statements and will not be executed.")))
  ∧ (∀ (b : ExecutePreview.Body) (w : World DB),
       globalPreviews (snd (ExecutePreview.POST_begin X b w)) = globalPreviews w)
  ∧ (∀ (a : Chat.Args) f (w : World DB),
       chatPreviews (snd (Chat.db_commit_begin X a f w)) = chatPreviews w)
  ∧ (∀ pid sql r (w : World DB),
       ∃ resp w',
         ExecutePreview.POST_resume X (ExecutePreview.AtAudit pid sql r) w = (inl resp, w')
         ∧ globalPreviews w' !! pid = None
         ∧ (ExecutePreview.status resp = 200%nat → stringify_error X (mask_outcome r) = None))
  ∧ (∀ (a : Chat.Args) toRun r pid (w : World DB),
       Chat.previewId a = Some pid → pid ≠ [] →
       ∃ w', Chat.resume X (Chat.AtAudit a toRun r) w
             = (inl (Chat.ToolRows (mask_outcome r) toRun), w')
             ∧ chatPreviews w' !! pid = None).
Proof.
  split; [|split; [|split; [|split; [|split]]]].
  - intros b w w' pid e resp Hb He HP.
    destruct pid as [|c pid].
    + unfold ExecutePreview.POST in HP. rewrite Hb in HP.
      injection HP as <- <-. simpl.
      split; [discriminate|]. split; [|split; [done|intros; done]].
      intros _. split; [done|]. split; [done|].
      unfold ExecutePreview.POST_begin. by rewrite Hb.
    + rewrite (POST_resolved X b w c pid e Hb He) in HP. cbv zeta in HP.
      assert (HB : ExecutePreview.POST_begin X b w
                   = ExecutePreview.POST_begin X b w) by reflexivity.
      unfold ExecutePreview.POST_begin at 2 in HB. rewrite Hb, He in HB.
      unfold classify, log in HB. cbv zeta in HB.
      destruct (isForbidden (query e)) eqn:Hf.
      { injection HP as <- <-. simpl.
        split; [discriminate|]. split; [|split; [done|intros; done]]. done. }
      destruct (ExecutePreview.checkRBACOnSql _ _) eqn:Hv.
      * rewrite run_eq, audit_eq in HP. cbn [fst snd] in HP.
        destruct (fst (db_run X (query e) (database w))) eqn:Hr;
          [destruct (stringify_error X _)|destruct (stringify_error X _)|];
          injection HP as <- <-; simpl;
          (split; [intros; try discriminate; try apply lookup_delete_eq|]);
          (split; [intros [?|?]; discriminate|]); (split; [done|]); intros; done.
      * injection HP as <- <-. simpl.
        split; [discriminate|]. split; [|split; [done|intros; done]]. done.
      * injection HP as <- <-. simpl.
        split; [discriminate|]. split; [intros [?|?]; discriminate|].
        split; [done|]. intros; done.
  - intros a f w w' pid e res Ha Hne He HC.
    destruct pid as [|c pid]; [done|].
    destruct (db_commit_removal X a f w res w' c pid e Ha He HC) as (H1 & H2 & H3 & H4).
    split; [exact H1|]. split; [|split; [exact H3|exact H4]].
    intros (msg & ->).
    assert (Heq : chatPreviews w' = chatPreviews w) by (apply H2; intros; discriminate).
    split; [exact Heq|]. split; [by rewrite Heq|].
    revert HC. unfold Chat.db_commit, Chat.db_commit_begin. rewrite Ha, He. cbv zeta.
    unfold Chat.execute_resolved, Chat.execute_resolved_begin, classify.
    destruct (Chat.checkRBACOnSql _ _); try (intros [= <- <-]; reflexivity);
      try discriminate.
    cbv zeta. destruct (isForbidden (query e)); [intros [= <- <-]; reflexivity|].
    rewrite run_eq. cbv beta iota zeta.
    destruct (fst (db_run X (query e) _)); discriminate.
  - intros b w. apply POST_begin_maps.
  - intros a f w. turn_steps; done.
  - intros pid sql r w. cbn [ExecutePreview.POST_resume].
    destruct (stringify_error X (mask_outcome r)) eqn:Hs; eexists; eexists;
      (split; [reflexivity|]); (split; [apply lookup_delete_eq|]); simpl; done.
  - intros a toRun r pid w Ha Hne. cbn [Chat.resume]. rewrite Ha.
    destruct pid as [|c pid]; [done|].
    eexists. split; [reflexivity|]. apply lookup_delete_eq.
Qed.

Lemma execute_preview_removes_on_success_witness :
  let b := ExecutePreview.mkBody (Some (js "p1")) None (Some (js "guest")) in
  let out := ExecutePreview.POST demo_collaborators b demo_world in
  ExecutePreview.previewId b = Some (js "p1")
  ∧ globalPreviews demo_world !! js "p1" = Some demo_pending
  ∧ ExecutePreview.status (fst out) = 403%nat
  ∧ globalPreviews (snd out) !! js "p1" = Some demo_pending.
Proof.
  intros b out.
  assert (Hl : globalPreviews demo_world !! js "p1" = Some demo_pending).
  { unfold demo_world; simpl. apply lookup_singleton_eq. }
  assert (Hs : ExecutePreview.status (fst out) = 403%nat) by (vm_compute; reflexivity).
  split; [reflexivity|]. split; [exact Hl|]. split; [exact Hs|].
  refine (proj1 (proj2 (proj1 (proj2 (proj1 (execute_preview_removes_on_success
            demo_collaborators) b demo_world (snd out) (js "p1") demo_pending (fst out)
            eq_refl Hl _)) _))).
  - apply surjective_pairing.
  - right. exact Hs.
Defined.

Section SingleUse.
Context {DB : Type} (X : Collaborators DB).
Implicit Types (w : World DB).






End SingleUse.




(** ** Nothing runs unguarded *)

Section Guarded.
Context {DB : Type} (X : Collaborators DB).
Implicit Types (w : World DB).

Lemma POST_guarded b w resp w' :
  ExecutePreview.POST X b w = (resp, w') →
  ∃ new, trace w' = trace w ++ new
         ∧ guarded ExecutePreview.checkRBACOnSql new
         ∧ (ExecutePreview.status resp = 400%nat ∨ ExecutePreview.status resp = 403%nat
            ∨ ExecutePreview.status resp = 404%nat → runs_nothing new).
Proof.
  handler_steps; intros HP; simplify_eq; cbn [trace ExecutePreview.status];
    explicit_trace;
    (split; [intros pre q post E; symmetry in E; split_trace E; close_guarded
            | intros Hs; try no_runs;
              destruct Hs as [Hs|[Hs|Hs]]; discriminate Hs]).
Qed.

Lemma db_execute_guarded a env w res w' :
  Chat.db_execute X a env w = (res, w') →
  ∃ new, trace w' = trace w ++ new
         ∧ guarded Chat.checkRBACOnSql new
         ∧ ((∃ msg, res = Chat.ToolError msg) → runs_nothing new).
Proof.
  handler_steps; intros HP; simplify_eq; cbn [trace];
    explicit_trace;
    (split; [intros pre q post E; symmetry in E; split_trace E; close_guarded
            | intros Hs; try no_runs; destruct Hs as [? Hs]; discriminate Hs]).
Qed.

Lemma preview_execute_runs_nothing q uid role env w res w' :
  Chat.preview_execute X q uid role env w = (res, w') →
  ∃ new, trace w' = trace w ++ new ∧ runs_nothing new.
Proof.
  handler_steps; intros HP; simplify_eq; cbn [trace]; explicit_trace; no_runs.
Qed.

End Guarded.

(** C1: on the commit path of the db tool and on [POST /execute-preview],
    the data store runs a user's query only directly after the
    forbidden-statement test was negative on that very text and the
    access check of the file passed on it; a rejected request (an error
    result of the tool; a 400, 403 or 404 answer of the endpoint) has run
    nothing. *)
Theorem run_only_after_guardrails {DB : Type} (X : Collaborators DB) :
  (∀ a env (w w' : World DB) res,
     Chat.db_execute X a env w = (res, w') →
     ∃ new, trace w' = trace w ++ new
            ∧ guarded Chat.checkRBACOnSql new
            ∧ ((∃ msg, res = Chat.ToolError msg) → runs_nothing new))
  ∧ (∀ b (w w' : World DB) resp,
       ExecutePreview.POST X b w = (resp, w') →
       ∃ new, trace w' = trace w ++ new
              ∧ guarded ExecutePreview.checkRBACOnSql new
              ∧ (ExecutePreview.status resp = 400%nat
                 ∨ ExecutePreview.status resp = 403%nat
                 ∨ ExecutePreview.status resp = 404%nat → runs_nothing new)).
Proof.
  split.
  - intros a env w w' res H. exact (db_execute_guarded X a env w res w' H).
  - intros b w w' resp H. exact (POST_guarded X b w resp w' H).
Qed.

Lemma run_only_after_guardrails_witness :
  let b := ExecutePreview.mkBody (Some (js "p1")) None None in
  let out := ExecutePreview.POST demo_collaborators b demo_world in
  let res := Chat.db_execute demo_collaborators demo_confirm demo_env demo_chat_world in
  (ExecutePreview.status (fst out) = 200%nat
   ∧ ∃ new, trace (snd out) = trace demo_world ++ new
            ∧ guarded ExecutePreview.checkRBACOnSql new
            ∧ (ExecutePreview.status (fst out) = 400%nat
               ∨ ExecutePreview.status (fst out) = 403%nat
               ∨ ExecutePreview.status (fst out) = 404%nat → runs_nothing new))
  ∧ (fst res = Chat.ToolRows (RunRows []) (js "SELECT 1")
     ∧ ∃ new, trace (snd res) = trace demo_chat_world ++ new
              ∧ guarded Chat.checkRBACOnSql new
              ∧ ((∃ msg, fst res = Chat.ToolError msg) → runs_nothing new)).
Proof.
  intros b out res. split.
  - split; [vm_compute; reflexivity|].
    exact (proj2 (run_only_after_guardrails demo_collaborators) b demo_world (snd out)
             (fst out) (surjective_pairing out)).
  - split; [vm_compute; reflexivity|].
    exact (proj1 (run_only_after_guardrails demo_collaborators) demo_confirm demo_env
             demo_chat_world (snd res) (fst res) (surjective_pairing res)).
Defined.

(** ** The matcher *)

Section MatcherFacts.

Lemma last_of_nil p : last_of p [] = p.
Proof. reflexivity. Qed.

Lemma last_of_snoc p t c : last_of p (t ++ [c]) = Some c.
Proof. unfold last_of. by rewrite rev_unit. Qed.

Lemma last_of_app p t1 t2 : last_of p (t1 ++ t2) = last_of (last_of p t1) t2.
Proof.
  unfold last_of. rewrite rev_app_distr.
  destruct (rev t2) as [|c r2]; simpl; [|done].
  by destruct (rev t1).
Qed.

Lemma last_of_cons p c t : last_of p (c :: t) = last_of (Some c) t.
Proof. change (c :: t) with ([c] ++ t). by rewrite last_of_app. Qed.

Lemma last_of_some p c t : t ≠ [] → last_of p t = last_of (Some c) t.
Proof. destruct t as [|x t]; [done|]. intros _. by rewrite !last_of_cons. Qed.

Lemma advances_refl st : advances st st [].
Proof. by split. Qed.

Lemma advances_trans st1 st2 st3 t1 t2 :
  advances st1 st2 t1 → advances st2 st3 t2 → advances st1 st3 (t1 ++ t2).
Proof.
  intros [H1 H1'] [H2 H2']. split.
  - by rewrite H1, H2, app_assoc.
  - by rewrite last_of_app, <- H1'.
Qed.

Lemma advances_length st st' t :
  advances st st' t → length (rest st) = (length t + length (rest st'))%nat.
Proof. intros [H _]. by rewrite H, length_app. Qed.

Lemma advances_inj st st' t1 t2 :
  advances st st' t1 → advances st st' t2 → t1 = t2.
Proof.
  intros [H1 _] [H2 _]. rewrite H1 in H2. by apply app_inv_tail in H2.
Qed.

Lemma advances_firstn st st' t :
  advances st st' t →
  firstn (length (rest st) - length (rest st')) (rest st) = t.
Proof.
  intros H. rewrite (advances_length _ _ _ H).
  replace (length t + length (rest st') - length (rest st'))%nat with (length t) by lia.
  destruct H as [-> _]. by rewrite firstn_app, Nat.sub_diag, firstn_all, app_nil_r.
Qed.

Lemma clear_caps_rest gs st : rest (clear_caps gs st) = rest st.
Proof. reflexivity. Qed.

Lemma clear_caps_prev gs st : prev (clear_caps gs st) = prev st.
Proof. reflexivity. Qed.

Variable step : mstate → list mstate.
Variable gs : list nat.

(** Unfolding one round of the quantifier. *)
Lemma repeat_matcher_in fuel mn mx g st st' :
  In st' (repeat_matcher step gs fuel mn mx g st) →
  ((mx = Some 0%nat ∨ mn = 0%nat) ∧ st' = st)
  ∨ ∃ fuel' st1, fuel = S fuel' ∧ mx ≠ Some 0%nat
      ∧ In st1 (step (clear_caps gs st))
      ∧ (mn = 0%nat → length (rest st1) ≠ length (rest st))
      ∧ In st' (repeat_matcher step gs fuel' (Nat.pred mn) (option_map Nat.pred mx) g st1).
Proof.
  destruct fuel as [|fuel']; simpl; [done|].
  destruct (decide (mx = Some 0%nat)) as [->|Hmx].
  { simpl. intros [<-|[]]. left. auto. }
  assert (Hin : In st'
    (let more := flat_map (fun st1 =>
        if Nat.eqb mn 0 && Nat.eqb (length (rest st1)) (length (rest st))
        then []
        else repeat_matcher step gs fuel' (Nat.pred mn) (option_map Nat.pred mx) g st1)
        (step (clear_caps gs st)) in
     if Nat.eqb mn 0 then if g then more ++ [st] else st :: more else more) →
    ((mx = Some 0%nat ∨ mn = 0%nat) ∧ st' = st)
    ∨ ∃ fuel'0 st1, S fuel' = S fuel'0 ∧ mx ≠ Some 0%nat
        ∧ In st1 (step (clear_caps gs st))
        ∧ (mn = 0%nat → length (rest st1) ≠ length (rest st))
        ∧ In st' (repeat_matcher step gs fuel'0 (Nat.pred mn) (option_map Nat.pred mx) g st1)).
  { cbv zeta.
    assert (Hmore : ∀ st', In st' (flat_map (fun st1 =>
        if Nat.eqb mn 0 && Nat.eqb (length (rest st1)) (length (rest st))
        then []
        else repeat_matcher step gs fuel' (Nat.pred mn) (option_map Nat.pred mx) g st1)
        (step (clear_caps gs st))) →
        ∃ fuel'0 st1, S fuel' = S fuel'0 ∧ mx ≠ Some 0%nat
        ∧ In st1 (step (clear_caps gs st))
        ∧ (mn = 0%nat → length (rest st1) ≠ length (rest st))
        ∧ In st' (repeat_matcher step gs fuel'0 (Nat.pred mn) (option_map Nat.pred mx) g st1)).
    { intros s Hs. apply in_flat_map in Hs as (st1 & H1 & H2).
      exists fuel', st1. split; [done|]. split; [done|]. split; [done|].
      destruct (Nat.eqb_spec mn 0) as [->|Hmn]; simpl in H2.
      - destruct (Nat.eqb_spec (length (rest st1)) (length (rest st))); [done|].
        split; [done|]. done.
      - split; [done|]. done. }
    destruct (Nat.eqb_spec mn 0) as [->|Hmn].
    - destruct g.
      + intros H. apply in_app_or in H as [H|[<-|[]]]; [right; auto|left; auto].
      + intros [<-|H]; [left; auto|right; auto].
    - intros H. right. auto. }
  destruct mx as [[|k]|]; [done|exact Hin|exact Hin].
Qed.

Lemma repeat_matcher_stop fuel mn mx g st :
  mx = Some 0%nat ∨ mn = 0%nat →
  In st (repeat_matcher step gs (S fuel) mn mx g st).
Proof.
  intros H. simpl.
  destruct mx as [[|k]|]; [by left| |];
    (destruct H as [H | ->]; [done|]; simpl;
     destruct g; [apply in_or_app; right|]; by left).
Qed.

Lemma repeat_matcher_more fuel mn mx g st st1 st' :
  mx ≠ Some 0%nat →
  In st1 (step (clear_caps gs st)) →
  (mn = 0%nat → length (rest st1) ≠ length (rest st)) →
  In st' (repeat_matcher step gs fuel (Nat.pred mn) (option_map Nat.pred mx) g st1) →
  In st' (repeat_matcher step gs (S fuel) mn mx g st).
Proof.
  intros Hmx H1 Hp H2.
  assert (Hmore : In st' (flat_map (fun st1 =>
        if Nat.eqb mn 0 && Nat.eqb (length (rest st1)) (length (rest st))
        then []
        else repeat_matcher step gs fuel (Nat.pred mn) (option_map Nat.pred mx) g st1)
        (step (clear_caps gs st)))).
  { apply in_flat_map. exists st1. split; [done|].
    destruct (Nat.eqb_spec mn 0) as [->|Hmn]; simpl; [|done].
    destruct (Nat.eqb_spec (length (rest st1)) (length (rest st))) as [E|]; [|done].
    by destruct Hp. }
  simpl. destruct mx as [[|k]|]; [done| |];
    (destruct (Nat.eqb mn 0); [|done];
     destruct g; [apply in_or_app; by left|by right]).
Qed.

End MatcherFacts.

Section TextOfMatch.
Variable icase : bool.
Variable Q : jsstring → Prop.
Hypothesis Q_nil : Q [].
Hypothesis Q_app : ∀ a b, Q a → Q b → Q (a ++ b).

Lemma strip_prefix_spec t s s' :
  strip_prefix icase t s = Some s' →
  s = firstn (length t) s ++ s' ∧ length (firstn (length t) s) = length t.
Proof.
  revert s. induction t as [|x t IH]; intros s; simpl.
  - intros [= ->]. done.
  - destruct s as [|c s]; [done|].
    destruct (chr_match icase x c); [|done].
    intros H. apply IH in H as [H1 H2]. simpl. split; [by f_equal|by f_equal].
Qed.

Lemma repeat_matcher_text step gs :
  (∀ st st1, In st1 (step st) → ∃ t, advances st st1 t ∧ Q t) →
  ∀ fuel mn mx g st st',
    In st' (repeat_matcher step gs fuel mn mx g st) →
    ∃ t, advances st st' t ∧ Q t.
Proof using Q_nil Q_app.
  intros Hstep fuel. induction fuel as [|fuel IH]; intros mn mx g st st' H; [done|].
  apply repeat_matcher_in in H as [[_ ->]|(f' & st1 & [= <-] & _ & H1 & _ & H2)].
  - exists []. split; [apply advances_refl|done].
  - apply Hstep in H1 as (t1 & [A1 A1'] & Q1).
    apply IH in H2 as (t2 & A2 & Q2).
    exists (t1 ++ t2). split; [|by apply Q_app].
    apply (advances_trans st st1 st'); [|done]. split; done.
Qed.

Lemma ms_text r :
  leaves icase Q r →
  ∀ st st', In st' (ms icase r st) → ∃ t, advances st st' t ∧ Q t.
Proof using Q_nil Q_app.
  induction r as [|x|atoms| |r1 IH1 r2 IH2|r1 IH1 r2 IH2|n r IH|n|r IH mn mx g];
    simpl; intros HL st st' H.
  - destruct H as [<-|[]]. exists []. split; [apply advances_refl|done].
  - destruct (rest st) as [|c s'] eqn:Hr; [done|].
    destruct (chr_match icase x c) eqn:Hc; [|done].
    destruct H as [<-|[]]. exists [c]. split; [split; simpl; done|auto].
  - destruct (rest st) as [|c s'] eqn:Hr; [done|].
    destruct (cls_match icase atoms c) eqn:Hc; [|done].
    destruct H as [<-|[]]. exists [c]. split; [split; simpl; done|auto].
  - destruct (xorb _ _); [|done]. destruct H as [<-|[]].
    exists []. split; [apply advances_refl|done].
  - destruct HL as [HL1 HL2]. apply in_flat_map in H as (st1 & H1 & H2).
    apply (IH1 HL1) in H1 as (t1 & A1 & Q1). apply (IH2 HL2) in H2 as (t2 & A2 & Q2).
    exists (t1 ++ t2). split; [by apply (advances_trans st st1 st')|by apply Q_app].
  - destruct HL as [HL1 HL2]. apply in_app_or in H as [H|H]; eauto.
  - apply in_map_iff in H as (s & <- & H). apply (IH HL) in H as (t & [A A'] & Qt).
    exists t. split; [split; done|done].
  - destruct (lookup_cap n (caps st)) as [t|].
    + destruct (strip_prefix icase t (rest st)) as [s'|] eqn:Hs; [|done].
      destruct H as [<-|[]]. apply strip_prefix_spec in Hs as [Hs _].
      exists (firstn (length t) (rest st)). split; [split; simpl; done|apply HL].
    + destruct H as [<-|[]]. exists []. split; [apply advances_refl|done].
  - eapply repeat_matcher_text; [|exact H]. intros s s1 Hs. by apply IH.
Qed.

End TextOfMatch.

Lemma ms_advances icase r st st' :
  In st' (ms icase r st) → ∃ t, advances st st' t.
Proof.
  intros H.
  assert (HL : leaves icase (fun _ => True) r).
  { clear H. induction r; simpl; try done; try (split; assumption). }
  destruct (ms_text icase (fun _ => True) I (fun _ _ _ _ => I) r HL st st' H)
    as (t & A & _).
  by exists t.
Qed.

Lemma ms_shorter icase r st st' :
  In st' (ms icase r st) → (length (rest st') <= length (rest st))%nat.
Proof.
  intros H. apply ms_advances in H as (t & A).
  rewrite (advances_length _ _ _ A). lia.
Qed.

(** ** Searching *)

Section Search.
Variables (icase : bool) (r : regex).

Lemma search_some p s m :
  search icase r p s = Some m →
  ∃ a b, s = a ++ b ∧ match_at icase r (last_of p a) b = Some m.
Proof.
  revert p. induction s as [|c s IH]; intros p; simpl.
  - destruct (match_at icase r p []) eqn:Hm; [|done].
    intros [= <-]. exists [], []. done.
  - destruct (match_at icase r p (c :: s)) eqn:Hm.
    + intros [= <-]. exists [], (c :: s). done.
    + intros H. apply IH in H as (a & b & -> & H).
      exists (c :: a), b. split; [done|]. by rewrite last_of_cons.
Qed.

Lemma search_none p s :
  search icase r p s = None →
  ∀ a b, s = a ++ b → match_at icase r (last_of p a) b = None.
Proof.
  revert p. induction s as [|c s IH]; intros p; simpl.
  - destruct (match_at icase r p []) eqn:Hm; [done|].
    intros _ a b Hab. symmetry in Hab. apply app_eq_nil in Hab as [-> ->]. done.
  - destruct (match_at icase r p (c :: s)) eqn:Hm; [done|].
    intros H a b Hab. destruct a as [|x a]; simpl in Hab.
    + subst b. done.
    + injection Hab as <- ->. rewrite last_of_cons. by apply IH.
Qed.

Lemma test_true s :
  test icase r s = true ↔
  ∃ a b, s = a ++ b ∧ match_at icase r (last_of None a) b ≠ None.
Proof.
  unfold test. split.
  - destruct (search icase r None s) as [m|] eqn:Hs; [|done].
    intros _. apply search_some in Hs as (a & b & -> & H).
    exists a, b. split; [done|]. by rewrite H.
  - intros (a & b & -> & H).
    destruct (search icase r None (a ++ b)) eqn:Hs; [done|].
    destruct H. by apply (search_none _ _ Hs).
Qed.

Lemma match_at_some p s :
  match_at icase r p s ≠ None ↔ ∃ st, In st (ms icase r (MState p s [])).
Proof.
  unfold match_at. destruct (ms icase r (MState p s [])) as [|st l]; split.
  - done.
  - intros [st []].
  - intros _. exists st. by left.
  - done.
Qed.

End Search.

Lemma ms_Seq icase a b st :
  ms icase (Seq a b) st = flat_map (ms icase b) (ms icase a st).
Proof. reflexivity. Qed.

Lemma in_ms_Seq icase a b st s :
  In s (ms icase (Seq a b) st) ↔ ∃ s1, In s1 (ms icase a st) ∧ In s (ms icase b s1).
Proof. rewrite ms_Seq. apply in_flat_map. Qed.

Lemma ms_Alt icase a b st :
  ms icase (Alt a b) st = ms icase a st ++ ms icase b st.
Proof. reflexivity. Qed.

Lemma ms_WordB icase st :
  ms icase WordB st =
  if xorb (is_word_opt (prev st)) (is_word_opt (head (rest st))) then [st] else [].
Proof. reflexivity. Qed.

Lemma ms_Group icase n a st :
  ms icase (Group n a) st =
  List.map (fun st' =>
    MState (prev st') (rest st')
      ((n, firstn (length (rest st) - length (rest st')) (rest st)) :: caps st'))
    (ms icase a st).
Proof. reflexivity. Qed.

Lemma ms_Rep icase a mn mx g st :
  ms icase (Rep a mn mx g) st =
  repeat_matcher (ms icase a) (groups a) (mn + length (rest st) + 1) mn mx g st.
Proof. reflexivity. Qed.

Lemma in_ms_WordB icase st s :
  In s (ms icase WordB st) ↔
  s = st ∧ xorb (is_word_opt (prev st)) (is_word_opt (head (rest st))) = true.
Proof.
  rewrite ms_WordB. destruct (xorb _ _); simpl; [|intuition congruence].
  split; [intros [<-|[]]; done|]. intros [-> _]. by left.
Qed.

Lemma in_ms_Group icase n a st s :
  In s (ms icase (Group n a) st) ↔
  ∃ s0 t, In s0 (ms icase a st) ∧ advances st s0 t
          ∧ s = MState (prev s0) (rest s0) ((n, t) :: caps s0).
Proof.
  rewrite ms_Group, in_map_iff. split.
  - intros (s0 & <- & H). destruct (ms_advances _ _ _ _ H) as (t & A).
    exists s0, t. split; [done|]. split; [done|].
    by rewrite (advances_firstn _ _ _ A).
  - intros (s0 & t & H & A & ->). exists s0. split; [|done].
    by rewrite (advances_firstn _ _ _ A).
Qed.

Lemma last_of_None a : last_of None a = last a.
Proof.
  induction a as [|c a IH] using rev_ind; [done|].
  by rewrite last_of_snoc, last_snoc.
Qed.

Lemma ms_lit icase kw st s :
  In s (ms icase (lit kw) st) ↔
  ∃ w, rest st = w ++ rest s
       ∧ s = MState (last_of (prev st) w) (rest s) (caps st)
       ∧ Forall2 (fun x c => chr_match icase x c = true) kw w.
Proof.
  revert st. induction kw as [|x kw IH]; intros st.
  - simpl. split.
    + intros [<-|[]]. exists []. destruct st; done.
    + intros (w & H1 & H2 & H3). inversion H3; subst. left.
      destruct st; simpl in *. rewrite H2. by f_equal.
  - assert (Hone : ∀ st s, In s (ms icase (Chr x) st) ↔
              ∃ c, rest st = c :: rest s ∧ s = MState (Some c) (rest s) (caps st)
                   ∧ chr_match icase x c = true).
    { intros st0 s0. simpl. destruct (rest st0) as [|c s'] eqn:Hr.
      - split; [done|]. intros (c & H & _); done.
      - destruct (chr_match icase x c) eqn:Hc.
        + split.
          * intros [<-|[]]. exists c. done.
          * intros (c' & [= <- ->] & -> & _). by left.
        + split; [done|]. intros (c' & [= <- ->] & _ & Hc'). congruence. }
    destruct kw as [|y kw].
    + change (lit [x]) with (Chr x). rewrite Hone. split.
      * intros (c & H1 & H2 & H3). exists [c]. repeat split; try done.
        constructor; [done|constructor].
      * intros (w & H1 & H2 & H3). inversion H3 as [|? c ? w' Hc Hw']; subst.
        inversion Hw'; subst. exists c. done.
    + change (lit (x :: y :: kw)) with (Seq (Chr x) (lit (y :: kw))).
      simpl ms. rewrite in_flat_map. split.
      * intros (st1 & H1 & H2). apply Hone in H1 as (c & Hr & Hst1 & Hc).
        apply IH in H2 as (w & Hw1 & Hw2 & Hw3).
        exists (c :: w). split; [|split].
        -- rewrite Hr. simpl. f_equal. rewrite Hst1 in Hw1. done.
        -- rewrite Hw2, Hst1. simpl. by rewrite last_of_cons.
        -- by constructor.
      * intros (w & H1 & H2 & H3). inversion H3 as [|? c ? w' Hc Hw']; subst w.
        exists (MState (Some c) (w' ++ rest s) (caps st)). split.
        -- apply Hone. exists c. done.
        -- apply IH. exists w'. simpl. split; [done|]. split; [|done].
           rewrite H2. simpl. by rewrite last_of_cons.
Qed.

Lemma ms_alts icase rs st s :
  rs ≠ [] →
  In s (ms icase (alts rs) st) ↔ ∃ r, In r rs ∧ In s (ms icase r st).
Proof.
  induction rs as [|r rs IH]; [done|]. intros _.
  destruct rs as [|r' rs].
  - simpl. split; [intros H; exists r; auto|]. intros (r0 & [<-|[]] & H). done.
  - change (alts (r :: r' :: rs)) with (Alt r (alts (r' :: rs))).
    simpl ms. rewrite in_app_iff, IH by done. split.
    + intros [H|(r0 & H1 & H2)]; [exists r; split; [by left|done]|].
      exists r0. split; [by right|done].
    + intros (r0 & [<-|H1] & H2); [by left|]. right. by exists r0.
Qed.

(** ** The statement classifier *)

Ltac nbool :=
  unfold to_upper, to_lower, is_word in *; unfold is_upper, is_lower, is_digit in *;
  repeat match goal with
         | H : context [N.leb ?a ?b] |- _ => destruct (N.leb_spec a b)
         | |- context [N.leb ?a ?b] => destruct (N.leb_spec a b)
         | H : context [N.eqb ?a ?b] |- _ => destruct (N.eqb_spec a b)
         | |- context [N.eqb ?a ?b] => destruct (N.eqb_spec a b)
         end; simpl in *; try done; try lia.

Lemma chr_match_upper x c :
  is_upper x = true → (chr_match true x c = true ↔ to_upper c = x).
Proof.
  intros Hx. unfold chr_match. rewrite N.eqb_eq.
  assert (to_upper x = x) as -> by nbool. done.
Qed.

Lemma upper_is_word c : is_upper (to_upper c) = true → is_word c = true.
Proof. nbool. Qed.

Lemma keyword_text kw w :
  kw ≠ [] → Forall (fun x => is_upper x = true) kw →
  (Forall2 (fun x c => chr_match true x c = true) kw w ↔ List.map to_upper w = kw).
Proof.
  intros _ Hup. revert w. induction Hup as [|x kw Hx Hup IH]; intros w.
  - split; [by inversion 1|]. destruct w; [constructor|done].
  - split.
    + inversion 1 as [|? c ? w' Hc Hw]; subst. simpl. f_equal.
      * by apply chr_match_upper.
      * by apply IH.
    + destruct w as [|c w]; [done|]. simpl. intros [= Hc Hw].
      constructor; [by apply chr_match_upper|by apply IH].
Qed.

Lemma keyword_word kw w :
  kw ≠ [] → Forall (fun x => is_upper x = true) kw → List.map to_upper w = kw →
  is_word_opt (head w) = true ∧ ∀ p, is_word_opt (last_of p w) = true.
Proof.
  intros Hne Hup <-. split.
  - destruct w as [|c w]; [done|]. simpl. inversion Hup; subst. by apply upper_is_word.
  - intros p. destruct w as [|c w] using rev_ind; [done|].
    rewrite last_of_snoc. simpl. rewrite map_app in Hup.
    apply Forall_app in Hup as [_ Hup]. inversion Hup; subst. by apply upper_is_word.
Qed.

Lemma keywords_upper :
  Forall (fun kw => kw ≠ [] ∧ Forall (fun x => is_upper x = true) kw) FORBIDDEN_KEYWORDS.
Proof.
  unfold FORBIDDEN_KEYWORDS.
  repeat (constructor; [split; [discriminate|repeat constructor]|]). constructor.
Qed.

Lemma FORBIDDEN_RE_eq :
  FORBIDDEN_RE = Seq WordB (Seq (Group 1 (alts (List.map lit FORBIDDEN_KEYWORDS))) WordB).
Proof. reflexivity. Qed.

Lemma forbidden_match p b :
  (∃ st, In st (ms true FORBIDDEN_RE (MState p b []))) ↔
  ∃ kw w b', In kw FORBIDDEN_KEYWORDS ∧ b = w ++ b' ∧ List.map to_upper w = kw
             ∧ is_word_opt p = false ∧ is_word_opt (head b') = false.
Proof.
  rewrite FORBIDDEN_RE_eq. split.
  - intros (st & H).
    apply in_ms_Seq in H as (st1 & H1 & H).
    apply in_ms_WordB in H1 as [-> Hb].
    apply in_ms_Seq in H as (st2 & H2 & H).
    apply in_ms_Group in H2 as (s & t & H2 & _ & ->).
    apply ms_alts in H2 as (r & Hr & H2); [|done].
    apply in_map_iff in Hr as (kw & <- & Hkw).
    apply ms_lit in H2 as (w & Hw1 & Hw2 & Hw3). simpl in Hw1, Hw2.
    pose proof (proj1 (List.Forall_forall _ _) keywords_upper kw Hkw) as [Hne Hup].
    apply (keyword_text kw w Hne Hup) in Hw3.
    destruct (keyword_word kw w Hne Hup Hw3) as [Hh Hl].
    apply in_ms_WordB in H as [_ Hb2]. simpl in Hb2.
    exists kw, w, (rest s). split; [done|]. split; [done|]. split; [done|].
    simpl in Hb. rewrite Hw1 in Hb.
    assert (Hhd : head (w ++ rest s) = head w).
    { destruct w; [|done]. simpl in Hh. done. }
    rewrite Hhd, Hh in Hb. rewrite Hw2 in Hb2. simpl in Hb2. rewrite Hl in Hb2.
    split; [by destruct (is_word_opt p)|by destruct (is_word_opt (head (rest s)))].
  - intros (kw & w & b' & Hkw & -> & Hw & Hp & Hb').
    pose proof (proj1 (List.Forall_forall _ _) keywords_upper kw Hkw) as [Hne Hup].
    destruct (keyword_word kw w Hne Hup Hw) as [Hh Hl].
    assert (Hhd : head (w ++ b') = head w).
    { destruct w; [|done]. simpl in Hh. done. }
    exists (MState (last_of p w) b' [(1%nat, w)]).
    apply in_ms_Seq. exists (MState p (w ++ b') []). split.
    { apply in_ms_WordB. split; [done|]. simpl. by rewrite Hhd, Hh, Hp. }
    apply in_ms_Seq. exists (MState (last_of p w) b' [(1%nat, w)]). split.
    + apply in_ms_Group. exists (MState (last_of p w) b' []), w.
      split; [|split; [split|]; done].
      apply ms_alts; [done|]. exists (lit kw). split; [by apply in_map|].
      apply ms_lit. exists w. simpl. split; [done|]. split; [done|].
      by apply keyword_text.
    + apply in_ms_WordB. split; [done|]. simpl. by rewrite Hl, Hb'.
Qed.

(** C5: the classifier answers true exactly for the strings that contain
    one of the eight keywords as a whole word, in any letter case and at
    any position; for every other string it answers false. *)
Theorem isForbidden_whole_word s :
  (isForbidden s = true ↔ contains_keyword s)
  ∧ (¬ contains_keyword s → isForbidden s = false).
Proof.
  assert (Hiff : isForbidden s = true ↔ contains_keyword s).
  { unfold isForbidden, contains_keyword. rewrite test_true. split.
    - intros (a & b & -> & H). apply match_at_some in H.
      apply forbidden_match in H as (kw & w & b' & Hkw & -> & Hw & Hp & Hb').
      exists a, w, b', kw. rewrite last_of_None in Hp. done.
    - intros (a & w & b & kw & -> & Hkw & Hw & Ha & Hb).
      exists a, (w ++ b). split; [done|].
      apply match_at_some, forbidden_match.
      exists kw, w, b. rewrite last_of_None. done. }
  split; [exact Hiff|].
  intros Hn. destruct (isForbidden s) eqn:E; [|done].
  destruct Hn. by apply Hiff.
Qed.

(** ** Matches of a global pattern *)

Lemma match_at_state icase r p s m :
  match_at icase r p s = Some m →
  ∃ st t, In st (ms icase r (MState p s []))
          ∧ advances (MState p s []) st t
          ∧ m = RMatch t (rest st) (caps st).
Proof.
  unfold match_at. destruct (ms icase r (MState p s [])) as [|st l] eqn:Hms; [done|].
  intros [= <-].
  assert (Hin : In st (ms icase r (MState p s []))) by (rewrite Hms; by left).
  destruct (ms_advances _ _ _ _ Hin) as (t & A).
  exists st, t. split; [by left|]. split; [done|].
  pose proof (advances_firstn _ _ _ A) as Hf. simpl in Hf. by rewrite Hf.
Qed.

Lemma match_at_text icase r p s m :
  match_at icase r p s = Some m → s = matched m ++ after m.
Proof.
  intros H. apply match_at_state in H as (st & t & _ & [A _] & ->). done.
Qed.

Lemma pieces_hit icase r fuel p s m :
  In (Hit m) (pieces icase r fuel p s) →
  ∃ a b, s = a ++ b ∧ match_at icase r (last_of p a) b = Some m.
Proof.
  revert p s. induction fuel as [|fuel IH]; intros p s; simpl; [done|].
  destruct (match_at icase r p s) as [m0|] eqn:Hm.
  - pose proof (match_at_text _ _ _ _ _ Hm) as Hs.
    destruct (matched m0) as [|c t] eqn:Ht.
    + intros [[= <-]|H]; [exists [], s; done|].
      destruct s as [|c s]; [done|]. destruct H as [[=]|H].
      apply IH in H as (a & b & -> & H). exists (c :: a), b.
      split; [done|]. by rewrite last_of_cons.
    + intros [[= <-]|H]; [exists [], s; done|].
      apply IH in H as (a & b & Hab & H). exists ((c :: t) ++ a), b.
      split; [by rewrite Hs, Hab, app_assoc|]. by rewrite last_of_app.
  - destruct s as [|c s]; [done|]. intros [[=]|H].
    apply IH in H as (a & b & -> & H). exists (c :: a), b.
    split; [done|]. by rewrite last_of_cons.
Qed.

Lemma match_all_in icase r s m :
  In m (match_all icase r s) →
  ∃ a b, s = a ++ b ∧ match_at icase r (last_of None a) b = Some m.
Proof.
  unfold match_all. intros H. apply in_flat_map in H as (pc & Hpc & H).
  destruct pc as [c|m0]; [done|]. destruct H as [<-|[]].
  by apply pieces_hit in Hpc.
Qed.

Lemma clear_caps_nil st : clear_caps [] st = st.
Proof.
  unfold clear_caps. destruct st as [p s c]; simpl. f_equal.
  induction c as [|kv c IH]; [done|]. simpl. by rewrite IH.
Qed.

Lemma ms_caps_group_free icase r st s :
  groups r = [] → In s (ms icase r st) → caps s = caps st.
Proof.
  revert st s.
  induction r as [|x|atoms| |r1 IH1 r2 IH2|r1 IH1 r2 IH2|n r IH|n|r IH mn mx g];
    intros st s Hg H.
  - destruct H as [<-|[]]. done.
  - simpl in H. destruct (rest st); [done|]. destruct (chr_match _ _ _); [|done].
    destruct H as [<-|[]]. done.
  - simpl in H. destruct (rest st); [done|]. destruct (cls_match _ _ _); [|done].
    destruct H as [<-|[]]. done.
  - apply in_ms_WordB in H as [-> _]. done.
  - simpl in Hg. apply app_eq_nil in Hg as [Hg1 Hg2].
    apply in_ms_Seq in H as (s1 & H1 & H2).
    rewrite (IH2 _ _ Hg2 H2). by apply IH1.
  - simpl in Hg. apply app_eq_nil in Hg as [Hg1 Hg2].
    rewrite ms_Alt in H. apply in_app_or in H as [H|H]; auto.
  - done.
  - simpl in H. destruct (lookup_cap n (caps st)).
    + destruct (strip_prefix _ _ _); [|done]. destruct H as [<-|[]]. done.
    + destruct H as [<-|[]]. done.
  - simpl in Hg. rewrite ms_Rep, Hg in H.
    remember (mn + length (rest st) + 1)%nat as fuel eqn:Hfuel. clear Hfuel.
    revert mn mx st H. induction fuel as [|fuel IHf]; intros mn mx st H; [done|].
    apply repeat_matcher_in in H as [[_ ->]|(f' & st1 & [= <-] & _ & H1 & _ & H2)]; [done|].
    rewrite clear_caps_nil in H1. rewrite (IHf _ _ _ H2). by apply IH.
Qed.

Lemma ms_min_len icase r st s t :
  In s (ms icase r st) → advances st s t → (min_len r <= length t)%nat.
Proof.
  revert st s t.
  induction r as [|x|atoms| |r1 IH1 r2 IH2|r1 IH1 r2 IH2|n r IH|n|r IH mn mx g];
    intros st s t H A; simpl min_len; try lia.
  - simpl in H. destruct (rest st) as [|c s'] eqn:Hr; [done|].
    destruct (chr_match _ _ _); [|done]. destruct H as [<-|[]].
    destruct A as [A _]. simpl in A. rewrite Hr in A.
    destruct t; [|simpl; lia]. simpl in A.
    assert (length (c :: s') = length s') by (by rewrite A). simpl in *; lia.
  - simpl in H. destruct (rest st) as [|c s'] eqn:Hr; [done|].
    destruct (cls_match _ _ _); [|done]. destruct H as [<-|[]].
    destruct A as [A _]. simpl in A. rewrite Hr in A.
    destruct t; [|simpl; lia]. simpl in A.
    assert (length (c :: s') = length s') by (by rewrite A). simpl in *; lia.
  - apply in_ms_Seq in H as (s1 & H1 & H2).
    destruct (ms_advances _ _ _ _ H1) as (t1 & A1).
    destruct (ms_advances _ _ _ _ H2) as (t2 & A2).
    pose proof (advances_inj _ _ _ _ A (advances_trans _ _ _ _ _ A1 A2)) as ->.
    rewrite length_app. specialize (IH1 _ _ _ H1 A1). specialize (IH2 _ _ _ H2 A2). lia.
  - rewrite ms_Alt in H. apply in_app_or in H as [H|H].
    + specialize (IH1 _ _ _ H A). lia.
    + specialize (IH2 _ _ _ H A). lia.
  - apply in_ms_Group in H as (s0 & t0 & H & A0 & ->).
    apply (IH _ _ _ H). destruct A as [A A']. destruct A0 as [A0 A0']. split; done.
  - rewrite ms_Rep in H.
    remember (mn + length (rest st) + 1)%nat as fuel eqn:Hfuel. clear Hfuel.
    revert mn mx st t H A. induction fuel as [|fuel IHf]; intros mn mx st t H A; [done|].
    apply repeat_matcher_in in H as [[Hstop ->]|(f' & st1 & [= <-] & Hmx & H1 & _ & H2)].
    + destruct Hstop as [-> | ->].
      * rewrite Nat.min_0_r. simpl. lia.
      * destruct mx; simpl; lia.
    + destruct (ms_advances _ _ _ _ H1) as (t1 & A1).
      destruct (repeat_matcher_text (fun _ => True) I (fun _ _ _ _ => I)
                  (ms icase r) (groups r)
                  (fun st0 st2 Hs => match ms_advances _ _ _ _ Hs with
                                     | ex_intro _ t0 A0 => ex_intro _ t0 (conj A0 I)
                                     end)
                  _ _ _ _ _ _ H2) as (t2 & A2 & _).
      assert (A1' : advances st st1 t1).
      { destruct A1 as [A1 A1']. split; done. }
      pose proof (advances_inj _ _ _ _ A (advances_trans _ _ _ _ _ A1' A2)) as ->.
      rewrite length_app.
      specialize (IH _ _ _ H1 A1). specialize (IHf _ _ _ _ H2 A2).
      destruct mx as [[|k]|]; simpl in *; [done| |].
      * destruct mn as [|mn]; simpl in *; [lia|].
        destruct k; simpl in *; nia.
      * destruct mn as [|mn]; simpl in *; [lia|]. nia.
Qed.

(** ** Quantified character classes *)

Lemma ms_rep_cls icase atoms mn mx g st s :
  In s (ms icase (Rep (Cls atoms) mn mx g) st) →
  ∃ t, advances st s t ∧ caps s = caps st
       ∧ Forall (fun c => cls_match icase atoms c = true) t
       ∧ (match mx with Some k => Nat.min mn k | None => mn end <= length t)%nat.
Proof.
  intros H.
  destruct (ms_text icase (Forall (fun c => cls_match icase atoms c = true))
              (List.Forall_nil _)
              (fun a b Ha Hb => proj2 (List.Forall_app _ a b) (conj Ha Hb))
              (Rep (Cls atoms) mn mx g)) with (st := st) (st' := s) as (t & A & Ht).
  - simpl. intros c Hc. by constructor.
  - done.
  - exists t. split; [done|]. split; [exact (ms_caps_group_free icase (Rep (Cls atoms) mn mx g) st s eq_refl H)|].
    split; [done|].
    pose proof (ms_min_len _ _ _ _ _ H A) as Hm. simpl in Hm. lia.
Qed.

Lemma ms_cls_in icase atoms st s :
  In s (ms icase (Cls atoms) st) ↔
  ∃ c, rest st = c :: rest s ∧ cls_match icase atoms c = true
       ∧ s = MState (Some c) (rest s) (caps st).
Proof.
  simpl. destruct (rest st) as [|c s'] eqn:Hr.
  - split; [done|]. intros (c & H & _); done.
  - destruct (cls_match icase atoms c) eqn:Hc.
    + split.
      * intros [<-|[]]. exists c. done.
      * intros (c' & [= <- ->] & _ & ->). by left.
    + split; [done|]. intros (c' & [= <- ->] & Hc' & _). congruence.
Qed.

Lemma ms_opt_cls icase atoms st s :
  In s (ms icase (opt (Cls atoms)) st) →
  s = st ∨ ∃ c, rest st = c :: rest s ∧ cls_match icase atoms c = true
                ∧ s = MState (Some c) (rest s) (caps st).
Proof.
  unfold opt. rewrite ms_Rep. intros H.
  apply repeat_matcher_in in H as [[_ ->]|(f' & st1 & _ & _ & H1 & _ & H2)]; [by left|].
  right. change (groups (Cls atoms)) with (@nil nat) in H1.
  rewrite clear_caps_nil in H1.
  apply repeat_matcher_in in H2 as [[_ ->]|(f'' & st2 & _ & Hmx & _)]; [|done].
  by apply (ms_cls_in icase atoms st st1).
Qed.

(** ** Identifier characters *)

Ltac b2p :=
  repeat first
    [ rewrite orb_true_iff | rewrite andb_true_iff | rewrite N.leb_le
    | rewrite N.eqb_eq ].

Lemma ident_char_spec c :
  ident_char c = true ↔
  (97 <= c <= 122) ∨ (65 <= c <= 90) ∨ (48 <= c <= 57) ∨ c = 95 ∨ c = 36 ∨ c = 46.
Proof.
  unfold ident_char, is_lower, is_upper, is_digit. b2p.
  change (ch "_") with 95. change (ch "$") with 36. change (ch ".") with 46. lia.
Qed.

Lemma cls_mem_IDENT c : cls_mem IDENT c = ident_char c.
Proof.
  unfold cls_mem, IDENT, ident_char, is_lower, is_upper, is_digit. simpl.
  change (ch "a") with 97. change (ch "z") with 122. change (ch "A") with 65.
  change (ch "Z") with 90. change (ch "0") with 48. change (ch "9") with 57.
  rewrite orb_false_r. by rewrite !orb_assoc.
Qed.

Lemma to_upper_cases c :
  (97 <= c <= 122 ∧ to_upper c = c - 32) ∨ (¬ (97 <= c <= 122) ∧ to_upper c = c).
Proof.
  unfold to_upper, is_lower.
  destruct (N.leb_spec 97 c), (N.leb_spec c 122); simpl; lia.
Qed.

Lemma to_lower_cases c :
  (65 <= c <= 90 ∧ to_lower c = c + 32) ∨ (¬ (65 <= c <= 90) ∧ to_lower c = c).
Proof.
  unfold to_lower, is_upper.
  destruct (N.leb_spec 65 c), (N.leb_spec c 90); simpl; lia.
Qed.

Lemma cls_match_IDENT c : cls_match true IDENT c = ident_char c.
Proof.
  unfold cls_match. rewrite !cls_mem_IDENT.
  apply eq_true_iff_eq. rewrite !orb_true_iff, !ident_char_spec.
  destruct (to_upper_cases c) as [[? ->]|[? ->]],
           (to_lower_cases c) as [[? ->]|[? ->]]; lia.
Qed.

Lemma cls_match_space c : cls_match true [ASpace] c = true → is_space c = true.
Proof.
  unfold cls_match, cls_mem. simpl. rewrite !orb_false_r, !orb_true_iff.
  intros [[H|H]|H]; [done| |].
  - destruct (to_upper_cases c) as [[? E]|[? E]]; rewrite E in H; [|done].
    revert H. unfold is_space. b2p. lia.
  - destruct (to_lower_cases c) as [[? E]|[? E]]; rewrite E in H; [|done].
    revert H. unfold is_space. b2p. lia.
Qed.

Lemma cls_match_quote c :
  cls_match true QUOTE c = true → c = backtick ∨ c = dquote.
Proof.
  unfold cls_match, cls_mem, QUOTE, backtick, dquote. simpl.
  rewrite !orb_false_r. b2p.
  destruct (to_upper_cases c) as [[? ->]|[? ->]],
           (to_lower_cases c) as [[? ->]|[? ->]]; lia.
Qed.

Lemma chr_match_quote x c :
  x = backtick ∨ x = dquote → chr_match true x c = true → c = x.
Proof.
  unfold chr_match, backtick, dquote. rewrite N.eqb_eq.
  destruct (to_upper_cases c) as [[? ->]|[? ->]],
           (to_upper_cases x) as [[? ->]|[? ->]]; lia.
Qed.

(** ** The table extractor *)

Lemma keyword_name_re_eq kw :
  keyword_name_re kw =
  Seq WordB (Seq (lit kw) (Seq (plus (Cls [ASpace]))
    (Seq (Group 1 (opt (Cls QUOTE))) (Seq (Group 2 (plus (Cls IDENT))) (Backref 1))))).
Proof. reflexivity. Qed.

Lemma length_pos_nonempty {A} (l : list A) : (1 <= length l)%nat → l ≠ [].
Proof. destruct l; simpl; [lia|done]. Qed.

(** What a match of [\bKW\s+(Q?)([a-zA-Z0-9_$.]+)\1] consists of. *)
Lemma keyword_name_states kw p b s :
  In s (ms true (keyword_name_re kw) (MState p b [])) →
  ∃ k ws q ident,
    b = k ++ ws ++ q ++ ident ++ q ++ rest s
    ∧ caps s = [(2%nat, ident); (1%nat, q)]
    ∧ Forall2 (fun x c => chr_match true x c = true) kw k
    ∧ ws ≠ [] ∧ Forall (fun c => is_space c = true) ws
    ∧ (q = [] ∨ q = [backtick] ∨ q = [dquote])
    ∧ ident ≠ [] ∧ Forall (fun c => ident_char c = true) ident
    ∧ xorb (is_word_opt p) (is_word_opt (head b)) = true.
Proof.
  rewrite keyword_name_re_eq. intros H.
  apply in_ms_Seq in H as (s1 & H1 & H). apply in_ms_WordB in H1 as [-> Hb].
  apply in_ms_Seq in H as (s2 & H2 & H).
  apply ms_lit in H2 as (k & Hk1 & Hk2 & Hk3). simpl in Hk1, Hk2.
  apply in_ms_Seq in H as (s3 & H3 & H).
  apply ms_rep_cls in H3 as (ws & [Aw _] & Cw & Fw & Lw).
  apply in_ms_Seq in H as (s4 & H4 & H).
  apply in_ms_Group in H4 as (s40 & q & H4 & [Aq _] & ->).
  assert (Hq : (q = [] ∨ q = [backtick] ∨ q = [dquote]) ∧ caps s40 = caps s3).
  { apply ms_opt_cls in H4 as [->|(c & Hr & Hc & ->)].
    - split; [|done]. left. apply (f_equal (@length N)) in Aq.
      rewrite length_app in Aq. destruct q; [done|simpl in Aq; lia].
    - split; [|done]. simpl in Aq. rewrite Hr in Aq.
      assert (q = [c]) as ->.
      { change (c :: rest s40) with ([c] ++ rest s40) in Aq.
        by apply app_inv_tail in Aq. }
      apply cls_match_quote in Hc as [-> | ->]; auto. }
  destruct Hq as [Hq Cq].
  apply in_ms_Seq in H as (s5 & H5 & H).
  apply in_ms_Group in H5 as (s50 & ident & H5 & [Ai _] & ->).
  apply ms_rep_cls in H5 as (ident' & [Ai' _] & Ci & Fi & Li).
  simpl in Ai, Ai', Ci.
  assert (ident' = ident) as ->.
  { rewrite Ai' in Ai. by apply app_inv_tail in Ai. }
  assert (Hcaps : caps s50 = (1%nat, q) :: caps s3) by (by rewrite Ci, Cq).
  assert (Hend : rest s50 = q ++ rest s
                 ∧ caps s = [(2%nat, ident); (1%nat, q)]).
  { rewrite Cw, Hk2 in Hcaps. simpl in Hcaps.
    simpl in H. rewrite Hcaps in H. simpl in H.
    destruct (strip_prefix true q (rest s50)) as [s'|] eqn:Hs; [|done].
    destruct H as [<-|[]]. simpl. split; [|done].
    destruct Hq as [-> |Hq].
    - simpl in Hs. by injection Hs as ->.
    - assert (∃ x, q = [x] ∧ (x = backtick ∨ x = dquote)) as (x & -> & Hx).
      { destruct Hq as [-> | ->]; eauto. }
      destruct (rest s50) as [|c r5]; cbn [strip_prefix] in Hs; [done|].
      destruct (chr_match true x c) eqn:Hc; [|done]. injection Hs as ->.
      by rewrite (chr_match_quote x c Hx Hc). }
  destruct Hend as [Hend Hcs].
  exists k, ws, q, ident. simpl in Hb.
  split; [|split; [done|split; [done|split; [|split; [|split; [done|split; [|split]]]]]]].
  - rewrite Hk1. f_equal. rewrite Aw. f_equal. rewrite Aq. f_equal.
    rewrite Ai'. f_equal. done.
  - apply length_pos_nonempty. simpl in Lw. lia.
  - eapply List.Forall_impl; [|exact Fw]. intros c Hc. by apply cls_match_space.
  - apply length_pos_nonempty. simpl in Li. lia.
  - eapply List.Forall_impl; [|exact Fi]. intros c Hc. by rewrite <- cls_match_IDENT.
  - done.
Qed.

Lemma set_add_in x y names : In y (set_add x names) ↔ y = x ∨ In y names.
Proof.
  unfold set_add. destruct (existsb _ names) eqn:He.
  - split; [auto|]. intros [->|H]; [|done].
    apply existsb_exists in He as (z & Hz & Hd).
    apply bool_decide_eq_true_1 in Hd. by subst.
  - rewrite in_app_iff. simpl. intuition.
Qed.

Lemma add_all_in xs names y : In y (add_all xs names) ↔ In y xs ∨ In y names.
Proof.
  unfold add_all. revert names. induction xs as [|x xs IH]; intros names; simpl.
  - intuition.
  - rewrite IH, set_add_in. intuition.
Qed.

Lemma pieces_copy icase r fuel p s c :
  In (Copy c) (pieces icase r fuel p s) → In c s.
Proof.
  revert p s. induction fuel as [|fuel IH]; intros p s; simpl; [done|].
  destruct (match_at icase r p s) as [m|] eqn:Hm.
  - pose proof (match_at_text _ _ _ _ _ Hm) as Hs.
    destruct (matched m) as [|x t] eqn:Ht.
    + intros [[=]|H]. destruct s as [|c' s]; [done|].
      destruct H as [[= ->]|H]; [by left|]. right. by apply IH in H.
    + intros [[=]|H]. apply IH in H. rewrite Hs. apply in_or_app. by right.
  - destruct s as [|c' s]; [done|].
    intros [[= ->]|H]; [by left|]. right. by apply IH in H.
Qed.

Lemma replace_all_Forall icase r f s (P : N → Prop) :
  Forall P s → (∀ m, Forall P (f m)) → Forall P (replace_all icase r f s).
Proof.
  intros Hs Hf. unfold replace_all. apply List.Forall_forall. intros c Hc.
  apply in_flat_map in Hc as (pc & Hpc & Hc). destruct pc as [x|m].
  - destruct Hc as [<-|[]]. apply pieces_copy in Hpc.
    by apply (proj1 (List.Forall_forall P s) Hs).
  - by apply (proj1 (List.Forall_forall P (f m)) (Hf m)).
Qed.

Lemma last_segment_Forall (P : N → Prop) acc s :
  Forall P acc → Forall P s →
  Forall (fun c => P c ∧ c ≠ ch ".") acc →
  Forall (fun c => P c ∧ c ≠ ch ".") (last_segment acc s).
Proof.
  revert acc. induction s as [|c s IH]; intros acc Ha Hs Hacc; cbn [last_segment]; [done|].
  inversion Hs; subst. destruct (N.eqb_spec c (ch ".")) as [->|Hne].
  - apply IH; [constructor|done|constructor].
  - apply IH; [|done|].
    + apply List.Forall_app. split; [done|]. by constructor.
    + apply List.Forall_app. split; [done|]. by constructor.
Qed.

Lemma table_of_chars t :
  Forall (fun c => ident_char c = true) t →
  Forall (fun c => name_char c = true) (toLowerCase (table_of t)).
Proof.
  intros Ht. unfold toLowerCase, table_of, strip_quotes.
  apply List.Forall_map.
  eapply List.Forall_impl;
    [|apply (replace_all_Forall false (Cls QUOTE) (fun _ => [])
               (last_segment [] t) (fun c => ident_char c = true ∧ c ≠ ch "."))].
  - intros c [Hc Hd]. apply ident_char_spec in Hc. unfold name_char, is_lower, is_digit.
    change (ch ".") with 46 in Hd. change (ch "_") with 95. change (ch "$") with 36.
    b2p. destruct (to_lower_cases c) as [[? ->]|[? ->]]; lia.
  - apply (last_segment_Forall (fun c => ident_char c = true)); [constructor|done|constructor].
  - intros _. constructor.
Qed.

Lemma AS_RE_eq :
  AS_RE =
  Seq WordB (Seq (Group 1 (plus (Cls IDENT)))
    (seqs [plus (Cls [ASpace]); lit (js "as"); plus (Cls [ASpace]);
           plus (Cls ALIAS); WordB])).
Proof. reflexivity. Qed.

Lemma alias_states p b s :
  In s (ms true AS_RE (MState p b [])) →
  ∃ ident, caps s = [(1%nat, ident)] ∧ ident ≠ []
           ∧ Forall (fun c => ident_char c = true) ident.
Proof.
  rewrite AS_RE_eq. intros H.
  apply in_ms_Seq in H as (s1 & H1 & H). apply in_ms_WordB in H1 as [-> _].
  apply in_ms_Seq in H as (s2 & H2 & H).
  apply in_ms_Group in H2 as (s20 & ident & H2 & [Ai _] & ->).
  apply ms_rep_cls in H2 as (ident' & [Ai' _] & Ci & Fi & Li).
  simpl in Ai, Ai', Ci. rewrite Ai' in Ai. apply app_inv_tail in Ai as ->.
  apply ms_caps_group_free in H; [|reflexivity]. simpl in H.
  exists ident. rewrite H, Ci. split; [done|]. split.
  - apply length_pos_nonempty. simpl in Li. lia.
  - eapply List.Forall_impl; [|exact Fi]. intros c Hc. by rewrite <- cls_match_IDENT.
Qed.

Lemma keyword_match_group kw s m :
  In m (match_all true (keyword_name_re kw) s) →
  Forall (fun c => ident_char c = true) (group 2 m).
Proof.
  intros H. apply match_all_in in H as (a & b & -> & H).
  apply match_at_state in H as (st & t & Hst & _ & ->).
  apply keyword_name_states in Hst as (k & ws & q & ident & _ & Hc & _ & _ & _ & _ & _ & Hi & _).
  unfold group. simpl. by rewrite Hc.
Qed.

Lemma alias_match_group s m :
  In m (match_all true AS_RE s) →
  Forall (fun c => ident_char c = true) (group 1 m).
Proof.
  intros H. apply match_all_in in H as (a & b & -> & H).
  apply match_at_state in H as (st & t & Hst & _ & ->).
  apply alias_states in Hst as (ident & Hc & _ & Hi).
  unfold group. simpl. by rewrite Hc.
Qed.

Lemma extract_ep_in sql n :
  In n (ExecutePreview.extractTableNames sql) ↔
  introduced_by FROM_RE 2 sql n ∨ introduced_by JOIN_RE 2 sql n.
Proof.
  unfold ExecutePreview.extractTableNames, introduced_by. cbv zeta. split.
  - intros H. apply in_map_iff in H as (x & <- & H).
    apply add_all_in in H as [H|H].
    + apply in_map_iff in H as (m & <- & Hm). right. by exists m.
    + apply add_all_in in H as [H|[]].
      apply in_map_iff in H as (m & <- & Hm). left. by exists m.
  - intros H. apply in_map_iff.
    destruct H as [(m & Hm & ->)|(m & Hm & ->)]; eexists; (split; [reflexivity|]);
      apply add_all_in.
    + right. apply add_all_in. left. apply in_map_iff. by exists m.
    + left. apply in_map_iff. by exists m.
Qed.

Lemma extract_chat_in sql n :
  In n (Chat.extractTableNames sql) ↔
  introduced_by FROM_RE 2 sql n ∨ introduced_by JOIN_RE 2 sql n
  ∨ introduced_by_alias sql n.
Proof.
  unfold Chat.extractTableNames, introduced_by, introduced_by_alias. cbv zeta. split.
  - intros H. apply in_map_iff in H as (x & <- & H).
    apply add_all_in in H as [H|H].
    + apply in_map_iff in H as (m & <- & Hm). apply filter_In in Hm as [Hm Hf].
      right. right. exists m. split; [done|]. split; [|done].
      by apply negb_true_iff in Hf.
    + apply add_all_in in H as [H|H].
      * apply in_map_iff in H as (m & <- & Hm). right. left. by exists m.
      * apply add_all_in in H as [H|[]].
        apply in_map_iff in H as (m & <- & Hm). left. by exists m.
  - intros H. apply in_map_iff.
    destruct H as [(m & Hm & ->)|[(m & Hm & ->)|(m & Hm & Hf & ->)]];
      eexists; (split; [reflexivity|]); apply add_all_in.
    + right. apply add_all_in. right. apply add_all_in. left.
      apply in_map_iff. by exists m.
    + right. apply add_all_in. left. apply in_map_iff. by exists m.
    + left. apply in_map_iff. exists m. split; [done|].
      apply filter_In. split; [done|]. by apply negb_true_iff.
Qed.

(** Each match found for [from <name>] or [join <name>] is a keyword in
    any letter case at a word boundary, white space, and an identifier
    that may stand between two equal quote characters. *)
Lemma keyword_match_shape kw s m :
  In m (match_all true (keyword_name_re kw) s) →
  ∃ a k ws q,
    s = a ++ matched m ++ after m
    ∧ matched m = k ++ ws ++ q ++ group 2 m ++ q
    ∧ Forall2 (fun x c => chr_match true x c = true) kw k
    ∧ ws ≠ [] ∧ Forall (fun c => is_space c = true) ws
    ∧ (q = [] ∨ q = [backtick] ∨ q = [dquote])
    ∧ group 2 m ≠ [] ∧ Forall (fun c => ident_char c = true) (group 2 m)
    ∧ xorb (word_char_opt (last a)) (word_char_opt (head (matched m ++ after m))) = true.
Proof.
  intros H. apply match_all_in in H as (a & b & -> & H).
  apply match_at_state in H as (st & t & Hst & [At _] & ->). simpl in At.
  apply keyword_name_states in Hst
    as (k & ws & q & ident & Hb & Hc & Hk & Hws & Fws & Hq & Hi & Fi & Hwb).
  assert (Ht : t = k ++ ws ++ q ++ ident ++ q).
  { rewrite At in Hb. apply (app_inv_tail (rest st)).
    rewrite Hb. by rewrite <- !app_assoc. }
  exists a, k, ws, q. unfold group. simpl. rewrite Hc. simpl.
  rewrite last_of_None in Hwb. rewrite <- At.
  repeat split; try done.
Qed.

(** The set collapses equal spellings before the names are put in lower
    case: two spellings of one table that differ in letter case both
    stay. *)
Lemma case_variants_not_collapsed :
  ExecutePreview.extractTableNames case_query = [js "sales"; js "sales"]
  ∧ Chat.extractTableNames case_query = [js "sales"; js "sales"].
Proof. split; vm_compute; reflexivity. Qed.

Lemma isForbidden_whole_word_witness :
  contains_keyword (js "SELECT 1; drop table t")
  ∧ isForbidden (js "SELECT 1; drop table t") = true.
Proof.
  assert (H : contains_keyword (js "SELECT 1; drop table t")).
  { exists (js "SELECT 1; "), (js "drop"), (js " table t"), (js "DROP").
    split; [reflexivity|]. split; [right; right; right; by left|].
    split; reflexivity || (split; reflexivity). }
  split; [exact H|].
  exact (proj2 (proj1 (isForbidden_whole_word (js "SELECT 1; drop table t"))) H).
Defined.

(** ** Matches do not depend on the text around them *)

Lemma same_context_after r p q x y t :
  same_context r p q x y → same_context r (last_of p t) (last_of q t) x y.
Proof.
  intros [H|[H1 H2]]; [by left|]. right. split; [|done].
  destruct t as [|c t]; [done|]. by rewrite !last_of_cons.
Qed.

Lemma same_context_before r p q x y t :
  same_context r p q x y → same_context r p q (t ++ x) (t ++ y).
Proof.
  intros [H|[H1 H2]]; [by left|]. right. split; [done|]. by destruct t.
Qed.

Lemma same_context_sub r r' p q x y :
  (wordb_free r = true → wordb_free r' = true) →
  same_context r p q x y → same_context r' p q x y.
Proof. intros Hs [H|H]; [left; auto|by right]. Qed.

Lemma app_same_length {A} (t x : list A) : t ++ x = x → t = [].
Proof.
  intros H. apply (f_equal (@length A)) in H. rewrite length_app in H.
  destruct t; [done|simpl in H; lia].
Qed.

Lemma repeat_matcher_advances icase r gs fuel mn mx g st s :
  In s (repeat_matcher (ms icase r) gs fuel mn mx g st) → ∃ t, advances st s t.
Proof.
  intros H.
  destruct (repeat_matcher_text (fun _ => True) I (fun _ _ _ _ => I) (ms icase r) gs)
    with (fuel := fuel) (mn := mn) (mx := mx) (g := g) (st := st) (st' := s)
    as (t & A & _); [|done|by exists t].
  intros st0 st1 Hs. destruct (ms_advances _ _ _ _ Hs) as (t0 & A0). by exists t0.
Qed.

Section Frame.
Variable icase : bool.

Lemma frame_repeat r gs g :
  (∀ p q t x y c s,
     In s (ms icase r (MState p (t ++ x) c)) → rest s = x →
     same_context r p q x y →
     In (MState (last_of q t) y (caps s)) (ms icase r (MState q (t ++ y) c))) →
  ∀ f1 f2 mn mx p q t x y c s,
    In s (repeat_matcher (ms icase r) gs f1 mn mx g (MState p (t ++ x) c)) →
    rest s = x →
    same_context r p q x y →
    (mn + length (t ++ y) + 1 <= f2)%nat →
    In (MState (last_of q t) y (caps s))
       (repeat_matcher (ms icase r) gs f2 mn mx g (MState q (t ++ y) c)).
Proof.
  intros IHr f1. induction f1 as [|f1 IH]; intros f2 mn mx p q t x y c s H Hx Hc Hf; [done|].
  destruct f2 as [|f2]; [lia|].
  apply repeat_matcher_in in H as [[Hstop ->]|(f' & st1 & [= <-] & Hmx & H1 & Hp & H2)].
  - simpl in Hx. apply app_same_length in Hx as ->. simpl.
    apply repeat_matcher_stop. done.
  - unfold clear_caps in H1. simpl in H1.
    destruct (ms_advances _ _ _ _ H1) as (t1 & [A1 A1']). simpl in A1, A1'.
    destruct (repeat_matcher_advances _ _ _ _ _ _ _ _ _ H2) as (t2 & [A2 _]).
    rewrite Hx in A2.
    assert (Ht : t = t1 ++ t2).
    { rewrite A2, app_assoc in A1. by apply app_inv_tail in A1. }
    subst t.
    assert (Hst1 : st1 = MState (last_of p t1) (t2 ++ x) (caps st1)).
    { destruct st1 as [p1 r1 c1]; simpl in *. by subst. }
    apply (repeat_matcher_more _ _ _ _ _ _ _ (MState (last_of q t1) (t2 ++ y) (caps st1))).
    + done.
    + unfold clear_caps. simpl. rewrite <- app_assoc.
      apply (IHr p q t1 (t2 ++ x) (t2 ++ y)); [by rewrite app_assoc|done|].
      by apply same_context_before.
    + intros Hmn. specialize (Hp Hmn). simpl in Hp |- *.
      rewrite A2 in Hp. rewrite !length_app in *. lia.
    + rewrite Hst1 in H2. rewrite last_of_app.
      apply (IH f2 _ _ (last_of p t1) (last_of q t1) t2 x y (caps st1) s H2 Hx).
      * by apply same_context_after.
      * destruct mn as [|mn]; simpl.
        -- specialize (Hp eq_refl). simpl in Hp. rewrite A2 in Hp.
           rewrite !length_app in *. lia.
        -- rewrite !length_app in *. lia.
Qed.

(** A match of a pattern without back-references is a match wherever the
    same text stands in the same kind of context. *)
Lemma ms_frame r :
  backref_free r = true →
  ∀ p q t x y c s,
    In s (ms icase r (MState p (t ++ x) c)) → rest s = x →
    same_context r p q x y →
    In (MState (last_of q t) y (caps s)) (ms icase r (MState q (t ++ y) c)).
Proof.
  induction r as [|a|atoms| |r1 IH1 r2 IH2|r1 IH1 r2 IH2|n r IH|n|r IH mn mx g];
    intros Hb p q t x y c s H Hx Hc.
  - destruct H as [<-|[]]. simpl in Hx. apply app_same_length in Hx as ->. by left.
  - simpl in H. destruct (t ++ x) as [|c0 s'] eqn:E; [done|].
    destruct (chr_match icase a c0) eqn:Hm; [|done]. destruct H as [<-|[]].
    simpl in Hx. subst s'.
    assert (t = [c0]) as ->.
    { change (c0 :: x) with ([c0] ++ x) in E. by apply app_inv_tail in E. }
    simpl. rewrite Hm. by left.
  - simpl in H. destruct (t ++ x) as [|c0 s'] eqn:E; [done|].
    destruct (cls_match icase atoms c0) eqn:Hm; [|done]. destruct H as [<-|[]].
    simpl in Hx. subst s'.
    assert (t = [c0]) as ->.
    { change (c0 :: x) with ([c0] ++ x) in E. by apply app_inv_tail in E. }
    simpl. rewrite Hm. by left.
  - apply in_ms_WordB in H as [-> Hw]. simpl in Hx, Hw.
    apply app_same_length in Hx as ->. simpl in Hw |- *.
    apply (in_ms_WordB icase (MState q y c)). split; [done|]. simpl.
    destruct Hc as [Hc|[-> ->]]; [done|exact Hw].
  - simpl in Hb. apply andb_true_iff in Hb as [Hb1 Hb2].
    apply in_ms_Seq in H as (s1 & H1 & H2).
    destruct (ms_advances _ _ _ _ H1) as (t1 & [A1 A1']). simpl in A1, A1'.
    destruct (ms_advances _ _ _ _ H2) as (t2 & [A2 _]). rewrite Hx in A2.
    assert (Ht : t = t1 ++ t2).
    { rewrite A2, app_assoc in A1. by apply app_inv_tail in A1. }
    subst t.
    assert (Hs1 : s1 = MState (last_of p t1) (t2 ++ x) (caps s1)).
    { destruct s1 as [p1 r1' c1]; simpl in *. by subst. }
    apply in_ms_Seq. exists (MState (last_of q t1) (t2 ++ y) (caps s1)). split.
    + rewrite <- app_assoc.
      apply (IH1 Hb1 p q t1 (t2 ++ x) (t2 ++ y)); [by rewrite app_assoc|done|].
      apply same_context_before. eapply same_context_sub; [|exact Hc].
      simpl. intros E. by apply andb_true_iff in E as [E _].
    + rewrite Hs1 in H2. rewrite last_of_app.
      apply (IH2 Hb2 (last_of p t1) (last_of q t1) t2 x y (caps s1) s H2 Hx).
      apply same_context_after. eapply same_context_sub; [|exact Hc].
      simpl. intros E. by apply andb_true_iff in E as [_ E].
  - simpl in Hb. apply andb_true_iff in Hb as [Hb1 Hb2].
    rewrite ms_Alt in *. apply in_or_app. apply in_app_or in H as [H|H].
    + left. apply (IH1 Hb1 p q t x y c s H Hx).
      eapply same_context_sub; [|exact Hc].
      simpl. intros E. by apply andb_true_iff in E as [E _].
    + right. apply (IH2 Hb2 p q t x y c s H Hx).
      eapply same_context_sub; [|exact Hc].
      simpl. intros E. by apply andb_true_iff in E as [_ E].
  - apply in_ms_Group in H as (s0 & t0 & H & [A0 _] & ->). simpl in A0, Hx.
    rewrite Hx in A0. apply app_inv_tail in A0 as <-.
    apply in_ms_Group. exists (MState (last_of q t) y (caps s0)), t.
    split; [|split; [split; done|done]].
    apply (IH Hb p q t x y c s0 H Hx). exact Hc.
  - done.
  - rewrite ms_Rep in *. simpl rest.
    eapply (frame_repeat r (groups r) g); [|exact H|exact Hx|exact Hc|lia].
    intros p0 q0 t0 x0 y0 c0 s0. by apply IH.
Qed.

End Frame.

Lemma rejects_leaves c0 r :
  rejects c0 r = true → leaves false (Forall (fun c => c ≠ c0)) r.
Proof.
  induction r as [|a|atoms| |r1 IH1 r2 IH2|r1 IH1 r2 IH2|n r IH|n|r IH mn mx g];
    simpl; intros H; try done.
  - intros c Hc. apply N.eqb_eq in Hc as ->. constructor; [|constructor].
    intros ->. by rewrite N.eqb_refl in H.
  - intros c Hc. constructor; [|constructor]. intros ->. by rewrite Hc in H.
  - apply andb_true_iff in H as [H1 H2]. auto.
  - apply andb_true_iff in H as [H1 H2]. auto.
  - auto.
  - auto.
Qed.

Lemma rejected_text c0 r st s t :
  rejects c0 r = true → In s (ms false r st) → advances st s t →
  Forall (fun c => c ≠ c0) t.
Proof.
  intros Hr H A.
  destruct (ms_text false (Forall (fun c => c ≠ c0)) (List.Forall_nil _)
              (fun a b Ha Hb => proj2 (List.Forall_app _ a b) (conj Ha Hb))
              r (rejects_leaves c0 r Hr) st s H) as (t' & A' & Ht).
  by rewrite (advances_inj _ _ _ _ A A').
Qed.

Lemma match_at_rejected c0 r p z m :
  rejects c0 r = true → match_at false r p z = Some m →
  Forall (fun c => c ≠ c0) (matched m).
Proof.
  intros Hr H. apply match_at_state in H as (st & t & Hst & A & ->). simpl.
  by apply (rejected_text c0 r _ st t Hr Hst).
Qed.

Lemma match_at_nonempty r p z m :
  (1 <= min_len r)%nat → match_at false r p z = Some m → matched m ≠ [].
Proof.
  intros Hr H. apply match_at_state in H as (st & t & Hst & A & ->). simpl.
  pose proof (ms_min_len _ _ _ _ _ Hst A). destruct t; [simpl in *; lia|done].
Qed.

Lemma match_at_in r p z st :
  In st (ms false r (MState p z [])) → match_at false r p z ≠ None.
Proof. intros H. apply match_at_some. by exists st. Qed.

(** A match of a pattern without [\b] and back-references does not depend
    on what stands around its text. *)
Lemma match_at_frame r q z m p x :
  backref_free r = true → wordb_free r = true →
  match_at false r q z = Some m →
  match_at false r p (matched m ++ x) ≠ None.
Proof.
  intros Hb Hw H. apply match_at_state in H as (st & t & Hst & [A _] & ->). simpl in *.
  rewrite A in Hst.
  apply (match_at_in r p (t ++ x) (MState (last_of p t) x (caps st))).
  apply (ms_frame false r Hb q p t (rest st) x [] st Hst eq_refl). by left.
Qed.

(** ** The output of a replacement *)

Lemma prefix_before_star (l1 l2 t z : jsstring) :
  l1 ++ star :: l2 = t ++ z → Forall (fun c => c ≠ star) t → ∃ u, l1 = t ++ u.
Proof.
  revert l1. induction t as [|c t IH]; intros l1 H Ht; [by exists l1|].
  inversion Ht as [|? ? Hc Ht']; subst.
  destruct l1 as [|c' l1]; simpl in H.
  - injection H as H _. by destruct Hc.
  - injection H as -> H. destruct (IH l1 H Ht') as (u & ->). by exists u.
Qed.

Section Scan.
Variables (r : regex) (f : rmatch → jsstring).

(** Each match is not empty and is replaced by some of its first
    characters followed by text that starts with the mask character. *)
Hypothesis replaced :
  ∀ p s m, match_at false r p s = Some m →
    matched m ≠ [] ∧ ∃ k tail, f m = firstn k (matched m) ++ star :: tail.

Lemma scan_hit fuel p s m :
  match_at false r p s = Some m →
  scan_out r f (S fuel) p s = f m ++ scan_out r f fuel (last_of p (matched m)) (after m).
Proof using replaced.
  intros H. unfold scan_out, render. simpl. rewrite H.
  destruct (replaced _ _ _ H) as [Hne _].
  destruct (matched m) as [|c t] eqn:Ht; [done|]. reflexivity.
Qed.

Lemma scan_copy fuel p c s :
  match_at false r p (c :: s) = None →
  scan_out r f (S fuel) p (c :: s) = c :: scan_out r f fuel (Some c) s.
Proof. intros H. unfold scan_out, render. simpl. by rewrite H. Qed.

Lemma scan_nil fuel p :
  match_at false r p [] = None → scan_out r f (S fuel) p [] = [].
Proof. intros H. unfold scan_out, render. simpl. by rewrite H. Qed.

(** Text of the output up to the first mask character is text of the
    input. *)
Lemma scan_prefix fuel p s t z :
  (length s < fuel)%nat →
  scan_out r f fuel p s = t ++ z → Forall (fun c => c ≠ star) t →
  ∃ x, s = t ++ x.
Proof using replaced.
  revert p s t z. induction fuel as [|fuel IH]; intros p s t z Hlen H Ht; [lia|].
  destruct (match_at false r p s) as [m|] eqn:Hm.
  - rewrite (scan_hit _ _ _ _ Hm) in H.
    destruct (replaced _ _ _ Hm) as [Hne (k & tail & Hf)].
    rewrite Hf, <- app_assoc in H. simpl in H.
    destruct (prefix_before_star _ _ _ _ H Ht) as (u & Hu).
    exists (u ++ skipn k (matched m) ++ after m).
    rewrite (match_at_text _ _ _ _ _ Hm).
    rewrite <- (firstn_skipn k (matched m)) at 1. rewrite Hu.
    by rewrite <- !app_assoc.
  - destruct s as [|c s].
    + rewrite (scan_nil _ _ Hm) in H. symmetry in H.
      apply app_eq_nil in H as [-> _]. by exists [].
    + rewrite (scan_copy _ _ _ _ Hm) in H. destruct t as [|c' t].
      * by exists (c :: s).
      * simpl in H. injection H as <- H. inversion Ht; subst.
        destruct (IH (Some c) s t z) as (x & ->); [simpl in Hlen; lia|done|done|].
        by exists x.
Qed.

(** [r'] is the pattern that is to find nothing in the output. *)
Variable r' : regex.
Hypothesis backref_free' : backref_free r' = true.
Hypothesis wordb_free' : wordb_free r' = true.
Hypothesis rejects_star' : rejects star r' = true.
Hypothesis nonempty' : (1 <= min_len r')%nat.

(** No match of [r'] starts inside a replacement. *)
Hypothesis inside :
  ∀ p s m a b z q, match_at false r p s = Some m → f m = a ++ b → b ≠ [] →
    match_at false r' q (b ++ z) = None.

(** What is known of the input: where the scan copies, [r'] does not
    match. *)
Variable Good : option N → jsstring → Prop.
Hypothesis good_copy :
  ∀ p c s, Good p (c :: s) → match_at false r p (c :: s) = None →
    match_at false r' p (c :: s) = None ∧ Good (Some c) s.
Hypothesis good_hit :
  ∀ p s m, Good p s → match_at false r p s = Some m →
    Good (last_of p (matched m)) (after m).

Lemma match_at_empty q : match_at false r' q [] = None.
Proof using nonempty'.
  destruct (match_at false r' q []) as [m|] eqn:H; [|done].
  pose proof (match_at_nonempty _ _ _ _ nonempty' H) as Hne.
  pose proof (match_at_text _ _ _ _ _ H) as Ht. symmetry in Ht.
  apply app_eq_nil in Ht as [Ht _]. done.
Qed.

Theorem scan_silent fuel p s :
  (length s < fuel)%nat → Good p s → silent r' (scan_out r f fuel p s).
Proof using All.
  revert p s. induction fuel as [|fuel IH]; intros p s Hlen HG; [lia|].
  destruct (match_at false r p s) as [m|] eqn:Hm.
  - rewrite (scan_hit _ _ _ _ Hm).
    destruct (replaced _ _ _ Hm) as [Hne _].
    pose proof (match_at_text _ _ _ _ _ Hm) as Hs.
    assert (Hlen' : (length (after m) < fuel)%nat).
    { rewrite Hs, length_app in Hlen. destruct (matched m); [done|simpl in Hlen; lia]. }
    specialize (IH _ _ Hlen' (good_hit _ _ _ HG Hm)).
    intros a b q Hab.
    destruct (app_eq_app _ _ _ _ Hab) as (l & [[H1 H2]|[H1 H2]]).
    + (* the position is inside the replacement, or just behind it *)
      destruct l as [|x l].
      * simpl in H2. subst b. by apply (IH [] _ q).
      * rewrite H2. by apply (inside p s m a (x :: l) _ q Hm).
    + by apply (IH l b q).
  - destruct s as [|c s].
    + rewrite (scan_nil _ _ Hm). intros a b q Hab. symmetry in Hab.
      apply app_eq_nil in Hab as [_ ->]. apply match_at_empty.
    + rewrite (scan_copy _ _ _ _ Hm).
      destruct (good_copy _ _ _ HG Hm) as [Hno HG'].
      assert (Hlen' : (length s < fuel)%nat) by (simpl in Hlen; lia).
      specialize (IH _ _ Hlen' HG').
      intros a b q Hab. destruct a as [|c' a].
      * simpl in Hab. subst b.
        destruct (match_at false r' q (c :: scan_out r f fuel (Some c) s)) as [m'|] eqn:Hm';
          [|done].
        pose proof (match_at_rejected _ _ _ _ _ rejects_star' Hm') as Hstar.
        pose proof (match_at_text _ _ _ _ _ Hm') as Ht.
        rewrite <- (scan_copy fuel p c s Hm) in Ht.
        destruct (scan_prefix (S fuel) p (c :: s) _ _ Hlen Ht Hstar) as (x & Hx).
        destruct (match_at_frame r' q _ m' p x backref_free' wordb_free' Hm').
        by rewrite <- Hx.
      * simpl in Hab. injection Hab as <- Hab. by apply (IH a b q).
Qed.

End Scan.

Lemma replace_all_scan r f s :
  replace_all false r f s = scan_out r f (S (length s)) None s.
Proof. reflexivity. Qed.

Lemma silent_quiet r p s : silent r s → quiet r p s.
Proof. intros H a b Hab. by apply (H a b). Qed.

Lemma quiet_tail r p c s : quiet r p (c :: s) → quiet r (Some c) s.
Proof.
  intros H a b Hab. rewrite <- last_of_cons with (p := p).
  apply (H (c :: a) b). simpl. by f_equal.
Qed.

Lemma quiet_after r p t s : quiet r p (t ++ s) → quiet r (last_of p t) s.
Proof.
  intros H a b Hab. rewrite <- last_of_app.
  apply (H (t ++ a) b). by rewrite Hab, app_assoc.
Qed.

(** Where a pattern finds nothing, replacing its matches changes nothing. *)
Lemma scan_quiet r f fuel p s :
  (length s < fuel)%nat → quiet r p s → scan_out r f fuel p s = s.
Proof.
  revert p s. induction fuel as [|fuel IH]; intros p s Hlen Hq; [lia|].
  pose proof (Hq [] s eq_refl) as H0. change (last_of p []) with p in H0.
  destruct s as [|c s].
  - unfold scan_out, render. simpl. by rewrite H0.
  - unfold scan_out, render. simpl. rewrite H0. simpl. f_equal.
    apply IH; [simpl in Hlen; lia|]. by apply (quiet_tail r p c s).
Qed.

Lemma replace_all_quiet r f s : quiet r None s → replace_all false r f s = s.
Proof. intros H. rewrite replace_all_scan. apply scan_quiet; [lia|done]. Qed.

(** ** The three masking patterns *)

Lemma EMAIL_RE_eq :
  EMAIL_RE =
  Seq (Group 1 (plus (Cls EMAIL_LOCAL)))
    (Seq (Chr (ch "@"))
       (Group 2 (seqs [plus (Cls EMAIL_DOMAIN); Chr (ch "."); Rep (Cls LETTER) 2 None true]))).
Proof. reflexivity. Qed.

Lemma ms_chr_in icase x st s :
  In s (ms icase (Chr x) st) ↔
  ∃ c, rest st = c :: rest s ∧ chr_match icase x c = true
       ∧ s = MState (Some c) (rest s) (caps st).
Proof.
  simpl. destruct (rest st) as [|c s'] eqn:Hr.
  - split; [done|]. intros (c & H & _); done.
  - destruct (chr_match icase x c) eqn:Hc.
    + split.
      * intros [<-|[]]. exists c. done.
      * intros (c' & [= <- ->] & _ & ->). by left.
    + split; [done|]. intros (c' & [= <- ->] & Hc' & _). congruence.
Qed.

(** An e-mail match is a non-empty local part, held by group 1, then
    [@], then the domain. *)
Lemma email_states p z s :
  In s (ms false EMAIL_RE (MState p z [])) →
  ∃ l d, z = l ++ ch "@" :: d ++ rest s ∧ l ≠ []
         ∧ lookup_cap 1 (caps s) = Some l.
Proof.
  rewrite EMAIL_RE_eq. intros H.
  apply in_ms_Seq in H as (s1 & H1 & H).
  apply in_ms_Group in H1 as (s10 & l & H1 & [Al _] & ->). simpl in Al.
  apply ms_rep_cls in H1 as (l' & [Al' _] & Cl & _ & Ll). simpl in Al', Cl, Ll.
  rewrite Al' in Al. apply app_inv_tail in Al as ->.
  apply in_ms_Seq in H as (s2 & H2 & H).
  apply ms_chr_in in H2 as (c & Hr2 & Hc & Hs2). simpl in Hr2, Hc.
  apply N.eqb_eq in Hc as ->.
  apply in_ms_Group in H as (s0 & d & H & [Ad _] & ->). simpl in Ad.
  apply ms_caps_group_free in H; [|reflexivity].
  assert (Hc2 : caps s2 = (1%nat, l) :: caps s10) by (by rewrite Hs2).
  exists l, d. split; [|split].
  - rewrite Al', Hr2, Ad. done.
  - by apply length_pos_nonempty.
  - simpl. by rewrite H, Hc2.
Qed.

Lemma email_match p z m :
  match_at false EMAIL_RE p z = Some m →
  ∃ c l d, matched m = (c :: l) ++ ch "@" :: d
           ∧ email_mask m = c :: js "***@***".
Proof.
  intros H. apply match_at_state in H as (st & t & Hst & [A _] & ->). simpl in A.
  apply email_states in Hst as (l & d & Hz & Hl & Hc).
  destruct l as [|c l]; [done|].
  exists c, l, d. unfold email_mask. simpl. rewrite Hc. split; [|done].
  rewrite A in Hz. apply (app_inv_tail (rest st)). rewrite Hz.
  simpl. f_equal. rewrite <- app_assoc. reflexivity.
Qed.

Lemma email_replaced p s m :
  match_at false EMAIL_RE p s = Some m →
  matched m ≠ [] ∧ ∃ k tail, email_mask m = firstn k (matched m) ++ star :: tail.
Proof.
  intros H. destruct (email_match _ _ _ H) as (c & l & d & Hm & Hf).
  rewrite Hm, Hf. split; [done|]. exists 1%nat, (js "**@***"). reflexivity.
Qed.

Lemma constant_replaced r mask tail p s m :
  (1 <= min_len r)%nat → mask = star :: tail →
  match_at false r p s = Some m →
  matched m ≠ [] ∧ ∃ k tail', (fun _ : rmatch => mask) m = firstn k (matched m) ++ star :: tail'.
Proof.
  intros Hr -> H. split; [by apply (match_at_nonempty r p s)|].
  exists 0%nat, tail. reflexivity.
Qed.

Lemma email_pattern_facts :
  backref_free EMAIL_RE = true ∧ wordb_free EMAIL_RE = true
  ∧ rejects star EMAIL_RE = true ∧ (1 <= min_len EMAIL_RE)%nat.
Proof. repeat split; vm_compute; (reflexivity || lia). Qed.

Lemma phone_pattern_facts :
  backref_free PHONE_RE = true ∧ wordb_free PHONE_RE = true
  ∧ rejects star PHONE_RE = true ∧ (1 <= min_len PHONE_RE)%nat.
Proof. repeat split; vm_compute; (reflexivity || lia). Qed.

Lemma card_pattern_facts :
  backref_free CREDIT_CARD_RE = true
  ∧ rejects star CREDIT_CARD_RE = true ∧ (1 <= min_len CREDIT_CARD_RE)%nat.
Proof. repeat split; vm_compute; (reflexivity || lia). Qed.

Lemma ms_opt icase r0 st s :
  In s (ms icase (opt r0) st) → s = st ∨ In s (ms icase r0 (clear_caps (groups r0) st)).
Proof.
  unfold opt. rewrite ms_Rep. intros H.
  apply repeat_matcher_in in H as [[_ ->]|(f' & st1 & _ & _ & H1 & _ & H2)]; [by left|].
  right.
  apply repeat_matcher_in in H2 as [[_ ->]|(f'' & st2 & _ & Hmx & _)]; done.
Qed.

Lemma PHONE_RE_eq :
  PHONE_RE =
  Group 1 (Seq (opt (Chr (ch "+")))
             (Seq (Rep (Cls [ADigit]) 1 (Some 3%nat) true)
                (seqs [opt (Cls PHONE_SEP);
                       Group 2 (Rep (Cls [ADigit]) 2 (Some 4%nat) true);
                       opt (Cls PHONE_SEP);
                       Rep (Cls [ADigit]) 3 (Some 4%nat) true;
                       opt (Cls PHONE_SEP);
                       Rep (Cls [ADigit]) 3 (Some 4%nat) true]))).
Proof. reflexivity. Qed.

Lemma cls_match_digit c : cls_match false [ADigit] c = is_digit c.
Proof. unfold cls_match, cls_mem. simpl. by rewrite orb_false_r. Qed.

(** A phone match starts with [+] or with a digit. *)
Lemma phone_first q z st :
  In st (ms false PHONE_RE (MState q z [])) →
  ∃ c z0, z = c :: z0 ∧ (c =? ch "+") || is_digit c = true.
Proof.
  rewrite PHONE_RE_eq. intros H.
  apply in_ms_Group in H as (s0 & t & H & _ & _).
  apply in_ms_Seq in H as (s1 & H1 & H).
  apply in_ms_Seq in H as (s2 & H2 & _).
  apply ms_opt in H1 as [->|H1].
  - apply ms_rep_cls in H2 as (t1 & [A1 _] & _ & F1 & L1). simpl in A1, L1.
    destruct t1 as [|c t1]; [simpl in L1; lia|].
    exists c, (t1 ++ rest s2). split; [done|].
    inversion F1; subst. rewrite cls_match_digit in *. apply orb_true_iff. by right.
  - apply ms_chr_in in H1 as (c & Hr & Hc & _). simpl in Hr, Hc.
    exists c, (rest s1). split; [done|]. apply orb_true_iff. by left.
Qed.

Lemma suffix_ends_with (mask a b : jsstring) x :
  last mask = Some x → mask = a ++ b → b ≠ [] → ∃ u, b = u ++ [x].
Proof.
  intros Hl -> Hb. destruct b as [|c b] using rev_ind; [done|].
  rewrite app_assoc, last_snoc in Hl. injection Hl as ->. by exists b.
Qed.

(** No match that must start with one of certain characters starts inside
    a mask that has none of them. *)
Lemma inside_by_first r' (S : N → bool) (mask : jsstring) :
  (∀ q z st, In st (ms false r' (MState q z [])) → ∃ c z0, z = c :: z0 ∧ S c = true) →
  Forall (fun c => S c = false) mask →
  ∀ a b z q, mask = a ++ b → b ≠ [] → match_at false r' q (b ++ z) = None.
Proof.
  intros Hfirst Hmask a b z q -> Hb.
  destruct (match_at false r' q (b ++ z)) as [m|] eqn:Hm; [|done].
  apply match_at_state in Hm as (st & t & Hst & _).
  apply Hfirst in Hst as (c & z0 & Hz & Hc).
  destruct b as [|c' b]; [done|]. simpl in Hz. injection Hz as -> _.
  apply List.Forall_app in Hmask as [_ Hmask]. inversion Hmask; subst. congruence.
Qed.

(** No e-mail match starts inside a mask that ends with the mask
    character and has no [@]. *)
Lemma inside_email (mask : jsstring) :
  last mask = Some star → Forall (fun c => c ≠ ch "@") mask →
  ∀ a b z q, mask = a ++ b → b ≠ [] → match_at false EMAIL_RE q (b ++ z) = None.
Proof.
  intros Hl Hmask a b z q Hab Hb.
  destruct (match_at false EMAIL_RE q (b ++ z)) as [m|] eqn:Hm; [|done].
  pose proof (match_at_rejected star _ _ _ _
                (proj1 (proj2 (proj2 email_pattern_facts))) Hm) as Hstar.
  pose proof (match_at_text _ _ _ _ _ Hm) as Ht.
  destruct (email_match _ _ _ Hm) as (c & l & d & Hmt & _).
  destruct (suffix_ends_with mask a b star Hl Hab Hb) as (u & ->).
  rewrite <- app_assoc in Ht. simpl in Ht.
  destruct (prefix_before_star _ _ _ _ Ht Hstar) as (u' & ->).
  subst mask. rewrite Hmt in Hmask.
  apply List.Forall_app in Hmask as [_ Hmask].
  apply List.Forall_app in Hmask as [Hmask _].
  apply List.Forall_app in Hmask as [Hmask _].
  apply List.Forall_app in Hmask as [_ Hmask].
  inversion Hmask; subst. done.
Qed.

(** No e-mail match starts inside the e-mail mask. *)
Lemma email_inside p s m a b z q :
  match_at false EMAIL_RE p s = Some m → email_mask m = a ++ b → b ≠ [] →
  match_at false EMAIL_RE q (b ++ z) = None.
Proof.
  intros Hm Hab Hb.
  destruct (email_match _ _ _ Hm) as (c & l & d & _ & Hf). rewrite Hf in Hab.
  destruct (match_at false EMAIL_RE q (b ++ z)) as [m'|] eqn:Hm'; [|done].
  pose proof (match_at_rejected star _ _ _ _
                (proj1 (proj2 (proj2 email_pattern_facts))) Hm') as Hstar.
  pose proof (match_at_text _ _ _ _ _ Hm') as Ht.
  destruct (email_match _ _ _ Hm') as (c' & l' & d' & Hmt & _).
  assert (H2 : ∃ x1 x2 w, b ++ z = x1 :: x2 :: w ∧ x1 ≠ star ∧ x2 ≠ star).
  { rewrite Ht, Hmt. rewrite Hmt in Hstar.
    inversion Hstar as [|? ? Hc Hrest]; subst.
    destruct l' as [|x2 l']; simpl in Hrest; inversion Hrest; subst.
    - exists c', (ch "@"), (d' ++ after m'). done.
    - exists c', x2, ((l' ++ ch "@" :: d') ++ after m'). done. }
  destruct H2 as (x1 & x2 & w & Hz & Hx1 & Hx2).
  change (js "***@***") with [star; star; star; ch "@"; star; star; star] in Hab.
  clear -Hab Hb Hz Hx1 Hx2.
  repeat (destruct a as [|? a];
          [ simpl in Hab; subst b; simpl in Hz; injection Hz; intros; subst;
            congruence
          | simpl in Hab; injection Hab as ? Hab ]).
  destruct a; simpl in Hab; [by subst b|discriminate].
Qed.

Lemma mask_facts :
  PHONE_MASK = star :: js "**-PHONE-***" ∧ CARD_MASK = star :: js "***-CARD-****"
  ∧ last PHONE_MASK = Some star ∧ last CARD_MASK = Some star
  ∧ Forall (fun c => c ≠ ch "@") PHONE_MASK ∧ Forall (fun c => c ≠ ch "@") CARD_MASK
  ∧ Forall (fun c => (c =? ch "+") || is_digit c = false) PHONE_MASK
  ∧ Forall (fun c => (c =? ch "+") || is_digit c = false) CARD_MASK.
Proof.
  repeat split; try reflexivity;
    repeat (constructor; [first [discriminate|reflexivity]|]); constructor.
Qed.

Lemma quiet_good_copy r r' p c s :
  quiet r' p (c :: s) → match_at false r p (c :: s) = None →
  match_at false r' p (c :: s) = None ∧ quiet r' (Some c) s.
Proof.
  intros Hq _. split; [exact (Hq [] (c :: s) eq_refl)|by apply (quiet_tail r' p c s)].
Qed.

Lemma quiet_good_hit r r' p s m :
  quiet r' p s → match_at false r p s = Some m →
  quiet r' (last_of p (matched m)) (after m).
Proof.
  intros Hq Hm. apply quiet_after. by rewrite <- (match_at_text _ _ _ _ _ Hm).
Qed.

(** After the e-mail pass no e-mail pattern is left. *)
Lemma mask_email_silent s : silent EMAIL_RE (mask_email s).
Proof.
  destruct email_pattern_facts as (Hb & Hw & Hs & Hn).
  unfold mask_email. rewrite replace_all_scan.
  apply (scan_silent EMAIL_RE email_mask email_replaced EMAIL_RE Hb Hw Hs Hn
           email_inside (fun _ _ => True)); [done|done|lia|done].
Qed.

(** After the phone pass no phone pattern is left. *)
Lemma mask_phone_silent s : silent PHONE_RE (mask_phone s).
Proof.
  destruct phone_pattern_facts as (Hb & Hw & Hs & Hn).
  destruct mask_facts as (Hpm & _ & _ & _ & _ & _ & Hpf & _).
  unfold mask_phone. rewrite replace_all_scan.
  apply (scan_silent PHONE_RE (fun _ => PHONE_MASK)
           (fun p0 s0 m0 => constant_replaced PHONE_RE PHONE_MASK _ p0 s0 m0 Hn Hpm)
           PHONE_RE Hb Hw Hs Hn) with (Good := fun _ _ => True); [|done|done|lia|done].
  intros p s0 m a b z q _ Hab Hne.
  by apply (inside_by_first PHONE_RE (fun c => (c =? ch "+") || is_digit c)
              PHONE_MASK phone_first Hpf a b z q).
Qed.

(** The phone pass and the card pass bring no e-mail pattern about, the
    card pass no phone pattern. *)
Lemma mask_phone_keeps_email s : quiet EMAIL_RE None s → silent EMAIL_RE (mask_phone s).
Proof.
  intros Hq.
  destruct email_pattern_facts as (Hb & Hw & Hs & Hn).
  destruct phone_pattern_facts as (_ & _ & _ & Hpn).
  destruct mask_facts as (Hpm & _ & Hpl & _ & Hpa & _).
  unfold mask_phone. rewrite replace_all_scan.
  apply (scan_silent PHONE_RE (fun _ => PHONE_MASK)
           (fun p0 s0 m0 => constant_replaced PHONE_RE PHONE_MASK _ p0 s0 m0 Hpn Hpm)
           EMAIL_RE Hb Hw Hs Hn) with (Good := quiet EMAIL_RE); [| | |lia|done].
  - intros p s0 m a b z q _ Hab Hne. by apply (inside_email PHONE_MASK Hpl Hpa a b z q).
  - intros p c s0. apply quiet_good_copy.
  - intros p s0 m. apply quiet_good_hit.
Qed.

Lemma mask_card_keeps_email s : quiet EMAIL_RE None s → silent EMAIL_RE (mask_card s).
Proof.
  intros Hq.
  destruct email_pattern_facts as (Hb & Hw & Hs & Hn).
  destruct card_pattern_facts as (_ & _ & Hcn).
  destruct mask_facts as (_ & Hcm & _ & Hcl & _ & Hca & _).
  unfold mask_card. rewrite replace_all_scan.
  apply (scan_silent CREDIT_CARD_RE (fun _ => CARD_MASK)
           (fun p0 s0 m0 => constant_replaced CREDIT_CARD_RE CARD_MASK _ p0 s0 m0 Hcn Hcm)
           EMAIL_RE Hb Hw Hs Hn) with (Good := quiet EMAIL_RE); [| | |lia|done].
  - intros p s0 m a b z q _ Hab Hne. by apply (inside_email CARD_MASK Hcl Hca a b z q).
  - intros p c s0. apply quiet_good_copy.
  - intros p s0 m. apply quiet_good_hit.
Qed.

Lemma mask_card_keeps_phone s : quiet PHONE_RE None s → silent PHONE_RE (mask_card s).
Proof.
  intros Hq.
  destruct phone_pattern_facts as (Hb & Hw & Hs & Hn).
  destruct card_pattern_facts as (_ & _ & Hcn).
  destruct mask_facts as (_ & Hcm & _ & _ & _ & _ & _ & Hcf).
  unfold mask_card. rewrite replace_all_scan.
  apply (scan_silent CREDIT_CARD_RE (fun _ => CARD_MASK)
           (fun p0 s0 m0 => constant_replaced CREDIT_CARD_RE CARD_MASK _ p0 s0 m0 Hcn Hcm)
           PHONE_RE Hb Hw Hs Hn) with (Good := quiet PHONE_RE); [| | |lia|done].
  - intros p s0 m a b z q _ Hab Hne.
    by apply (inside_by_first PHONE_RE (fun c => (c =? ch "+") || is_digit c)
                CARD_MASK phone_first Hcf a b z q).
  - intros p c s0. apply quiet_good_copy.
  - intros p s0 m. apply quiet_good_hit.
Qed.

Lemma CREDIT_CARD_RE_eq :
  CREDIT_CARD_RE =
  Seq WordB
    (Seq (Rep (Seq (Cls [ADigit]) (Rep (Cls CARD_SEP) 0 None false))
            13 (Some 16%nat) true)
       WordB).
Proof. reflexivity. Qed.

Lemma digit_is_word c : is_digit c = true → is_word c = true.
Proof. unfold is_word. intros ->. by rewrite !orb_true_r. Qed.

(** A card match starts at a word boundary with a digit and ends at a
    word boundary. *)
Lemma card_states q z st :
  In st (ms false CREDIT_CARD_RE (MState q z [])) →
  xorb (is_word_opt q) (is_word_opt (head z)) = true
  ∧ (∃ c z0, z = c :: z0 ∧ is_digit c = true)
  ∧ xorb (is_word_opt (prev st)) (is_word_opt (head (rest st))) = true.
Proof.
  rewrite CREDIT_CARD_RE_eq. intros H.
  apply in_ms_Seq in H as (s1 & H1 & H). apply in_ms_WordB in H1 as [-> Hlead].
  apply in_ms_Seq in H as (s2 & H2 & H). apply in_ms_WordB in H as [-> Htrail].
  split; [exact Hlead|]. split; [|exact Htrail].
  rewrite ms_Rep in H2.
  apply repeat_matcher_in in H2 as [[[|] _]|(f' & st1 & _ & _ & H1 & _ & _)]; [done|done|].
  apply in_ms_Seq in H1 as (s3 & H3 & _).
  apply ms_cls_in in H3 as (c & Hr & Hc & _). simpl in Hr.
  rewrite cls_match_digit in Hc. by exists c, (rest s3).
Qed.

Lemma card_first q z st :
  In st (ms false CREDIT_CARD_RE (MState q z [])) →
  ∃ c z0, z = c :: z0 ∧ is_digit c = true.
Proof. intros H. by apply card_states in H as (_ & H & _). Qed.

(** Text of the output of a constant replacement up to the first mask
    character is text of the input, followed in both by the same
    character or, in the output, by a replacement. *)
Lemma scan_prefix_context r mask tail fuel p s t z :
  (1 <= min_len r)%nat → mask = star :: tail →
  (length s < fuel)%nat →
  scan_out r (fun _ => mask) fuel p s = t ++ z → Forall (fun c => c ≠ star) t →
  ∃ x, s = t ++ x
       ∧ (head z = head x
          ∨ (head z = Some star ∧ match_at false r (last_of p t) x ≠ None)).
Proof.
  intros Hn Hmask. revert p s t z.
  induction fuel as [|fuel IH]; intros p s t z Hlen H Ht; [lia|].
  pose proof (fun p0 s0 m0 => constant_replaced r mask tail p0 s0 m0 Hn Hmask) as Hrep.
  destruct (match_at false r p s) as [m|] eqn:Hm.
  - rewrite (scan_hit r _ Hrep _ _ _ _ Hm) in H. rewrite Hmask in H. simpl in H.
    destruct t as [|c t].
    + exists s. split; [done|]. right. simpl in H. rewrite <- H. simpl.
      split; [done|]. change (last_of p []) with p. by rewrite Hm.
    + simpl in H. injection H as <- _. inversion Ht; subst. done.
  - destruct s as [|c s].
    + rewrite (scan_nil _ _ _ _ Hm) in H. symmetry in H.
      apply app_eq_nil in H as [-> ->]. exists []. split; [done|by left].
    + rewrite (scan_copy _ _ _ _ _ _ Hm) in H. destruct t as [|c' t].
      * exists (c :: s). split; [done|]. left. simpl in H. by rewrite <- H.
      * simpl in H. injection H as <- H. inversion Ht; subst.
        destruct (IH (Some c) s t z) as (x & -> & Hx); [simpl in Hlen; lia|done|done|].
        exists x. split; [done|]. by rewrite last_of_cons.
Qed.

(** After the card pass no card pattern is left. *)
Lemma card_scan_quiet fuel p q s :
  (length s < fuel)%nat →
  q = p ∨ (is_word_opt q = false
           ∧ xorb (is_word_opt p) (is_word_opt (head s)) = true) →
  quiet CREDIT_CARD_RE q (scan_out CREDIT_CARD_RE (fun _ => CARD_MASK) fuel p s).
Proof.
  destruct card_pattern_facts as (Hb & Hs & Hn).
  destruct mask_facts as (_ & Hcm & _ & _ & _ & _ & _ & Hcf).
  assert (Hdig : Forall (fun c => is_digit c = false) CARD_MASK).
  { eapply List.Forall_impl; [|exact Hcf]. intros c Hc.
    apply orb_false_iff in Hc as [_ Hc]. done. }
  pose proof (fun p0 s0 m0 =>
                constant_replaced CREDIT_CARD_RE CARD_MASK _ p0 s0 m0 Hn Hcm) as Hrep.
  revert p q s. induction fuel as [|fuel IH]; intros p q s Hlen Hctx; [lia|].
  destruct (match_at false CREDIT_CARD_RE p s) as [m|] eqn:Hm.
  - rewrite (scan_hit _ _ Hrep _ _ _ _ Hm).
    destruct (Hrep _ _ _ Hm) as [Hne _].
    pose proof (match_at_text _ _ _ _ _ Hm) as Hst.
    assert (Hlen' : (length (after m) < fuel)%nat).
    { rewrite Hst, length_app in Hlen. destruct (matched m); [done|simpl in Hlen; lia]. }
    assert (Htrail : xorb (is_word_opt (last_of p (matched m)))
                       (is_word_opt (head (after m))) = true).
    { apply match_at_state in Hm as (st & t & Hin & [_ A] & ->). simpl in *.
      apply card_states in Hin as (_ & _ & Ht). by rewrite A in Ht. }
    assert (IH' : quiet CREDIT_CARD_RE (Some star)
                    (scan_out CREDIT_CARD_RE (fun _ => CARD_MASK) fuel
                       (last_of p (matched m)) (after m))).
    { apply IH; [done|]. right. split; [reflexivity|exact Htrail]. }
    intros a b Hab.
    destruct (app_eq_app _ _ _ _ Hab) as (l & [[H1 H2]|[H1 H2]]).
    + destruct l as [|x l].
      * simpl in H2. subst b. rewrite app_nil_r in H1. subst a.
        assert (last_of q CARD_MASK = Some star) as -> by reflexivity.
        exact (IH' [] _ eq_refl).
      * rewrite H2.
        by apply (inside_by_first CREDIT_CARD_RE is_digit CARD_MASK card_first Hdig
                    a (x :: l)).
    + rewrite H1, last_of_app.
      assert (last_of q CARD_MASK = Some star) as -> by reflexivity.
      by apply (IH' l b).
  - destruct s as [|c s].
    + rewrite (scan_nil _ _ _ _ Hm). intros a b Hab. symmetry in Hab.
      apply app_eq_nil in Hab as [-> ->].
      destruct (match_at false CREDIT_CARD_RE (last_of q []) []) as [m'|] eqn:Hm'; [|done].
      pose proof (match_at_nonempty _ _ _ _ Hn Hm') as Hne.
      pose proof (match_at_text _ _ _ _ _ Hm') as Ht. symmetry in Ht.
      apply app_eq_nil in Ht as [Ht _]. done.
    + rewrite (scan_copy _ _ _ _ _ _ Hm).
      assert (Hlen' : (length s < fuel)%nat) by (simpl in Hlen; lia).
      pose proof (IH (Some c) (Some c) s Hlen' (or_introl eq_refl)) as IH'.
      intros a b Hab. destruct a as [|c' a].
      * simpl in Hab. subst b. change (last_of q []) with q.
        destruct (match_at false CREDIT_CARD_RE q
                    (c :: scan_out CREDIT_CARD_RE (fun _ => CARD_MASK) fuel (Some c) s))
          as [m'|] eqn:Hm'; [|done].
        exfalso.
        apply match_at_state in Hm' as (st & t & Hin & [At Ap] & _). simpl in At, Ap.
        pose proof (rejected_text star _ _ _ _ Hs Hin (conj At Ap)) as Hstar.
        pose proof (ms_min_len _ _ _ _ _ Hin (conj At Ap)) as Hmin.
        assert (Htne : t ≠ []) by (destruct t; [simpl in Hmin; lia|done]).
        destruct (card_states _ _ _ Hin) as (Hlead & (c0 & z0 & [= <- <-] & Hc0) & Htrail).
        simpl in Hlead. rewrite (digit_is_word _ Hc0) in Hlead.
        assert (Hq : is_word_opt q = false) by (by destruct (is_word_opt q)).
        assert (Hp : is_word_opt p = false).
        { destruct Hctx as [->|[_ Hx]]; [done|]. simpl in Hx.
          rewrite (digit_is_word _ Hc0) in Hx. by destruct (is_word_opt p). }
        pose proof At as At0.
        rewrite <- (scan_copy CREDIT_CARD_RE (fun _ => CARD_MASK) fuel p c s Hm) in At.
        destruct (scan_prefix_context _ _ _ _ _ _ _ _ Hn Hcm Hlen At Hstar)
          as (x & Hx & [Hh|[Hh Hnext]]).
        -- rewrite At0 in Hin.
           pose proof (ms_frame false CREDIT_CARD_RE Hb q p t (rest st) x [] st Hin eq_refl)
             as Hfr.
           rewrite <- Hx in Hfr.
           assert (Hsome : match_at false CREDIT_CARD_RE p (c :: s) ≠ None).
           { eapply match_at_in. apply Hfr. right. split; [by rewrite Hp, Hq|].
             by rewrite Hh. }
           by rewrite Hm in Hsome.
        -- rewrite Ap, Hh in Htrail. simpl in Htrail.
           rewrite (last_of_some q c t Htne) in Htrail.
           apply match_at_some in Hnext as (st2 & Hin2).
           destruct (card_states _ _ _ Hin2) as (Hlead2 & (c2 & z2 & -> & Hc2) & _).
           simpl in Hlead2. rewrite (digit_is_word _ Hc2) in Hlead2.
           rewrite (last_of_some p c t Htne) in Hlead2.
           destruct (is_word_opt (last_of (Some c) t)); done.
      * simpl in Hab. injection Hab as <- Hab. rewrite last_of_cons.
        by apply (IH' a b).
Qed.

Lemma mask_card_quiet s : quiet CREDIT_CARD_RE None (mask_card s).
Proof.
  unfold mask_card. rewrite replace_all_scan. apply card_scan_quiet; [lia|by left].
Qed.

(** ** The redactor is idempotent *)

Lemma maskString_quiet s :
  quiet EMAIL_RE None (maskString s)
  ∧ quiet PHONE_RE None (maskString s)
  ∧ quiet CREDIT_CARD_RE None (maskString s).
Proof.
  unfold maskString. split; [|split].
  - apply silent_quiet, mask_card_keeps_email.
    apply silent_quiet, mask_phone_keeps_email.
    apply silent_quiet, mask_email_silent.
  - apply silent_quiet, mask_card_keeps_phone.
    apply silent_quiet, mask_phone_silent.
  - apply mask_card_quiet.
Qed.

Lemma maskString_idempotent s : maskString (maskString s) = maskString s.
Proof.
  destruct (maskString_quiet s) as (He & Hp & Hc).
  unfold maskString at 1. unfold mask_email, mask_phone, mask_card.
  rewrite (replace_all_quiet EMAIL_RE _ _ He).
  rewrite (replace_all_quiet PHONE_RE _ _ Hp).
  by rewrite (replace_all_quiet CREDIT_CARD_RE _ _ Hc).
Qed.

Lemma maskValue_idempotent v : maskValue (maskValue v) = maskValue v.
Proof. destruct v; simpl; try done. by rewrite maskString_idempotent. Qed.

Lemma obj_update_fresh k v (o : jsrow) :
  ¬ In k (List.map fst o) → obj_update k v o = o ++ [(k, v)].
Proof.
  induction o as [|[k' v'] o IH]; simpl; [done|]. intros Hn.
  destruct (decide (k' = k)) as [->|Hne]; [destruct Hn; by left|].
  rewrite IH; [done|]. intros H. apply Hn. by right.
Qed.

Lemma obj_update_present k v (o : jsrow) :
  In k (List.map fst o) → List.map fst (obj_update k v o) = List.map fst o.
Proof.
  induction o as [|[k' v'] o IH]; simpl; [done|].
  destruct (decide (k' = k)) as [->|Hne]; simpl; [done|].
  intros [H|H]; [done|]. by rewrite IH.
Qed.

Lemma obj_update_values k v (o : jsrow) (P : jsvalue → Prop) :
  P v → Forall (fun kv => P (snd kv)) o → Forall (fun kv => P (snd kv)) (obj_update k v o).
Proof.
  intros Hv. induction o as [|[k' v'] o IH]; simpl; intros Ho.
  - by constructor.
  - inversion Ho; subst. destruct (decide (k' = k)); constructor; auto.
Qed.

(** What [maskRow] builds: distinct keys, none of them [__proto__], every
    value already masked. *)
Lemma maskRow_shape row (acc : jsrow) :
  NoDup (List.map fst acc) →
  Forall (fun kv => fst kv ≠ js "__proto__") acc →
  Forall (fun kv => maskValue (snd kv) = snd kv) acc →
  let out := fold_left (fun out kv => obj_set (fst kv) (maskValue (snd kv)) out) row acc in
  NoDup (List.map fst out)
  ∧ Forall (fun kv => fst kv ≠ js "__proto__") out
  ∧ Forall (fun kv => maskValue (snd kv) = snd kv) out.
Proof.
  revert acc. induction row as [|[k v] row IH]; intros acc Hnd Hk Hv; simpl; [done|].
  apply IH; unfold obj_set; simpl; destruct (decide (k = js "__proto__")) as [->|Hne];
    try done.
  - destruct (decide (k ∈ List.map fst acc)) as [Hin|Hin].
    + apply list_elem_of_In in Hin. by rewrite obj_update_present.
    + rewrite obj_update_fresh; [|by rewrite <- list_elem_of_In].
      rewrite map_app. simpl. apply NoDup_app. split; [done|]. split.
      * intros x Hx Hx'. apply list_elem_of_singleton in Hx' as ->. done.
      * apply NoDup_singleton.
  - clear Hnd Hv IH. induction acc as [|[k' v'] acc IHa]; simpl.
    + by constructor.
    + inversion Hk; subst. destruct (decide (k' = k)); constructor; auto.
  - apply (obj_update_values k (maskValue v) acc (fun x => maskValue x = x));
      [apply maskValue_idempotent|done].
Qed.

Lemma maskRow_fixed (o acc : jsrow) :
  List.NoDup (List.map fst (acc ++ o)) →
  Forall (fun kv => fst kv ≠ js "__proto__") o →
  Forall (fun kv => maskValue (snd kv) = snd kv) o →
  fold_left (fun out kv => obj_set (fst kv) (maskValue (snd kv)) out) o acc = acc ++ o.
Proof.
  revert acc. induction o as [|[k v] o IH]; intros acc Hnd Hk Hv; simpl.
  - by rewrite app_nil_r.
  - inversion Hk as [|? ? Hk1 Hk2]; inversion Hv as [|? ? Hv1 Hv2]; subst.
    simpl in Hk1, Hv1. unfold obj_set.
    destruct (decide (k = js "__proto__")) as [->|_]; [done|].
    rewrite Hv1. rewrite obj_update_fresh.
    + rewrite IH; [by rewrite <- app_assoc|by rewrite <- app_assoc|done|done].
    + rewrite map_app in Hnd. simpl in Hnd.
      apply List.NoDup_remove_2 in Hnd. intros Hin. apply Hnd.
      apply in_or_app. by left.
Qed.

(** C8: the redactor is a function of its input and is idempotent: a
    second pass over a masked row, value or string changes nothing,
    because in a masked string none of the three patterns matches at any
    position. *)
Theorem maskRow_idempotent (row : jsrow) (v : jsvalue) (s : jsstring) :
  maskRow (maskRow row) = maskRow row
  ∧ maskValue (maskValue v) = maskValue v
  ∧ maskString (maskString s) = maskString s
  ∧ quiet EMAIL_RE None (maskString s)
  ∧ quiet PHONE_RE None (maskString s)
  ∧ quiet CREDIT_CARD_RE None (maskString s).
Proof.
  split; [|split; [apply maskValue_idempotent|split; [apply maskString_idempotent|]]].
  - destruct (maskRow_shape row [] NoDup_nil_2 (List.Forall_nil _) (List.Forall_nil _))
      as (Hnd & Hk & Hv).
    unfold maskRow at 1. rewrite (maskRow_fixed (maskRow row) []); [done| |done|done].
    simpl. by apply NoDup_ListNoDup.
  - apply maskString_quiet.
Qed.

(** * Further properties of the two route files *)

(** ** The audit statement *)

Section Escaping.

Lemma match_at_chr x p s :
  match_at false (Chr x) p s =
  match s with
  | c :: s' => if c =? x then Some (RMatch [c] s' []) else None
  | [] => None
  end.
Proof.
  unfold match_at. destruct s as [|c s']; simpl; [done|].
  destruct (c =? x); simpl; [|done].
  replace (length s' - length s')%nat with 0%nat by lia.
  replace (S (length s') - length s')%nat with 1%nat by lia. done.
Qed.

(** Replacing every occurrence of one character by a fixed text. *)
Lemma replace_all_chr x (mask : jsstring) s :
  replace_all false (Chr x) (fun _ => mask) s
  = flat_map (fun c => if c =? x then mask else [c]) s.
Proof.
  unfold replace_all. generalize (S (length s)) (@None N) (Nat.lt_succ_diag_r (length s)).
  induction s as [|c s IH]; intros fuel p Hf; (destruct fuel as [|fuel]; [simpl in Hf; lia|]).
  - cbn [pieces]. by rewrite match_at_chr.
  - cbn [pieces]. rewrite match_at_chr. simpl in Hf.
    destruct (c =? x) eqn:Hc; cbn [matched after flat_map];
      rewrite Hc; f_equal; apply IH; lia.
Qed.

Lemma escape_quotes_chars s :
  escape_quotes s = flat_map (fun c => if c =? ch "'" then js "''" else [c]) s.
Proof. apply replace_all_chr. Qed.

Lemma read_literal_escaped s rest :
  head rest ≠ Some (ch "'") →
  read_literal (escape_quotes s ++ ch "'" :: rest) = Some (s, rest).
Proof.
  intros Hr. rewrite escape_quotes_chars.
  induction s as [|c s IH].
  - simpl. destruct rest as [|c' rest]; [done|].
    destruct (c' =? ch "'") eqn:E; [|done].
    apply N.eqb_eq in E. subst c'. by destruct Hr.
  - cbn [flat_map]. destruct (c =? ch "'") eqn:E.
    + apply N.eqb_eq in E. subst c.
      change (js "''") with [ch "'"; ch "'"] in *. cbn [app read_literal].
      rewrite N.eqb_refl. by rewrite IH.
    + cbn [app read_literal]. rewrite E. by rewrite IH.
Qed.

End Escaping.

(** X1: the query is written into the audit INSERT as a string literal
    that the data store reads back as the very text of the query, and the
    literal ends where the statement's template ends it, whatever quotes
    the query holds. *)
Theorem audit_query_literal previewId userId sql :
  let tail := js ", " ++ sql_text_or_null userId ++ js ")" in
  (∀ s rest, head rest ≠ Some (ch "'") →
     read_literal (escape_quotes s ++ ch "'" :: rest) = Some (s, rest))
  ∧ audit_sql previewId userId sql
    = (js "INSERT INTO query_logs (preview_id, executed_at, query, user_id) VALUES ("
       ++ sql_text_or_null previewId ++ js ", datetime('now'), ")
      ++ ch "'" :: escape_quotes sql ++ ch "'" :: tail
  ∧ read_literal (escape_quotes sql ++ ch "'" :: tail) = Some (sql, tail).
Proof.
  intros tail. split; [exact read_literal_escaped|]. split.
  - unfold audit_sql, tail. rewrite <- !app_assoc. do 2 f_equal.
  - apply read_literal_escaped. discriminate.
Qed.

Lemma audit_query_literal_witness :
  head (js ", NULL)") ≠ Some (ch "'")
  ∧ read_literal (escape_quotes (js "SELECT 'a' || name FROM products")
                  ++ ch "'" :: js ", NULL)")
    = Some (js "SELECT 'a' || name FROM products", js ", NULL)").
Proof.
  assert (H : head (js ", NULL)") ≠ Some (ch "'")) by discriminate.
  split; [exact H|].
  exact (proj1 (audit_query_literal None None [])
           (js "SELECT 'a' || name FROM products") (js ", NULL)") H).
Defined.

(** ** Preview ids *)

Section PreviewIds.

Lemma value36_app a b :
  value36 (a ++ b) = fold_left (fun v c => 36 * v + digit36 c) b (value36 a).
Proof. unfold value36. by rewrite fold_left_app. Qed.

Lemma digit36_char d :
  d < 36 →
  let c := if d <? 10 then 48 + d else 87 + d in
  digit36 c = d ∧ is_base36 c = true ∧ c ≠ ch "-".
Proof.
  intros Hd. cbv zeta. unfold digit36, is_base36, is_digit, is_lower.
  change (ch "-") with 45.
  destruct (N.ltb_spec d 10).
  - destruct (N.ltb_spec (48 + d) 58); [|lia].
    split; [lia|]. split; [|lia].
    apply orb_true_iff. left. apply andb_true_iff. split; apply N.leb_le; lia.
  - destruct (N.ltb_spec (87 + d) 58); [lia|].
    split; [lia|]. split; [|lia].
    apply orb_true_iff. right. apply andb_true_iff. split; apply N.leb_le; lia.
Qed.

Lemma digits36_spec fuel n acc :
  n < 2 ^ N.of_nat fuel → (0 < fuel)%nat →
  ∃ ds, digits36 fuel n acc = ds ++ acc
        ∧ (∀ v, fold_left (fun v c => 36 * v + digit36 c) ds v
                = v * 36 ^ N.of_nat (length ds) + n)
        ∧ n < 36 ^ N.of_nat (length ds)
        ∧ Forall (fun c => is_base36 c = true ∧ c ≠ ch "-") ds.
Proof.
  revert n acc. induction fuel as [|fuel IH]; intros n acc Hn Hf; [lia|].
  cbn [digits36]. cbv zeta.
  assert (Hd : n mod 36 < 36) by (apply N.mod_lt; lia).
  destruct (digit36_char _ Hd) as (Hv & Hb & Hm). cbv zeta in Hv, Hb, Hm.
  set (c := if n mod 36 <? 10 then 48 + n mod 36 else 87 + n mod 36) in *.
  pose proof (N.div_mod n 36 ltac:(lia)) as Hdm.
  destruct (N.eqb_spec (n / 36) 0) as [Hz|Hnz].
  - exists [c]. split; [done|]. split; [|split].
    + intros v. simpl. rewrite Hv. change (36 ^ 1) with 36. lia.
    + simpl. change (36 ^ 1) with 36. lia.
    + by constructor.
  - assert (Hfuel : (0 < fuel)%nat).
    { destruct fuel; [|lia]. simpl in Hn. change (2 ^ 1) with 2 in Hn. lia. }
    assert (Hq : n / 36 < 2 ^ N.of_nat fuel).
    { rewrite Nat2N.inj_succ, N.pow_succ_r' in Hn.
      apply N.Div0.div_lt_upper_bound. lia. }
    destruct (IH (n / 36) (c :: acc) Hq Hfuel) as (ds & Hds & Hval & Hlt & Hall).
    exists (ds ++ [c]). rewrite <- app_assoc. split; [done|].
    rewrite length_app, Nat2N.inj_add. simpl length.
    change (N.of_nat 1) with 1. rewrite N.pow_add_r. change (36 ^ 1) with 36.
    split; [|split].
    + intros v. rewrite fold_left_app, Hval. simpl. rewrite Hv. lia.
    + lia.
    + apply List.Forall_app. split; [done|]. by constructor.
Qed.

Lemma toString36_spec (t : Z) :
  (0 <= t)%Z →
  value36 (toString36 t) = Z.to_N t
  ∧ Forall (fun c => is_base36 c = true ∧ c ≠ ch "-") (toString36 t)
  ∧ toString36 t ≠ [].
Proof.
  intros Ht. unfold toString36.
  destruct (Z.ltb_spec t 0); [lia|]. cbn [app].
  rewrite Z.abs_eq by done.
  set (n := Z.to_N t).
  assert (Hn : n < 2 ^ N.of_nat (S (N.to_nat (N.log2 n)))).
  { rewrite Nat2N.inj_succ, N2Nat.id.
    destruct (N.eq_dec n 0) as [->|Hne]; [done|].
    apply N.log2_spec. lia. }
  destruct (digits36_spec _ n [] Hn ltac:(lia)) as (ds & Hds & Hval & Hlt & Hall).
  rewrite Hds, app_nil_r. split; [|split; [done|]].
  - unfold value36. rewrite Hval. lia.
  - intros ->. simpl in Hlt. change (36 ^ 0) with 1 in Hlt.
    assert (n = 0) as Hz by lia. rewrite Hz in Hds.
    vm_compute in Hds. discriminate.
Qed.

Lemma split_at_dash (a a' b b' : jsstring) :
  Forall (fun c => c ≠ ch "-") a → Forall (fun c => c ≠ ch "-") a' →
  a ++ ch "-" :: b = a' ++ ch "-" :: b' → a = a' ∧ b = b'.
Proof.
  revert a'. induction a as [|c a IH]; intros a' Ha Ha' E.
  - destruct a' as [|c' a']; [by injection E|].
    injection E as E1 E2. inversion Ha'; subst. done.
  - destruct a' as [|c' a'].
    + injection E as E1 E2. inversion Ha; subst. done.
    + injection E as -> E. inversion Ha; inversion Ha'; subst.
      destruct (IH a') as [-> ->]; done.
Qed.

End PreviewIds.

(** X2: the id of a preview determines the clock reading and the random
    text it was made from, so two previews get the same id only when both
    agree; the clock reading can be read back from the part before the
    dash. *)
Theorem makePreviewId_injective (t t' : Z) (r r' : jsstring) :
  (0 <= t)%Z → (0 <= t')%Z →
  (makePreviewId t r = makePreviewId t' r' → t = t' ∧ r = r')
  ∧ value36 (toString36 t) = Z.to_N t
  ∧ ∃ stamp, makePreviewId t r = stamp ++ ch "-" :: r
             ∧ stamp ≠ []
             ∧ Forall (fun c => is_base36 c = true) stamp.
Proof.
  intros Ht Ht'.
  destruct (toString36_spec t Ht) as (Hv & Hall & Hne).
  destruct (toString36_spec t' Ht') as (Hv' & Hall' & _).
  split; [|split; [done|]].
  - unfold makePreviewId. change (js "-" ++ r) with (ch "-" :: r).
    change (js "-" ++ r') with (ch "-" :: r'). intros E.
    apply split_at_dash in E as [E1 E2].
    + split; [|done]. rewrite E1 in Hv. rewrite Hv in Hv'. lia.
    + eapply List.Forall_impl; [|exact Hall]. by intros c [_ H].
    + eapply List.Forall_impl; [|exact Hall']. by intros c [_ H].
  - exists (toString36 t). split; [done|]. split; [done|].
    eapply List.Forall_impl; [|exact Hall]. by intros c [H _].
Qed.

Lemma makePreviewId_injective_witness :
  (0 <= 1700000000000)%Z
  ∧ makePreviewId 1700000000000 (js "k3x9q2a") = js "loyw3v28-k3x9q2a"
  ∧ value36 (toString36 1700000000000) = 1700000000000.
Proof.
  assert (H : (0 <= 1700000000000)%Z) by lia.
  split; [exact H|]. split; [vm_compute; reflexivity|].
  exact (proj1 (proj2 (makePreviewId_injective 1700000000000 0 (js "k3x9q2a") [] H
                         (Z.le_refl 0)))).
Defined.

(** ** The cleanup timer *)

(** X3: two runs of the cleanup timer amount to one run at the later of
    the two times, in either order; a second run at the same time changes
    nothing.  The timer touches nothing but the preview map of the chat
    module: the map read by [POST /execute-preview], the data store and
    the trace stay as they are, and the map of the chat module only loses
    entries, exactly those older than the TTL. *)
Theorem sweep_compose {DB : Type} (a b : Z) (w : World DB) :
  Chat.sweep a (Chat.sweep b w) = Chat.sweep (Z.max a b) w
  ∧ Chat.sweep a (Chat.sweep b w) = Chat.sweep b (Chat.sweep a w)
  ∧ Chat.sweep a (Chat.sweep a w) = Chat.sweep a w
  ∧ globalPreviews (Chat.sweep a w) = globalPreviews w
  ∧ database (Chat.sweep a w) = database w
  ∧ trace (Chat.sweep a w) = trace w
  ∧ (∀ id e, chatPreviews (Chat.sweep a w) !! id = Some e
             ↔ chatPreviews w !! id = Some e
               ∧ (a - createdAt e <= PREVIEW_TTL_MS)%Z).
Proof.
  assert (Hkeep : ∀ id e, chatPreviews (Chat.sweep a w) !! id = Some e
             ↔ chatPreviews w !! id = Some e
               ∧ (a - createdAt e <= PREVIEW_TTL_MS)%Z).
  { intros id e. unfold Chat.sweep. cbn [chatPreviews]. rewrite sweep_map_lookup.
    destruct (chatPreviews w !! id) as [e0|]; [|split; [done|by intros [? _]]].
    unfold expired.
    destruct (Z.gtb_spec (a - createdAt e0) PREVIEW_TTL_MS); split.
    - done.
    - intros [[= ->] ?]. lia.
    - intros [= ->]. split; [done|lia].
    - by intros [? _]. }
  cut (Chat.sweep a (Chat.sweep b w) = Chat.sweep (Z.max a b) w
       ∧ Chat.sweep a (Chat.sweep b w) = Chat.sweep b (Chat.sweep a w)
       ∧ Chat.sweep a (Chat.sweep a w) = Chat.sweep a w).
  { intros (H1 & H2 & H3). repeat (split; [done|]). exact Hkeep. }
  clear Hkeep.
  assert (H : ∀ x y (m : gmap jsstring PreviewEntry),
            sweep_map x (sweep_map y m) = sweep_map (Z.max x y) m).
  { intros x y m. apply map_eq. intros id. rewrite !sweep_map_lookup.
    destruct (m !! id) as [e|]; [|done]. unfold expired.
    destruct (Z.gtb_spec (y - createdAt e) PREVIEW_TTL_MS);
      destruct (Z.gtb_spec (Z.max x y - createdAt e) PREVIEW_TTL_MS); try lia; try done.
    - destruct (Z.gtb_spec (x - createdAt e) PREVIEW_TTL_MS); [done|lia].
    - destruct (Z.gtb_spec (x - createdAt e) PREVIEW_TTL_MS); [lia|done]. }
  unfold Chat.sweep. cbn [chatPreviews globalPreviews database trace].
  split; [by rewrite H|]. split.
  - rewrite !H. by rewrite Z.max_comm.
  - rewrite H. by rewrite Z.max_id.
Qed.

(** ** Rows *)

Section Rows.

Lemma maskRow_fold (row acc : jsrow) :
  NoDup (List.map fst (acc ++ row)) →
  fold_left (fun out kv => obj_set (fst kv) (maskValue (snd kv)) out) row acc
  = acc ++ List.map mask_entry (List.filter settable row).
Proof.
  revert acc. induction row as [|[k v] row IH]; intros acc Hnd.
  - simpl. by rewrite app_nil_r.
  - cbn [fold_left fst snd]. unfold obj_set at 2. cbn [List.filter].
    unfold settable at 1. cbn [fst].
    assert (Hk : ¬ In k (List.map fst acc)).
    { rewrite map_app in Hnd. simpl in Hnd.
      apply NoDup_app in Hnd as (_ & Hd & _).
      intros Hin. apply (Hd k); [by apply list_elem_of_In|]. by left. }
    destruct (decide (k = js "__proto__")) as [->|Hne].
    + rewrite bool_decide_eq_true_2 by done. cbn [negb].
      apply IH. rewrite map_app in *. simpl in Hnd.
      apply NoDup_app in Hnd as (H1 & H2 & H3).
      apply NoDup_app. split; [done|]. split.
      * intros x Hx Hx'. apply (H2 x Hx). by right.
      * by apply NoDup_cons in H3 as [_ H3].
    + rewrite bool_decide_eq_false_2 by done. cbn [negb List.map].
      rewrite obj_update_fresh by done.
      rewrite IH.
      * rewrite <- app_assoc. done.
      * rewrite !map_app in *. simpl in *. by rewrite <- app_assoc.
Qed.

End Rows.

(** X4: on a row whose keys are distinct, as the entries of an object
    are, [maskRow] keeps the columns and their order and masks each value
    on its own; only a column named [__proto__] is lost. *)
Theorem maskRow_entries (row : jsrow) :
  NoDup (List.map fst row) →
  maskRow row = List.map mask_entry (List.filter settable row)
  ∧ (Forall (fun kv => fst kv ≠ js "__proto__") row →
       List.map fst (maskRow row) = List.map fst row
       ∧ List.map snd (maskRow row) = List.map maskValue (List.map snd row)).
Proof.
  intros Hnd.
  assert (E : maskRow row = List.map mask_entry (List.filter settable row)).
  { unfold maskRow. by rewrite maskRow_fold. }
  split; [exact E|]. intros Hall. rewrite E.
  assert (Hf : List.filter settable row = row).
  { clear E Hnd. induction row as [|kv row IH]; [done|].
    inversion Hall as [|? ? Hk Hrest]; subst. cbn [List.filter].
    unfold settable at 1. rewrite bool_decide_eq_false_2 by done.
    cbn [negb]. by rewrite IH. }
  rewrite Hf, !List.map_map. split; apply List.map_ext; by intros [k v].
Qed.

Lemma maskRow_entries_witness :
  let row := [(js "name", VString (js "Ann")); (js "qty", VNumber 3);
              (js "mail", VString (js "ann@example.com"))] in
  NoDup (List.map fst row)
  ∧ maskRow row = [(js "name", VString (js "Ann")); (js "qty", VNumber 3);
                   (js "mail", VString (js "a***@***"))].
Proof.
  intros row.
  assert (H : NoDup (List.map fst row)).
  { apply NoDup_ListNoDup. repeat constructor; simpl; intros Hin;
      repeat (destruct Hin as [Hin|Hin]; [discriminate Hin|]); exact Hin. }
  split; [exact H|].
  rewrite (proj1 (maskRow_entries row H)). vm_compute. reflexivity.
Defined.

(** ** The redactor on text without personal data *)

Section PlainText.

Lemma phone_has_digit q z st :
  In st (ms false PHONE_RE (MState q z [])) → ∃ c, In c z ∧ is_digit c = true.
Proof.
  rewrite PHONE_RE_eq. intros H.
  apply in_ms_Group in H as (s0 & t & H & _ & _).
  apply in_ms_Seq in H as (s1 & H1 & H).
  apply in_ms_Seq in H as (s2 & H2 & _).
  apply ms_advances in H1 as (t1 & [A1 _]).
  apply ms_rep_cls in H2 as (t2 & [A2 _] & _ & Hall & Hlen).
  simpl in A1. rewrite A2 in A1. simpl in Hlen.
  destruct t2 as [|c t2]; [simpl in Hlen; lia|].
  exists c. split.
  - rewrite A1. apply in_or_app. right. by left.
  - inversion Hall; subst. by rewrite <- cls_match_digit.
Qed.

Lemma no_match_without (r : regex) (P : N → bool) s :
  (∀ q z st, In st (ms false r (MState q z [])) → ∃ c, In c z ∧ P c = true) →
  Forall (fun c => P c = false) s →
  quiet r None s.
Proof.
  intros Hneeds Hs a b -> .
  destruct (match_at false r (last_of None a) b) eqn:E; [|done].
  assert (Hm : match_at false r (last_of None a) b ≠ None) by (by rewrite E).
  apply match_at_some in Hm as (st & Hst).
  destruct (Hneeds _ _ _ Hst) as (c & Hin & Hc).
  rewrite List.Forall_forall in Hs.
  rewrite (Hs c) in Hc; [done|]. apply in_or_app. by right.
Qed.

End PlainText.

(** X5: text that holds neither an at-sign nor a digit is returned by the
    redactor as it is. *)
Theorem maskString_plain s :
  Forall (fun c => plain_char c = true) s →
  maskString s = s ∧ maskValue (VString s) = VString s.
Proof.
  intros Hs.
  assert (Hat : Forall (fun c => (c =? ch "@") = false) s).
  { eapply List.Forall_impl; [|exact Hs]. intros c Hc.
    apply andb_true_iff in Hc as [Hc _]. by apply negb_true_iff. }
  assert (Hdg : Forall (fun c => is_digit c = false) s).
  { eapply List.Forall_impl; [|exact Hs]. intros c Hc.
    apply andb_true_iff in Hc as [_ Hc]. by apply negb_true_iff. }
  assert (He : quiet EMAIL_RE None s).
  { apply (no_match_without _ (fun c => c =? ch "@")); [|done].
    intros q z st Hst. apply email_states in Hst as (l & d & -> & _).
    exists (ch "@"). split; [|done]. apply in_or_app. right. by left. }
  assert (Hp : quiet PHONE_RE None s).
  { apply (no_match_without _ is_digit); [|done]. exact phone_has_digit. }
  assert (Hc : quiet CREDIT_CARD_RE None s).
  { apply (no_match_without _ is_digit); [|done].
    intros q z st Hst. apply card_first in Hst as (c & z0 & -> & Hc).
    exists c. split; [by left|done]. }
  assert (E : maskString s = s).
  { unfold maskString, mask_card, mask_phone, mask_email.
    rewrite (replace_all_quiet EMAIL_RE _ _ He).
    rewrite (replace_all_quiet PHONE_RE _ _ Hp).
    by rewrite (replace_all_quiet CREDIT_CARD_RE _ _ Hc). }
  split; [exact E|]. simpl. by rewrite E.
Qed.

Lemma maskString_plain_witness :
  Forall (fun c => plain_char c = true) (js "Blue kettle, large")
  ∧ maskString (js "Blue kettle, large") = js "Blue kettle, large".
Proof.
  assert (H : Forall (fun c => plain_char c = true) (js "Blue kettle, large")).
  { repeat constructor. }
  split; [exact H|]. exact (proj1 (maskString_plain _ H)).
Defined.

(** X6: whatever e-mail address the redactor finds in a text, it writes
    the first code unit of the address and the fixed mask in its place;
    the callback never meets an empty local part. *)
Theorem email_mask_reveals_first s m :
  In m (match_all false EMAIL_RE s) →
  ∃ c l d, matched m = c :: l ++ ch "@" :: d
           ∧ email_mask m = c :: js "***@***".
Proof.
  intros H. apply match_all_in in H as (a & b & _ & H).
  apply email_match in H as (c & l & d & H1 & H2).
  exists c, l, d. done.
Qed.

Lemma email_mask_reveals_first_witness :
  let m := RMatch (js "ann@example.com") (js " wrote")
             [(2%nat, js "example.com"); (1%nat, js "ann")] in
  In m (match_all false EMAIL_RE (js "ann@example.com wrote"))
  ∧ email_mask m = js "a***@***".
Proof.
  intros m.
  assert (H : In m (match_all false EMAIL_RE (js "ann@example.com wrote"))).
  { vm_compute. by left. }
  split; [exact H|].
  destruct (email_mask_reveals_first _ _ H) as (c & l & d & H1 & H2).
  rewrite H2. injection H1 as <- _. reflexivity.
Defined.

(** ** The access check *)

Section AccessDecision.
Variable extract : jsstring → list jsstring.

Lemma find_first {A} (P : A → bool) (l : list A) :
  match List.find P l with
  | Some t => ∃ pre post, l = pre ++ t :: post ∧ P t = true
                          ∧ Forall (fun x => P x = false) pre
  | None => Forall (fun x => P x = false) l
  end.
Proof.
  induction l as [|x l IH]; simpl; [by constructor|].
  destruct (P x) eqn:Hx.
  - exists [], l. repeat split; [done|by constructor].
  - destruct (List.find P l) as [t|].
    + destruct IH as (pre & post & -> & Ht & Hpre).
      exists (x :: pre), post. repeat split; [done|by constructor].
    + by constructor.
Qed.

Lemma check_rbac_decision role allowed sql :
  assoc role ROLE_TABLE_ALLOWLIST = Some allowed →
  (includes (js "*") allowed = true → check_rbac extract sql (Some role) = RbacOk)
  ∧ (includes (js "*") allowed = false →
       (check_rbac extract sql (Some role) = RbacOk
        ↔ Forall (fun t => includes t allowed = true) (extract sql))
       ∧ (∀ reason, check_rbac extract sql (Some role) = RbacDenied reason →
            ∃ pre t post,
              extract sql = pre ++ t :: post
              ∧ Forall (fun x => includes x allowed = true) pre
              ∧ includes t allowed = false
              ∧ reason = table_denied_reason role t)).
Proof.
  intros H. rewrite (check_rbac_known extract _ _ sql H).
  split; [by intros ->|]. intros ->.
  pose proof (find_first (fun t => negb (includes t allowed)) (extract sql)) as F.
  destruct (List.find _ _) as [t|].
  - destruct F as (pre & post & E & Ht & Hpre). apply negb_true_iff in Ht.
    split.
    + split; [discriminate|]. rewrite E. intros Hall.
      apply List.Forall_app in Hall as [_ Hall]. inversion Hall; subst. congruence.
    + intros reason [= <-]. exists pre, t, post. repeat split; try done.
      eapply List.Forall_impl; [|exact Hpre]. intros x Hx.
      by apply negb_false_iff in Hx.
  - split; [|discriminate]. split; [|done]. intros _.
    eapply List.Forall_impl; [|exact F]. intros x Hx. by apply negb_false_iff in Hx.
Qed.

End AccessDecision.

(** X7: for a role of the policy map the check is decided by the list of
    extracted names alone: a role holding the wildcard is always allowed;
    any other role is allowed exactly when every extracted name is in its
    list, and a denial names the first extracted name that is not. *)
Theorem rbac_decision role allowed sql :
  assoc role ROLE_TABLE_ALLOWLIST = Some allowed →
  (includes (js "*") allowed = true →
     Chat.checkRBACOnSql sql (Some role) = RbacOk
     ∧ ExecutePreview.checkRBACOnSql sql (Some role) = RbacOk)
  ∧ (includes (js "*") allowed = false →
       (Chat.checkRBACOnSql sql (Some role) = RbacOk
        ↔ Forall (fun t => includes t allowed = true) (Chat.extractTableNames sql))
       ∧ (ExecutePreview.checkRBACOnSql sql (Some role) = RbacOk
          ↔ Forall (fun t => includes t allowed = true)
              (ExecutePreview.extractTableNames sql))
       ∧ (∀ reason, Chat.checkRBACOnSql sql (Some role) = RbacDenied reason →
            ∃ pre t post,
              Chat.extractTableNames sql = pre ++ t :: post
              ∧ Forall (fun x => includes x allowed = true) pre
              ∧ includes t allowed = false
              ∧ reason = table_denied_reason role t)
       ∧ (∀ reason, ExecutePreview.checkRBACOnSql sql (Some role) = RbacDenied reason →
            ∃ pre t post,
              ExecutePreview.extractTableNames sql = pre ++ t :: post
              ∧ Forall (fun x => includes x allowed = true) pre
              ∧ includes t allowed = false
              ∧ reason = table_denied_reason role t)).
Proof.
  intros H.
  destruct (check_rbac_decision Chat.extractTableNames role allowed sql H) as [C1 C2].
  destruct (check_rbac_decision ExecutePreview.extractTableNames role allowed sql H)
    as [E1 E2].
  split.
  - intros Hw. split; [exact (C1 Hw)|exact (E1 Hw)].
  - intros Hw. destruct (C2 Hw) as [C3 C4]. destruct (E2 Hw) as [E3 E4].
    split; [exact C3|]. split; [exact E3|]. split; [exact C4|exact E4].
Qed.

Lemma rbac_decision_witness :
  assoc (js "guest") ROLE_TABLE_ALLOWLIST = Some [js "products"]
  ∧ includes (js "*") [js "products"] = false
  ∧ Chat.checkRBACOnSql (js "SELECT * FROM products JOIN sales ON 1 = 1")
      (Some (js "guest"))
    = RbacDenied (table_denied_reason (js "guest") (js "sales"))
  ∧ ∃ pre t post,
      Chat.extractTableNames (js "SELECT * FROM products JOIN sales ON 1 = 1")
      = pre ++ t :: post
      ∧ Forall (fun x => includes x [js "products"] = true) pre
      ∧ includes t [js "products"] = false
      ∧ table_denied_reason (js "guest") (js "sales")
        = table_denied_reason (js "guest") t.
Proof.
  assert (H : assoc (js "guest") ROLE_TABLE_ALLOWLIST = Some [js "products"])
    by reflexivity.
  assert (Hw : includes (js "*") [js "products"] = false) by reflexivity.
  assert (Hd : Chat.checkRBACOnSql (js "SELECT * FROM products JOIN sales ON 1 = 1")
                 (Some (js "guest"))
               = RbacDenied (table_denied_reason (js "guest") (js "sales")))
    by (vm_compute; reflexivity).
  split; [exact H|]. split; [exact Hw|]. split; [exact Hd|].
  exact (proj1 (proj2 (proj2 (proj2 (rbac_decision (js "guest") [js "products"]
            (js "SELECT * FROM products JOIN sales ON 1 = 1") H) Hw))) _ Hd).
Defined.

(** X8: what the check of chat/route.ts allows, the check of
    execute-preview/route.ts allows for the same text and role; the
    converse fails, since the chat extractor also reports the word before
    an alias. *)
Theorem chat_allow_implies_endpoint_allow sql role :
  (Chat.checkRBACOnSql sql role = RbacOk →
   ExecutePreview.checkRBACOnSql sql role = RbacOk)
  ∧ ExecutePreview.checkRBACOnSql alias_query (Some (js "guest")) = RbacOk
  ∧ Chat.checkRBACOnSql alias_query (Some (js "guest"))
    = RbacDenied (table_denied_reason (js "guest") (js "price")).
Proof.
  split; [|split; vm_compute; reflexivity].
  unfold Chat.checkRBACOnSql, ExecutePreview.checkRBACOnSql, check_rbac.
  destruct role as [[|c role]|]; try done.
  destruct (allowlist_get (c :: role)) as [allowed| |]; try done.
  destruct (includes (js "*") allowed); [done|].
  destruct (List.find _ (ExecutePreview.extractTableNames sql)) as [t|] eqn:Hf; [|done].
  apply find_some in Hf as [Hin Ht].
  assert (Hin' : In t (Chat.extractTableNames sql)).
  { apply extract_chat_in. apply extract_ep_in in Hin. tauto. }
  destruct (List.find _ (Chat.extractTableNames sql)) as [t'|] eqn:Hf'; [done|].
  pose proof (find_none _ _ Hf' t Hin') as Hn. simpl in Hn. congruence.
Qed.

Lemma chat_allow_implies_endpoint_allow_witness :
  Chat.checkRBACOnSql (js "SELECT name FROM products") (Some (js "guest")) = RbacOk
  ∧ ExecutePreview.checkRBACOnSql (js "SELECT name FROM products") (Some (js "guest"))
    = RbacOk.
Proof.
  assert (H : Chat.checkRBACOnSql (js "SELECT name FROM products") (Some (js "guest"))
              = RbacOk) by (vm_compute; reflexivity).
  split; [exact H|].
  exact (proj1 (chat_allow_implies_endpoint_allow _ _) H).
Defined.

(** ** The handlers, path by path *)

Section Paths.
Context {DB : Type} (X : Collaborators DB).
Implicit Types (w : World DB).

(** [POST /execute-preview] on an id that is found. *)
Lemma POST_explicit b w c pid e :
  ExecutePreview.previewId b = Some (c :: pid) →
  globalPreviews w !! (c :: pid) = Some e →
  let sql := query e in
  let role := nullish (ExecutePreview.requesterRole b) (userRole e) in
  let verdict := ExecutePreview.checkRBACOnSql sql role in
  let r := fst (db_run X sql (database w)) in
  let d := snd (db_run X sql (database w)) in
  let ins := audit_sql (Some (c :: pid)) (ExecutePreview.requesterId b) sql in
  ExecutePreview.POST X b w =
  if isForbidden sql
  then (ExecutePreview.mkResponse 400
          (ExecutePreview.ErrorBody (js "Preview contains forbidden statements")),
        mkWorld (chatPreviews w) (globalPreviews w) (database w)
          (trace w ++ [Classified sql true]))
  else match verdict with
       | RbacTypeError =>
         (ExecutePreview.mkResponse 500
            (ExecutePreview.ErrorBody (js "allowed.includes is not a function")),
          mkWorld (chatPreviews w) (globalPreviews w) (database w)
            (trace w ++ [Classified sql false; AccessChecked sql role verdict]))
       | RbacDenied reason =>
         (ExecutePreview.mkResponse 403
            (ExecutePreview.ErrorBody (js "RBAC blocked execution: " ++ reason)),
          mkWorld (chatPreviews w) (globalPreviews w) (database w)
            (trace w ++ [Classified sql false; AccessChecked sql role verdict]))
       | RbacOk =>
         match r with
         | RunThrows message =>
           (ExecutePreview.mkResponse 500
              (ExecutePreview.ErrorBody
                 (match message with [] => js "unknown error" | _ => message end)),
            mkWorld (chatPreviews w) (globalPreviews w) d
              (trace w ++ [Classified sql false; AccessChecked sql role RbacOk;
                           Ran UserQuery sql]))
         | _ =>
           (match stringify_error X (mask_outcome r) with
            | Some message =>
              ExecutePreview.mkResponse 500
                (ExecutePreview.ErrorBody (ExecutePreview.error_text message))
            | None =>
              ExecutePreview.mkResponse 200 (ExecutePreview.OkBody (mask_outcome r) sql)
            end,
            mkWorld (chatPreviews w) (delete (c :: pid) (globalPreviews w))
              (snd (db_run X ins d))
              (trace w ++ [Classified sql false; AccessChecked sql role RbacOk;
                           Ran UserQuery sql; Ran AuditInsert ins]))
         end
       end.
Proof.
  intros Hb He. cbv zeta. unfold ExecutePreview.POST. rewrite Hb, He.
  unfold classify, log. cbv beta iota zeta.
  destruct (isForbidden (query e)) eqn:Hf; [reflexivity|].
  destruct (ExecutePreview.checkRBACOnSql _ _) eqn:Hv;
    cbn [chatPreviews globalPreviews database trace];
    rewrite <- ?app_assoc; try reflexivity.
  rewrite run_eq, audit_eq. cbv beta iota zeta.
  cbn [fst snd chatPreviews globalPreviews database trace].
  destruct (fst (db_run X (query e) (database w)));
    rewrite <- ?app_assoc; try reflexivity;
    destruct (stringify_error X _); reflexivity.
Qed.

(** The db tool from its preview lookup on, on an id that is found. *)
Lemma db_commit_explicit a f w c pid e :
  Chat.previewId a = Some (c :: pid) →
  chatPreviews w !! (c :: pid) = Some e →
  let sql := query e in
  let role := nullish (Chat.arg_userRole a) (userRole e) in
  let verdict := Chat.checkRBACOnSql sql role in
  let r := fst (db_run X sql (database w)) in
  let d := snd (db_run X sql (database w)) in
  let ins := audit_sql (Some (c :: pid)) (Chat.arg_userId a) sql in
  Chat.db_commit X a f w =
  match verdict with
  | RbacTypeError =>
    (Chat.ToolThrows,
     mkWorld (chatPreviews w) (globalPreviews w) (database w)
       (trace w ++ [AccessChecked sql role verdict]))
  | RbacDenied reason =>
    (Chat.ToolError (js "RBAC blocked query execution: " ++ reason),
     mkWorld (chatPreviews w) (globalPreviews w) (database w)
       (trace w ++ [AccessChecked sql role verdict]))
  | RbacOk =>
    if isForbidden sql
    then (Chat.ToolError
            (js "Query contains forbidden statements and will not be executed."),
          mkWorld (chatPreviews w) (globalPreviews w) (database w)
            (trace w ++ [AccessChecked sql role RbacOk; Classified sql true]))
    else match r with
         | RunThrows _ =>
           (Chat.ToolThrows,
            mkWorld (chatPreviews w) (globalPreviews w) d
              (trace w ++ [AccessChecked sql role RbacOk; Classified sql false;
                           Ran UserQuery sql]))
         | _ =>
           (Chat.ToolRows (mask_outcome r) sql,
            mkWorld (delete (c :: pid) (chatPreviews w)) (globalPreviews w)
              (snd (db_run X ins d))
              (trace w ++ [AccessChecked sql role RbacOk; Classified sql false;
                           Ran UserQuery sql; Ran AuditInsert ins]))
         end
  end.
Proof.
  intros Ha He. cbv zeta. unfold Chat.db_commit. rewrite Ha, He. cbv zeta.
  destruct (Chat.checkRBACOnSql _ _) eqn:Hv; unfold log;
    cbn [chatPreviews globalPreviews database trace]; try reflexivity.
  unfold Chat.execute_resolved, classify, log. rewrite Ha. cbv beta iota zeta.
  destruct (isForbidden (query e)) eqn:Hf;
    cbn [chatPreviews globalPreviews database trace];
    rewrite <- ?app_assoc; [reflexivity|].
  rewrite run_eq, audit_eq. cbv beta iota zeta.
  cbn [fst snd chatPreviews globalPreviews database trace].
  destruct (fst (db_run X (query e) (database w)));
    rewrite <- ?app_assoc; reflexivity.
Qed.

(** The db tool up to its preview lookup. *)
Lemma db_execute_explicit a env w :
  let q := Chat.arg_query a in
  let role := Chat.arg_userRole a in
  Chat.db_execute X a env w =
  if isForbidden q
  then (Chat.ToolError (js "Query contains forbidden statements (INSERT/UPDATE/DELETE/DROP/ALTER/TRUNCATE). Execution aborted."),
        mkWorld (chatPreviews w) (globalPreviews w) (database w)
          (trace w ++ [Classified q true]))
  else match sqlFormat X q with
       | None =>
         (Chat.ToolThrows,
          mkWorld (chatPreviews w) (globalPreviews w) (database w)
            (trace w ++ [Classified q false]))
       | Some f =>
         let w2 := mkWorld (chatPreviews w) (globalPreviews w) (database w)
                     (trace w ++ [Classified q false;
                                  AccessChecked f role (Chat.checkRBACOnSql f role)]) in
         match Chat.checkRBACOnSql f role with
         | RbacTypeError => (Chat.ToolThrows, w2)
         | RbacDenied reason =>
           (Chat.ToolError (js "RBAC blocked query execution: " ++ reason), w2)
         | RbacOk =>
           if Chat.dryRun a
           then
             let id := makePreviewId (Chat.clock_id env) (Chat.random36 env) in
             (Chat.ToolPreview id f (cohereExplainSQL X f) Chat.DRY_RUN_NOTE,
              mkWorld
                (<[id := mkPreviewEntry f (Chat.arg_userId a) role
                           (Chat.clock_created env)]> (chatPreviews w))
                (globalPreviews w) (database w)
                (trace w ++ [Classified q false; AccessChecked f role RbacOk]))
           else Chat.db_commit X a f w2
         end
       end.
Proof.
  cbv zeta. unfold Chat.db_execute, classify, log, Chat.put. cbv beta iota zeta.
  destruct (isForbidden (Chat.arg_query a)); [reflexivity|].
  destruct (sqlFormat X (Chat.arg_query a)) as [f|]; [|reflexivity].
  cbn [chatPreviews globalPreviews database trace]. rewrite <- !app_assoc.
  cbn [app].
  destruct (Chat.checkRBACOnSql f (Chat.arg_userRole a)) eqn:Hv; try reflexivity.
Qed.

(** The preview tool. *)
Lemma preview_execute_explicit q uid role env w :
  Chat.preview_execute X q uid role env w =
  if isForbidden q
  then (Chat.ToolError (js "Query contains forbidden statements (INSERT/UPDATE/DELETE/DROP/ALTER/TRUNCATE)."),
        mkWorld (chatPreviews w) (globalPreviews w) (database w)
          (trace w ++ [Classified q true]))
  else match sqlFormat X q with
       | None =>
         (Chat.ToolThrows,
          mkWorld (chatPreviews w) (globalPreviews w) (database w)
            (trace w ++ [Classified q false]))
       | Some f =>
         let w2 := mkWorld (chatPreviews w) (globalPreviews w) (database w)
                     (trace w ++ [Classified q false;
                                  AccessChecked f role (Chat.checkRBACOnSql f role)]) in
         match Chat.checkRBACOnSql f role with
         | RbacTypeError => (Chat.ToolThrows, w2)
         | RbacDenied reason =>
           (Chat.ToolError (js "RBAC blocked preview creation: " ++ reason), w2)
         | RbacOk =>
           let id := makePreviewId (Chat.clock_id env) (Chat.random36 env) in
           (Chat.ToolPreview id f (cohereExplainSQL X f) (Chat.run_instruction id uid role),
            mkWorld
              (<[id := mkPreviewEntry f uid role (Chat.clock_created env)]>
                 (chatPreviews w))
              (globalPreviews w) (database w)
              (trace w ++ [Classified q false; AccessChecked f role RbacOk]))
         end
       end.
Proof.
  cbv zeta. unfold Chat.preview_execute, classify, log, Chat.put. cbv beta iota zeta.
  destruct (isForbidden q); [reflexivity|].
  destruct (sqlFormat X q) as [f|]; [|reflexivity].
  cbn [chatPreviews globalPreviews database trace]. rewrite <- !app_assoc.
  cbn [app].
  destruct (Chat.checkRBACOnSql f role) eqn:Hv; try reflexivity.
Qed.

End Paths.

Section Confirmations.
Context {DB : Type} (X : Collaborators DB).
Implicit Types (w : World DB).

Lemma added_app w w' new : trace w' = trace w ++ new → added w w' = new.
Proof.
  intros H. unfold added. rewrite H, skipn_app, skipn_all, Nat.sub_diag. done.
Qed.

Lemma POST_found b w resp w' :
  ExecutePreview.POST X b w = (resp, w') →
  ExecutePreview.status resp ≠ 400%nat → ExecutePreview.status resp ≠ 404%nat →
  ∃ c pid e, ExecutePreview.previewId b = Some (c :: pid)
             ∧ globalPreviews w !! (c :: pid) = Some e.
Proof.
  unfold ExecutePreview.POST.
  destruct (ExecutePreview.previewId b) as [[|c pid]|] eqn:Hb;
    try (intros [= <- <-]; simpl; done).
  destruct (globalPreviews w !! (c :: pid)) as [e|] eqn:He;
    [|intros [= <- <-]; simpl; done].
  intros _ _ _. by exists c, pid, e.
Qed.

End Confirmations.

(** X9: a confirmation runs the text that was stored with the preview and
    nothing else.  When [POST /execute-preview] answers 200, the query it
    reports is the stored one, the rows are the masked result of running
    it, and the request ran two statements: that query and then the audit
    INSERT naming it; the outcome of the INSERT has no part in the answer.
    The db tool called with a preview id does the same, whatever query
    text came with the call. *)
Theorem confirmation_runs_stored_text {DB : Type} (X : Collaborators DB) :
  (∀ b (w w' : World DB) resp,
     ExecutePreview.POST X b w = (resp, w') →
     ExecutePreview.status resp = 200%nat →
     ∃ pid e role,
       ExecutePreview.previewId b = Some pid
       ∧ globalPreviews w !! pid = Some e
       ∧ ExecutePreview.body resp
         = ExecutePreview.OkBody
             (mask_outcome (fst (db_run X (query e) (database w)))) (query e)
       ∧ added w w'
         = [Classified (query e) false; AccessChecked (query e) role RbacOk;
            Ran UserQuery (query e);
            Ran AuditInsert
              (audit_sql (Some pid) (ExecutePreview.requesterId b) (query e))])
  ∧ (∀ a f (w w' : World DB) pid e rows q,
       Chat.previewId a = Some pid → pid ≠ [] →
       chatPreviews w !! pid = Some e →
       Chat.db_commit X a f w = (Chat.ToolRows rows q, w') →
       q = query e
       ∧ rows = mask_outcome (fst (db_run X (query e) (database w)))
       ∧ ∃ role,
           added w w'
           = [AccessChecked (query e) role RbacOk; Classified (query e) false;
              Ran UserQuery (query e);
              Ran AuditInsert (audit_sql (Some pid) (Chat.arg_userId a) (query e))]).
Proof.
  split.
  - intros b w w' resp HP Hs.
    destruct (POST_found X b w resp w' HP) as (c & pid & e & Hb & He);
      [by rewrite Hs|by rewrite Hs|].
    exists (c :: pid), e, (nullish (ExecutePreview.requesterRole b) (userRole e)).
    split; [done|]. split; [done|].
    rewrite (POST_explicit X b w c pid e Hb He) in HP. cbv zeta in HP.
    destruct (isForbidden (query e)); [by injection HP as <- <-|].
    destruct (ExecutePreview.checkRBACOnSql _ _); try (by injection HP as <- <-).
    destruct (fst (db_run X (query e) (database w))) eqn:Hr;
      try destruct (stringify_error X _);
      injection HP as <- <-; try done; (split; [done|]); by apply added_app.
  - intros a f w w' pid e rows q Ha Hne He HC.
    destruct pid as [|c pid]; [done|].
    rewrite (db_commit_explicit X a f w c pid e Ha He) in HC. cbv zeta in HC.
    destruct (Chat.checkRBACOnSql _ _); try discriminate.
    destruct (isForbidden (query e)); [discriminate|].
    destruct (fst (db_run X (query e) (database w))) eqn:Hr;
      try discriminate; injection HC as <- <- <-;
      (split; [done|]); (split; [done|]);
      exists (nullish (Chat.arg_userRole a) (userRole e)); by apply added_app.
Qed.

Lemma confirmation_runs_stored_text_witness :
  let out := ExecutePreview.POST demo_no_audit demo_body demo_world in
  ExecutePreview.status (fst out) = 200%nat
  ∧ ExecutePreview.body (fst out)
    = ExecutePreview.OkBody (RunRows [[(js "mail", VString (js "a***@***"))]])
        (js "SELECT * FROM sales").
Proof.
  intros out.
  assert (Hs : ExecutePreview.status (fst out) = 200%nat) by (vm_compute; reflexivity).
  split; [exact Hs|].
  destruct (proj1 (confirmation_runs_stored_text demo_no_audit) demo_body demo_world
              (snd out) (fst out) (surjective_pairing out) Hs)
    as (pid & e & role & Hb & He & Hbody & _).
  rewrite Hbody. injection Hb as <-.
  assert (Hl : globalPreviews demo_world !! js "p1" = Some demo_pending).
  { unfold demo_world; simpl. apply lookup_singleton_eq. }
  rewrite Hl in He. injection He as <-. vm_compute. reflexivity.
Defined.

Section Masked.

Lemma quiet_test r s : quiet r None s → test false r s = false.
Proof.
  intros Hq. apply not_true_is_false. intros H.
  apply test_true in H as (a & b & -> & H). by apply H, Hq.
Qed.

Lemma maskRow_clean row : clean_row (maskRow row).
Proof.
  destruct (maskRow_shape row [] NoDup_nil_2 (List.Forall_nil _) (List.Forall_nil _))
    as (Hnd & Hk & Hv).
  split.
  - unfold maskRow at 1. rewrite (maskRow_fixed (maskRow row) []); [done| |done|done].
    simpl. by apply NoDup_ListNoDup.
  - intros k s Hin. rewrite List.Forall_forall in Hv.
    specialize (Hv _ Hin). simpl in Hv. injection Hv as Hs.
    destruct (maskString_quiet s) as (He & Hp & Hc). rewrite Hs in He, Hp, Hc.
    split; [|split]; by apply quiet_test.
Qed.

Lemma mask_outcome_clean r rows :
  mask_outcome r = RunRows rows → Forall clean_row rows.
Proof.
  destruct r as [rows0| |]; try discriminate. simpl. intros [= <-].
  apply List.Forall_forall. intros row Hin.
  apply in_map_iff in Hin as (row0 & <- & _). apply maskRow_clean.
Qed.

End Masked.

(** X10: what the two handlers hand out as rows is the result of the
    data store for the executed text, masked: when that result is an
    array, its rows masked one by one, in order, so that masking a
    returned row again changes nothing and none of the three patterns is
    found in any of its strings; a result that is not an array is handed
    out as it is, unmasked ([Array.isArray(rows) ? ... : rows]). *)
Theorem returned_rows_masked {DB : Type} (X : Collaborators DB) :
  (∀ b (w w' : World DB) resp out q,
     ExecutePreview.POST X b w = (resp, w') →
     ExecutePreview.body resp = ExecutePreview.OkBody out q →
     match fst (db_run X q (database w)) with
     | RunRows rows =>
       out = RunRows (List.map maskRow rows) ∧ Forall clean_row (List.map maskRow rows)
     | RunOther tag => out = RunOther tag
     | RunThrows _ => False
     end)
  ∧ (∀ a env (w w' : World DB) out q,
       Chat.db_execute X a env w = (Chat.ToolRows out q, w') →
       match fst (db_run X q (database w)) with
       | RunRows rows =>
         out = RunRows (List.map maskRow rows) ∧ Forall clean_row (List.map maskRow rows)
       | RunOther tag => out = RunOther tag
       | RunThrows _ => False
       end).
Proof.
  assert (Hclean : ∀ rows, Forall clean_row (List.map maskRow rows)).
  { intros rows. apply List.Forall_forall. intros row Hin.
    apply in_map_iff in Hin as (row0 & <- & _). apply maskRow_clean. }
  split.
  - intros b w w' resp out q HP Hb.
    unfold ExecutePreview.POST in HP.
    destruct (ExecutePreview.previewId b) as [[|c pid]|];
      try (injection HP as <- <-; discriminate Hb).
    destruct (globalPreviews w !! (c :: pid)) as [e|];
      [|injection HP as <- <-; discriminate Hb].
    unfold classify, log in HP. cbv zeta in HP.
    destruct (isForbidden (query e)); [injection HP as <- <-; discriminate Hb|].
    destruct (ExecutePreview.checkRBACOnSql _ _);
      try (injection HP as <- <-; discriminate Hb).
    rewrite run_eq in HP. cbv beta iota zeta in HP. cbn [database] in HP.
    destruct (fst (db_run X (query e) (database w))) as [rows|tag|msg] eqn:Hr;
      try destruct (stringify_error X _);
      injection HP as <- <-; try discriminate Hb;
      simpl in Hb; injection Hb as <- <-; rewrite Hr; [split; [done|apply Hclean]|done].
  - intros a env w w' out q HE.
    unfold Chat.db_execute, classify, log in HE. cbv zeta in HE.
    destruct (isForbidden (Chat.arg_query a)); [discriminate|].
    destruct (sqlFormat X (Chat.arg_query a)) as [f|]; [|discriminate].
    destruct (Chat.checkRBACOnSql f (Chat.arg_userRole a)); try discriminate.
    destruct (Chat.dryRun a); [discriminate|].
    assert (Hres : ∀ t (w0 : World DB), database w0 = database w →
              Chat.execute_resolved X a t w0 = (Chat.ToolRows out q, w') →
              match fst (db_run X q (database w)) with
              | RunRows rows =>
                out = RunRows (List.map maskRow rows)
                ∧ Forall clean_row (List.map maskRow rows)
              | RunOther tag => out = RunOther tag
              | RunThrows _ => False
              end).
    { intros t w0 Hd. unfold Chat.execute_resolved, classify, log. cbv zeta.
      destruct (isForbidden t); [discriminate|].
      rewrite run_eq. cbv beta iota zeta. cbn [database]. rewrite Hd.
      destruct (fst (db_run X t (database w))) as [rows|tag|msg] eqn:Hr;
        try discriminate; intros [= <- <- <-]; rewrite Hr;
        [split; [done|apply Hclean]|done]. }
    unfold Chat.db_commit in HE.
    destruct (Chat.previewId a) as [[|c pid]|] eqn:Ha;
      [eapply Hres; [|exact HE]; reflexivity| |eapply Hres; [|exact HE]; reflexivity].
    cbn [chatPreviews] in HE.
    destruct (chatPreviews w !! (c :: pid)) as [e|]; [|discriminate].
    cbv zeta in HE. destruct (Chat.checkRBACOnSql (query e) _); try discriminate.
    eapply Hres; [|exact HE]. reflexivity.
Qed.

Lemma returned_rows_masked_witness :
  let out := ExecutePreview.POST demo_no_audit demo_body demo_world in
  ExecutePreview.body (fst out)
  = ExecutePreview.OkBody (RunRows [[(js "mail", VString (js "a***@***"))]])
      (js "SELECT * FROM sales")
  ∧ Forall clean_row [[(js "mail", VString (js "a***@***"))]].
Proof.
  intros out.
  assert (Hb : ExecutePreview.body (fst out)
               = ExecutePreview.OkBody (RunRows [[(js "mail", VString (js "a***@***"))]])
                   (js "SELECT * FROM sales")) by (vm_compute; reflexivity).
  split; [exact Hb|].
  pose proof (proj1 (returned_rows_masked demo_no_audit) demo_body demo_world (snd out)
                (fst out) _ _ (surjective_pairing out) Hb) as H.
  change (fst (db_run demo_no_audit (js "SELECT * FROM sales") (database demo_world)))
    with (RunRows [[(js "mail", VString (js "ann@example.com"))]]) in H.
  destruct H as [_ H2]. exact H2.
Defined.

(** X11: when the data store throws on the user's query, the endpoint
    answers 500 with the message of the exception (or [unknown error] if
    it has none) and the db tool lets the exception out; in both cases
    the preview stays in its map and no audit INSERT is attempted. *)
Theorem data_store_failure {DB : Type} (X : Collaborators DB) :
  (∀ b (w : World DB) pid e msg,
     ExecutePreview.previewId b = Some pid → pid ≠ [] →
     globalPreviews w !! pid = Some e →
     isForbidden (query e) = false →
     ExecutePreview.checkRBACOnSql (query e)
       (nullish (ExecutePreview.requesterRole b) (userRole e)) = RbacOk →
     fst (db_run X (query e) (database w)) = RunThrows msg →
     ∃ w', ExecutePreview.POST X b w
           = (ExecutePreview.mkResponse 500
                (ExecutePreview.ErrorBody
                   (match msg with [] => js "unknown error" | _ => msg end)), w')
           ∧ globalPreviews w' = globalPreviews w
           ∧ chatPreviews w' = chatPreviews w
           ∧ added w w'
             = [Classified (query e) false;
                AccessChecked (query e)
                  (nullish (ExecutePreview.requesterRole b) (userRole e)) RbacOk;
                Ran UserQuery (query e)])
  ∧ (∀ a f (w : World DB) pid e msg,
       Chat.previewId a = Some pid → pid ≠ [] →
       chatPreviews w !! pid = Some e →
       isForbidden (query e) = false →
       Chat.checkRBACOnSql (query e) (nullish (Chat.arg_userRole a) (userRole e))
         = RbacOk →
       fst (db_run X (query e) (database w)) = RunThrows msg →
       ∃ w', Chat.db_commit X a f w = (Chat.ToolThrows, w')
             ∧ chatPreviews w' = chatPreviews w
             ∧ globalPreviews w' = globalPreviews w
             ∧ added w w'
               = [AccessChecked (query e)
                    (nullish (Chat.arg_userRole a) (userRole e)) RbacOk;
                  Classified (query e) false;
                  Ran UserQuery (query e)]).
Proof.
  split.
  - intros b w pid e msg Hb Hne He Hf Hv Hr.
    destruct pid as [|c pid]; [done|].
    rewrite (POST_explicit X b w c pid e Hb He). cbv zeta. rewrite Hf, Hv, Hr.
    eexists. split; [reflexivity|]. split; [done|]. split; [done|].
    by apply added_app.
  - intros a f w pid e msg Ha Hne He Hf Hv Hr.
    destruct pid as [|c pid]; [done|].
    rewrite (db_commit_explicit X a f w c pid e Ha He). cbv zeta. rewrite Hf, Hv, Hr.
    eexists. split; [reflexivity|]. split; [done|]. split; [done|].
    by apply added_app.
Qed.

Lemma data_store_failure_witness :
  ExecutePreview.previewId demo_body = Some (js "p1")
  ∧ js "p1" ≠ []
  ∧ globalPreviews demo_world !! js "p1" = Some demo_pending
  ∧ isForbidden (query demo_pending) = false
  ∧ ExecutePreview.checkRBACOnSql (query demo_pending)
      (nullish (ExecutePreview.requesterRole demo_body) (userRole demo_pending)) = RbacOk
  ∧ fst (db_run demo_down (query demo_pending) (database demo_world))
    = RunThrows (js "connection refused")
  ∧ ∃ w', ExecutePreview.POST demo_down demo_body demo_world
          = (ExecutePreview.mkResponse 500
               (ExecutePreview.ErrorBody (js "connection refused")), w')
          ∧ globalPreviews w' = globalPreviews demo_world.
Proof.
  assert (H1 : ExecutePreview.previewId demo_body = Some (js "p1")) by reflexivity.
  assert (H2 : js "p1" ≠ []) by discriminate.
  assert (H3 : globalPreviews demo_world !! js "p1" = Some demo_pending).
  { unfold demo_world; simpl. apply lookup_singleton_eq. }
  assert (H4 : isForbidden (query demo_pending) = false) by (vm_compute; reflexivity).
  assert (H5 : ExecutePreview.checkRBACOnSql (query demo_pending)
                 (nullish (ExecutePreview.requesterRole demo_body) (userRole demo_pending))
               = RbacOk) by reflexivity.
  assert (H6 : fst (db_run demo_down (query demo_pending) (database demo_world))
               = RunThrows (js "connection refused")) by reflexivity.
  do 6 (split; [assumption|]).
  destruct (proj1 (data_store_failure demo_down) demo_body demo_world (js "p1")
              demo_pending (js "connection refused") H1 H2 H3 H4 H5 H6)
    as (w' & E & G & _).
  exists w'. split; [exact E|exact G].
Defined.

(** X12: a role named like a member of [Object.prototype] is found by the
    lookup in the policy object, and the call of [includes] on what is
    found throws.  The endpoint answers 500 with the message of the
    TypeError, the db tool lets it out; nothing is run and every map is
    left as it was. *)
Theorem prototype_role_raises {DB : Type} (X : Collaborators DB) role :
  In role OBJECT_PROTOTYPE_KEYS →
  (∀ sql, Chat.checkRBACOnSql sql (Some role) = RbacTypeError
          ∧ ExecutePreview.checkRBACOnSql sql (Some role) = RbacTypeError)
  ∧ (∀ b (w : World DB) pid e,
       ExecutePreview.previewId b = Some pid → pid ≠ [] →
       globalPreviews w !! pid = Some e →
       isForbidden (query e) = false →
       ExecutePreview.requesterRole b = Some role →
       ∃ w', ExecutePreview.POST X b w
             = (ExecutePreview.mkResponse 500
                  (ExecutePreview.ErrorBody (js "allowed.includes is not a function")),
                w')
             ∧ globalPreviews w' = globalPreviews w
             ∧ chatPreviews w' = chatPreviews w
             ∧ database w' = database w
             ∧ runs_nothing (added w w'))
  ∧ (∀ a env (w : World DB) f,
       isForbidden (Chat.arg_query a) = false →
       sqlFormat X (Chat.arg_query a) = Some f →
       Chat.arg_userRole a = Some role →
       ∃ w', Chat.db_execute X a env w = (Chat.ToolThrows, w')
             ∧ chatPreviews w' = chatPreviews w
             ∧ globalPreviews w' = globalPreviews w
             ∧ database w' = database w
             ∧ runs_nothing (added w w')).
Proof.
  intros Hin.
  assert (Hc : ∀ extract sql, check_rbac extract sql (Some role) = RbacTypeError).
  { intros extract sql. simpl in Hin.
    repeat (destruct Hin as [<-|Hin]; [reflexivity|]). destruct Hin. }
  split; [|split].
  - intros sql. split; apply Hc.
  - intros b w pid e Hb Hne He Hf Hr.
    destruct pid as [|c pid]; [done|].
    rewrite (POST_explicit X b w c pid e Hb He). cbv zeta.
    rewrite Hf, Hr. simpl nullish.
    unfold ExecutePreview.checkRBACOnSql. rewrite Hc.
    eexists. split; [reflexivity|]. repeat (split; [done|]).
    erewrite added_app; [|reflexivity].
    intros k q [H|[H|[]]]; discriminate.
  - intros a env w f Hf Hfmt Hr.
    rewrite db_execute_explicit. cbv zeta. rewrite Hf, Hfmt, Hr.
    unfold Chat.checkRBACOnSql. rewrite Hc.
    eexists. split; [reflexivity|]. repeat (split; [done|]).
    erewrite added_app; [|reflexivity].
    intros k q [H|[H|[]]]; discriminate.
Qed.

Lemma prototype_role_raises_witness :
  In (js "toString") OBJECT_PROTOTYPE_KEYS
  ∧ Chat.checkRBACOnSql (js "SELECT 1") (Some (js "toString")) = RbacTypeError.
Proof.
  assert (H : In (js "toString") OBJECT_PROTOTYPE_KEYS).
  { simpl. do 5 right. by left. }
  split; [exact H|].
  exact (proj1 (proj1 (prototype_role_raises demo_collaborators (js "toString") H)
                  (js "SELECT 1"))).
Defined.

(** X13: the role sent with a confirmation takes the place of the role
    stored with the preview: once the request names a role, the answer no
    longer depends on the stored one.  An empty role string counts as a
    role here and as no role in the check, so a confirmation that sends
    it is never refused by the access check. *)
Theorem confirmation_role_overrides {DB : Type} (X : Collaborators DB) :
  (∀ b chat glob (d : DB) t pid e e2 role,
     ExecutePreview.previewId b = Some pid →
     ExecutePreview.requesterRole b = Some role →
     query e2 = query e →
     fst (ExecutePreview.POST X b (mkWorld chat (<[pid := e2]> glob) d t))
     = fst (ExecutePreview.POST X b (mkWorld chat (<[pid := e]> glob) d t)))
  ∧ (∀ a f chat glob (d : DB) t pid e e2 role,
       Chat.previewId a = Some pid →
       Chat.arg_userRole a = Some role →
       query e2 = query e →
       fst (Chat.db_commit X a f (mkWorld (<[pid := e2]> chat) glob d t))
       = fst (Chat.db_commit X a f (mkWorld (<[pid := e]> chat) glob d t)))
  ∧ (∀ b (w w' : World DB) pid e resp,
       ExecutePreview.previewId b = Some pid →
       globalPreviews w !! pid = Some e →
       ExecutePreview.requesterRole b = Some [] →
       ExecutePreview.POST X b w = (resp, w') →
       ExecutePreview.status resp ≠ 403%nat)
  ∧ (∀ a f (w w' : World DB) pid e reason,
       Chat.previewId a = Some pid →
       chatPreviews w !! pid = Some e →
       Chat.arg_userRole a = Some [] →
       Chat.db_commit X a f w
       ≠ (Chat.ToolError (js "RBAC blocked query execution: " ++ reason), w')).
Proof.
  split; [|split; [|split]].
  - intros b chat glob d t pid e e2 role Hb Hr Hq.
    destruct pid as [|c pid].
    + unfold ExecutePreview.POST. by rewrite Hb.
    + rewrite (POST_explicit X b _ c pid e2 Hb); [|apply lookup_insert_eq].
      rewrite (POST_explicit X b _ c pid e Hb); [|apply lookup_insert_eq].
      cbv zeta. rewrite Hr, Hq. simpl nullish. cbn [database].
      destruct (isForbidden (query e)); [done|].
      destruct (ExecutePreview.checkRBACOnSql _ _); try done.
      by destruct (fst (db_run X (query e) d)).
  - intros a f chat glob d t pid e e2 role Ha Hr Hq.
    destruct pid as [|c pid].
    + unfold Chat.db_commit. rewrite Ha.
      unfold Chat.execute_resolved, classify, log. rewrite Ha.
      destruct (isForbidden f); [done|].
      rewrite !run_eq. cbn [fst snd database].
      by destruct (fst (db_run X f d)).
    + rewrite (db_commit_explicit X a f _ c pid e2 Ha); [|apply lookup_insert_eq].
      rewrite (db_commit_explicit X a f _ c pid e Ha); [|apply lookup_insert_eq].
      cbv zeta. rewrite Hr, Hq. simpl nullish. cbn [database].
      destruct (Chat.checkRBACOnSql _ _); try done.
      destruct (isForbidden (query e)); [done|].
      by destruct (fst (db_run X (query e) d)).
  - intros b w w' pid e resp Hb He Hr HP.
    destruct pid as [|c pid].
    + unfold ExecutePreview.POST in HP. rewrite Hb in HP. by injection HP as <- <-.
    + rewrite (POST_explicit X b w c pid e Hb He) in HP. cbv zeta in HP.
      rewrite Hr in HP. simpl nullish in HP.
      change (ExecutePreview.checkRBACOnSql (query e) (Some [])) with RbacOk in HP.
      destruct (isForbidden (query e)); [by injection HP as <- <-|].
      by destruct (fst (db_run X (query e) (database w)));
        try destruct (stringify_error X _); injection HP as <- <-.
  - intros a f w w' pid e reason Ha He Hr HC.
    destruct pid as [|c pid].
    + unfold Chat.db_commit in HC. rewrite Ha in HC.
      unfold Chat.execute_resolved, classify in HC. rewrite Ha in HC.
      destruct (isForbidden f); [discriminate|].
      rewrite run_eq in HC. cbv beta iota zeta in HC.
      by destruct (fst (db_run X f _)).
    + rewrite (db_commit_explicit X a f w c pid e Ha He) in HC. cbv zeta in HC.
      rewrite Hr in HC. simpl nullish in HC.
      change (Chat.checkRBACOnSql (query e) (Some [])) with RbacOk in HC.
      destruct (isForbidden (query e)); [discriminate|].
      by destruct (fst (db_run X (query e) (database w))).
Qed.

Lemma confirmation_role_overrides_witness :
  let out := ExecutePreview.POST demo_collaborators demo_empty_role_body
               demo_guest_world in
  ExecutePreview.previewId demo_empty_role_body = Some (js "p1")
  ∧ globalPreviews demo_guest_world !! js "p1" = Some demo_guest_pending
  ∧ ExecutePreview.requesterRole demo_empty_role_body = Some []
  ∧ ExecutePreview.checkRBACOnSql (query demo_guest_pending)
      (userRole demo_guest_pending)
    = RbacDenied (table_denied_reason (js "guest") (js "sales"))
  ∧ ExecutePreview.status (fst out) ≠ 403%nat
  ∧ ExecutePreview.status (fst out) = 200%nat.
Proof.
  intros out.
  assert (H1 : ExecutePreview.previewId demo_empty_role_body = Some (js "p1"))
    by reflexivity.
  assert (H2 : globalPreviews demo_guest_world !! js "p1" = Some demo_guest_pending).
  { unfold demo_guest_world; simpl. apply lookup_insert_eq. }
  assert (H3 : ExecutePreview.requesterRole demo_empty_role_body = Some [])
    by reflexivity.
  split; [exact H1|]. split; [exact H2|]. split; [exact H3|].
  split; [vm_compute; reflexivity|]. split.
  - exact (proj1 (proj2 (proj2 (confirmation_role_overrides demo_collaborators)))
             demo_empty_role_body demo_guest_world (snd out) (js "p1")
             demo_guest_pending (fst out) H1 H2 H3 (surjective_pairing out)).
  - vm_compute. reflexivity.
Defined.

(** ** Making previews *)

Section Making.
Context {DB : Type} (X : Collaborators DB).
Implicit Types (w : World DB).

Lemma no_run_in (l : list event) :
  Forall (fun ev => match ev with Ran _ _ => False | _ => True end) l →
  runs_nothing l.
Proof.
  intros H k q Hin. rewrite List.Forall_forall in H. exact (H _ Hin).
Qed.

End Making.

(** X14: the preview tool and a dry run of the db tool never touch the
    data store.  When they return a preview, its id is the one made from
    the clock and the random text, the map of the chat module holds under
    that id the formatted text with the caller's user id, role and the
    time of the call, and the query had passed both guards; with any other
    result the map is left as it was. *)
Theorem previews_only_store {DB : Type} (X : Collaborators DB) :
  (∀ q uid role env (w w' : World DB) res,
     Chat.preview_execute X q uid role env w = (res, w') →
     database w' = database w
     ∧ globalPreviews w' = globalPreviews w
     ∧ runs_nothing (added w w')
     ∧ match res with
       | Chat.ToolPreview id f ex ins =>
         id = makePreviewId (Chat.clock_id env) (Chat.random36 env)
         ∧ isForbidden q = false
         ∧ sqlFormat X q = Some f
         ∧ Chat.checkRBACOnSql f role = RbacOk
         ∧ ex = cohereExplainSQL X f
         ∧ chatPreviews w'
           = <[id := mkPreviewEntry f uid role (Chat.clock_created env)]>
               (chatPreviews w)
       | _ => chatPreviews w' = chatPreviews w
       end)
  ∧ (∀ a env (w w' : World DB) res,
       Chat.dryRun a = true →
       Chat.db_execute X a env w = (res, w') →
       database w' = database w
       ∧ globalPreviews w' = globalPreviews w
       ∧ runs_nothing (added w w')
       ∧ match res with
         | Chat.ToolPreview id f ex note =>
           id = makePreviewId (Chat.clock_id env) (Chat.random36 env)
           ∧ isForbidden (Chat.arg_query a) = false
           ∧ sqlFormat X (Chat.arg_query a) = Some f
           ∧ Chat.checkRBACOnSql f (Chat.arg_userRole a) = RbacOk
           ∧ ex = cohereExplainSQL X f
           ∧ chatPreviews w'
             = <[id := mkPreviewEntry f (Chat.arg_userId a) (Chat.arg_userRole a)
                         (Chat.clock_created env)]> (chatPreviews w)
         | _ => chatPreviews w' = chatPreviews w
         end).
Proof.
  split.
  - intros q uid role env w w' res. rewrite preview_execute_explicit.
    destruct (isForbidden q) eqn:Hf.
    { intros [= <- <-]. repeat (split; [done|]). split; [|done].
      erewrite added_app; [|reflexivity]. apply no_run_in. by repeat constructor. }
    destruct (sqlFormat X q) as [f|] eqn:Hfmt.
    2: { intros [= <- <-]. repeat (split; [done|]). split; [|done].
         erewrite added_app; [|reflexivity]. apply no_run_in. by repeat constructor. }
    cbv zeta. destruct (Chat.checkRBACOnSql f role) eqn:Hv; intros [= <- <-];
      repeat (split; [done|]);
      (split; [erewrite added_app; [|reflexivity]; apply no_run_in;
               by repeat constructor|]); done.
  - intros a env w w' res Hd. rewrite db_execute_explicit. cbv zeta. rewrite Hd.
    destruct (isForbidden (Chat.arg_query a)) eqn:Hf.
    { intros [= <- <-]. repeat (split; [done|]). split; [|done].
      erewrite added_app; [|reflexivity]. apply no_run_in. by repeat constructor. }
    destruct (sqlFormat X (Chat.arg_query a)) as [f|] eqn:Hfmt.
    2: { intros [= <- <-]. repeat (split; [done|]). split; [|done].
         erewrite added_app; [|reflexivity]. apply no_run_in. by repeat constructor. }
    destruct (Chat.checkRBACOnSql f (Chat.arg_userRole a)) eqn:Hv; intros [= <- <-];
      repeat (split; [done|]);
      (split; [erewrite added_app; [|reflexivity]; apply no_run_in;
               by repeat constructor|]); done.
Qed.

Lemma previews_only_store_witness :
  let out := Chat.db_execute demo_collaborators demo_dry_run demo_env (initial_world tt) in
  Chat.dryRun demo_dry_run = true
  ∧ database (snd out) = tt
  ∧ runs_nothing (added (initial_world tt) (snd out)).
Proof.
  intros out.
  assert (H : Chat.dryRun demo_dry_run = true) by reflexivity.
  destruct (proj2 (previews_only_store demo_collaborators) demo_dry_run demo_env
              (initial_world tt) (snd out) (fst out) H (surjective_pairing out))
    as (H1 & _ & H3 & _).
  split; [exact H|]. split; [exact H1|exact H3].
Defined.

(** X15: a dry run followed by its confirmation.  The preview made by a
    dry run of the db tool survives every run of the cleanup timer within
    the hour; a later call of the db tool with the returned id that is
    itself let through, for a role that may run the stored text, runs
    that text, returns its masked rows and removes the preview. *)
Theorem dry_run_then_confirm {DB : Type} (X : Collaborators DB)
    a env (w w1 : World DB) id f ex note (times : list Z) a2 env2 f2 :
  Chat.db_execute X a env w = (Chat.ToolPreview id f ex note, w1) →
  Forall (fun now => (now - Chat.clock_created env <= PREVIEW_TTL_MS)%Z) times →
  let w2 := fold_left (fun w' now => Chat.sweep now w') times w1 in
  Chat.previewId a2 = Some id →
  Chat.dryRun a2 = false →
  isForbidden (Chat.arg_query a2) = false →
  sqlFormat X (Chat.arg_query a2) = Some f2 →
  Chat.checkRBACOnSql f2 (Chat.arg_userRole a2) = RbacOk →
  Chat.checkRBACOnSql f (nullish (Chat.arg_userRole a2) (Chat.arg_userRole a)) = RbacOk →
  isForbidden f = false →
  (∀ msg, fst (db_run X f (database w2)) ≠ RunThrows msg) →
  ∃ w3, Chat.db_execute X a2 env2 w2
        = (Chat.ToolRows (mask_outcome (fst (db_run X f (database w2)))) f, w3)
        ∧ chatPreviews w3 !! id = None.
Proof.
  intros Hdry Htimes w2 Ha2 Hd2 Hf2 Hfmt2 Hv2 Hv Hf Hrun.
  destruct (dry_run_stores X a env w w1 id f ex note Hdry) as [Hid Hw1].
  assert (Hne : id ≠ []) by (rewrite Hid; apply makePreviewId_nonempty).
  assert (Hl1 : chatPreviews w1 !! id
                = Some (mkPreviewEntry f (Chat.arg_userId a) (Chat.arg_userRole a)
                          (Chat.clock_created env))).
  { rewrite Hw1. unfold Chat.put; simpl. apply lookup_insert_eq. }
  assert (Hl2 : chatPreviews w2 !! id
                = Some (mkPreviewEntry f (Chat.arg_userId a) (Chat.arg_userRole a)
                          (Chat.clock_created env))).
  { apply sweeps_fresh; [exact Hl1|exact Htimes]. }
  destruct id as [|c id]; [done|].
  rewrite db_execute_explicit. cbv zeta. rewrite Hf2, Hfmt2, Hv2, Hd2.
  erewrite db_commit_explicit; [|exact Ha2|exact Hl2].
  cbv zeta. cbn [query userRole database]. rewrite Hv, Hf.
  destruct (fst (db_run X f (database w2))) eqn:Hr.
  - eexists. split; [reflexivity|]. simpl. apply lookup_delete_eq.
  - eexists. split; [reflexivity|]. simpl. apply lookup_delete_eq.
  - by destruct (Hrun message).
Qed.

Lemma dry_run_then_confirm_witness :
  let id := makePreviewId (Chat.clock_id demo_env) (Chat.random36 demo_env) in
  let times := [1700000600000%Z; 1700003600000%Z] in
  let w2 := fold_left (fun w' now => Chat.sweep now w') times demo_chat_world in
  Forall (fun now => (now - Chat.clock_created demo_env <= PREVIEW_TTL_MS)%Z) times
  ∧ ∃ w3, Chat.db_execute demo_collaborators demo_confirm demo_env w2
          = (Chat.ToolRows (RunRows []) (js "SELECT 1"), w3)
          ∧ chatPreviews w3 !! id = None.
Proof.
  intros id times w2.
  assert (Ht : Forall (fun now => (now - Chat.clock_created demo_env <= PREVIEW_TTL_MS)%Z)
                 times).
  { repeat constructor; vm_compute; discriminate. }
  split; [exact Ht|].
  assert (Hdry : Chat.db_execute demo_collaborators demo_dry_run demo_env (initial_world tt)
                 = (Chat.ToolPreview id (js "SELECT 1") (js "explanation")
                      Chat.DRY_RUN_NOTE, demo_chat_world)).
  { vm_compute. reflexivity. }
  exact (dry_run_then_confirm demo_collaborators demo_dry_run demo_env (initial_world tt)
           demo_chat_world id (js "SELECT 1") (js "explanation") Chat.DRY_RUN_NOTE times
           demo_confirm demo_env (js "SELECT 1")
           Hdry Ht eq_refl eq_refl eq_refl eq_refl eq_refl eq_refl eq_refl
           ltac:(intros msg; discriminate)).
Defined.

(** ** Every stored preview went through the guards *)

Section Vetted.
Context {DB : Type} (X : Collaborators DB).
Implicit Types (w : World DB).

Lemma db_commit_shrinks a f w id e :
  chatPreviews (snd (Chat.db_commit X a f w)) !! id = Some e →
  chatPreviews w !! id = Some e.
Proof.
  handler_steps; cbn [chatPreviews]; try done;
    intros H; apply lookup_delete_Some in H as [_ H]; done.
Qed.

Lemma handle_vetted w r :
  (∀ id e, chatPreviews w !! id = Some e → vetted X e) →
  ∀ id e, chatPreviews (handle X w r) !! id = Some e → vetted X e.
Proof.
  intros Inv id e. destruct r as [a env|q uid role env|now|b]; cbn [handle].
  - rewrite db_execute_explicit. cbv zeta.
    destruct (isForbidden (Chat.arg_query a)) eqn:Hf; [apply Inv|].
    destruct (sqlFormat X (Chat.arg_query a)) as [f|] eqn:Hfmt; [|apply Inv].
    destruct (Chat.checkRBACOnSql f (Chat.arg_userRole a)) eqn:Hv; try apply Inv.
    destruct (Chat.dryRun a).
    + cbn [snd chatPreviews]. intros H.
      apply lookup_insert_Some in H as [[_ <-]|[_ H]]; [|by apply (Inv id)].
      exists (Chat.arg_query a). done.
    + intros H. apply db_commit_shrinks in H. by apply (Inv id).
  - rewrite preview_execute_explicit.
    destruct (isForbidden q) eqn:Hf; [apply Inv|].
    destruct (sqlFormat X q) as [f|] eqn:Hfmt; [|apply Inv].
    cbv zeta. destruct (Chat.checkRBACOnSql f role) eqn:Hv; try apply Inv.
    cbn [snd chatPreviews]. intros H.
    apply lookup_insert_Some in H as [[_ <-]|[_ H]]; [|by apply (Inv id)].
    exists q. done.
  - unfold Chat.sweep. cbn [chatPreviews]. rewrite sweep_map_lookup.
    destruct (chatPreviews w !! id) as [e'|] eqn:He; [|done].
    destruct (expired now e'); [done|]. intros [= <-]. by apply (Inv id).
  - assert (E : chatPreviews (snd (ExecutePreview.POST X b w)) = chatPreviews w).
    { handler_steps; reflexivity. }
    rewrite E. apply Inv.
Qed.

End Vetted.

(** X16: whatever requests the server has handled since it started, every
    preview in the map of the chat module is the formatted form of a
    query on which the forbidden-statement test was negative, and the
    access check passed on the stored text for the stored role. *)
Theorem stored_previews_vetted {DB : Type} (X : Collaborators DB) (d : DB)
    (rs : list request) id e :
  chatPreviews (serve X rs (initial_world d)) !! id = Some e →
  vetted X e.
Proof.
  unfold serve.
  assert (H : ∀ w, (∀ id e, chatPreviews w !! id = Some e → vetted X e) →
                   ∀ id e, chatPreviews (fold_left (handle X) rs w) !! id = Some e →
                           vetted X e).
  { induction rs as [|r rs IH]; intros w Inv; simpl; [exact Inv|].
    apply IH. by apply handle_vetted. }
  apply H. intros id' e' Hl. simpl in Hl. by rewrite lookup_empty in Hl.
Qed.

Lemma stored_previews_vetted_witness :
  let id := makePreviewId (Chat.clock_id demo_env) (Chat.random36 demo_env) in
  let e := mkPreviewEntry (js "SELECT * FROM sales") None None
             (Chat.clock_created demo_env) in
  chatPreviews (serve demo_collaborators demo_stored (initial_world tt)) !! id = Some e
  ∧ vetted demo_collaborators e.
Proof.
  intros id e.
  assert (H : chatPreviews (serve demo_collaborators demo_stored (initial_world tt)) !! id
              = Some e) by (vm_compute; reflexivity).
  split; [exact H|].
  exact (stored_previews_vetted demo_collaborators tt demo_stored id e H).
Defined.

(** X20: the db tool called without [dryRun] and without a preview id
    runs the query it was given.  When it returns rows, the text it ran
    and reports is the formatted form of that query, both guards had let
    it through (the forbidden-statement test on the text as given and on
    the formatted text), the rows are the masked result, the audit INSERT
    carries no preview id, and the preview map is left as it was. *)
Theorem direct_execution {DB : Type} (X : Collaborators DB)
    a env (w w' : World DB) rows q :
  Chat.dryRun a = false →
  Chat.previewId a = None ∨ Chat.previewId a = Some [] →
  Chat.db_execute X a env w = (Chat.ToolRows rows q, w') →
  isForbidden (Chat.arg_query a) = false
  ∧ sqlFormat X (Chat.arg_query a) = Some q
  ∧ Chat.checkRBACOnSql q (Chat.arg_userRole a) = RbacOk
  ∧ isForbidden q = false
  ∧ rows = mask_outcome (fst (db_run X q (database w)))
  ∧ chatPreviews w' = chatPreviews w
  ∧ added w w'
    = [Classified (Chat.arg_query a) false;
       AccessChecked q (Chat.arg_userRole a) RbacOk;
       Classified q false;
       Ran UserQuery q;
       Ran AuditInsert (audit_sql None (Chat.arg_userId a) q)].
Proof.
  intros Hd Hp. rewrite db_execute_explicit. cbv zeta. rewrite Hd.
  destruct (isForbidden (Chat.arg_query a)) eqn:Hf; [discriminate|].
  destruct (sqlFormat X (Chat.arg_query a)) as [f|] eqn:Hfmt; [|discriminate].
  destruct (Chat.checkRBACOnSql f (Chat.arg_userRole a)) eqn:Hv; try discriminate.
  unfold Chat.db_commit, Chat.execute_resolved, classify, log.
  destruct Hp as [Hp|Hp]; rewrite Hp;
    (destruct (isForbidden f) eqn:Hf2; [discriminate|]);
    rewrite run_eq, audit_eq; cbv beta iota zeta;
    cbn [fst snd chatPreviews globalPreviews database trace];
    (destruct (fst (db_run X f (database w))) eqn:Hr; try discriminate);
    intros [= <- <- <-]; rewrite ?Hr; repeat (split; [done|]);
    apply added_app; cbn [trace]; by rewrite <- !app_assoc.
Qed.

Lemma direct_execution_witness :
  let out := Chat.db_execute demo_collaborators demo_direct demo_env (initial_world tt) in
  Chat.dryRun demo_direct = false
  ∧ (Chat.previewId demo_direct = None ∨ Chat.previewId demo_direct = Some [])
  ∧ fst out = Chat.ToolRows (RunRows []) (js "SELECT name FROM products")
  ∧ chatPreviews (snd out) = ∅.
Proof.
  intros out.
  assert (H1 : Chat.dryRun demo_direct = false) by reflexivity.
  assert (H2 : Chat.previewId demo_direct = None ∨ Chat.previewId demo_direct = Some [])
    by (by left).
  assert (H3 : fst out = Chat.ToolRows (RunRows []) (js "SELECT name FROM products"))
    by (vm_compute; reflexivity).
  split; [exact H1|]. split; [exact H2|]. split; [exact H3|].
  assert (HE : Chat.db_execute demo_collaborators demo_direct demo_env (initial_world tt)
               = (Chat.ToolRows (RunRows []) (js "SELECT name FROM products"), snd out)).
  { rewrite <- H3. apply surjective_pairing. }
  destruct (direct_execution demo_collaborators demo_direct demo_env (initial_world tt)
              (snd out) (RunRows []) (js "SELECT name FROM products") H1 H2 HE)
    as (_ & _ & _ & _ & _ & Hc & _).
  exact Hc.
Defined.

(** ** The heuristic explanation *)

Section PatternFacts.

Lemma repeat_matcher_ext step1 step2 gs fuel mn mx g st :
  (∀ st, step1 st = step2 st) →
  repeat_matcher step1 gs fuel mn mx g st = repeat_matcher step2 gs fuel mn mx g st.
Proof.
  intros Hstep. revert mn mx st.
  induction fuel as [|fuel IH]; intros mn mx st; [done|]. cbn [repeat_matcher].
  rewrite Hstep.
  assert (E : ∀ l,
    flat_map (fun st' =>
      if Nat.eqb mn 0 && Nat.eqb (length (rest st')) (length (rest st)) then []
      else repeat_matcher step1 gs fuel (Nat.pred mn) (option_map Nat.pred mx) g st') l
    = flat_map (fun st' =>
      if Nat.eqb mn 0 && Nat.eqb (length (rest st')) (length (rest st)) then []
      else repeat_matcher step2 gs fuel (Nat.pred mn) (option_map Nat.pred mx) g st') l).
  { intros l. apply flat_map_ext. intros st'.
    destruct (Nat.eqb mn 0 && _); [done|apply IH]. }
  by rewrite E.
Qed.

Lemma in_char_step ok st s :
  In s (char_step ok st) ↔
  ∃ c, rest st = c :: rest s ∧ ok c = true ∧ s = MState (Some c) (rest s) (caps st).
Proof.
  unfold char_step. destruct (rest st) as [|c s'] eqn:Hr.
  - split; [done|]. by intros (c & H & _).
  - destruct (ok c) eqn:Hc; split.
    + intros [<-|[]]. by exists c.
    + intros (c' & [= <- ->] & _ & ->). by left.
    + done.
    + intros (c' & [= <- ->] & Hc' & _). congruence.
Qed.

(** A repetition of single-character steps reads a run of accepted
    characters and nothing else. *)
Lemma char_rep_sound ok fuel mn g st st' :
  In st' (repeat_matcher (char_step ok) [] fuel mn None g st) →
  ∃ t, rest st = t ++ rest st'
       ∧ st' = MState (last_of (prev st) t) (rest st') (caps st)
       ∧ Forall (fun c => ok c = true) t
       ∧ (mn <= length t)%nat.
Proof.
  revert mn st. induction fuel as [|fuel IH]; intros mn st H; [done|].
  apply repeat_matcher_in in H as [[Hz ->]|(f' & st1 & [= <-] & _ & H1 & _ & H2)].
  - destruct Hz as [Hz| ->]; [done|]. exists []. destruct st; simpl. repeat split; auto.
  - rewrite clear_caps_nil in H1. apply in_char_step in H1 as (c & Hr & Hc & Hst1).
    apply IH in H2 as (t & Ht & Hst' & Hall & Hlen). simpl in Ht, Hst'.
    rewrite Hst1 in Ht, Hst'. simpl in Ht, Hst'.
    exists (c :: t). split; [|split; [|split]].
    + rewrite Hr, Ht. done.
    + rewrite last_of_cons. done.
    + by constructor.
    + simpl. lia.
Qed.

Lemma char_rep_complete ok g t :
  ∀ fuel mn st rest',
    rest st = t ++ rest' →
    Forall (fun c => ok c = true) t →
    (mn <= length t)%nat → (length t < fuel)%nat →
    In (MState (last_of (prev st) t) rest' (caps st))
       (repeat_matcher (char_step ok) [] fuel mn None g st).
Proof.
  induction t as [|c t IH]; intros fuel mn st rest' Hr Hall Hmn Hfuel;
    (destruct fuel as [|fuel]; [lia|]).
  - simpl in Hr, Hmn. assert (mn = 0%nat) as -> by lia.
    replace (MState (last_of (prev st) []) rest' (caps st)) with st
      by (destruct st; simpl in *; by subst).
    apply repeat_matcher_stop. by right.
  - inversion Hall as [|? ? Hc Hall']; subst.
    apply (repeat_matcher_more _ _ _ _ _ _ _
             (MState (Some c) (t ++ rest') (caps st))); [done| | |].
    + rewrite clear_caps_nil. apply in_char_step. exists c. done.
    + intros _. rewrite Hr. simpl. lia.
    + rewrite last_of_cons.
      apply (IH fuel (Nat.pred mn) (MState (Some c) (t ++ rest') (caps st)) rest');
        simpl in *; [done|done|lia|lia].
Qed.

Lemma in_char_rep step ok fuel mn g st st' :
  (∀ st, step st = char_step ok st) →
  (length (rest st) < fuel)%nat →
  In st' (repeat_matcher step [] fuel mn None g st) ↔
  ∃ t, rest st = t ++ rest st'
       ∧ st' = MState (last_of (prev st) t) (rest st') (caps st)
       ∧ Forall (fun c => ok c = true) t
       ∧ (mn <= length t)%nat.
Proof.
  intros Hstep Hfuel. rewrite (repeat_matcher_ext _ _ _ _ _ _ _ _ Hstep). split.
  - apply char_rep_sound.
  - intros (t & Hr & -> & Hall & Hmn). simpl.
    apply char_rep_complete; try done.
    rewrite Hr, length_app in Hfuel. lia.
Qed.

Lemma in_rep_cls icase atoms mn g st st' :
  In st' (ms icase (Rep (Cls atoms) mn None g) st) ↔
  ∃ t, rest st = t ++ rest st'
       ∧ st' = MState (last_of (prev st) t) (rest st') (caps st)
       ∧ Forall (fun c => cls_match icase atoms c = true) t
       ∧ (mn <= length t)%nat.
Proof. rewrite ms_Rep. apply in_char_rep; [done|lia]. Qed.

Lemma in_rep_dot icase mn g st st' :
  In st' (pms icase (PRep Dot mn None g) st) ↔
  ∃ t, rest st = t ++ rest st'
       ∧ st' = MState (last_of (prev st) t) (rest st') (caps st)
       ∧ Forall (fun c => negb (is_line_terminator c) = true) t
       ∧ (mn <= length t)%nat.
Proof.
  cbn [pms pgroups]. apply in_char_rep; [|lia].
  intros st0. unfold char_step. simpl. destruct (rest st0) as [|c s']; [done|].
  by destruct (is_line_terminator c).
Qed.

Lemma in_rep_notcls icase atoms mn g st st' :
  In st' (pms icase (PRep (NotCls atoms) mn None g) st) ↔
  ∃ t, rest st = t ++ rest st'
       ∧ st' = MState (last_of (prev st) t) (rest st') (caps st)
       ∧ Forall (fun c => negb (cls_match icase atoms c) = true) t
       ∧ (mn <= length t)%nat.
Proof.
  cbn [pms pgroups]. apply in_char_rep; [|lia].
  intros st0. unfold char_step. simpl. destruct (rest st0) as [|c s']; [done|].
  by destruct (cls_match icase atoms c).
Qed.

Lemma in_pms_PSeq icase a b st s :
  In s (pms icase (PSeq a b) st) ↔ ∃ s1, In s1 (pms icase a st) ∧ In s (pms icase b s1).
Proof. cbn [pms]. apply in_flat_map. Qed.

Lemma take_consumed (t z : jsstring) :
  firstn (length (t ++ z) - length z) (t ++ z) = t.
Proof.
  rewrite length_app. replace (length t + length z - length z)%nat with (length t) by lia.
  by rewrite firstn_app, Nat.sub_diag, firstn_all, firstn_O, app_nil_r.
Qed.

(** A group around a repetition of single characters. *)
Lemma in_group_rep icase n a ok mn g st s :
  (∀ st st', In st' (pms icase (PRep a mn None g) st) ↔
     ∃ t, rest st = t ++ rest st'
          ∧ st' = MState (last_of (prev st) t) (rest st') (caps st)
          ∧ Forall (fun c => ok c = true) t
          ∧ (mn <= length t)%nat) →
  In s (pms icase (PGroup n (PRep a mn None g)) st) ↔
  ∃ t, rest st = t ++ rest s
       ∧ s = MState (last_of (prev st) t) (rest s) ((n, t) :: caps st)
       ∧ Forall (fun c => ok c = true) t
       ∧ (mn <= length t)%nat.
Proof.
  intros Hrep. cbn [pms]. rewrite in_map_iff. split.
  - intros (s0 & <- & H0). apply Hrep in H0 as (t & Hr & Hs0 & Hall & Hmn).
    exists t. simpl. split; [done|]. split; [|done].
    destruct s0 as [p0 r0 c0]. simpl in *. injection Hs0 as -> ->.
    rewrite Hr. by rewrite take_consumed.
  - intros (t & Hr & -> & Hall & Hmn). simpl in *.
    exists (MState (last_of (prev st) t) (rest s) (caps st)). simpl. split.
    + rewrite Hr. by rewrite take_consumed.
    + apply Hrep. exists t. done.
Qed.

Lemma pmatch_at_some icase p q s :
  pmatch_at icase p q s ≠ None ↔ ∃ st, In st (pms icase p (MState q s [])).
Proof.
  unfold pmatch_at. destruct (pms icase p (MState q s [])) as [|st l]; split.
  - done.
  - intros [st []].
  - intros _. exists st. by left.
  - done.
Qed.

Lemma pmatch_at_state icase p q s m :
  pmatch_at icase p q s = Some m →
  ∃ st, In st (pms icase p (MState q s []))
        ∧ after m = rest st ∧ groups_of m = caps st.
Proof.
  unfold pmatch_at. destruct (pms icase p (MState q s [])) as [|st l]; [done|].
  intros [= <-]. exists st. split; [by left|done].
Qed.

Lemma psearch_some icase p q s m :
  psearch icase p q s = Some m →
  ∃ a b, s = a ++ b ∧ pmatch_at icase p (last_of q a) b = Some m.
Proof.
  revert q. induction s as [|c s IH]; intros q; simpl.
  - destruct (pmatch_at icase p q []) eqn:Hm; [|done].
    intros [= <-]. exists [], []. done.
  - destruct (pmatch_at icase p q (c :: s)) eqn:Hm.
    + intros [= <-]. exists [], (c :: s). done.
    + intros H. apply IH in H as (a & b & -> & H).
      exists (c :: a), b. split; [done|]. by rewrite last_of_cons.
Qed.

Lemma psearch_none icase p q s :
  psearch icase p q s = None →
  ∀ a b, s = a ++ b → pmatch_at icase p (last_of q a) b = None.
Proof.
  revert q. induction s as [|c s IH]; intros q; simpl.
  - destruct (pmatch_at icase p q []) eqn:Hm; [done|].
    intros _ a b Hab. symmetry in Hab. apply app_eq_nil in Hab as [-> ->]. done.
  - destruct (pmatch_at icase p q (c :: s)) eqn:Hm; [done|].
    intros H a b Hab. destruct a as [|x a]; simpl in Hab.
    + subst b. done.
    + injection Hab as <- ->. rewrite last_of_cons. by apply IH.
Qed.

End PatternFacts.

Section Reading.

Lemma reads_state st s t cs :
  reads st s t cs ↔
  rest st = t ++ rest s ∧ s = MState (last_of (prev st) t) (rest s) (cs ++ caps st).
Proof.
  unfold reads. destruct s as [p r c]. simpl. split.
  - intros (H1 & -> & ->). done.
  - intros (H1 & [= -> ->]). done.
Qed.

Lemma reads_seq st s t1 t2 c1 c2 :
  reads st s (t1 ++ t2) (c2 ++ c1) ↔
  ∃ s1, reads st s1 t1 c1 ∧ reads s1 s t2 c2.
Proof.
  unfold reads. split.
  - intros (Hr & Hp & Hc).
    exists (MState (last_of (prev st) t1) (t2 ++ rest s) (c1 ++ caps st)). simpl.
    rewrite <- app_assoc in Hr. rewrite last_of_app in Hp. rewrite <- app_assoc in Hc.
    done.
  - intros (s1 & (Hr1 & Hp1 & Hc1) & (Hr2 & Hp2 & Hc2)).
    rewrite <- !app_assoc, last_of_app. rewrite Hr1, Hr2, Hp2, Hp1, Hc2, Hc1. done.
Qed.

(** Sequencing of two patterns whose matches do not depend on what is
    around them. *)
Lemma pms_seq_reads icase a b (A B : jsstring → list (nat * jsstring) → Prop) :
  (∀ st s, In s (pms icase a st) ↔ ∃ t c, reads st s t c ∧ A t c) →
  (∀ st s, In s (pms icase b st) ↔ ∃ t c, reads st s t c ∧ B t c) →
  ∀ st s, In s (pms icase (PSeq a b) st) ↔
    ∃ t c, reads st s t c
           ∧ ∃ t1 c1 t2 c2, t = t1 ++ t2 ∧ c = c2 ++ c1 ∧ A t1 c1 ∧ B t2 c2.
Proof.
  intros Ha Hb st s. rewrite in_pms_PSeq. split.
  - intros (s1 & H1 & H2). apply Ha in H1 as (t1 & c1 & R1 & A1).
    apply Hb in H2 as (t2 & c2 & R2 & B2).
    exists (t1 ++ t2), (c2 ++ c1). split.
    + apply reads_seq. by exists s1.
    + by exists t1, c1, t2, c2.
  - intros (t & c & R & t1 & c1 & t2 & c2 & -> & -> & A1 & B2).
    apply reads_seq in R as (s1 & R1 & R2).
    exists s1. split; [apply Ha; by exists t1, c1|apply Hb; by exists t2, c2].
Qed.

Lemma lower_chr_match x c :
  is_lower x = true → (chr_match true x c = true ↔ to_lower c = x).
Proof.
  intros Hx. unfold chr_match. rewrite N.eqb_eq.
  destruct (to_upper_cases c) as [[? E]|[? E]], (to_lower_cases c) as [[? E']|[? E']],
    (to_upper_cases x) as [[? Ex]|[? Ex]]; rewrite E, E', Ex;
    revert Hx; unfold is_lower; b2p; lia.
Qed.

Lemma lower_keyword kw w :
  Forall (fun x => is_lower x = true) kw →
  (Forall2 (fun x c => chr_match true x c = true) kw w ↔ spells kw w).
Proof.
  unfold spells. intros Hlow. revert w.
  induction Hlow as [|x kw Hx Hlow IH]; intros w.
  - split; [by inversion 1|]. destruct w; [constructor|done].
  - split.
    + inversion 1 as [|? c ? w' Hc Hw]; subst. simpl. f_equal.
      * by apply lower_chr_match.
      * by apply IH.
    + destruct w as [|c w]; [done|]. simpl. intros [= Hc Hw].
      constructor; [by apply lower_chr_match|by apply IH].
Qed.

Lemma reads_lit kw :
  Forall (fun x => is_lower x = true) kw →
  ∀ st s, In s (pms true (Re (lit kw)) st) ↔
    ∃ t c, reads st s t c ∧ (c = [] ∧ spells kw t).
Proof.
  intros Hlow st s. cbn [pms]. rewrite ms_lit. split.
  - intros (w & Hr & Hs & Hw). exists w, []. split; [|split; [done|]].
    + apply reads_state. done.
    + by apply lower_keyword.
  - intros (t & c & R & -> & Ht). apply reads_state in R as [Hr Hs].
    exists t. split; [done|]. split; [done|]. by apply lower_keyword.
Qed.

Lemma is_space_letter c : 65 <= c <= 122 → is_space c = false.
Proof.
  intros Hc. destruct (is_space c) eqn:E; [|done].
  revert E. unfold is_space. b2p. lia.
Qed.

Lemma cls_match_blank c : cls_match true [ASpace] c = is_space c.
Proof.
  unfold cls_match, cls_mem. simpl. rewrite !orb_false_r.
  destruct (to_upper_cases c) as [[? E]|[? E]], (to_lower_cases c) as [[? E']|[? E']];
    rewrite E, E'; try lia;
    rewrite ?(is_space_letter (c - 32)), ?(is_space_letter (c + 32)) by lia;
    by destruct (is_space c).
Qed.

Lemma cls_match_blank_semi c :
  cls_match true [ASpace; AChar (ch ";")] c = is_space c || (c =? ch ";").
Proof.
  unfold cls_match, cls_mem. simpl. rewrite !orb_false_r. change (ch ";") with 59.
  destruct (to_upper_cases c) as [[? E]|[? E]], (to_lower_cases c) as [[? E']|[? E']];
    rewrite E, E'; try lia.
  - rewrite (is_space_letter (c - 32)) by lia.
    destruct (N.eqb_spec (c - 32) 59); [lia|].
    by destruct (is_space c), (c =? 59).
  - rewrite (is_space_letter (c + 32)) by lia.
    destruct (N.eqb_spec (c + 32) 59); [lia|].
    by destruct (is_space c), (c =? 59).
  - by destruct (is_space c), (c =? 59).
Qed.

Lemma reads_spaces :
  ∀ st s, In s (pms true (Re SPACES) st) ↔
    ∃ t c, reads st s t c ∧ (c = [] ∧ blanks t).
Proof.
  intros st s. cbn [pms]. unfold SPACES, plus. rewrite in_rep_cls. split.
  - intros (t & Hr & Hs & Hall & Hlen). exists t, []. split; [by apply reads_state|].
    split; [done|]. split.
    + intros ->. simpl in Hlen. lia.
    + revert Hall. apply List.Forall_impl. intros c. by rewrite cls_match_blank.
  - intros (t & c & R & -> & Hne & Hall). apply reads_state in R as [Hr Hs].
    exists t. split; [done|]. split; [done|]. split.
    + revert Hall. apply List.Forall_impl. intros c. by rewrite cls_match_blank.
    + destruct t; [done|simpl; lia].
Qed.

Lemma reads_some_text :
  ∀ st s, In s (pms true SOME_TEXT st) ↔
    ∃ t c, reads st s t c
           ∧ (c = [(1%nat, t)] ∧ t ≠ []
              ∧ Forall (fun x => is_line_terminator x = false) t).
Proof.
  intros st s. unfold SOME_TEXT.
  rewrite (in_group_rep true 1 Dot (fun c => negb (is_line_terminator c)));
    [|intros; apply in_rep_dot].
  split.
  - intros (t & Hr & Hs & Hall & Hlen). exists t, [(1%nat, t)].
    split; [by apply reads_state|]. split; [done|]. split.
    + intros ->. simpl in Hlen. lia.
    + revert Hall. apply List.Forall_impl. intros c. apply negb_true_iff.
  - intros (t & c & R & -> & Hne & Hall). apply reads_state in R as [Hr Hs].
    exists t. split; [done|]. split; [done|]. split.
    + revert Hall. apply List.Forall_impl. intros c. apply negb_true_iff.
    + destruct t; [done|simpl; lia].
Qed.

Lemma reads_table :
  ∀ st s,
    In s (pms true (PGroup 2 (PRep (NotCls [ASpace; AChar (ch ";")]) 1 None true)) st) ↔
    ∃ t c, reads st s t c
           ∧ (c = [(2%nat, t)] ∧ t ≠ []
              ∧ Forall (fun x => is_space x = false ∧ x ≠ ch ";") t).
Proof.
  intros st s.
  rewrite (in_group_rep true 2 _
             (fun c => negb (cls_match true [ASpace; AChar (ch ";")] c)));
    [|intros; apply in_rep_notcls].
  assert (E : ∀ x, negb (cls_match true [ASpace; AChar (ch ";")] x) = true
                   ↔ is_space x = false ∧ x ≠ ch ";").
  { intros x. rewrite cls_match_blank_semi, negb_true_iff, orb_false_iff.
    by rewrite N.eqb_neq. }
  split.
  - intros (t & Hr & Hs & Hall & Hlen). exists t, [(2%nat, t)].
    split; [by apply reads_state|]. split; [done|]. split.
    + intros ->. simpl in Hlen. lia.
    + revert Hall. apply List.Forall_impl. intros c. apply E.
  - intros (t & c & R & -> & Hne & Hall). apply reads_state in R as [Hr Hs].
    exists t. split; [done|]. split; [done|]. split.
    + revert Hall. apply List.Forall_impl. intros c. apply E.
    + destruct t; [done|simpl; lia].
Qed.

(** What a match of the select pattern is made of. *)
Lemma select_states st s :
  In s (pms true SELECT_RE st) ↔
  ∃ kw1 w1 cols w2 kw2 w3 tbl,
    reads st s (kw1 ++ w1 ++ cols ++ w2 ++ kw2 ++ w3 ++ tbl) [(2%nat, tbl); (1%nat, cols)]
    ∧ spells (js "select") kw1 ∧ spells (js "from") kw2
    ∧ blanks w1 ∧ blanks w2 ∧ blanks w3
    ∧ cols ≠ [] ∧ Forall (fun c => is_line_terminator c = false) cols
    ∧ tbl ≠ [] ∧ Forall (fun c => is_space c = false ∧ c ≠ ch ";") tbl.
Proof.
  assert (Hsel : Forall (fun x => is_lower x = true) (js "select"))
    by (repeat constructor).
  assert (Hfrom : Forall (fun x => is_lower x = true) (js "from"))
    by (repeat constructor).
  pose proof (pms_seq_reads true _ _ _ _ reads_spaces reads_table) as H6.
  pose proof (pms_seq_reads true _ _ _ _ (reads_lit _ Hfrom) H6) as H5.
  pose proof (pms_seq_reads true _ _ _ _ reads_spaces H5) as H4.
  pose proof (pms_seq_reads true _ _ _ _ reads_some_text H4) as H3.
  pose proof (pms_seq_reads true _ _ _ _ reads_spaces H3) as H2.
  pose proof (pms_seq_reads true _ _ _ _ (reads_lit _ Hsel) H2) as H1.
  change (In s (pms true SELECT_RE st)) with
    (In s (pms true
       (PSeq (Re (lit (js "select")))
          (PSeq (Re SPACES)
             (PSeq SOME_TEXT
                (PSeq (Re SPACES)
                   (PSeq (Re (lit (js "from")))
                      (PSeq (Re SPACES)
                         (PGroup 2 (PRep (NotCls [ASpace; AChar (ch ";")]) 1 None
                                      true)))))))) st)).
  rewrite H1. clear. split.
  - intros (t & c & R & kw1 & c1 & t2 & c2 & -> & -> & [-> K1]
            & w1 & d1 & t3 & c3 & -> & -> & [-> B1]
            & cols & d2 & t4 & c4 & -> & -> & (-> & C1 & C2)
            & w2 & d3 & t5 & c5 & -> & -> & [-> B2]
            & kw2 & d4 & t6 & c6 & -> & -> & [-> K2]
            & w3 & d5 & tbl & c7 & -> & -> & [-> B3] & (-> & T1 & T2)).
    exists kw1, w1, cols, w2, kw2, w3, tbl. simpl in R. done.
  - intros (kw1 & w1 & cols & w2 & kw2 & w3 & tbl & R & K1 & K2 & B1 & B2 & B3
            & C1 & C2 & T1 & T2).
    eexists _, _. split; [exact R|].
    exists kw1, [], (w1 ++ cols ++ w2 ++ kw2 ++ w3 ++ tbl), [(2%nat, tbl); (1%nat, cols)].
    split; [done|]. split; [by rewrite app_nil_r|]. split; [done|].
    exists w1, [], (cols ++ w2 ++ kw2 ++ w3 ++ tbl), [(2%nat, tbl); (1%nat, cols)].
    split; [done|]. split; [by rewrite app_nil_r|]. split; [done|].
    exists cols, [(1%nat, cols)], (w2 ++ kw2 ++ w3 ++ tbl), [(2%nat, tbl)].
    split; [done|]. split; [done|]. split; [done|].
    exists w2, [], (kw2 ++ w3 ++ tbl), [(2%nat, tbl)].
    split; [done|]. split; [by rewrite app_nil_r|]. split; [done|].
    exists kw2, [], (w3 ++ tbl), [(2%nat, tbl)].
    split; [done|]. split; [by rewrite app_nil_r|]. split; [done|].
    exists w3, [], tbl, [(2%nat, tbl)].
    split; [done|]. split; [by rewrite app_nil_r|]. done.
Qed.

End Reading.

Section MadeOf.
Variable P : N → Prop.

Lemma made_of_clear gs st : made_of P st → made_of P (clear_caps gs st).
Proof.
  intros [H1 H2]. split; [done|]. unfold clear_caps. simpl.
  apply List.Forall_forall. intros kv Hin. apply filter_In in Hin as [Hin _].
  rewrite List.Forall_forall in H2. by apply H2.
Qed.

Lemma repeat_matcher_made_of step gs :
  (∀ st st1, made_of P st → In st1 (step st) → made_of P st1) →
  ∀ fuel mn mx g st st',
    made_of P st → In st' (repeat_matcher step gs fuel mn mx g st) → made_of P st'.
Proof.
  intros Hstep fuel. induction fuel as [|fuel IH]; intros mn mx g st st' Hst H; [done|].
  apply repeat_matcher_in in H as [[_ ->]|(f' & st1 & [= <-] & _ & H1 & _ & H2)]; [done|].
  eapply IH; [|exact H2]. eapply Hstep; [|exact H1]. by apply made_of_clear.
Qed.

Lemma made_of_tail st c s' cs :
  made_of P st → rest st = c :: s' → cs = caps st → made_of P (MState (Some c) s' cs).
Proof.
  intros [H1 H2] Hr ->. rewrite Hr in H1. inversion H1; subst. by split.
Qed.

Lemma made_of_group n st st' :
  made_of P st → made_of P st' →
  made_of P (MState (prev st') (rest st')
               ((n, firstn (length (rest st) - length (rest st')) (rest st)) :: caps st')).
Proof.
  intros [H1 H2] [H1' H2']. split; [done|]. simpl. constructor; [|done]. simpl.
  by apply Forall_take.
Qed.

Lemma ms_made_of icase r :
  ∀ st st', made_of P st → In st' (ms icase r st) → made_of P st'.
Proof.
  induction r as [|x|atoms| |a IHa b IHb|a IHa b IHb|n a IHa|n|a IHa mn mx g];
    intros st st' Hst H.
  - simpl in H. by destruct H as [<-|[]].
  - simpl in H. destruct (rest st) as [|c s'] eqn:Hr; [done|].
    destruct (chr_match icase x c); [|done]. destruct H as [<-|[]].
    by apply (made_of_tail st).
  - simpl in H. destruct (rest st) as [|c s'] eqn:Hr; [done|].
    destruct (cls_match icase atoms c); [|done]. destruct H as [<-|[]].
    by apply (made_of_tail st).
  - apply in_ms_WordB in H as [-> _]. done.
  - apply in_ms_Seq in H as (s1 & H1 & H2). eauto.
  - rewrite ms_Alt in H. apply in_app_or in H as [H|H]; eauto.
  - rewrite ms_Group in H. apply in_map_iff in H as (s0 & <- & H0).
    apply made_of_group; eauto.
  - simpl in H. destruct (lookup_cap n (caps st)) as [t|]; [|by destruct H as [<-|[]]].
    destruct (strip_prefix icase t (rest st)) as [s'|] eqn:Hs; [|done].
    destruct H as [<-|[]]. destruct Hst as [H1 H2]. split; [|done]. simpl.
    apply strip_prefix_spec in Hs as [Hs _]. rewrite Hs in H1.
    by apply List.Forall_app in H1 as [_ H1].
  - rewrite ms_Rep in H. eapply repeat_matcher_made_of; [|exact Hst|exact H].
    intros; eauto.
Qed.

Lemma pms_made_of icase p :
  ∀ st st', made_of P st → In st' (pms icase p st) → made_of P st'.
Proof.
  induction p as [r| |atoms| |a IHa b IHb|a IHa b IHb|n a IHa|a IHa mn mx g];
    intros st st' Hst H.
  - by apply (ms_made_of icase r st).
  - simpl in H. destruct (rest st) as [|c s'] eqn:Hr; [done|].
    destruct (is_line_terminator c); [done|]. destruct H as [<-|[]].
    by apply (made_of_tail st).
  - simpl in H. destruct (rest st) as [|c s'] eqn:Hr; [done|].
    destruct (cls_match icase atoms c); [done|]. destruct H as [<-|[]].
    by apply (made_of_tail st).
  - simpl in H. destruct (rest st); [|done]. by destruct H as [<-|[]].
  - apply in_pms_PSeq in H as (s1 & H1 & H2). eauto.
  - cbn [pms] in H. apply in_app_or in H as [H|H]; eauto.
  - cbn [pms] in H. apply in_map_iff in H as (s0 & <- & H0).
    apply made_of_group; eauto.
  - cbn [pms] in H. eapply repeat_matcher_made_of; [|exact Hst|exact H].
    intros; eauto.
Qed.

(** The groups of a match found in a text are made of the text's
    characters. *)
Lemma pmatch_group icase p s m k :
  Forall P s → pmatch icase p s = Some m → Forall P (group k m).
Proof.
  intros Hs Hm. apply psearch_some in Hm as (a & b & -> & Hm).
  apply pmatch_at_state in Hm as (st & Hst & _ & Hg).
  apply List.Forall_app in Hs as [_ Hb].
  assert (Hmade : made_of P st).
  { eapply pms_made_of; [|exact Hst]. split; [done|constructor]. }
  destruct Hmade as [_ Hc]. unfold group. rewrite Hg.
  clear -Hc. induction (caps st) as [|[k' v] l IH]; simpl; [constructor|].
  inversion Hc; subst. destruct (Nat.eqb k' k); [done|]. by apply IH.
Qed.

Lemma trimStart_Forall s : Forall P s → Forall P (trimStart s).
Proof.
  induction s as [|c s IH]; simpl; [done|]. intros H.
  destruct (is_space c); [|done]. inversion H; subst. by apply IH.
Qed.

Lemma trim_Forall s : Forall P s → Forall P (trim s).
Proof.
  intros H. unfold trim, trimEnd.
  apply List.Forall_rev, trimStart_Forall, List.Forall_rev, trimStart_Forall, H.
Qed.

Lemma join_Forall sep parts :
  Forall P sep → Forall (Forall P) parts → Forall P (join sep parts).
Proof.
  intros Hsep. induction 1 as [|p parts Hp Hparts IH]; simpl; [constructor|].
  destruct parts as [|p' parts]; [done|].
  apply List.Forall_app. split; [done|]. apply List.Forall_app. by split.
Qed.

End MadeOf.

Section Squeezed.

Lemma spaces_match q c s' :
  is_space c = true → match_at false SPACES q (c :: s') ≠ None.
Proof.
  intros Hc. apply match_at_some.
  exists (MState (Some c) s' []). unfold SPACES, plus. rewrite ms_Rep. simpl length.
  replace (1 + S (length s') + 1)%nat with (S (S (S (length s')))) by lia.
  apply (repeat_matcher_more _ _ _ _ _ _ _ (MState (Some c) s' [])); [done| |done|].
  - rewrite clear_caps_nil. apply ms_cls_in. exists c. simpl.
    split; [done|]. split; [|done].
    unfold cls_match, cls_mem. simpl. by rewrite Hc.
  - apply repeat_matcher_stop. by right.
Qed.

Lemma pieces_squeezed fuel q s :
  Forall (fun c => ink_or_blank c = true)
    (flat_map (fun pc => match pc with Copy c => [c] | Hit _ => js " " end)
       (pieces false SPACES fuel q s)).
Proof.
  revert q s. induction fuel as [|fuel IH]; intros q s; [constructor|].
  cbn [pieces]. destruct (match_at false SPACES q s) as [m|] eqn:Hm.
  - pose proof (match_at_nonempty SPACES q s m ltac:(simpl; lia) Hm) as Hne.
    destruct (matched m) as [|x t]; [done|].
    cbn [flat_map]. apply List.Forall_app. split; [by repeat constructor|apply IH].
  - destruct s as [|c s']; [constructor|]. cbn [flat_map].
    apply List.Forall_app. split; [|apply IH]. repeat constructor.
    unfold ink_or_blank. destruct (is_space c) eqn:Hc; [|done].
    by destruct (spaces_match q c s' Hc).
Qed.

(** The squeezed text holds no white space but single blanks. *)
Lemma squeeze_chars sql : Forall (fun c => ink_or_blank c = true) (squeeze sql).
Proof. unfold squeeze, replace_all. apply trim_Forall, pieces_squeezed. Qed.

End Squeezed.

Section Explanation.

Lemma forallb_Forall (f : N → bool) l :
  forallb f l = true → Forall (fun c => f c = true) l.
Proof.
  intros H. apply List.Forall_forall. by apply forallb_forall.
Qed.

Lemma trimStart_id t : Forall (fun c => is_space c = false) t → trimStart t = t.
Proof. destruct 1 as [|c t Hc _]; simpl; [done|]. by rewrite Hc. Qed.

Lemma trim_id t : Forall (fun c => is_space c = false) t → trim t = t.
Proof.
  intros H. unfold trim, trimEnd. rewrite (trimStart_id t H).
  rewrite trimStart_id; [apply rev_involutive|by apply List.Forall_rev].
Qed.

Lemma join_body p parts :
  ∃ body, join (js ". ") (p :: parts) ++ js "." = p ++ body ++ js ".".
Proof.
  destruct parts as [|p' parts].
  - exists []. done.
  - exists (js ". " ++ join (js ". ") (p' :: parts)).
    cbn [join]. by rewrite <- !app_assoc.
Qed.

Lemma join_stop p parts :
  ∃ tail, join (js ". ") (p :: parts) ++ js "." = p ++ ch "." :: tail.
Proof.
  destruct parts as [|p' parts].
  - exists []. done.
  - exists (js " " ++ join (js ". ") (p' :: parts) ++ js ".").
    cbn [join]. by rewrite <- !app_assoc.
Qed.

Lemma select_sound s m :
  pmatch true SELECT_RE s = Some m →
  select_shape s (group 1 m) (group 2 m).
Proof.
  intros Hm. apply psearch_some in Hm as (a & b & -> & Hm).
  apply pmatch_at_state in Hm as (st & Hst & _ & Hg).
  apply select_states in Hst
    as (kw1 & w1 & cols & w2 & kw2 & w3 & tbl & (Hr & _ & Hc) & H).
  simpl in Hr, Hc. unfold group. rewrite Hg, Hc. simpl.
  exists a, kw1, w1, w2, kw2, w3, (rest st). split; [|done].
  rewrite Hr, <- !app_assoc. done.
Qed.

Lemma select_complete s cols tbl :
  select_shape s cols tbl → pmatch true SELECT_RE s ≠ None.
Proof.
  intros (pre & kw1 & w1 & w2 & kw2 & w3 & post & -> & H) Hnone.
  pose proof (psearch_none _ _ _ _ Hnone pre _ eq_refl) as Hat.
  apply (proj2 (pmatch_at_some true SELECT_RE (last_of None pre)
                  (kw1 ++ w1 ++ cols ++ w2 ++ kw2 ++ w3 ++ tbl ++ post))); [|exact Hat].
  exists (MState (last_of (last_of None pre)
                    (kw1 ++ w1 ++ cols ++ w2 ++ kw2 ++ w3 ++ tbl))
            post [(2%nat, tbl); (1%nat, cols)]).
  apply select_states. exists kw1, w1, cols, w2, kw2, w3, tbl.
  split; [|done]. unfold reads. simpl. by rewrite <- !app_assoc.
Qed.

Lemma parts_made_of s :
  Forall (fun c => ink_or_blank c = true) s →
  Forall (Forall (fun c => ink_or_blank c = true)) (explain_parts s).
Proof.
  intros Hs.
  assert (Hlabel : ∀ label p m,
            forallb ink_or_blank label = true →
            pmatch true p s = Some m →
            Forall (fun c => ink_or_blank c = true) (label ++ trim (group 1 m))).
  { intros label p m Hl Hm. apply List.Forall_app. split; [by apply forallb_Forall|].
    apply trim_Forall. by apply (pmatch_group _ true p s m). }
  assert (Hclause : ∀ label p,
            forallb ink_or_blank label = true →
            Forall (Forall (fun c => ink_or_blank c = true)) (clause label p s)).
  { intros label p Hl. unfold clause.
    destruct (pmatch true p s) as [m|] eqn:Hm; [|constructor].
    constructor; [|constructor]. by apply (Hlabel label p m). }
  unfold explain_parts.
  apply List.Forall_app. split.
  { destruct (pmatch true SELECT_RE s) as [m|] eqn:Hm.
    - constructor; [by apply (Hlabel _ SELECT_RE m)|].
      constructor; [|constructor].
      apply List.Forall_app. split; [by apply forallb_Forall|].
      apply trim_Forall. by apply (pmatch_group _ true SELECT_RE s m).
    - constructor; [|constructor]. by apply forallb_Forall. }
  apply List.Forall_app. split; [by apply Hclause|].
  apply List.Forall_app. split; [by apply Hclause|].
  apply List.Forall_app. split; [by apply Hclause|].
  destruct (pmatch true LIMIT_RE s) as [m|] eqn:Hm; [|constructor].
  constructor; [|constructor].
  apply List.Forall_app. split; [by apply forallb_Forall|].
  by apply (pmatch_group _ true LIMIT_RE s m).
Qed.

End Explanation.

(** X17: the heuristic explanation is one line of text: it begins with
    [Selecting], it ends with a full stop, and it holds no white space
    other than the plain blank, whatever line breaks and tabs the query
    holds. *)
Theorem explanation_single_line sql :
  Forall (fun c => ink_or_blank c = true) (heuristicExplainSQL sql)
  ∧ ∃ body, heuristicExplainSQL sql = js "Selecting" ++ body ++ js ".".
Proof.
  split.
  - unfold heuristicExplainSQL. apply List.Forall_app. split; [|by repeat constructor].
    apply join_Forall; [by repeat constructor|].
    apply parts_made_of, squeeze_chars.
  - assert (Hfirst : ∃ r1 parts, explain_parts (squeeze sql)
                                 = (js "Selecting" ++ r1) :: parts).
    { unfold explain_parts.
      destruct (pmatch true SELECT_RE (squeeze sql)) as [m|].
      - exists (js ": " ++ trim (group 1 m)). eexists. reflexivity.
      - exists (skipn 9 FALLBACK). eexists. reflexivity. }
    destruct Hfirst as (r1 & parts & E). unfold heuristicExplainSQL. rewrite E.
    destruct (join_body (js "Selecting" ++ r1) parts) as (body & ->).
    exists (r1 ++ body). by rewrite <- !app_assoc.
Qed.

(** X18: the first sentences of the explanation.  If the squeezed query
    holds [select], white space, some text, white space, [from], white
    space and a word free of white space and semicolons, next to one
    another and in any letter case, the explanation names such a text
    after [Selecting:] and such a word after [From:]; if it does not, the
    explanation starts with the fallback sentence. *)
Theorem explanation_select sql :
  ((∃ cols tbl, select_shape (squeeze sql) cols tbl) →
   ∃ cols tbl tail,
     select_shape (squeeze sql) cols tbl
     ∧ heuristicExplainSQL sql
       = js "Selecting: " ++ trim cols ++ js ". From: " ++ tbl ++ ch "." :: tail)
  ∧ ((¬ ∃ cols tbl, select_shape (squeeze sql) cols tbl) →
     ∃ tail, heuristicExplainSQL sql = FALLBACK ++ ch "." :: tail).
Proof.
  split.
  - intros (cols & tbl & Hshape).
    destruct (pmatch true SELECT_RE (squeeze sql)) as [m|] eqn:Hm;
      [|by destruct (select_complete _ _ _ Hshape)].
    pose proof (select_sound _ _ Hm) as Hs.
    assert (Htbl : trim (group 2 m) = group 2 m).
    { destruct Hs as (? & ? & ? & ? & ? & ? & ? & _ & _ & _ & _ & _ & _ & _ & _ & _ & H).
      apply trim_id. revert H. apply List.Forall_impl. by intros c [H _]. }
    assert (Hparts : ∃ parts, explain_parts (squeeze sql)
                              = (js "Selecting: " ++ trim (group 1 m))
                                :: (js "From: " ++ group 2 m) :: parts).
    { unfold explain_parts. rewrite Hm, Htbl. eexists. reflexivity. }
    destruct Hparts as (parts & E).
    destruct (join_stop (js "From: " ++ group 2 m) parts) as (tail & Et).
    exists (group 1 m), (group 2 m), tail. split; [exact Hs|].
    unfold heuristicExplainSQL. rewrite E.
    change (join (js ". ") ((js "Selecting: " ++ trim (group 1 m))
                            :: (js "From: " ++ group 2 m) :: parts))
      with ((js "Selecting: " ++ trim (group 1 m)) ++ js ". "
            ++ join (js ". ") ((js "From: " ++ group 2 m) :: parts)).
    rewrite <- !app_assoc. rewrite Et.
    change (js ". From: ") with (js ". " ++ js "From: ").
    by rewrite <- !app_assoc.
  - intros Hno.
    assert (Hparts : ∃ parts, explain_parts (squeeze sql) = FALLBACK :: parts).
    { unfold explain_parts.
      destruct (pmatch true SELECT_RE (squeeze sql)) as [m|] eqn:Hm.
      - destruct Hno. exists (group 1 m), (group 2 m). by apply select_sound.
      - eexists. reflexivity. }
    destruct Hparts as (parts & E). unfold heuristicExplainSQL. rewrite E.
    apply join_stop.
Qed.

Lemma explanation_select_witness :
  squeeze demo_layout = js "SELECT name, price FROM products"
  ∧ (∃ cols tbl, select_shape (squeeze demo_layout) cols tbl)
  ∧ heuristicExplainSQL demo_layout = js "Selecting: name, price. From: products."
  ∧ ∃ cols tbl tail,
      select_shape (squeeze demo_layout) cols tbl
      ∧ heuristicExplainSQL demo_layout
        = js "Selecting: " ++ trim cols ++ js ". From: " ++ tbl ++ ch "." :: tail.
Proof.
  assert (E : squeeze demo_layout = js "SELECT name, price FROM products")
    by (vm_compute; reflexivity).
  assert (H : ∃ cols tbl, select_shape (squeeze demo_layout) cols tbl).
  { exists (js "name, price"), (js "products").
    exists [], (js "SELECT"), (js " "), (js " "), (js "FROM"), (js " "), [].
    rewrite E. split; [reflexivity|]. split; [reflexivity|]. split; [reflexivity|].
    split; [split; [discriminate|by repeat constructor]|].
    split; [split; [discriminate|by repeat constructor]|].
    split; [split; [discriminate|by repeat constructor]|].
    split; [discriminate|]. split; [by repeat constructor|].
    split; [discriminate|]. repeat constructor; discriminate. }
  split; [exact E|]. split; [exact H|]. split; [vm_compute; reflexivity|].
  exact (proj1 (explanation_select demo_layout) H).
Defined.

(** ** The squeezed text *)

Section Squeezing.

(** A greedy repetition of single-character steps first offers the
    longest run. *)
Lemma greedy_head ok run :
  ∀ fuel mn st rest',
    rest st = run ++ rest' →
    Forall (fun c => ok c = true) run →
    match rest' with c :: _ => ok c = false | [] => True end →
    (mn <= length run)%nat → (length run < fuel)%nat →
    ∃ l, repeat_matcher (char_step ok) [] fuel mn None true st
         = MState (last_of (prev st) run) rest' (caps st) :: l.
Proof.
  induction run as [|c run IH]; intros fuel mn st rest' Hr Hall Hstop Hmn Hfuel;
    (destruct fuel as [|fuel]; [lia|]); cbn [repeat_matcher]; rewrite clear_caps_nil.
  - simpl in Hr, Hmn. assert (mn = 0%nat) as -> by lia.
    assert (char_step ok st = []) as ->.
    { unfold char_step. rewrite Hr. destruct rest' as [|c r]; [done|]. by rewrite Hstop. }
    simpl. exists []. destruct st; simpl in *; by subst.
  - inversion Hall as [|? ? Hc Hall']; subst.
    assert (char_step ok st = [MState (Some c) (run ++ rest') (caps st)]) as ->.
    { unfold char_step. rewrite Hr. simpl. by rewrite Hc. }
    cbn [flat_map rest]. rewrite Hr.
    assert (Nat.eqb (length (run ++ rest')) (length ((c :: run) ++ rest')) = false) as ->.
    { apply Nat.eqb_neq. simpl. lia. }
    rewrite andb_false_r, app_nil_r.
    destruct (IH fuel (Nat.pred mn) (MState (Some c) (run ++ rest') (caps st)) rest')
      as (l & El); simpl in *; try done; try lia.
    rewrite El, last_of_cons.
    destruct (Nat.eqb mn 0); eexists; reflexivity.
Qed.

Lemma spaces_step st :
  ms false (Cls [ASpace]) st = char_step is_space st.
Proof.
  unfold char_step. simpl. destruct (rest st) as [|c s']; [done|].
  unfold cls_match, cls_mem. simpl. by rewrite orb_false_r.
Qed.

(** At a run of white space the pattern takes the whole run. *)
Lemma spaces_match_run q run rest' :
  run ≠ [] → Forall (fun c => is_space c = true) run → starts_inked rest' →
  match_at false SPACES q (run ++ rest') = Some (RMatch run rest' []).
Proof.
  intros Hne Hall Hstop. unfold match_at, SPACES, plus. rewrite ms_Rep.
  cbn [groups rest].
  rewrite (repeat_matcher_ext _ _ _ _ _ _ _ _ spaces_step).
  destruct (greedy_head is_space run (1 + length (run ++ rest') + 1) 1
              (MState q (run ++ rest') []) rest') as (l & E).
  - done.
  - done.
  - by destruct rest'.
  - destruct run; [done|simpl; lia].
  - rewrite length_app. lia.
  - rewrite E. cbn [rest caps prev]. by rewrite take_consumed.
Qed.

(** Elsewhere it does not match. *)
Lemma spaces_match_none q s : starts_inked s → match_at false SPACES q s = None.
Proof.
  intros Hs. destruct (match_at false SPACES q s) eqn:E; [|done].
  assert (Hm : match_at false SPACES q s ≠ None) by (by rewrite E).
  apply match_at_some in Hm as (st & Hst).
  unfold SPACES, plus in Hst. apply in_rep_cls in Hst as (t & Hr & _ & Hall & Hlen).
  simpl in Hr. destruct t as [|c t]; [simpl in Hlen; lia|].
  rewrite Hr in Hs. simpl in Hs. inversion Hall as [|? ? Hc _]; subst.
  unfold cls_match, cls_mem in Hc. simpl in Hc. rewrite orb_false_r in Hc. congruence.
Qed.

Lemma span_spaces s :
  ∃ run rest', s = run ++ rest'
               ∧ Forall (fun c => is_space c = true) run ∧ starts_inked rest'.
Proof.
  induction s as [|c s (run & rest' & -> & Hall & Hstop)].
  - exists [], []. done.
  - destruct (is_space c) eqn:Hc.
    + exists (c :: run), rest'. split; [done|]. split; [by constructor|done].
    + exists [], (c :: run ++ rest'). done.
Qed.

Lemma squeezed_nil fuel q : squeezed_from fuel q [] = [].
Proof.
  unfold squeezed_from. destruct fuel; [done|]. cbn [pieces].
  by rewrite spaces_match_none.
Qed.

Lemma squeezed_ink fuel q c s :
  is_space c = false →
  squeezed_from (S fuel) q (c :: s) = c :: squeezed_from fuel (Some c) s.
Proof.
  intros Hc. unfold squeezed_from. cbn [pieces].
  by rewrite spaces_match_none.
Qed.

Lemma squeezed_run fuel q run rest' :
  run ≠ [] → Forall (fun c => is_space c = true) run → starts_inked rest' →
  squeezed_from (S fuel) q (run ++ rest')
  = 32 :: squeezed_from fuel (last_of q run) rest'.
Proof.
  intros Hne Hall Hstop. unfold squeezed_from. cbn [pieces].
  rewrite spaces_match_run by done. cbn [matched after].
  destruct run as [|c run]; [done|]. done.
Qed.

Lemma filter_ink_spaces run :
  Forall (fun c => is_space c = true) run → List.filter ink run = [].
Proof.
  induction 1 as [|c run Hc _ IH]; [done|]. simpl. unfold ink at 1. by rewrite Hc.
Qed.

(** The squeezing pass, by induction on the text still to read. *)
Lemma squeezed_spec fuel :
  ∀ q s, (length s < fuel)%nat →
    List.filter ink (squeezed_from fuel q s) = List.filter ink s
    ∧ single_spaced (squeezed_from fuel q s) = true
    ∧ (starts_inked s → starts_inked (squeezed_from fuel q s)).
Proof.
  induction fuel as [|fuel IH]; intros q s Hlen; [lia|].
  destruct (span_spaces s) as (run & rest' & -> & Hall & Hstop).
  destruct run as [|x run].
  - change ([] ++ rest') with rest' in *.
    destruct rest' as [|c s']; [by rewrite squeezed_nil|].
    simpl in Hstop, Hlen. rewrite squeezed_ink by done.
    destruct (IH (Some c) s' ltac:(lia)) as (F & S1 & _).
    assert (Hink : ink c = true) by (unfold ink; by rewrite Hstop).
    split; [|split; [|done]].
    + cbn [List.filter]. by rewrite Hink, F.
    + cbn [single_spaced]. destruct (squeezed_from fuel (Some c) s'); [done|].
      rewrite Hstop. simpl. exact S1.
  - rewrite squeezed_run by done.
    rewrite length_app in Hlen. simpl in Hlen.
    destruct (IH (last_of q (x :: run)) rest' ltac:(lia)) as (F & S1 & S2).
    specialize (S2 Hstop). split; [|split].
    + rewrite List.filter_app, (filter_ink_spaces _ Hall).
      cbn [List.filter app]. exact F.
    + cbn [single_spaced]. destruct (squeezed_from fuel _ rest') as [|y o]; [done|].
      simpl in S2. rewrite S2, andb_false_r. simpl. exact S1.
    + inversion Hall; subst. intros Hs. simpl in Hs. congruence.
Qed.

(** On a text whose white space is single blanks the pass changes
    nothing. *)
Lemma squeezed_tidy fuel :
  ∀ q s, (length s < fuel)%nat →
    Forall (fun c => ink_or_blank c = true) s → single_spaced s = true →
    squeezed_from fuel q s = s.
Proof.
  induction fuel as [|fuel IH]; intros q s Hlen Hall Hsingle; [lia|].
  destruct s as [|c s]; [by rewrite squeezed_nil|].
  inversion Hall as [|? ? Hc Hall']; subst. simpl in Hlen.
  assert (Hs' : single_spaced s = true).
  { cbn [single_spaced] in Hsingle. destruct s; [done|].
    by apply andb_true_iff in Hsingle as [_ H]. }
  destruct (is_space c) eqn:Hsp.
  - assert (c = 32) as ->.
    { unfold ink_or_blank in Hc. rewrite Hsp in Hc. simpl in Hc. by apply N.eqb_eq. }
    assert (Hnext : starts_inked s).
    { destruct s as [|y s]; [done|]. cbn [single_spaced] in Hsingle.
      apply andb_true_iff in Hsingle as [H _]. rewrite Hsp in H. simpl in H.
      simpl. by apply negb_true_iff in H. }
    change (32 :: s) with ([32] ++ s).
    rewrite squeezed_run; [|done|by repeat constructor|done].
    simpl. f_equal. apply IH; [lia|done|done].
  - rewrite squeezed_ink by done. f_equal. apply IH; [lia|done|done].
Qed.

Lemma trimStart_split s :
  ∃ sp, s = sp ++ trimStart s
        ∧ Forall (fun c => is_space c = true) sp ∧ starts_inked (trimStart s).
Proof.
  induction s as [|c s (sp & E & Hall & Hstart)]; [by exists []|].
  simpl. destruct (is_space c) eqn:Hc.
  - exists (c :: sp). split; [simpl; by f_equal|]. split; [by constructor|done].
  - exists []. done.
Qed.

Lemma trimEnd_split s :
  ∃ sp, s = trimEnd s ++ sp
        ∧ Forall (fun c => is_space c = true) sp
        ∧ starts_inked (rev (trimEnd s)).
Proof.
  unfold trimEnd. destruct (trimStart_split (rev s)) as (sp & E & Hall & Hstart).
  exists (rev sp). split; [|split].
  - rewrite <- rev_app_distr, <- E. by rewrite rev_involutive.
  - by apply List.Forall_rev.
  - by rewrite rev_involutive.
Qed.

Lemma single_spaced_tail c s : single_spaced (c :: s) = true → single_spaced s = true.
Proof.
  cbn [single_spaced]. destruct s; [done|]. intros H.
  by apply andb_true_iff in H as [_ H].
Qed.

Lemma single_spaced_suffix a b : single_spaced (a ++ b) = true → single_spaced b = true.
Proof.
  induction a as [|c a IH]; [done|]. intros H. apply IH.
  by apply (single_spaced_tail c).
Qed.

Lemma single_spaced_prefix a b : single_spaced (a ++ b) = true → single_spaced a = true.
Proof.
  induction a as [|c a IH]; [done|]. intros H.
  pose proof (single_spaced_tail _ _ H) as Ht. specialize (IH Ht).
  cbn [single_spaced app] in *. destruct a as [|y a]; [done|].
  simpl in H. apply andb_true_iff in H as [H _]. by rewrite H, IH.
Qed.

Lemma starts_inked_app a b : a ≠ [] → starts_inked (a ++ b) → starts_inked a.
Proof. by destruct a. Qed.

Lemma trim_tidy s :
  starts_inked s → starts_inked (rev s) → trim s = s.
Proof.
  intros H1 H2. unfold trim, trimEnd.
  assert (E : ∀ l, starts_inked l → trimStart l = l).
  { intros [|c l] H; simpl in *; [done|]. by rewrite H. }
  rewrite (E s H1), (E (rev s) H2). apply rev_involutive.
Qed.

End Squeezing.

(** X19: the squeezing pass at the head of the explanation changes white
    space and nothing else: the other code units stay, in their order;
    every stretch of white space becomes one plain blank, and none is left
    at either end.  Squeezing a squeezed text changes nothing, so the
    explanation of a query is the explanation of its squeezed form. *)
Theorem squeeze_tidy sql :
  List.filter ink (squeeze sql) = List.filter ink sql
  ∧ Forall (fun c => ink_or_blank c = true) (squeeze sql)
  ∧ single_spaced (squeeze sql) = true
  ∧ starts_inked (squeeze sql)
  ∧ starts_inked (rev (squeeze sql))
  ∧ squeeze (squeeze sql) = squeeze sql
  ∧ heuristicExplainSQL (squeeze sql) = heuristicExplainSQL sql.
Proof.
  pose proof (squeeze_chars sql) as Hchars.
  destruct (squeezed_spec (S (length sql)) None sql ltac:(lia)) as (F & S1 & _).
  fold (squeezed_from (S (length sql)) None sql) in *.
  assert (Hsq : squeeze sql = trim (squeezed_from (S (length sql)) None sql)) by done.
  set (o := squeezed_from (S (length sql)) None sql) in *.
  destruct (trimStart_split o) as (sp1 & E1 & Hsp1 & Hstart).
  destruct (trimEnd_split (trimStart o)) as (sp2 & E2 & Hsp2 & Hend).
  fold (trim o) in E2, Hend. rewrite <- Hsq in E2, Hend.
  assert (Hsingle : single_spaced (squeeze sql) = true).
  { rewrite E1, E2 in S1. apply single_spaced_suffix in S1.
    by apply single_spaced_prefix in S1. }
  assert (Hhead : starts_inked (squeeze sql)).
  { destruct (squeeze sql) as [|c l] eqn:El; [done|].
    rewrite E2 in Hstart. by apply (starts_inked_app (c :: l) sp2). }
  assert (Hidem : squeeze (squeeze sql) = squeeze sql).
  { unfold squeeze at 1. unfold replace_all.
    fold (squeezed_from (S (length (squeeze sql))) None (squeeze sql)).
    rewrite squeezed_tidy; [|lia|done|done]. by apply trim_tidy. }
  split; [|repeat (split; [done|])].
  - rewrite <- F, E1, E2. rewrite !List.filter_app.
    by rewrite (filter_ink_spaces _ Hsp1), (filter_ink_spaces _ Hsp2), app_nil_r.
  - unfold heuristicExplainSQL. by rewrite Hidem.
Qed.

(** ** What the table extractor does not see *)

Section FirstMatch.

Lemma ms_seq_head icase a b st s1 l1 s2 l2 :
  ms icase a st = s1 :: l1 → ms icase b s1 = s2 :: l2 →
  ∃ l, ms icase (Seq a b) st = s2 :: l.
Proof.
  intros Ha Hb. rewrite ms_Seq, Ha. cbn [flat_map]. rewrite Hb.
  eexists. reflexivity.
Qed.

(** A literal matches in one way at most. *)
Lemma ms_lit_head icase kw :
  ∀ st w rest',
    rest st = w ++ rest' →
    Forall2 (fun x c => chr_match icase x c = true) kw w →
    ms icase (lit kw) st = [MState (last_of (prev st) w) rest' (caps st)].
Proof.
  induction kw as [|x kw IH]; intros st w rest' Hr Hw.
  - inversion Hw; subst. simpl in *. destruct st; simpl in *; by subst.
  - inversion Hw as [|? c ? w' Hc Hw']; subst. simpl in Hr.
    assert (Hone : ms icase (Chr x) st = [MState (Some c) (w' ++ rest') (caps st)]).
    { simpl. by rewrite Hr, Hc. }
    destruct kw as [|y kw].
    + inversion Hw'; subst. exact Hone.
    + change (lit (x :: y :: kw)) with (Seq (Chr x) (lit (y :: kw))).
      rewrite ms_Seq, Hone. cbn [flat_map]. rewrite app_nil_r.
      rewrite (IH _ w' rest'); [|done|done]. simpl. by rewrite last_of_cons.
Qed.

Lemma cls_step icase atoms st :
  ms icase (Cls atoms) st = char_step (cls_match icase atoms) st.
Proof. reflexivity. Qed.

(** A greedy run over a class first offers the longest run. *)
Lemma plus_cls_head icase atoms st run rest' :
  rest st = run ++ rest' → run ≠ [] →
  Forall (fun c => cls_match icase atoms c = true) run →
  match rest' with c :: _ => cls_match icase atoms c = false | [] => True end →
  ∃ l, ms icase (plus (Cls atoms)) st
       = MState (last_of (prev st) run) rest' (caps st) :: l.
Proof.
  intros Hr Hne Hall Hstop. unfold plus. rewrite ms_Rep. cbn [groups].
  rewrite (repeat_matcher_ext _ _ _ _ _ _ _ _ (cls_step icase atoms)).
  apply greedy_head; try done.
  - destruct run; [done|simpl; lia].
  - rewrite Hr, length_app. lia.
Qed.

Lemma opt_cls_skip icase atoms st c s' :
  rest st = c :: s' → cls_match icase atoms c = false →
  ms icase (opt (Cls atoms)) st = [st].
Proof.
  intros Hr Hc. unfold opt. rewrite ms_Rep. cbn [groups]. rewrite Hr.
  replace (0 + length (c :: s') + 1)%nat with (S (S (length s'))) by (simpl; lia).
  cbn [repeat_matcher]. rewrite clear_caps_nil.
  cbn [ms]. rewrite Hr, Hc. done.
Qed.

Lemma strip_prefix_app icase kw k z :
  Forall2 (fun x c => chr_match icase x c = true) kw k →
  strip_prefix icase kw (k ++ z) = Some z.
Proof.
  induction 1 as [|x c kw k Hc _ IH]; [done|]. simpl. by rewrite Hc.
Qed.

(** A match of a keyword pattern starts with the keyword and white
    space. *)
Lemma keyword_needs kw p b :
  match_at true (keyword_name_re kw) p b ≠ None → kw_at kw b = true.
Proof.
  intros H. apply match_at_some in H as (st & Hst).
  apply keyword_name_states in Hst
    as (k & ws & q & ident & -> & _ & Hk & Hne & Hws & _).
  unfold kw_at. rewrite (strip_prefix_app _ _ _ _ Hk).
  destruct ws as [|c ws]; [done|]. simpl. by inversion Hws.
Qed.

End FirstMatch.

Section Pieces.
Variables (icase : bool) (r : regex).

Lemma pieces_none :
  ∀ s fuel p,
    (length s < fuel)%nat →
    (∀ a b, s = a ++ b → match_at icase r (last_of p a) b = None) →
    pieces icase r fuel p s = List.map Copy s.
Proof.
  induction s as [|c s IH]; intros fuel p Hfuel Hnone;
    (destruct fuel as [|fuel]; [simpl in Hfuel; lia|]); cbn [pieces].
  - pose proof (Hnone [] [] eq_refl) as H0. change (last_of p []) with p in H0.
    by rewrite H0.
  - pose proof (Hnone [] (c :: s) eq_refl) as H0. change (last_of p []) with p in H0.
    rewrite H0. simpl. f_equal.
    apply IH; [simpl in Hfuel; lia|].
    intros a b ->. rewrite <- (last_of_cons p). by apply (Hnone (c :: a) b).
Qed.

Lemma pieces_skip a :
  ∀ fuel p s,
    (∀ a1 a2, a = a1 ++ a2 → a2 ≠ [] →
       match_at icase r (last_of p a1) (a2 ++ s) = None) →
    pieces icase r (length a + fuel) p (a ++ s)
    = List.map Copy a ++ pieces icase r fuel (last_of p a) s.
Proof.
  induction a as [|c a IH]; intros fuel p s Hnone; [done|].
  cbn [length Nat.add pieces app].
  pose proof (Hnone [] (c :: a) eq_refl ltac:(done)) as H0.
  change (last_of p []) with p in H0. change ((c :: a) ++ s) with (c :: a ++ s) in H0.
  rewrite H0. simpl. f_equal.
  rewrite last_of_cons. apply IH.
  intros a1 a2 -> Hne. rewrite <- (last_of_cons p). by apply (Hnone (c :: a1) a2).
Qed.

(** One match in the whole text. *)
Lemma match_all_one a m :
  (∀ a1 a2, a = a1 ++ a2 → a2 ≠ [] →
     match_at icase r (last_of None a1) (a2 ++ matched m ++ after m) = None) →
  match_at icase r (last_of None a) (matched m ++ after m) = Some m →
  matched m ≠ [] →
  (∀ b1 b2, after m = b1 ++ b2 →
     match_at icase r (last_of (last_of (last_of None a) (matched m)) b1) b2 = None) →
  match_all icase r (a ++ matched m ++ after m) = [m].
Proof.
  intros Hbefore Hm Hne Hafter. unfold match_all.
  replace (S (length (a ++ matched m ++ after m)))
    with (length a + S (length (matched m ++ after m)))%nat
    by (rewrite !length_app; lia).
  rewrite (pieces_skip a _ None _ Hbefore). cbn [pieces]. rewrite Hm.
  destruct (matched m) as [|x t] eqn:Et; [done|].
  rewrite (pieces_none (after m)); [|rewrite length_app; simpl; lia|exact Hafter].
  rewrite flat_map_app. cbn [flat_map].
  assert (E : ∀ l : jsstring,
            flat_map (fun pc => match pc with Copy _ => [] | Hit m0 => [m0] end)
              (List.map Copy l) = []).
  { induction l; [done|]. simpl. done. }
  by rewrite !E.
Qed.

Lemma match_all_none s :
  (∀ a b, s = a ++ b → match_at icase r (last_of None a) b = None) →
  match_all icase r s = [].
Proof.
  intros Hnone. unfold match_all. rewrite (pieces_none s); [|lia|exact Hnone].
  clear. induction s as [|c s IH]; [done|]. simpl. exact IH.
Qed.

End Pieces.

Section PlainNames.

Lemma plain_char_facts c :
  plain_name_char c = true →
  is_space c = false ∧ ident_char c = true ∧ cls_match true QUOTE c = false
  ∧ to_lower c = c ∧ c ≠ ch "." ∧ c ≠ 10 ∧ c ≠ ch "," ∧ is_upper c = false.
Proof.
  unfold plain_name_char, is_lower, is_digit. change (ch "_") with 95.
  change (ch ".") with 46. change (ch ",") with 44. b2p. intros Hc.
  assert (Hsp : is_space c = false).
  { destruct (is_space c) eqn:E; [|done]. revert E. unfold is_space. b2p. lia. }
  assert (Hup : is_upper c = false).
  { destruct (is_upper c) eqn:E; [|done]. revert E. unfold is_upper. b2p. lia. }
  split; [done|]. split; [apply ident_char_spec; lia|]. split.
  - destruct (cls_match true QUOTE c) eqn:E; [|done].
    apply cls_match_quote in E. unfold backtick, dquote in E. lia.
  - split; [unfold to_lower; by rewrite Hup|]. repeat split; try lia. done.
Qed.

Lemma plain_not_space t :
  Forall (fun c => plain_name_char c = true) t → Forall (fun c => is_space c = false) t.
Proof. apply List.Forall_impl. intros c Hc. by apply plain_char_facts. Qed.

(** At a keyword followed by one blank and a plain name that a comma or
    the end of the text follows, the keyword pattern takes the keyword,
    the blank and the whole name. *)
Lemma keyword_match_head kw p k name rest' :
  Forall2 (fun x c => chr_match true x c = true) kw k →
  xorb (is_word_opt p) (is_word_opt (head (k ++ 32 :: name ++ rest'))) = true →
  plain_name name →
  match rest' with c :: _ => c = ch "," | [] => True end →
  match_at true (keyword_name_re kw) p (k ++ 32 :: name ++ rest')
  = Some (RMatch (k ++ 32 :: name) rest' [(2%nat, name); (1%nat, [])]).
Proof.
  intros Hk Hxor [Hne Hplain] Hrest.
  destruct name as [|n0 name']; [done|].
  assert (Hn0 : plain_name_char n0 = true) by (by inversion Hplain).
  destruct (plain_char_facts n0 Hn0) as (Hsp0 & _ & Hq0 & _).
  set (name := n0 :: name') in *.
  set (b := k ++ 32 :: name ++ rest').
  set (st0 := MState p b []).
  set (st1 := MState (last_of p k) (32 :: name ++ rest') []).
  set (st2 := MState (Some 32) (name ++ rest') []).
  set (st3 := MState (Some 32) (name ++ rest') [(1%nat, [])]).
  set (st4 := MState (last_of (Some 32) name) rest' [(2%nat, name); (1%nat, [])]).
  assert (H1 : ms true WordB st0 = [st0]).
  { rewrite ms_WordB. unfold st0, b. cbn [prev rest]. by rewrite Hxor. }
  assert (H2 : ms true (lit kw) st0 = [st1]) by (by apply ms_lit_head).
  assert (H3 : ∃ l, ms true (plus (Cls [ASpace])) st1 = st2 :: l).
  { destruct (plus_cls_head true [ASpace] st1 [32] (name ++ rest')) as (l & E);
      [done|done|by repeat constructor| |].
    - unfold name. cbn [app]. by rewrite cls_match_blank.
    - exists l. rewrite E. done. }
  assert (H4 : ms true (Group 1 (opt (Cls QUOTE))) st2 = [st3]).
  { rewrite ms_Group, (opt_cls_skip true QUOTE st2 n0 (name' ++ rest')); [|done|done].
    cbn [List.map]. unfold st3, st2. cbn [prev rest caps].
    by rewrite Nat.sub_diag. }
  assert (H5 : ∃ l, ms true (Group 2 (plus (Cls IDENT))) st3 = st4 :: l).
  { destruct (plus_cls_head true IDENT st3 name rest') as (l & E); [done|done| | |].
    - revert Hplain. apply List.Forall_impl. intros c Hc.
      rewrite cls_match_IDENT. by apply plain_char_facts.
    - destruct rest' as [|c r]; [done|]. subst c. reflexivity.
    - rewrite ms_Group, E. cbn [List.map]. eexists. f_equal.
      unfold st4, st3. cbn [prev rest caps]. by rewrite take_consumed. }
  assert (H6 : ms true (Backref 1) st4 = [st4]).
  { cbn [ms]. simpl lookup_cap. cbn [strip_prefix length firstn]. done. }
  destruct H3 as (l3 & H3). destruct H5 as (l5 & H5).
  destruct (ms_seq_head true _ _ _ _ _ _ _ H5 H6) as (m5 & M5).
  destruct (ms_seq_head true _ _ _ _ _ _ _ H4 M5) as (m4 & M4).
  destruct (ms_seq_head true _ _ _ _ _ _ _ H3 M4) as (m3 & M3).
  destruct (ms_seq_head true _ _ _ _ _ _ _ H2 M3) as (m2 & M2).
  destruct (ms_seq_head true _ _ _ _ _ _ _ H1 M2) as (m1 & M1).
  unfold match_at. fold st0. rewrite keyword_name_re_eq, M1.
  cbn [rest caps]. f_equal. f_equal.
  unfold b. change (k ++ 32 :: name ++ rest') with (k ++ [32] ++ name ++ rest').
  rewrite !app_assoc. rewrite take_consumed. by rewrite <- !app_assoc.
Qed.

End PlainNames.

Section Positions.

Lemma in_tails (s a b : jsstring) : s = a ++ b → b ≠ [] → In b (tails s).
Proof.
  revert s. induction a as [|c a IH]; intros s -> Hne.
  - destruct b; [done|]. by left.
  - simpl. right. by apply IH.
Qed.

Lemma suffix_app (x y a b : jsstring) :
  x ++ y = a ++ b →
  (∃ x1, x = a ++ x1 ∧ x1 ≠ [] ∧ b = x1 ++ y) ∨ (∃ y1, y = y1 ++ b ∧ a = x ++ y1).
Proof.
  revert a. induction x as [|c x IH]; intros a E.
  - right. exists a. done.
  - destruct a as [|c' a].
    + left. exists (c :: x). done.
    + injection E as <- E. destruct (IH a E) as [(x1 & -> & Hne & ->)|(y1 & -> & ->)].
      * left. by exists x1.
      * right. by exists y1.
Qed.

(** The suffixes of a text in four parts. *)
Lemma suffix_classes (P x C y a b : jsstring) :
  P ++ x ++ C ++ y = a ++ b →
  (∃ p2, In p2 (tails P) ∧ b = p2 ++ x ++ C ++ y)
  ∨ (∃ x1 x2, x = x1 ++ x2 ∧ x2 ≠ [] ∧ b = x2 ++ C ++ y)
  ∨ (∃ c2, In c2 (tails C) ∧ b = c2 ++ y)
  ∨ (∃ y1, y = y1 ++ b).
Proof.
  intros E. apply suffix_app in E as [(p2 & HP & Hne & ->)|(r1 & E & _)].
  { left. exists p2. split; [|done]. by apply (in_tails P a). }
  right. apply suffix_app in E as [(x2 & Hx & Hne & ->)|(r2 & E & _)].
  { left. by exists r1, x2. }
  right. apply suffix_app in E as [(c2 & HC & Hne & ->)|(r3 & E & _)].
  { left. exists c2. split; [|done]. by apply (in_tails C r2). }
  right. by exists r3.
Qed.

Lemma kw_at_space kw b :
  kw_at kw b = true → ∃ c, In c b ∧ is_space c = true.
Proof.
  unfold kw_at. destruct (strip_prefix true kw b) as [[|c z]|] eqn:E; try done.
  intros Hc. exists c. split; [|done].
  apply strip_prefix_spec in E as [E _]. rewrite E. apply in_or_app. right. by left.
Qed.

Lemma kw_at_inked kw b : Forall (fun c => is_space c = false) b → kw_at kw b = false.
Proof.
  intros Hb. destruct (kw_at kw b) eqn:E; [|done].
  apply kw_at_space in E as (c & Hin & Hc).
  rewrite List.Forall_forall in Hb. by rewrite (Hb c Hin) in Hc.
Qed.

Lemma as_at_inked b : starts_inked b → as_at b = false.
Proof. destruct b as [|c b]; [done|]. simpl. by intros ->. Qed.

Lemma plain_suffix (x x1 x2 : jsstring) :
  Forall (fun c => plain_name_char c = true) x → x = x1 ++ x2 →
  Forall (fun c => plain_name_char c = true) x2.
Proof. intros H ->. by apply List.Forall_app in H as [_ H]. Qed.

Lemma plain_starts x z :
  Forall (fun c => plain_name_char c = true) x → x ≠ [] → starts_inked (x ++ z).
Proof.
  destruct 1 as [|c x Hc _]; [done|]. intros _. simpl. by apply plain_char_facts.
Qed.

(** The three keywords before a plain name, a comma, a blank and a plain
    name. *)
Lemma kw_at_from_comma x y :
  Forall (fun c => plain_name_char c = true) x →
  Forall (fun c => plain_name_char c = true) y →
  kw_at (js "from") (x ++ js ", " ++ y) = false.
Proof.
  intros Hx Hy. change (js "from") with [102; 114; 111; 109]. change (js ", ") with [44; 32].
  destruct x as [|x1 [|x2 [|x3 [|x4 x']]]]; cbn [app].
  1-4: unfold kw_at; cbn [strip_prefix];
    repeat (match goal with
            | |- context [chr_match true ?k ?v] =>
              first [ progress (change (chr_match true k v) with false)
                    | destruct (chr_match true k v) ]
            end; try reflexivity).
  assert (Hnext : starts_inked (x' ++ 44 :: 32 :: y)).
  { destruct x' as [|x5 x']; [done|]. simpl.
    do 4 (apply List.Forall_cons_iff in Hx as [_ Hx]).
    apply List.Forall_cons_iff in Hx as [Hx _]. by apply plain_char_facts. }
  revert Hnext. generalize (x' ++ 44 :: 32 :: y). intros L HL.
  unfold kw_at. cbn [strip_prefix].
  repeat (match goal with
          | |- context [chr_match true ?k ?v] => destruct (chr_match true k v)
          end; try reflexivity).
  destruct L; [done|]. simpl in HL. done.
Qed.

Lemma kw_at_join_comma x y :
  Forall (fun c => plain_name_char c = true) x →
  Forall (fun c => plain_name_char c = true) y →
  kw_at (js "join") (x ++ js ", " ++ y) = false.
Proof.
  intros Hx Hy. change (js "join") with [106; 111; 105; 110]. change (js ", ") with [44; 32].
  destruct x as [|x1 [|x2 [|x3 [|x4 x']]]]; cbn [app].
  1-4: unfold kw_at; cbn [strip_prefix];
    repeat (match goal with
            | |- context [chr_match true ?k ?v] =>
              first [ progress (change (chr_match true k v) with false)
                    | destruct (chr_match true k v) ]
            end; try reflexivity).
  assert (Hnext : starts_inked (x' ++ 44 :: 32 :: y)).
  { destruct x' as [|x5 x']; [done|]. simpl.
    do 4 (apply List.Forall_cons_iff in Hx as [_ Hx]).
    apply List.Forall_cons_iff in Hx as [Hx _]. by apply plain_char_facts. }
  revert Hnext. generalize (x' ++ 44 :: 32 :: y). intros L HL.
  unfold kw_at. cbn [strip_prefix].
  repeat (match goal with
          | |- context [chr_match true ?k ?v] => destruct (chr_match true k v)
          end; try reflexivity).
  destruct L; [done|]. simpl in HL. done.
Qed.

Lemma kw_at_as_comma x y :
  Forall (fun c => plain_name_char c = true) x →
  Forall (fun c => plain_name_char c = true) y →
  kw_at (js "as") (x ++ js ", " ++ y) = false.
Proof.
  intros Hx Hy. change (js "as") with [97; 115]. change (js ", ") with [44; 32].
  destruct x as [|x1 [|x2 x']]; cbn [app].
  1-2: unfold kw_at; cbn [strip_prefix];
    repeat (match goal with
            | |- context [chr_match true ?k ?v] =>
              first [ progress (change (chr_match true k v) with false)
                    | destruct (chr_match true k v) ]
            end; try reflexivity).
  assert (Hnext : starts_inked (x' ++ 44 :: 32 :: y)).
  { destruct x' as [|x5 x']; [done|]. simpl.
    do 2 (apply List.Forall_cons_iff in Hx as [_ Hx]).
    apply List.Forall_cons_iff in Hx as [Hx _]. by apply plain_char_facts. }
  revert Hnext. generalize (x' ++ 44 :: 32 :: y). intros L HL.
  unfold kw_at. cbn [strip_prefix].
  repeat (match goal with
          | |- context [chr_match true ?k ?v] => destruct (chr_match true k v)
          end; try reflexivity).
  destruct L; [done|]. simpl in HL. done.
Qed.

End Positions.

Section CommaList.
Variables t1 t2 : jsstring.
Hypothesis plain1 : plain_name t1.
Hypothesis plain2 : plain_name t2.

Lemma alias_needs p b :
  match_at true AS_RE p b ≠ None → ∃ u b', b = u ++ b' ∧ as_at b' = true.
Proof.
  intros H. apply match_at_some in H as (st & Hst). rewrite AS_RE_eq in Hst.
  apply in_ms_Seq in Hst as (s0 & H0 & Hst). apply in_ms_WordB in H0 as [-> _].
  apply in_ms_Seq in Hst as (s1 & H1 & Hst).
  apply ms_advances in H1 as (ident & [A1 _]). simpl in A1.
  change (seqs [plus (Cls [ASpace]); lit (js "as"); plus (Cls [ASpace]);
                plus (Cls ALIAS); WordB])
    with (Seq (plus (Cls [ASpace]))
            (Seq (lit (js "as"))
               (Seq (plus (Cls [ASpace])) (Seq (plus (Cls ALIAS)) WordB)))) in Hst.
  apply in_ms_Seq in Hst as (s2 & H2 & Hst).
  apply in_rep_cls in H2 as (ws1 & A2 & _ & F2 & L2).
  apply in_ms_Seq in Hst as (s3 & H3 & Hst).
  apply ms_lit in H3 as (k & A3 & _ & F3).
  apply in_ms_Seq in Hst as (s4 & H4 & _).
  apply in_rep_cls in H4 as (ws2 & A4 & _ & F4 & L4).
  destruct (@exists_last _ ws1) as (ws1' & c1 & E1).
  { intros ->. simpl in L2. lia. }
  destruct ws2 as [|c2 ws2']; [simpl in L4; lia|].
  exists (ident ++ ws1'), (c1 :: k ++ c2 :: ws2' ++ rest s4). split.
  - rewrite A1, A2, A3, A4, E1. rewrite <- !app_assoc. done.
  - simpl. rewrite E1 in F2. apply List.Forall_app in F2 as [_ F2].
    inversion F2 as [|? ? Hc1 _]; subst. rewrite cls_match_blank in Hc1. rewrite Hc1.
    unfold kw_at. rewrite (strip_prefix_app _ _ _ _ F3).
    inversion F4 as [|? ? Hc2 _]; subst. by rewrite cls_match_blank in Hc2.
Qed.

Lemma plain_inked_1 : Forall (fun c => is_space c = false) t1.
Proof using plain1. apply plain_not_space, plain1. Qed.

Lemma plain_inked_2 : Forall (fun c => is_space c = false) t2.
Proof using plain2. apply plain_not_space, plain2. Qed.

(** No suffix of the part after the first name starts with a keyword that
    white space follows. *)
Lemma no_keyword_in_tail kw b :
  (kw = js "from" ∨ kw = js "join" ∨ kw = js "as") →
  (∃ x1 x2, t1 = x1 ++ x2 ∧ b = x2 ++ js ", " ++ t2)
  ∨ (∃ c2, In c2 (tails (js ", ")) ∧ b = c2 ++ t2)
  ∨ (∃ y1, t2 = y1 ++ b) →
  kw_at kw b = false.
Proof using plain1 plain2.
  intros Hkw [(x1 & x2 & E & ->)|[(c2 & Hin & ->)|(y1 & E)]].
  - assert (Hx2 : Forall (fun c => plain_name_char c = true) x2)
      by (apply (plain_suffix t1 x1 x2); [apply plain1|done]).
    destruct Hkw as [-> |[-> | ->]].
    + apply kw_at_from_comma; [done|apply plain2].
    + apply kw_at_join_comma; [done|apply plain2].
    + apply kw_at_as_comma; [done|apply plain2].
  - destruct Hin as [<-|[<-|[]]].
    + destruct Hkw as [-> |[-> | ->]].
      * apply (kw_at_from_comma []); [constructor|apply plain2].
      * apply (kw_at_join_comma []); [constructor|apply plain2].
      * apply (kw_at_as_comma []); [constructor|apply plain2].
    + destruct Hkw as [-> |[-> | ->]]; reflexivity.
  - apply kw_at_inked. pose proof plain_inked_2 as H. rewrite E in H.
    by apply List.Forall_app in H as [_ H].
Qed.

Lemma no_alias_in_tail b :
  (∃ x1 x2, t1 = x1 ++ x2 ∧ x2 ≠ [] ∧ b = x2 ++ js ", " ++ t2)
  ∨ (∃ c2, In c2 (tails (js ", ")) ∧ b = c2 ++ t2)
  ∨ (∃ y1, t2 = y1 ++ b) →
  as_at b = false.
Proof using plain1 plain2.
  intros [(x1 & x2 & E & Hne & ->)|[(c2 & Hin & ->)|(y1 & E)]].
  - apply as_at_inked, plain_starts; [|done].
    apply (plain_suffix t1 x1 x2); [apply plain1|done].
  - destruct Hin as [<-|[<-|[]]]; [reflexivity|].
    change (is_space 32 && kw_at (js "as") t2 = false).
    rewrite kw_at_inked; [done|apply plain_inked_2].
  - apply as_at_inked. pose proof plain_inked_2 as H. rewrite E in H.
    apply List.Forall_app in H as [_ H]. destruct b; [done|]. by inversion H.
Qed.

Lemma comma_query_parts :
  comma_query t1 t2 = js "SELECT * FROM " ++ t1 ++ js ", " ++ t2.
Proof. reflexivity. Qed.

Lemma join_none : match_all true JOIN_RE (comma_query t1 t2) = [].
Proof using plain1 plain2.
  apply match_all_none. intros a b E.
  destruct (match_at true JOIN_RE (last_of None a) b) eqn:Hm; [|done].
  assert (Hk : kw_at (js "join") b = true).
  { apply (keyword_needs _ (last_of None a)). unfold JOIN_RE in Hm. by rewrite Hm. }
  rewrite comma_query_parts in E.
  apply suffix_classes in E as [(p2 & Hin & ->)|[(x1 & x2 & E1 & _ & ->)|H]].
  - exfalso. revert Hk. generalize (t1 ++ js ", " ++ t2). intros z.
    simpl in Hin.
    repeat (destruct Hin as [<-|Hin]; [by (cbv - [is_space])|]). destruct Hin.
  - rewrite no_keyword_in_tail in Hk; [done|auto|]. left. by exists x1, x2.
  - rewrite no_keyword_in_tail in Hk; [done|auto|]. right. exact H.
Qed.

Lemma alias_none : match_all true AS_RE (comma_query t1 t2) = [].
Proof using plain1 plain2.
  apply match_all_none. intros a b E.
  destruct (match_at true AS_RE (last_of None a) b) eqn:Hm; [|done].
  destruct (alias_needs (last_of None a) b) as (u & b' & -> & Hk); [by rewrite Hm|].
  rewrite comma_query_parts, (app_assoc a u b') in E.
  apply suffix_classes in E as [(p2 & Hin & ->)|[(x1 & x2 & E1 & Hne & ->)|H]].
  - exfalso. simpl in Hin.
    repeat (destruct Hin as [<-|Hin];
            [first [ by (revert Hk; generalize (t1 ++ js ", " ++ t2); intros z;
                         cbv - [is_space])
                   | idtac ]|]); [|destruct Hin].
    change (is_space 32 && kw_at (js "as") (t1 ++ js ", " ++ t2) = true) in Hk.
    rewrite kw_at_as_comma in Hk; [done|apply plain1|apply plain2].
  - rewrite no_alias_in_tail in Hk; [done|]. left. by exists x1, x2.
  - rewrite no_alias_in_tail in Hk; [done|]. right. exact H.
Qed.

(** The one match of the [from] pattern: the keyword, the blank and the
    first name. *)
Lemma from_one :
  match_all true FROM_RE (comma_query t1 t2)
  = [RMatch (js "FROM" ++ 32 :: t1) (js ", " ++ t2) [(2%nat, t1); (1%nat, [])]].
Proof using plain1 plain2.
  pose (m := RMatch (js "FROM" ++ 32 :: t1) (js ", " ++ t2) [(2%nat, t1); (1%nat, [])]).
  change (match_all true FROM_RE (js "SELECT * " ++ matched m ++ after m) = [m]).
  apply (match_all_one true FROM_RE (js "SELECT * ") m).
  - intros a1 a2 E Hne.
    match goal with |- ?x = None => destruct x eqn:Hm; [|done] end. exfalso.
    assert (Hk : kw_at (js "from") (a2 ++ matched m ++ after m) = true).
    { apply (keyword_needs _ (last_of None a1)). unfold FROM_RE in Hm. by rewrite Hm. }
    pose proof (in_tails _ _ _ E Hne) as Hin.
    revert Hk. generalize (matched m ++ after m). intros z. simpl in Hin.
    repeat (destruct Hin as [<-|Hin]; [by (cbv - [is_space])|]). destruct Hin.
  - apply (keyword_match_head (js "from") _ (js "FROM") t1 (js ", " ++ t2)).
    + repeat constructor.
    + reflexivity.
    + exact plain1.
    + reflexivity.
  - done.
  - intros b1 b2 E. cbn [after m] in E.
    match goal with |- ?x = None => destruct x eqn:Hm; [|done] end. exfalso.
    assert (Hk : kw_at (js "from") b2 = true).
    { eapply keyword_needs. unfold FROM_RE in Hm. by rewrite Hm. }
    rewrite no_keyword_in_tail in Hk; [done|auto|].
    apply suffix_app in E as [(x1 & E & Hne & ->)|(y1 & -> & _)].
    + right. left. exists x1. split; [|done]. by apply (in_tails (js ", ") b1).
    + right. right. by exists y1.
Qed.

Lemma flat_map_keep x (mask s : jsstring) :
  Forall (fun c => c ≠ x) s →
  flat_map (fun c => if c =? x then mask else [c]) s = s.
Proof.
  induction 1 as [|c s Hc _ IH]; [done|]. simpl.
  apply N.eqb_neq in Hc. rewrite Hc, IH. done.
Qed.

Lemma normalize_comma_query : normalize (comma_query t1 t2) = comma_query t1 t2.
Proof using plain1 plain2.
  unfold normalize. rewrite replace_all_chr. apply flat_map_keep.
  assert (Hplain : ∀ t, plain_name t → Forall (fun c => c ≠ 10) t).
  { intros t [_ Ht]. revert Ht. apply List.Forall_impl. intros c Hc.
    by apply plain_char_facts in Hc as (_ & _ & _ & _ & _ & Hc & _). }
  rewrite comma_query_parts. apply List.Forall_app. split.
  { apply List.Forall_forall. intros c Hin. simpl in Hin.
    repeat (destruct Hin as [<-|Hin]; [done|]). destruct Hin. }
  apply List.Forall_app. split; [by apply Hplain|].
  apply List.Forall_app. split; [|by apply Hplain].
  apply List.Forall_forall. intros c Hin. simpl in Hin.
  repeat (destruct Hin as [<-|Hin]; [done|]). destruct Hin.
Qed.

Lemma last_segment_whole s :
  Forall (fun c => c ≠ ch ".") s → ∀ acc, last_segment acc s = acc ++ s.
Proof.
  induction 1 as [|c s Hc _ IH]; intros acc; simpl; [by rewrite app_nil_r|].
  apply N.eqb_neq in Hc. rewrite Hc, IH, <- app_assoc. done.
Qed.

Lemma match_at_cls atoms p s :
  match_at false (Cls atoms) p s =
  match s with
  | c :: s' => if cls_match false atoms c then Some (RMatch [c] s' []) else None
  | [] => None
  end.
Proof.
  unfold match_at. destruct s as [|c s']; simpl; [done|].
  change (cls_match false atoms c) with (cls_mem atoms c).
  destruct (cls_mem atoms c); simpl; [|done].
  replace (length s' - length s')%nat with 0%nat by lia.
  replace (S (length s') - length s')%nat with 1%nat by lia. done.
Qed.

Lemma table_of_plain t : plain_name t → toLowerCase (table_of t) = t.
Proof.
  intros [_ Ht]. unfold table_of.
  rewrite (last_segment_whole t).
  2:{ revert Ht. apply List.Forall_impl. intros c Hc.
      by apply plain_char_facts in Hc as (_ & _ & _ & _ & Hc & _). }
  cbn [app]. unfold strip_quotes. rewrite replace_all_quiet.
  - unfold toLowerCase. induction Ht as [|c s Hc _ IH]; [done|]. simpl.
    apply plain_char_facts in Hc as (_ & _ & _ & -> & _). by rewrite IH.
  - intros a b ->. rewrite match_at_cls.
    apply List.Forall_app in Ht as [_ Ht]. destruct b as [|c b]; [done|].
    inversion Ht as [|? ? Hc _]; subst.
    apply plain_char_facts in Hc as (_ & _ & Hq & _).
    unfold cls_match in *. apply orb_false_iff in Hq as [Hq _].
    apply orb_false_iff in Hq as [Hq _]. by rewrite Hq.
Qed.

(** Both extractors return the first name alone. *)
Lemma comma_query_names :
  Chat.extractTableNames (comma_query t1 t2) = [t1]
  ∧ ExecutePreview.extractTableNames (comma_query t1 t2) = [t1].
Proof using plain1 plain2.
  unfold Chat.extractTableNames, ExecutePreview.extractTableNames.
  rewrite normalize_comma_query, from_one, join_none, alias_none.
  cbn [List.map List.filter add_all fold_left].
  change (group 2 _) with t1.
  unfold set_add. cbn [existsb app List.map].
  by rewrite table_of_plain.
Qed.

End CommaList.

(** X21: in a query that lists two plainly named tables with a comma, both
    extractors see the first table only; a role of the policy map whose
    list holds the first table passes both access checks whatever the
    second table is. *)
Theorem comma_list_unseen t1 t2 :
  plain_name t1 → plain_name t2 →
  Chat.extractTableNames (comma_query t1 t2) = [t1]
  ∧ ExecutePreview.extractTableNames (comma_query t1 t2) = [t1]
  ∧ ∀ role allowed,
      assoc role ROLE_TABLE_ALLOWLIST = Some allowed →
      includes t1 allowed = true →
      Chat.checkRBACOnSql (comma_query t1 t2) (Some role) = RbacOk
      ∧ ExecutePreview.checkRBACOnSql (comma_query t1 t2) (Some role) = RbacOk.
Proof.
  intros H1 H2. destruct (comma_query_names t1 t2 H1 H2) as [HC HE].
  split; [done|]. split; [done|]. intros role allowed Hrole Hin.
  unfold Chat.checkRBACOnSql, ExecutePreview.checkRBACOnSql.
  destruct (check_rbac_decision Chat.extractTableNames role allowed
              (comma_query t1 t2) Hrole) as [CA CB].
  destruct (check_rbac_decision ExecutePreview.extractTableNames role allowed
              (comma_query t1 t2) Hrole) as [EA EB].
  destruct (includes (js "*") allowed) eqn:Hstar.
  - split; [by apply CA|by apply EA].
  - destruct (CB eq_refl) as [CB' _]. destruct (EB eq_refl) as [EB' _]. split.
    + apply CB'. rewrite HC. by constructor.
    + apply EB'. rewrite HE. by constructor.
Qed.

(** A guest, whose list holds [products] only, passes both checks on a
    query that also reads [sales]. *)
Lemma comma_list_unseen_witness :
  plain_name (js "products") ∧ plain_name (js "sales")
  ∧ Chat.extractTableNames (js "SELECT * FROM products, sales") = [js "products"]
  ∧ ExecutePreview.extractTableNames (js "SELECT * FROM products, sales") = [js "products"]
  ∧ Chat.checkRBACOnSql (js "SELECT * FROM products, sales") (Some (js "guest")) = RbacOk
  ∧ ExecutePreview.checkRBACOnSql (js "SELECT * FROM products, sales") (Some (js "guest"))
    = RbacOk.
Proof.
  assert (P1 : plain_name (js "products")).
  { split; [done|]. apply List.Forall_forall. intros c Hin. simpl in Hin.
    repeat (destruct Hin as [<-|Hin]; [reflexivity|]). destruct Hin. }
  assert (P2 : plain_name (js "sales")).
  { split; [done|]. apply List.Forall_forall. intros c Hin. simpl in Hin.
    repeat (destruct Hin as [<-|Hin]; [reflexivity|]). destruct Hin. }
  destruct (comma_list_unseen (js "products") (js "sales") P1 P2) as (HC & HE & HR).
  destruct (HR (js "guest") [js "products"] eq_refl eq_refl) as [RC RE].
  repeat split; try done; try apply P1; try apply P2.
Defined.

(** ** The table extractor against the words of the specification *)

Section Occurrences.

Lemma spells_word kw k :
  Forall (fun x => is_lower x = true) kw → kw ≠ [] → spells kw k →
  Forall2 (fun x c => chr_match true x c = true) kw k
  ∧ ∃ c k', k = c :: k' ∧ is_word c = true.
Proof.
  intros Hlow Hne Hs. split; [by apply lower_keyword|].
  unfold spells in Hs. destruct k as [|c k']; [by destruct kw|].
  exists c, k'. split; [done|]. destruct kw as [|x kw]; [done|].
  simpl in Hs. injection Hs as Hc _. inversion Hlow as [|? ? Hx _]; subst.
  revert Hx. unfold is_word, is_lower, is_upper, is_digit.
  destruct (to_lower_cases c) as [[? ->]|[? ->]]; b2p; lia.
Qed.

Lemma ident_not_space c : ident_char c = true → is_space c = false.
Proof.
  intros Hc. apply ident_char_spec in Hc.
  destruct (is_space c) eqn:E; [|done]. revert E. unfold is_space. b2p. lia.
Qed.

Lemma ident_not_quote c : ident_char c = true → cls_match true QUOTE c = false.
Proof.
  intros Hc. destruct (cls_match true QUOTE c) eqn:E; [|done].
  apply cls_match_quote in E. apply ident_char_spec in Hc.
  unfold backtick, dquote in E. lia.
Qed.

Lemma quote_facts x :
  x = backtick ∨ x = dquote →
  is_space x = false ∧ ident_char x = false ∧ cls_match true QUOTE x = true
  ∧ chr_match true x x = true.
Proof. intros [-> | ->]; repeat split; reflexivity. Qed.

Lemma opt_cls_take icase atoms st c s' :
  rest st = c :: s' → cls_match icase atoms c = true →
  ∃ l, ms icase (opt (Cls atoms)) st = MState (Some c) s' (caps st) :: l.
Proof.
  intros Hr Hc. unfold opt. rewrite ms_Rep. cbn [groups]. rewrite Hr.
  replace (0 + length (c :: s') + 1)%nat with (S (S (length s'))) by (simpl; lia).
  cbn [repeat_matcher]. rewrite clear_caps_nil.
  cbn [ms]. rewrite Hr, Hc. cbn [flat_map rest length option_map Nat.pred].
  replace (Nat.eqb (length s') (S (length s'))) with false
    by (symmetry; apply Nat.eqb_neq; lia).
  cbn [andb Nat.eqb app]. eexists. reflexivity.
Qed.

(** The run of characters with a property at the head of a text. *)
Lemma run_split (ok : N → bool) (l : jsstring) :
  ∃ l1 l2, l = l1 ++ l2 ∧ Forall (fun c => ok c = true) l1
           ∧ match l2 with c :: _ => ok c = false | [] => True end.
Proof.
  induction l as [|c l (l1 & l2 & E & F & Hstop)].
  - by exists [], [].
  - destruct (ok c) eqn:Hc.
    + exists (c :: l1), l2. rewrite E. split; [done|]. split; [by constructor|done].
    + exists [], (c :: l). done.
Qed.

(** The optional quote before a name: it is taken when it is there. *)
Lemma quote_group_head st q c r :
  (q = [] ∨ q = [backtick] ∨ q = [dquote]) →
  rest st = q ++ c :: r → cls_match true QUOTE c = false →
  ∃ l, ms true (Group 1 (opt (Cls QUOTE))) st
       = MState (last_of (prev st) q) (c :: r) ((1%nat, q) :: caps st) :: l.
Proof.
  intros Hq Hr Hc. rewrite ms_Group. destruct Hq as [-> |Hq].
  - simpl in Hr. rewrite (opt_cls_skip true QUOTE st c r Hr Hc).
    cbn [List.map last_of]. rewrite Nat.sub_diag, Hr. exists []. reflexivity.
  - assert (∃ x, q = [x] ∧ (x = backtick ∨ x = dquote)) as (x & -> & Hx)
      by (destruct Hq as [-> | ->]; eauto).
    destruct (quote_facts x Hx) as (_ & _ & Hcls & _).
    simpl in Hr.
    destruct (opt_cls_take true QUOTE st x (c :: r) Hr Hcls) as (l & E).
    rewrite E. cbn [List.map prev rest caps]. rewrite Hr.
    replace (length (x :: c :: r) - length (c :: r))%nat with 1%nat by (simpl; lia).
    eexists. reflexivity.
Qed.

End Occurrences.

Section KeywordOccurrence.
Variable kw : jsstring.
Hypothesis kw_lower : Forall (fun x => is_lower x = true) kw.
Hypothesis kw_nonempty : kw ≠ [].

(** Where the keyword stands with its name, the pattern matches, and its
    first match is that occurrence. *)
Lemma names_at_match p s occ name post :
  names_at kw p s occ name post →
  ∃ q, match_at true (keyword_name_re kw) p s
       = Some (RMatch occ post [(2%nat, name); (1%nat, q)]).
Proof using kw_lower kw_nonempty.
  intros (k & ws & q & -> & -> & Hk & Hp & [Hwne Hws] & Hq & Hnne & Hname & Hmax).
  exists q.
  destruct (spells_word kw k kw_lower kw_nonempty Hk) as (Hk2 & c0 & k' & Ek & Hc0).
  destruct name as [|n0 name']; [done|].
  assert (Hn0 : ident_char n0 = true) by (by inversion Hname).
  set (name := n0 :: name') in *.
  assert (Hqq : Forall2 (fun x c => chr_match true x c = true) q q
                ∧ match q ++ name ++ q ++ post with
                  | c :: _ => is_space c = false
                  | [] => True
                  end
                ∧ match q ++ post with
                  | c :: _ => ident_char c = false
                  | [] => True
                  end).
  { destruct Hq as [-> |Hq].
    - split; [constructor|]. split; [by apply ident_not_space|]. by apply Hmax.
    - assert (∃ x, q = [x] ∧ (x = backtick ∨ x = dquote)) as (x & -> & Hx)
        by (destruct Hq as [-> | ->]; eauto).
      destruct (quote_facts x Hx) as (H1 & H2 & _ & H4).
      split; [by repeat constructor|]. by split. }
  destruct Hqq as (Hqq & Hsp & Hstop).
  set (tail := q ++ name ++ q ++ post) in *.
  set (st0 := MState p (k ++ ws ++ tail) []).
  set (st1 := MState (last_of p k) (ws ++ tail) []).
  set (st2 := MState (last_of (last_of p k) ws) tail []).
  set (st3 := MState (last_of (prev st2) q) (name ++ q ++ post) [(1%nat, q)]).
  set (st4 := MState (last_of (prev st3) name) (q ++ post)
                [(2%nat, name); (1%nat, q)]).
  set (st5 := MState (last_of (prev st4) q) post [(2%nat, name); (1%nat, q)]).
  assert (H1 : ms true WordB st0 = [st0]).
  { rewrite ms_WordB. unfold st0. cbn [prev rest]. rewrite Ek. cbn [app head].
    change (is_word_opt p) with (word_char_opt p). rewrite Hp. simpl. by rewrite Hc0. }
  assert (H2 : ms true (lit kw) st0 = [st1]) by (by apply ms_lit_head).
  assert (H3 : ∃ l, ms true (plus (Cls [ASpace])) st1 = st2 :: l).
  { destruct (plus_cls_head true [ASpace] st1 ws tail) as (l & E); [done|done| | |].
    - revert Hws. apply List.Forall_impl. intros c Hc. by rewrite cls_match_blank.
    - destruct tail as [|c t]; [done|]. by rewrite cls_match_blank.
    - exists l. exact E. }
  assert (H4 : ∃ l, ms true (Group 1 (opt (Cls QUOTE))) st2 = st3 :: l).
  { apply (quote_group_head st2 q n0 (name' ++ q ++ post) Hq); [done|].
    by apply ident_not_quote. }
  assert (H5 : ∃ l, ms true (Group 2 (plus (Cls IDENT))) st3 = st4 :: l).
  { destruct (plus_cls_head true IDENT st3 name (q ++ post)) as (l & E);
      [done|done| | |].
    - revert Hname. apply List.Forall_impl. intros c Hc. by rewrite cls_match_IDENT.
    - destruct (q ++ post) as [|c t]; [done|]. by rewrite cls_match_IDENT.
    - rewrite ms_Group, E. cbn [List.map]. eexists. f_equal.
      unfold st4, st3. cbn [prev rest caps]. by rewrite take_consumed. }
  assert (H6 : ms true (Backref 1) st4 = [st5]).
  { cbn [ms]. unfold st4 at 1. cbn [caps]. simpl lookup_cap.
    unfold st4 at 1. cbn [rest]. rewrite (strip_prefix_app true q q post Hqq).
    unfold st5. f_equal. f_equal. f_equal.
    unfold st4. cbn [rest]. by rewrite firstn_app, Nat.sub_diag, firstn_all, firstn_O, app_nil_r. }
  destruct H3 as (l3 & H3). destruct H4 as (l4 & H4). destruct H5 as (l5 & H5).
  destruct (ms_seq_head true _ _ _ _ _ _ _ H5 H6) as (m5 & M5).
  destruct (ms_seq_head true _ _ _ _ _ _ _ H4 M5) as (m4 & M4).
  destruct (ms_seq_head true _ _ _ _ _ _ _ H3 M4) as (m3 & M3).
  destruct (ms_seq_head true _ _ _ _ _ _ _ H2 M3) as (m2 & M2).
  destruct (ms_seq_head true _ _ _ _ _ _ _ H1 M2) as (m1 & M1).
  unfold match_at.
  replace ((k ++ ws ++ q ++ name ++ q) ++ post) with (k ++ ws ++ tail)
    by (unfold tail; by rewrite <- !app_assoc).
  fold st0. rewrite keyword_name_re_eq, M1. cbn [rest caps]. f_equal. f_equal.
  replace (k ++ ws ++ tail) with ((k ++ ws ++ q ++ name ++ q) ++ post)
    by (unfold tail; by rewrite <- !app_assoc).
  apply take_consumed.
Qed.

(** A match of the pattern is an occurrence of the keyword with its
    name. *)
Lemma match_names_at p s m :
  match_at true (keyword_name_re kw) p s = Some m →
  names_at kw p s (matched m) (group 2 m) (after m).
Proof using kw_lower kw_nonempty.
  intros Hm. destruct (match_at_state _ _ _ _ _ Hm) as (st & t & Hst & _ & _).
  apply keyword_name_states in Hst
    as (k & ws & q & ident & Hb & _ & Hk & Hws & Fws & Hq & Hi & Fi & Hwb).
  simpl in Hb.
  assert (Hsp : spells kw k) by (by apply lower_keyword).
  destruct (spells_word kw k kw_lower kw_nonempty Hsp) as (_ & c0 & k' & Ek & Hc0).
  assert (Hp : word_char_opt p = false).
  { rewrite Hb, Ek in Hwb. simpl in Hwb. rewrite Hc0 in Hwb.
    change (is_word_opt p) with (word_char_opt p) in Hwb.
    by destruct (word_char_opt p). }
  assert (Hocc : ∃ occ name post, names_at kw p s occ name post).
  { destruct Hq as [-> |Hq].
    - destruct (run_split ident_char (rest st)) as (l1 & l2 & E & F1 & Hstop).
      exists (k ++ ws ++ [] ++ (ident ++ l1) ++ []), (ident ++ l1), l2.
      exists k, ws, []. split.
      { rewrite Hb, E. simpl. rewrite !app_nil_r. by rewrite <- !app_assoc. }
      split; [done|]. split; [done|]. split; [done|]. split; [done|].
      split; [by left|]. split; [by destruct ident|].
      split; [by apply List.Forall_app|]. done.
    - exists (k ++ ws ++ q ++ ident ++ q), ident, (rest st).
      exists k, ws, q. split; [rewrite Hb; by rewrite <- !app_assoc|].
      split; [done|]. split; [done|]. split; [done|]. split; [done|].
      split; [by right|]. split; [done|]. split; [done|].
      intros ->. by destruct Hq. }
  destruct Hocc as (occ & name & post & Hocc).
  destruct (names_at_match p s occ name post Hocc) as (q' & E).
  rewrite E in Hm. injection Hm as <-. exact Hocc.
Qed.

End KeywordOccurrence.

Section AliasOccurrence.

Lemma is_word_spec c :
  is_word c = true ↔
  (65 <= c <= 90) ∨ (97 <= c <= 122) ∨ (48 <= c <= 57) ∨ c = 95.
Proof. unfold is_word, is_upper, is_lower, is_digit. b2p. lia. Qed.

Lemma cls_mem_ALIAS c :
  cls_mem ALIAS c = true ↔
  (65 <= c <= 90) ∨ (97 <= c <= 122) ∨ (48 <= c <= 57) ∨ c = 95.
Proof.
  unfold cls_mem, ALIAS. simpl.
  change (ch "a") with 97. change (ch "z") with 122. change (ch "A") with 65.
  change (ch "Z") with 90. change (ch "0") with 48. change (ch "9") with 57.
  change (ch "_") with 95. rewrite orb_false_r. b2p. lia.
Qed.

Lemma cls_match_ALIAS c : cls_match true ALIAS c = is_word c.
Proof.
  unfold cls_match. apply eq_true_iff_eq.
  rewrite !orb_true_iff, !cls_mem_ALIAS, is_word_spec.
  destruct (to_upper_cases c) as [[? ->]|[? ->]],
           (to_lower_cases c) as [[? ->]|[? ->]]; lia.
Qed.

Lemma word_not_space c : is_word c = true → is_space c = false.
Proof.
  intros Hc. apply is_word_spec in Hc. destruct (is_space c) eqn:E; [|done].
  revert E. unfold is_space. b2p. lia.
Qed.

Lemma space_not_ident c : is_space c = true → ident_char c = false.
Proof.
  intros Hc. destruct (ident_char c) eqn:E; [|done].
  apply ident_not_space in E. congruence.
Qed.

Lemma last_of_run (P : N → bool) p t :
  t ≠ [] → Forall (fun c => P c = true) t → ∃ c, last_of p t = Some c ∧ P c = true.
Proof.
  intros Hne Hall. destruct t as [|c t] using rev_ind; [done|].
  exists c. rewrite last_of_snoc. split; [done|].
  apply List.Forall_app in Hall as [_ Hall]. by inversion Hall.
Qed.

Lemma spells_as k :
  spells (js "as") k →
  Forall2 (fun x c => chr_match true x c = true) (js "as") k
  ∧ ∃ c k', k = c :: k' ∧ is_space c = false.
Proof.
  intros Hk.
  assert (Hlow : Forall (fun x => is_lower x = true) (js "as")) by (by repeat constructor).
  destruct (spells_word (js "as") k Hlow ltac:(done) Hk) as (H2 & c & k' & -> & Hc).
  split; [done|]. exists c, k'. split; [done|]. by apply word_not_space.
Qed.

(** Where a word stands before [AS alias], the pattern matches in one way
    only, and takes that occurrence. *)
Lemma alias_at_match p s occ word post :
  alias_at p s occ word post →
  match_at true AS_RE p s = Some (RMatch occ post [(1%nat, word)]).
Proof.
  intros (ws1 & k & ws2 & alias & -> & -> & Hwne & Hword & Hb & [Hne1 Hws1] & Hk
          & [Hne2 Hws2] & Hane & Halias & Hend).
  destruct (spells_as k Hk) as (Hk2 & ck & k' & Ek & Hck).
  destruct word as [|w0 word']; [done|]. set (word := w0 :: word') in *.
  destruct ws1 as [|s1 ws1']; [done|]. set (ws1 := s1 :: ws1') in *.
  destruct ws2 as [|s2 ws2']; [done|]. set (ws2 := s2 :: ws2') in *.
  destruct alias as [|a0 alias']; [done|]. set (alias := a0 :: alias') in *.
  set (st0 := MState p (word ++ ws1 ++ k ++ ws2 ++ alias ++ post) []).
  set (st1 := MState (last_of p word) (ws1 ++ k ++ ws2 ++ alias ++ post)
                [(1%nat, word)]).
  set (st2 := MState (last_of (prev st1) ws1) (k ++ ws2 ++ alias ++ post)
                [(1%nat, word)]).
  set (st3 := MState (last_of (prev st2) k) (ws2 ++ alias ++ post) [(1%nat, word)]).
  set (st4 := MState (last_of (prev st3) ws2) (alias ++ post) [(1%nat, word)]).
  set (st5 := MState (last_of (prev st4) alias) post [(1%nat, word)]).
  assert (H1 : ms true WordB st0 = [st0]).
  { rewrite ms_WordB. unfold st0. cbn [prev rest]. unfold word at 1. cbn [app head].
    change (xorb (word_char_opt p) (word_char_opt (head word)) = true) in Hb.
    unfold word in Hb. cbn [head] in Hb.
    change (is_word_opt p) with (word_char_opt p).
    change (is_word_opt (Some w0)) with (word_char_opt (Some w0)). by rewrite Hb. }
  assert (H2 : ∃ l, ms true (Group 1 (plus (Cls IDENT))) st0 = st1 :: l).
  { destruct (plus_cls_head true IDENT st0 word (ws1 ++ k ++ ws2 ++ alias ++ post))
      as (l & E); [done|done| | |].
    - revert Hword. apply List.Forall_impl. intros c Hc. by rewrite cls_match_IDENT.
    - unfold ws1. cbn [app]. rewrite cls_match_IDENT. apply space_not_ident.
      by inversion Hws1.
    - rewrite ms_Group, E. cbn [List.map]. eexists. f_equal.
      unfold st1, st0. cbn [prev rest caps]. by rewrite take_consumed. }
  assert (H3 : ∃ l, ms true (plus (Cls [ASpace])) st1 = st2 :: l).
  { destruct (plus_cls_head true [ASpace] st1 ws1 (k ++ ws2 ++ alias ++ post))
      as (l & E); [done|done| | |].
    - revert Hws1. apply List.Forall_impl. intros c Hc. by rewrite cls_match_blank.
    - rewrite Ek. cbn [app]. by rewrite cls_match_blank.
    - exists l. exact E. }
  assert (H4 : ms true (lit (js "as")) st2 = [st3]) by (by apply ms_lit_head).
  assert (H5 : ∃ l, ms true (plus (Cls [ASpace])) st3 = st4 :: l).
  { destruct (plus_cls_head true [ASpace] st3 ws2 (alias ++ post))
      as (l & E); [done|done| | |].
    - revert Hws2. apply List.Forall_impl. intros c Hc. by rewrite cls_match_blank.
    - unfold alias. cbn [app]. rewrite cls_match_blank. apply word_not_space.
      by inversion Halias.
    - exists l. exact E. }
  assert (H6 : ∃ l, ms true (plus (Cls ALIAS)) st4 = st5 :: l).
  { destruct (plus_cls_head true ALIAS st4 alias post) as (l & E); [done|done| | |].
    - revert Halias. apply List.Forall_impl. intros c Hc. by rewrite cls_match_ALIAS.
    - destruct post as [|c t]; [done|]. rewrite cls_match_ALIAS. exact Hend.
    - exists l. exact E. }
  assert (H7 : ms true WordB st5 = [st5]).
  { rewrite ms_WordB. unfold st5. cbn [prev rest].
    destruct (last_of_run is_word (prev st4) alias Hane Halias) as (c & -> & Hc).
    cbn [is_word_opt]. rewrite Hc.
    change (is_word_opt (head post)) with (word_char_opt (head post)).
    by rewrite Hend. }
  destruct H2 as (l2 & H2). destruct H3 as (l3 & H3). destruct H5 as (l5 & H5).
  destruct H6 as (l6 & H6).
  destruct (ms_seq_head true _ _ _ _ _ _ _ H6 H7) as (m6 & M6).
  destruct (ms_seq_head true _ _ _ _ _ _ _ H5 M6) as (m5 & M5).
  destruct (ms_seq_head true _ _ _ _ _ _ _ H4 M5) as (m4 & M4).
  destruct (ms_seq_head true _ _ _ _ _ _ _ H3 M4) as (m3 & M3).
  destruct (ms_seq_head true _ _ _ _ _ _ _ H2 M3) as (m2 & M2).
  destruct (ms_seq_head true _ _ _ _ _ _ _ H1 M2) as (m1 & M1).
  unfold match_at.
  replace ((word ++ ws1 ++ k ++ ws2 ++ alias) ++ post)
    with (word ++ ws1 ++ k ++ ws2 ++ alias ++ post) by (by rewrite <- !app_assoc).
  fold st0. rewrite AS_RE_eq. cbn [seqs]. rewrite M1. cbn [rest caps]. f_equal. f_equal.
  replace (word ++ ws1 ++ k ++ ws2 ++ alias ++ post)
    with ((word ++ ws1 ++ k ++ ws2 ++ alias) ++ post) by (by rewrite <- !app_assoc).
  apply take_consumed.
Qed.

(** A match of the pattern is such an occurrence. *)
Lemma match_alias_at p s m :
  match_at true AS_RE p s = Some m →
  alias_at p s (matched m) (group 1 m) (after m).
Proof.
  intros Hm. destruct (match_at_state _ _ _ _ _ Hm) as (st & t & Hst & [At _] & ->).
  simpl in At. rewrite AS_RE_eq in Hst. cbn [seqs] in Hst.
  apply in_ms_Seq in Hst as (s0 & H0 & Hst). apply in_ms_WordB in H0 as [-> Hb].
  apply in_ms_Seq in Hst as (s1 & H1 & Hst).
  apply in_ms_Group in H1 as (s10 & word & H1 & [Aw _] & ->).
  apply in_rep_cls in H1 as (word' & Aw' & E10 & Fw & Lw).
  simpl in Aw, Aw'. rewrite Aw' in Aw. apply app_inv_tail in Aw as ->.
  apply in_ms_Seq in Hst as (s2 & H2 & Hst).
  apply in_rep_cls in H2 as (ws1 & A2 & E2 & F2 & L2). cbn [rest prev caps] in A2, E2.
  apply in_ms_Seq in Hst as (s3 & H3 & Hst).
  apply ms_lit in H3 as (k & A3 & E3 & F3).
  apply in_ms_Seq in Hst as (s4 & H4 & Hst).
  apply in_rep_cls in H4 as (ws2 & A4 & E4 & F4 & L4).
  apply in_ms_Seq in Hst as (s5 & H5 & Hst).
  apply in_rep_cls in H5 as (alias & A5 & E5 & F5 & L5).
  apply in_ms_WordB in Hst as [-> Hend].
  assert (Hs : s = word ++ ws1 ++ k ++ ws2 ++ alias ++ rest s5).
  { rewrite Aw'. f_equal. rewrite A2. f_equal. rewrite A3. f_equal.
    rewrite A4. f_equal. exact A5. }
  assert (Ht : t = word ++ ws1 ++ k ++ ws2 ++ alias).
  { apply (app_inv_tail (rest s5)). rewrite <- At, Hs. by rewrite <- !app_assoc. }
  assert (Hcaps : caps s5 = [(1%nat, word)]).
  { rewrite E5. cbn [caps]. rewrite E4. cbn [caps]. rewrite E3. cbn [caps].
    rewrite E2. cbn [caps]. rewrite E10. done. }
  assert (Hwne : word ≠ []) by (apply length_pos_nonempty; simpl in Lw; lia).
  assert (Hane : alias ≠ []) by (apply length_pos_nonempty; simpl in L5; lia).
  assert (Hal : Forall (fun c => is_word c = true) alias).
  { revert F5. apply List.Forall_impl. intros c Hc. by rewrite <- cls_match_ALIAS. }
  unfold group. cbn [groups_of matched after]. rewrite Hcaps. simpl lookup_cap.
  exists ws1, k, ws2, alias. rewrite Ht.
  split; [rewrite Hs; by rewrite <- !app_assoc|]. split; [done|].
  split; [done|]. split.
  { revert Fw. apply List.Forall_impl. intros c Hc. by rewrite <- cls_match_IDENT. }
  split.
  { simpl in Hb. rewrite Hs in Hb. destruct word; [done|]. exact Hb. }
  split.
  { split; [apply length_pos_nonempty; simpl in L2; lia|].
    revert F2. apply List.Forall_impl. intros c Hc. by rewrite <- cls_match_blank. }
  split.
  { apply lower_keyword; [by repeat constructor|done]. }
  split.
  { split; [apply length_pos_nonempty; simpl in L4; lia|].
    revert F4. apply List.Forall_impl. intros c Hc. by rewrite <- cls_match_blank. }
  split; [done|]. split; [done|].
  rewrite E5 in Hend. cbn [prev rest] in Hend.
  destruct (last_of_run is_word (prev s4) alias Hane Hal) as (c & Ec & Hc).
  rewrite Ec in Hend. cbn [is_word_opt] in Hend. rewrite Hc in Hend.
  change (is_word_opt (head (rest s5))) with (word_char_opt (head (rest s5))) in Hend.
  by destruct (word_char_opt (head (rest s5))).
Qed.

End AliasOccurrence.

(** ** Searching from left to right *)

Section LeftToRight.
Variables (re : regex) (grp : nat).
Variable here : option N → jsstring → jsstring → jsstring → jsstring → Prop.
Hypothesis here_match : ∀ p s occ name post,
  here p s occ name post →
  ∃ m, match_at true re p s = Some m
       ∧ matched m = occ ∧ after m = post ∧ group grp m = name.
Hypothesis match_here : ∀ p s m,
  match_at true re p s = Some m → here p s (matched m) (group grp m) (after m).
Hypothesis here_nonempty : ∀ p s occ name post, here p s occ name post → occ ≠ [].

Lemma no_match_here p s :
  (∀ occ name post, ¬ here p s occ name post) → match_at true re p s = None.
Proof using match_here.
  intros Hn. destruct (match_at true re p s) as [m|] eqn:E; [|done].
  exfalso. exact (Hn _ _ _ (match_here _ _ _ E)).
Qed.

Lemma captured_copies (l : jsstring) : captured grp (List.map Copy l) = [].
Proof. induction l as [|c l IH]; [done|]. exact IH. Qed.

Lemma captured_app l1 l2 :
  captured grp (l1 ++ l2) = captured grp l1 ++ captured grp l2.
Proof. apply flat_map_app. Qed.

Lemma captured_hit m l : captured grp (Hit m :: l) = group grp m :: captured grp l.
Proof. reflexivity. Qed.

Lemma captured_match_all s :
  List.map (group grp) (match_all true re s)
  = captured grp (pieces true re (S (length s)) None s).
Proof.
  unfold match_all, captured.
  induction (pieces true re (S (length s)) None s) as [|pc l IH]; [done|].
  destruct pc; simpl; by rewrite IH.
Qed.

Lemma found_skip p c s names :
  match_at true re p (c :: s) = None →
  found here (Some c) s names → found here p (c :: s) names.
Proof using here_match.
  intros Hm H.
  inversion H as [? ? Hnone|? ? a occ name post names' Es Hh Hbefore Hrest]; subst.
  - apply found_none. intros a b occ name post E Hh.
    destruct a as [|c' a].
    + simpl in E. subst b. destruct (here_match _ _ _ _ _ Hh) as (m & Hm' & _).
      change (last_of p []) with p in Hm'. congruence.
    + injection E as <- E. rewrite last_of_cons in Hh.
      exact (Hnone a b occ name post E Hh).
  - apply (found_next here p (c :: a ++ occ ++ post) (c :: a) occ name post names').
    + done.
    + by rewrite last_of_cons.
    + intros a1 a2 occ' name' post' E Ha2 Hh'. destruct a1 as [|c' a1].
      * simpl in E. subst a2. destruct (here_match _ _ _ _ _ Hh') as (m & Hm' & _).
        change (last_of p []) with p in Hm'.
        change ((c :: a) ++ occ ++ post) with (c :: a ++ occ ++ post) in Hm'.
        congruence.
      * injection E as <- E. rewrite last_of_cons in Hh'.
        exact (Hbefore a1 a2 occ' name' post' E Ha2 Hh').
    + by rewrite last_of_cons.
Qed.

(** What the scan of the matcher finds is what a search from left to
    right finds. *)
Lemma scan_found :
  ∀ fuel p s, (length s < fuel)%nat →
    found here p s (captured grp (pieces true re fuel p s)).
Proof using here_match match_here here_nonempty.
  induction fuel as [|fuel IH]; intros p s Hlen; [lia|].
  cbn [pieces]. destruct (match_at true re p s) as [m|] eqn:Hm.
  - pose proof (match_here _ _ _ Hm) as Hh.
    pose proof (here_nonempty _ _ _ _ _ Hh) as Hne.
    pose proof (match_at_text _ _ _ _ _ Hm) as Hs.
    destruct (matched m) as [|c t] eqn:Et; [done|]. rewrite <- Et in *.
    rewrite captured_hit.
    apply (found_next here p s [] (matched m) (group grp m) (after m)).
    + done.
    + cbn [last_of]. by rewrite <- Hs.
    + intros a1 a2 ? ? ? E Ha2. symmetry in E. apply app_eq_nil in E as [_ ->]. done.
    + cbn [last_of]. apply IH. rewrite Hs, length_app in Hlen. rewrite Et in Hlen.
      simpl in Hlen. lia.
  - destruct s as [|c s'].
    + apply found_none. intros a b occ name post E Hh.
      symmetry in E. apply app_eq_nil in E as [-> ->].
      destruct (here_match _ _ _ _ _ Hh) as (m & Hm' & _).
      change (last_of p []) with p in Hm'. congruence.
    + change (found here p (c :: s') (captured grp (pieces true re fuel (Some c) s'))).
      apply found_skip; [done|]. apply IH. simpl in Hlen. lia.
Qed.

(** A search from left to right finds what the scan of the matcher
    finds. *)
Lemma found_scan p s names :
  found here p s names →
  ∀ fuel, (length s < fuel)%nat → captured grp (pieces true re fuel p s) = names.
Proof using here_match match_here here_nonempty.
  induction 1 as [p s Hnone|p s a occ name post names Es Hh Hbefore Hrest IH];
    intros fuel Hlen.
  - rewrite (pieces_none true re s fuel p Hlen); [apply captured_copies|].
    intros a b E. apply no_match_here. intros occ name post. by apply Hnone.
  - subst s. rewrite !length_app in Hlen.
    replace fuel with (length a + (fuel - length a))%nat by lia.
    rewrite (pieces_skip true re a).
    2:{ intros a1 a2 E Ha2. apply no_match_here. intros occ' name' post'.
        by apply Hbefore. }
    rewrite captured_app, captured_copies. cbn [app].
    destruct (here_match _ _ _ _ _ Hh) as (m & Hm & Em & Ea & Eg).
    pose proof (here_nonempty _ _ _ _ _ Hh) as Hne.
    destruct (fuel - length a)%nat as [|fuel'] eqn:Ef; [lia|].
    cbn [pieces]. rewrite Hm. rewrite Em.
    destruct occ as [|c t] eqn:Eo; [done|]. rewrite <- Eo in *.
    rewrite captured_hit, Eg, Ea. f_equal.
    apply IH. rewrite Eo in Hlen. simpl in Hlen. lia.
Qed.

Lemma found_match_all s names :
  found here None s names ↔ List.map (group grp) (match_all true re s) = names.
Proof using here_match match_here here_nonempty.
  rewrite captured_match_all. split.
  - intros H. apply (found_scan None s names H). lia.
  - intros <-. apply scan_found. lia.
Qed.

End LeftToRight.

(** ** Line feeds read as blanks *)

Section Unbroken.

Lemma normalize_map sql : normalize sql = List.map unbreak sql.
Proof.
  unfold normalize. rewrite replace_all_chr.
  induction sql as [|c sql IH]; [done|]. simpl. rewrite IH. unfold unbreak.
  by destruct (c =? 10).
Qed.

Lemma unbreak_cases c : (c = 10 ∧ unbreak c = 32) ∨ (c ≠ 10 ∧ unbreak c = c).
Proof. unfold unbreak. destruct (N.eqb_spec c 10); auto. Qed.

Lemma unbreak_space c : is_space (unbreak c) = is_space c.
Proof. destruct (unbreak_cases c) as [[-> ->]|[_ ->]]; reflexivity. Qed.

Lemma unbreak_ident c : ident_char (unbreak c) = ident_char c.
Proof. destruct (unbreak_cases c) as [[-> ->]|[_ ->]]; reflexivity. Qed.

Lemma unbreak_word c : is_word (unbreak c) = is_word c.
Proof. destruct (unbreak_cases c) as [[-> ->]|[_ ->]]; reflexivity. Qed.

Lemma unbreak_word_opt p : word_char_opt (option_map unbreak p) = word_char_opt p.
Proof. destruct p; [apply unbreak_word|done]. Qed.

Lemma map_unbreak_id l : Forall (fun c => c ≠ 10) l → List.map unbreak l = l.
Proof.
  induction 1 as [|c l Hc _ IH]; [done|]. simpl. rewrite IH.
  by destruct (unbreak_cases c) as [[? _]|[_ ->]].
Qed.

Lemma map_unbreak_inv l l' :
  List.map unbreak l = l' → Forall (fun c => c ≠ 32) l' → l = l'.
Proof.
  intros <- Hall. symmetry. apply map_unbreak_id.
  induction l as [|c l IH]; [constructor|]. simpl in Hall.
  inversion Hall as [|? ? Hc Hl]; subst. constructor; [|by apply IH].
  intros ->. by apply Hc.
Qed.

Lemma last_of_unbreak p t :
  last_of (option_map unbreak p) (List.map unbreak t)
  = option_map unbreak (last_of p t).
Proof.
  destruct t as [|c t] using rev_ind; [done|].
  rewrite map_app. simpl. by rewrite !last_of_snoc.
Qed.

Lemma head_unbreak t : head (List.map unbreak t) = option_map unbreak (head t).
Proof. by destruct t. Qed.

Lemma blanks_unbreak ws : blanks (List.map unbreak ws) ↔ blanks ws.
Proof.
  unfold blanks. split; intros [Hne Hall]; (split; [by destruct ws|]).
  - apply List.Forall_forall. intros c Hc. rewrite <- unbreak_space.
    rewrite List.Forall_forall in Hall. apply Hall. by apply in_map.
  - apply List.Forall_forall. intros c Hc. apply in_map_iff in Hc as (c0 & <- & Hc).
    rewrite unbreak_space. rewrite List.Forall_forall in Hall. by apply Hall.
Qed.

Lemma ident_inked l :
  Forall (fun c => ident_char c = true) l → Forall (fun c => c ≠ 10 ∧ c ≠ 32) l.
Proof.
  apply List.Forall_impl. intros c Hc. apply ident_char_spec in Hc. lia.
Qed.

Lemma word_inked l :
  Forall (fun c => is_word c = true) l → Forall (fun c => c ≠ 10 ∧ c ≠ 32) l.
Proof.
  apply List.Forall_impl. intros c Hc. apply is_word_spec in Hc. lia.
Qed.

Lemma spelled_inked kw k :
  Forall (fun x => is_lower x = true) kw → spells kw k →
  Forall (fun c => c ≠ 10 ∧ c ≠ 32) k.
Proof.
  unfold spells. intros Hlow. revert k.
  induction Hlow as [|x kw Hx _ IH]; intros k Hk; (destruct k as [|c k]; [constructor|]);
    [done|].
  simpl in Hk. injection Hk as Hc Hk. constructor; [|by apply IH].
  revert Hx. rewrite <- Hc. unfold is_lower.
  destruct (to_lower_cases c) as [[? ->]|[? ->]]; b2p; lia.
Qed.

Lemma quote_inked q :
  q = [] ∨ q = [backtick] ∨ q = [dquote] → Forall (fun c => c ≠ 10 ∧ c ≠ 32) q.
Proof. intros [-> |[-> | ->]]; repeat constructor; done. Qed.

Lemma inked_fixed l :
  Forall (fun c => c ≠ 10 ∧ c ≠ 32) l → List.map unbreak l = l.
Proof.
  intros H. apply map_unbreak_id. revert H. apply List.Forall_impl. by intros c [? _].
Qed.

Lemma inked_source l l' :
  List.map unbreak l = l' → Forall (fun c => c ≠ 10 ∧ c ≠ 32) l' → l = l'.
Proof.
  intros E H. apply (map_unbreak_inv l l' E). revert H.
  apply List.Forall_impl. by intros c [_ ?].
Qed.

Lemma head_stop (ok : N → bool) post :
  (∀ c, ok (unbreak c) = ok c) →
  match List.map unbreak post with c :: _ => ok c = false | [] => True end
  ↔ match post with c :: _ => ok c = false | [] => True end.
Proof. intros H. destruct post as [|c t]; [done|]. simpl. by rewrite H. Qed.

Section KeywordUnbroken.
Variable kw : jsstring.
Hypothesis kw_lower : Forall (fun x => is_lower x = true) kw.

Lemma names_at_unbreak p b occ name post :
  names_at kw p b occ name post →
  names_at kw (option_map unbreak p) (List.map unbreak b) (List.map unbreak occ) name
    (List.map unbreak post).
Proof using kw_lower.
  intros (k & ws & q & -> & -> & Hk & Hp & Hws & Hq & Hne & Hname & Hmax).
  exists k, (List.map unbreak ws), q.
  split; [by rewrite map_app|]. split.
  { rewrite !map_app.
    rewrite (inked_fixed k (spelled_inked kw k kw_lower Hk)).
    rewrite (inked_fixed q (quote_inked q Hq)).
    by rewrite (inked_fixed name (ident_inked name Hname)). }
  split; [done|]. split; [by rewrite unbreak_word_opt|].
  split; [by apply blanks_unbreak|]. split; [done|]. split; [done|]. split; [done|].
  intros Eq. apply (head_stop ident_char post unbreak_ident). by apply Hmax.
Qed.

Lemma names_at_source p b occ' name post' :
  names_at kw (option_map unbreak p) (List.map unbreak b) occ' name post' →
  ∃ occ post, names_at kw p b occ name post.
Proof using kw_lower.
  intros (k & ws' & q & Eb & -> & Hk & Hp & Hws & Hq & Hne & Hname & Hmax).
  rewrite <- !app_assoc in Eb.
  apply map_eq_app in Eb as (k0 & b1 & -> & Ek & Eb).
  apply map_eq_app in Eb as (ws & b2 & -> & Ews & Eb).
  apply map_eq_app in Eb as (q0 & b3 & -> & Eq & Eb).
  apply map_eq_app in Eb as (name0 & b4 & -> & En & Eb).
  apply map_eq_app in Eb as (q1 & post & -> & Eq1 & Ep).
  apply inked_source in Ek; [|by apply (spelled_inked kw)]. subst k0.
  apply inked_source in Eq; [|by apply quote_inked]. subst q0.
  apply inked_source in Eq1; [|by apply quote_inked]. subst q1.
  apply inked_source in En; [|by apply ident_inked]. subst name0.
  exists (k ++ ws ++ q ++ name ++ q), post. exists k, ws, q.
  split; [by rewrite <- !app_assoc|]. split; [done|]. split; [done|].
  split; [by rewrite <- unbreak_word_opt|].
  split; [apply blanks_unbreak; by rewrite Ews|].
  split; [done|]. split; [done|]. split; [done|].
  intros Eq. apply (head_stop ident_char post unbreak_ident). rewrite Ep. by apply Hmax.
Qed.

End KeywordUnbroken.

Lemma alias_at_unbreak p b occ word post :
  alias_at p b occ word post →
  alias_at (option_map unbreak p) (List.map unbreak b) (List.map unbreak occ) word
    (List.map unbreak post).
Proof.
  intros (ws1 & k & ws2 & alias & -> & -> & Hwne & Hword & Hb & Hws1 & Hk & Hws2
          & Hane & Halias & Hend).
  assert (Hlow : Forall (fun x => is_lower x = true) (js "as")) by (by repeat constructor).
  exists (List.map unbreak ws1), k, (List.map unbreak ws2), alias.
  split; [by rewrite map_app|]. split.
  { rewrite !map_app.
    rewrite (inked_fixed word (ident_inked word Hword)).
    rewrite (inked_fixed k (spelled_inked (js "as") k Hlow Hk)).
    by rewrite (inked_fixed alias (word_inked alias Halias)). }
  split; [done|]. split; [done|]. split; [by rewrite unbreak_word_opt|].
  split; [by apply blanks_unbreak|]. split; [done|].
  split; [by apply blanks_unbreak|]. split; [done|]. split; [done|].
  by rewrite head_unbreak, unbreak_word_opt.
Qed.

Lemma alias_at_source p b occ' word post' :
  alias_at (option_map unbreak p) (List.map unbreak b) occ' word post' →
  ∃ occ post, alias_at p b occ word post.
Proof.
  intros (ws1' & k & ws2' & alias & Eb & -> & Hwne & Hword & Hb & Hws1 & Hk & Hws2
          & Hane & Halias & Hend).
  assert (Hlow : Forall (fun x => is_lower x = true) (js "as")) by (by repeat constructor).
  rewrite <- !app_assoc in Eb.
  apply map_eq_app in Eb as (word0 & b1 & -> & Ew & Eb).
  apply map_eq_app in Eb as (ws1 & b2 & -> & Ews1 & Eb).
  apply map_eq_app in Eb as (k0 & b3 & -> & Ek & Eb).
  apply map_eq_app in Eb as (ws2 & b4 & -> & Ews2 & Eb).
  apply map_eq_app in Eb as (alias0 & post & -> & Ea & Ep).
  apply inked_source in Ew; [|by apply ident_inked]. subst word0.
  apply inked_source in Ek; [|by apply (spelled_inked (js "as"))]. subst k0.
  apply inked_source in Ea; [|by apply word_inked]. subst alias0.
  exists (word ++ ws1 ++ k ++ ws2 ++ alias), post. exists ws1, k, ws2, alias.
  split; [by rewrite <- !app_assoc|]. split; [done|]. split; [done|]. split; [done|].
  split; [by rewrite <- (unbreak_word_opt p)|].
  split; [apply blanks_unbreak; by rewrite Ews1|]. split; [done|].
  split; [apply blanks_unbreak; by rewrite Ews2|]. split; [done|]. split; [done|].
  rewrite <- Ep, head_unbreak, unbreak_word_opt in Hend. exact Hend.
Qed.

Section FoundUnbroken.
Variable here : option N → jsstring → jsstring → jsstring → jsstring → Prop.
Hypothesis here_unbreak : ∀ p b occ name post,
  here p b occ name post →
  here (option_map unbreak p) (List.map unbreak b) (List.map unbreak occ) name
    (List.map unbreak post).
Hypothesis here_source : ∀ p b occ' name post',
  here (option_map unbreak p) (List.map unbreak b) occ' name post' →
  ∃ occ post, here p b occ name post.

Lemma found_unbreak p s names :
  found here p s names →
  found here (option_map unbreak p) (List.map unbreak s) names.
Proof using here_unbreak here_source.
  induction 1 as [p s Hnone|p s a occ name post names Es Hh Hbefore Hrest IH].
  - apply found_none. intros a' b' occ' name post' E Hh.
    apply map_eq_app in E as (a & b & -> & <- & <-).
    rewrite last_of_unbreak in Hh.
    destruct (here_source _ _ _ _ _ Hh) as (occ & post & Hh').
    exact (Hnone a b occ name post eq_refl Hh').
  - apply (found_next here _ _ (List.map unbreak a) (List.map unbreak occ) name
             (List.map unbreak post)).
    + subst s. by rewrite !map_app.
    + rewrite last_of_unbreak, <- map_app. by apply here_unbreak.
    + intros a1' a2' occ' name' post' E Ha2 Hh'.
      apply map_eq_app in E as (a1 & a2 & -> & <- & <-).
      rewrite last_of_unbreak, <- !map_app in Hh'.
      destruct (here_source _ _ _ _ _ Hh') as (occ0 & post0 & Hh0).
      apply (Hbefore a1 a2 occ0 name' post0 eq_refl); [|done].
      intros ->. done.
    + rewrite !last_of_unbreak. exact IH.
Qed.

End FoundUnbroken.

End Unbroken.

(** ** Table names *)

Section TableNames.

Lemma last_segment_dot front seg :
  ∀ acc, last_segment acc (front ++ ch "." :: seg) = last_segment [] seg.
Proof.
  induction front as [|c front IH]; intros acc; simpl; [done|].
  destruct (c =? ch "."); apply IH.
Qed.

Lemma last_segment_split s :
  ∀ acc, Forall (fun c => c ≠ ch ".") acc →
    ∃ front seg,
      acc ++ s = front ++ seg
      ∧ (front = [] ∨ ∃ front', front = front' ++ [ch "."])
      ∧ Forall (fun c => c ≠ ch ".") seg
      ∧ last_segment acc s = seg.
Proof.
  induction s as [|c s IH]; intros acc Hacc.
  - exists [], acc. rewrite app_nil_r. split; [done|]. split; [by left|]. by split.
  - simpl. destruct (N.eqb_spec c (ch ".")) as [->|Hc].
    + destruct (IH [] (List.Forall_nil _)) as (front & seg & E & Hf & Hs & L).
      exists (acc ++ ch "." :: front), seg. simpl in E.
      split; [rewrite E; by rewrite <- app_assoc|]. split; [|done]. right.
      destruct Hf as [-> |(f' & ->)].
      * exists acc. done.
      * exists (acc ++ ch "." :: f'). by rewrite <- app_assoc.
    + destruct (IH (acc ++ [c])) as (front & seg & E & Hf & Hs & L).
      { apply List.Forall_app. split; [done|]. by constructor. }
      exists front, seg. rewrite <- E, <- app_assoc. done.
Qed.

Lemma strip_quotes_ident s :
  Forall (fun c => ident_char c = true) s → strip_quotes s = s.
Proof.
  intros Hs. unfold strip_quotes. apply replace_all_quiet.
  intros a b ->. rewrite match_at_cls.
  apply List.Forall_app in Hs as [_ Hs]. destruct b as [|c b]; [done|].
  inversion Hs as [|? ? Hc _]; subst. apply ident_not_quote in Hc.
  unfold cls_match in *. apply orb_false_iff in Hc as [Hc _].
  apply orb_false_iff in Hc as [Hc _]. by rewrite Hc.
Qed.

Lemma table_of_ident name n :
  Forall (fun c => ident_char c = true) name →
  n = toLowerCase (table_of name) ↔ table_name name n.
Proof.
  intros Hname. unfold table_of, table_name. split.
  - intros ->.
    destruct (last_segment_split name [] (List.Forall_nil _))
      as (front & seg & E & Hf & Hs & L).
    simpl in E. exists front, seg. rewrite L. rewrite strip_quotes_ident; [done|].
    rewrite E in Hname. by apply List.Forall_app in Hname as [_ ?].
  - intros (front & seg & -> & Hf & Hs & ->).
    assert (L : last_segment [] (front ++ seg) = seg).
    { destruct Hf as [-> |(f' & ->)].
      - by apply (last_segment_whole seg Hs []).
      - rewrite <- app_assoc. cbn [app]. rewrite last_segment_dot.
        by apply (last_segment_whole seg Hs []). }
    rewrite L. rewrite strip_quotes_ident; [done|].
    by apply List.Forall_app in Hname as [_ ?].
Qed.

End TableNames.

(** ** What the extractors return *)

Section Introduced.
Variables (re : regex) (grp : nat).
Variable here : option N → jsstring → jsstring → jsstring → jsstring → Prop.
Hypothesis here_match : ∀ p s occ name post,
  here p s occ name post →
  ∃ m, match_at true re p s = Some m
       ∧ matched m = occ ∧ after m = post ∧ group grp m = name.
Hypothesis match_here : ∀ p s m,
  match_at true re p s = Some m → here p s (matched m) (group grp m) (after m).
Hypothesis here_nonempty : ∀ p s occ name post, here p s occ name post → occ ≠ [].
Hypothesis here_unbreak : ∀ p b occ name post,
  here p b occ name post →
  here (option_map unbreak p) (List.map unbreak b) (List.map unbreak occ) name
    (List.map unbreak post).
Hypothesis here_source : ∀ p b occ' name post',
  here (option_map unbreak p) (List.map unbreak b) occ' name post' →
  ∃ occ post, here p b occ name post.

(** The names that the matches in the normalized text give are the names
    that a search from left to right finds in the text as it is. *)
Lemma found_normalized sql names :
  found here None sql names
  ↔ List.map (group grp) (match_all true re (normalize sql)) = names.
Proof using here_match match_here here_nonempty here_unbreak here_source.
  rewrite normalize_map. split.
  - intros H. apply (found_unbreak here here_unbreak here_source) in H.
    by apply (found_match_all re grp here here_match match_here here_nonempty).
  - intros <-.
    assert (H0 : found here None sql (List.map (group grp) (match_all true re sql)))
      by (by apply (found_match_all re grp here here_match match_here here_nonempty)).
    pose proof (found_unbreak here here_unbreak here_source _ _ _ H0) as H1.
    apply (found_match_all re grp here here_match match_here here_nonempty) in H1.
    simpl in H1. by rewrite H1.
Qed.

Lemma match_all_found sql m :
  In m (match_all true re (normalize sql)) →
  ∃ names, found here None sql names ∧ In (group grp m) names.
Proof using here_match match_here here_nonempty here_unbreak here_source.
  intros Hm. exists (List.map (group grp) (match_all true re (normalize sql))).
  split; [by apply found_normalized|]. by apply in_map.
Qed.

Lemma found_match_in sql names name :
  found here None sql names → In name names →
  ∃ m p b, In m (match_all true re (normalize sql)) ∧ group grp m = name
           ∧ here p b (matched m) name (after m).
Proof using here_match match_here here_nonempty here_unbreak here_source.
  intros Hf Hin. apply found_normalized in Hf. subst names.
  apply in_map_iff in Hin as (m & <- & Hm). exists m.
  destruct (match_all_in _ _ _ _ Hm) as (a & b & _ & Hat).
  exists (last_of None a), b. split; [done|]. split; [done|]. by apply match_here.
Qed.

End Introduced.

Section Extractors.

Lemma names_at_ident kw p s occ name post :
  names_at kw p s occ name post → Forall (fun c => ident_char c = true) name.
Proof. by intros (k & ws & q & _ & _ & _ & _ & _ & _ & _ & ? & _). Qed.

Lemma alias_at_ident p s occ word post :
  alias_at p s occ word post → Forall (fun c => ident_char c = true) word.
Proof. by intros (ws1 & k & ws2 & alias & _ & _ & _ & ? & _). Qed.

Lemma names_at_nonempty kw p s occ name post :
  names_at kw p s occ name post → occ ≠ [].
Proof.
  intros (k & ws & q & _ & -> & _ & _ & [Hne _] & _) E.
  apply app_eq_nil in E as [_ E]. by apply app_eq_nil in E as [E _].
Qed.

Lemma alias_at_nonempty p s occ word post : alias_at p s occ word post → occ ≠ [].
Proof.
  intros (ws1 & k & ws2 & alias & _ & -> & Hne & _) E.
  by apply app_eq_nil in E as [E _].
Qed.

Lemma names_at_here kw p s occ name post :
  Forall (fun x => is_lower x = true) kw → kw ≠ [] →
  names_at kw p s occ name post →
  ∃ m, match_at true (keyword_name_re kw) p s = Some m
       ∧ matched m = occ ∧ after m = post ∧ group 2 m = name.
Proof.
  intros Hlow Hne H. destruct (names_at_match kw Hlow Hne p s occ name post H) as (q & E).
  eexists. split; [exact E|]. done.
Qed.

Lemma alias_at_here p s occ word post :
  alias_at p s occ word post →
  ∃ m, match_at true AS_RE p s = Some m
       ∧ matched m = occ ∧ after m = post ∧ group 1 m = word.
Proof.
  intros H. eexists. split; [exact (alias_at_match p s occ word post H)|]. done.
Qed.

(** The names behind one keyword. *)
Lemma keyword_introduced kw sql n :
  Forall (fun x => is_lower x = true) kw → kw ≠ [] →
  introduced_by (keyword_name_re kw) 2 sql n
  ↔ ∃ names name, found (names_at kw) None sql names ∧ In name names
                  ∧ table_name name n.
Proof.
  intros Hlow Hne. unfold introduced_by. split.
  - intros (m & Hm & ->).
    destruct (match_all_found (keyword_name_re kw) 2 (names_at kw)
                (fun p s occ name post => names_at_here kw p s occ name post Hlow Hne)
                (match_names_at kw Hlow Hne) (names_at_nonempty kw)
                (names_at_unbreak kw Hlow) (names_at_source kw Hlow) sql m Hm)
      as (names & Hf & Hin).
    exists names, (group 2 m). split; [done|]. split; [done|].
    apply table_of_ident; [|done]. exact (keyword_match_group _ _ _ Hm).
  - intros (names & name & Hf & Hin & Ht).
    destruct (found_match_in (keyword_name_re kw) 2 (names_at kw)
                (fun p s occ name post => names_at_here kw p s occ name post Hlow Hne)
                (match_names_at kw Hlow Hne) (names_at_nonempty kw)
                (names_at_unbreak kw Hlow) (names_at_source kw Hlow) sql names name
                Hf Hin)
      as (m & p & b & Hm & <- & Hh).
    exists m. split; [done|]. apply table_of_ident; [|done].
    exact (keyword_match_group _ _ _ Hm).
Qed.

Lemma alias_introduced sql n : introduced_by_alias sql n ↔ named_by_alias sql n.
Proof.
  unfold introduced_by_alias, named_by_alias. split.
  - intros (m & Hm & Hsel & ->).
    destruct (match_all_found AS_RE 1 alias_at alias_at_here match_alias_at
                alias_at_nonempty alias_at_unbreak alias_at_source sql m Hm)
      as (names & Hf & Hin).
    exists names, (group 1 m). split; [done|]. split; [done|]. split; [done|].
    apply table_of_ident; [|done]. exact (alias_match_group _ _ Hm).
  - intros (names & word & Hf & Hin & Hsel & Ht).
    destruct (found_match_in AS_RE 1 alias_at alias_at_here match_alias_at
                alias_at_nonempty alias_at_unbreak alias_at_source sql names word
                Hf Hin)
      as (m & p & b & Hm & <- & Hh).
    exists m. split; [done|]. split; [done|]. apply table_of_ident; [|done].
    exact (alias_match_group _ _ Hm).
Qed.

Lemma keyword_named sql n :
  named_by_keyword sql n
  ↔ introduced_by FROM_RE 2 sql n ∨ introduced_by JOIN_RE 2 sql n.
Proof.
  assert (Hf : Forall (fun x => is_lower x = true) (js "from"))
    by (repeat constructor).
  assert (Hj : Forall (fun x => is_lower x = true) (js "join"))
    by (repeat constructor).
  pose proof (keyword_introduced (js "from") sql n Hf ltac:(done)) as Ef.
  pose proof (keyword_introduced (js "join") sql n Hj ltac:(done)) as Ej.
  fold FROM_RE in Ef. fold JOIN_RE in Ej.
  split.
  - intros (kw & names & name & [-> | ->] & H).
    + left. apply Ef. by exists names, name.
    + right. apply Ej. by exists names, name.
  - intros [H|H].
    + apply Ef in H as (names & name & H).
      exists (js "from"), names, name. split; [by left|done].
    + apply Ej in H as (names & name & H).
      exists (js "join"), names, name. split; [by right|done].
Qed.

Lemma extract_ep_spec sql n :
  In n (ExecutePreview.extractTableNames sql) ↔ named_by_keyword sql n.
Proof.
  split; intros H.
  - apply keyword_named. by apply extract_ep_in.
  - apply extract_ep_in. by apply keyword_named.
Qed.

Lemma extract_chat_spec sql n :
  In n (Chat.extractTableNames sql) ↔ named_by_keyword sql n ∨ named_by_alias sql n.
Proof.
  split; intros H.
  - apply extract_chat_in in H as [H|[H|H]].
    + left. apply keyword_named. by left.
    + left. apply keyword_named. by right.
    + right. by apply alias_introduced.
  - apply extract_chat_in. destruct H as [H|H].
    + apply keyword_named in H as [H|H]; [by left|right; by left].
    + right. right. by apply alias_introduced.
Qed.

End Extractors.

(** The claim as the specification words it fails.  The extractor of
    chat/route.ts returns the word before [AS alias] as well.  And a
    search that goes on behind each occurrence does not see an occurrence
    that begins inside the one before: behind a table called [from], the
    next name is not returned. *)
Lemma chat_extractor_claim_fails :
  ¬ (∀ sql n, In n (Chat.extractTableNames sql) ↔ named_by_keyword sql n)
  ∧ ¬ (∀ sql name, stands_behind_keyword sql name →
         ∃ n, table_name name n ∧ In n (ExecutePreview.extractTableNames sql)).
Proof.
  split.
  - intros H. specialize (H alias_query (js "price")).
    assert (Hin : In (js "price") (Chat.extractTableNames alias_query)).
    { vm_compute. right. by left. }
    apply H, extract_ep_spec in Hin. vm_compute in Hin.
    destruct Hin as [Hin|[]]. discriminate Hin.
  - intros H. specialize (H keyword_table_query (js "x")).
    destruct H as (n & Ht & Hin).
    { exists (js "from"), (js "SELECT * FROM s."), (js "from x"), (js "from x"), [].
      split; [by left|]. split; [reflexivity|].
      exists (js "from"), (js " "), []. split; [reflexivity|]. split; [reflexivity|].
      split; [reflexivity|]. split; [reflexivity|].
      split; [split; [done|by repeat constructor]|]. split; [by left|].
      split; [done|]. split; [by repeat constructor|]. done. }
    apply table_of_ident in Ht; [|by repeat constructor]. subst n.
    vm_compute in Hin. destruct Hin as [Hin|[]]. discriminate Hin.
Qed.

(** C7 (amended): the extractor of execute-preview/route.ts returns
    exactly the table names of the identifiers that a search from left to
    right finds behind [from] and behind [join], each search going on
    behind the occurrence found before: the keyword in any letter case
    and not behind a word character, white space, and the whole run of
    characters [a-zA-Z0-9_$.] that follows, bare or between two
    back-ticks or two double quotes; the table name is what stands behind
    the last dot, in lower case.  The extractor of chat/route.ts returns
    these and the table names of the words found before [AS alias] that
    do not begin with [select].  Every returned name is made of the
    characters [a-z0-9_$]; the example query yields sales and products in
    both files. *)
Theorem extractTableNames_names sql n :
  (In n (ExecutePreview.extractTableNames sql) ↔ named_by_keyword sql n)
  ∧ (In n (Chat.extractTableNames sql) ↔ named_by_keyword sql n ∨ named_by_alias sql n)
  ∧ (In n (Chat.extractTableNames sql) → Forall (fun c => name_char c = true) n)
  ∧ (In n (ExecutePreview.extractTableNames sql) → In n (Chat.extractTableNames sql))
  ∧ ExecutePreview.extractTableNames example_query = [js "sales"; js "products"]
  ∧ Chat.extractTableNames example_query = [js "sales"; js "products"].
Proof.
  split; [apply extract_ep_spec|]. split; [apply extract_chat_spec|].
  split; [|split; [|split; vm_compute; reflexivity]].
  - intros H. apply extract_chat_in in H
      as [(m & Hm & ->)|[(m & Hm & ->)|(m & Hm & _ & ->)]];
      apply table_of_chars.
    + exact (keyword_match_group _ _ _ Hm).
    + exact (keyword_match_group _ _ _ Hm).
    + exact (alias_match_group _ _ Hm).
  - intros H. apply extract_chat_in. apply extract_ep_in in H. tauto.
Qed.

Lemma extractTableNames_names_witness :
  In (js "sales") (ExecutePreview.extractTableNames example_query)
  ∧ In (js "sales") (Chat.extractTableNames example_query)
  ∧ named_by_keyword example_query (js "sales")
  ∧ Forall (fun c => name_char c = true) (js "sales").
Proof.
  pose proof (extractTableNames_names example_query (js "sales"))
    as (Hspec & _ & Hchars & Hsub & Hep & _).
  assert (Hin : In (js "sales") (ExecutePreview.extractTableNames example_query)).
  { rewrite Hep. by left. }
  split; [exact Hin|]. split; [exact (Hsub Hin)|].
  split; [exact (proj1 Hspec Hin)|exact (Hchars (Hsub Hin))].
Defined.
